(** * finmarketpy: signal-to-P&L backtest core

    Shallow embedding of [Backtest.calculate_trading_PnL],
    [RiskEngine.calculate_vol_adjusted_returns] and
    [RiskEngine.calculate_leverage_factor]
    (src/finmarketpy/backtest/backtestengine.py).

    Numbers are IEEE-like values over exact rationals: a float is NaN, an
    infinity or a finite rational, and NaN and infinity propagate as in
    numpy.  Zero carries no sign: a positive number divided by zero is
    +inf.  Arithmetic is exact, except for the mean that resamples the
    leverage onto the rebalance calendar: it comes after the clamp at the
    cap, so its rounding decides whether the cap bounds the result, and it
    is rounded to double precision ([binary64]). *)

From Stdlib Require Import ZArith QArith Qabs Lia Lqa.
From stdpp Require Import base option list strings gmap.

Local Open Scope Z_scope.

(** ** Floating values *)

Inductive fval : Type :=
  | NaN
  | PInf
  | NInf
  | Fin (q : Q).

Definition isnan (v : fval) : bool :=
  match v with NaN => true | _ => false end.

Definition inf_of_sign (c : comparison) : fval :=
  match c with Gt => PInf | Lt => NInf | Eq => NaN end.

Definition sgn (v : fval) : comparison :=
  match v with
  | NaN => Eq
  | PInf => Gt
  | NInf => Lt
  | Fin q => Qcompare q 0
  end.

Definition mulc (a b : comparison) : comparison :=
  match a, b with
  | Eq, _ | _, Eq => Eq
  | Gt, c => c
  | Lt, c => CompOpp c
  end.

Definition fneg (v : fval) : fval :=
  match v with
  | NaN => NaN
  | PInf => NInf
  | NInf => PInf
  | Fin q => Fin (- q)
  end.

Definition fadd (a b : fval) : fval :=
  match a, b with
  | NaN, _ | _, NaN => NaN
  | PInf, NInf | NInf, PInf => NaN
  | PInf, _ | _, PInf => PInf
  | NInf, _ | _, NInf => NInf
  | Fin x, Fin y => Fin (x + y)
  end.

Definition fsub (a b : fval) : fval := fadd a (fneg b).

Definition fmul (a b : fval) : fval :=
  match a, b with
  | NaN, _ | _, NaN => NaN
  | Fin x, Fin y => Fin (x * y)
  | _, _ => inf_of_sign (mulc (sgn a) (sgn b))
  end.

(** numpy float division: [x / 0] is an infinity of the sign of [x], [0 / 0]
    is NaN, and nothing raises. *)
Definition fdiv (a b : fval) : fval :=
  match a, b with
  | NaN, _ | _, NaN => NaN
  | Fin x, Fin y => if Qeq_bool y 0 then inf_of_sign (sgn a) else Fin (x / y)
  | Fin _, _ => Fin 0
  | _, Fin y => if Qeq_bool y 0 then a else inf_of_sign (mulc (sgn a) (sgn b))
  | _, _ => NaN
  end.

Definition fabs (v : fval) : fval :=
  match v with
  | NaN => NaN
  | PInf | NInf => PInf
  | Fin q => Fin (Qabs q)
  end.

(** [a > b] as numpy evaluates it: false whenever a NaN is involved. *)
Definition fgt (a b : fval) : bool :=
  match a, b with
  | NaN, _ | _, NaN => false
  | PInf, PInf => false
  | PInf, _ => true
  | _, PInf => false
  | NInf, _ => false
  | _, NInf => true
  | Fin x, Fin y => negb (Qle_bool x y)
  end.

(** Equality of values up to the representation of the rational. *)
Definition feq (a b : fval) : Prop :=
  match a, b with
  | NaN, NaN | PInf, PInf | NInf, NInf => True
  | Fin x, Fin y => Qeq x y
  | _, _ => False
  end.

Definition feqb (a b : fval) : bool :=
  match a, b with
  | NaN, NaN | PInf, PInf | NInf, NInf => true
  | Fin x, Fin y => Qeq_bool x y
  | _, _ => false
  end.

(** A value is within [[lo, hi]]: finite and between the bounds. *)
Definition in_range (lo hi : Q) (v : fval) : Prop :=
  match v with
  | Fin q => (lo <= q)%Q /\ (q <= hi)%Q
  | _ => False
  end.

(** ** Python values held by the attributes of a request object *)

Inductive pyval : Type :=
  | VNone
  | VBool (b : bool)
  | VInt (z : Z)
  | VFloat (f : fval)
  | VStr (s : string).

Inductive exn : Type :=
  | AttributeError (name : string)
  | UnboundLocalError (name : string)
  | TypeError
  | ValueError
  | IndexError.

(** Use of a Python value as a float operand. *)
Definition as_float (v : pyval) : exn + fval :=
  match v with
  | VBool b => inr (Fin (if b then 1 else 0))
  | VInt z => inr (Fin (inject_Z z))
  | VFloat f => inr f
  | VNone | VStr _ => inl TypeError
  end.

(** Use of a Python value as a rolling window length or as a slice bound:
    pandas wants a non-negative integer. *)
Definition as_window (v : pyval) : exn + nat :=
  match v with
  | VInt z => if 0 <=? z then inr (Z.to_nat z) else inl ValueError
  | _ => inl ValueError
  end.

Definition is_True (v : pyval) : bool :=
  match v with VBool true => true | _ => false end.

Definition is_None (v : pyval) : bool :=
  match v with VNone => true | _ => false end.

Definition eq_str (v : pyval) (s : string) : bool :=
  match v with VStr s' => bool_decide (s' = s) | _ => false end.

(** ** Data frames

    A frame has an index of observation dates (day ordinals) and labelled
    columns, each column holding one value per index entry.  Column labels
    are strings. *)

Definition date := Z.

Record DataFrame : Type := mkFrame {
  index : list date;
  cols : list (string * list fval)
}.

Definition columns (df : DataFrame) : list string := (cols df).*1.
Definition coldata (df : DataFrame) : list (list fval) := (cols df).*2.

Definition wf_frame (df : DataFrame) : Prop :=
  Forall (fun c => length c = length (index df)) (coldata df).

(** Cell of column [j] at row [t]. *)
Definition cell (df : DataFrame) (j t : nat) : option fval :=
  coldata df !! j ≫= fun c => c !! t.

(** A numpy array of shape [(arr_rows, length arr_cols)], stored by column. *)
Record ndarray (A : Type) : Type := mkArr {
  arr_rows : nat;
  arr_cols : list (list A)
}.
Arguments mkArr {A} _ _.
Arguments arr_rows {A} _.
Arguments arr_cols {A} _.

Definition shape {A} (a : ndarray A) : nat * nat :=
  (arr_rows a, length (arr_cols a)).

Definition df_values (df : DataFrame) : ndarray fval :=
  mkArr (length (index df)) (coldata df).

Definition df_shape (df : DataFrame) : nat * nat := shape (df_values df).

(** [pandas.DataFrame(data, index=..., columns=...)]: the data must have the
    shape announced by the two axes. *)
Definition new_frame (data : ndarray fval) (idx : list date)
    (names : list string) : exn + DataFrame :=
  if bool_decide (shape data = (length idx, length names))
  then inr (mkFrame idx (zip names (arr_cols data)))
  else inl ValueError.

(** [df.columns = names]: the new labels must be as many as the columns. *)
Definition set_columns (df : DataFrame) (names : list string) : exn + DataFrame :=
  if bool_decide (length names = length (cols df))
  then inr (mkFrame (index df) (zip names (coldata df)))
  else inl ValueError.

(** numpy broadcasting of one axis. *)
Definition bdim (m n : nat) : option nat :=
  if bool_decide (m = n) then Some m
  else if bool_decide (m = 1%nat) then Some n
  else if bool_decide (n = 1%nat) then Some m
  else None.

Definition stretch {A} (d : A) (n : nat) (l : list A) : list A :=
  if bool_decide (length l = n) then l else replicate n (hd d l).

Definition np_binop (f : fval -> fval -> fval) (a b : ndarray fval)
    : exn + ndarray fval :=
  match bdim (arr_rows a) (arr_rows b),
        bdim (length (arr_cols a)) (length (arr_cols b)) with
  | Some T, Some N =>
      inr (mkArr T
             (zip_with (zip_with f)
                (stretch NaN T <$> stretch [] N (arr_cols a))
                (stretch NaN T <$> stretch [] N (arr_cols b))))
  | _, _ => inl ValueError
  end.

Definition np_isnan (a : ndarray fval) : ndarray bool :=
  mkArr (arr_rows a) (map isnan <$> arr_cols a).

Definition np_ones (n : nat) : ndarray fval :=
  mkArr n [replicate n (Fin 1)].

(** [a.flatten()[numpy.newaxis, :]] repeated [n] times along axis 0 and then
    transposed: every one of the [n] columns is the flattened array.  The
    flattening is row by row. *)
Fixpoint transpose_rows {A} (T : nat) (cs : list (list A)) : list (list A) :=
  match T with
  | O => []
  | S T' => omap head cs :: transpose_rows T' (tail <$> cs)
  end.

Definition np_flatten {A} (a : ndarray A) : list A :=
  concat (transpose_rows (arr_rows a) (arr_cols a)).

Definition np_repeat_T (a : ndarray fval) (n : nat) : ndarray fval :=
  mkArr (length (np_flatten a)) (replicate n (np_flatten a)).

(** ** Column operations of pandas *)

(** [fillna(method='ffill')] down one column. *)
Fixpoint ffill_from (last : fval) (l : list fval) : list fval :=
  match l with
  | [] => []
  | x :: l' =>
      let y := if isnan x then last else x in
      y :: ffill_from y l'
  end.

Definition ffill (l : list fval) : list fval := ffill_from NaN l.

(** [shift(n)] of one column: values move [n] rows down ([n >= 0]) or up, and
    the vacated rows hold NaN. *)
Definition shift (n : Z) (l : list fval) : list fval :=
  if 0 <=? n
  then take (length l) (replicate (Z.to_nat n) NaN ++ l)
  else drop (Z.to_nat (- n)) l
       ++ replicate (Nat.min (Z.to_nat (- n)) (length l)) NaN.

Definition map_cols (f : list fval -> list fval) (df : DataFrame) : DataFrame :=
  mkFrame (index df) (prod_map id f <$> cols df).

Definition fillna_ffill (df : DataFrame) : DataFrame := map_cols ffill df.

Definition df_shift (n : Z) (df : DataFrame) : DataFrame := map_cols (shift n) df.

(** Position of the first occurrence of a label in an index. *)
Fixpoint index_of (d : date) (idx : list date) : option nat :=
  match idx with
  | [] => None
  | d' :: idx' => if bool_decide (d' = d) then Some O else S <$> index_of d idx'
  end.

(** [reindex]: the rows of [df] at the labels [idx]; a label [df] does not
    have gives a row of NaN.  Index labels are taken to be unique, as
    observation dates are. *)
Definition reindex_col (src idx : list date) (c : list fval) : list fval :=
  (fun d => default NaN (index_of d src ≫= fun i => c !! i)) <$> idx.

Definition reindex (idx : list date) (df : DataFrame) : DataFrame :=
  mkFrame idx (prod_map id (reindex_col (index df) idx) <$> cols df).

(** [left.align(right, join='left', axis=0)]: both frames come back as new
    objects on the index of [left]; columns are not aligned. *)
Definition align_left (left right : DataFrame) : DataFrame * DataFrame :=
  (left, reindex (index left) right).

(** [df.mask(cond)] with an array condition: NaN where the condition holds.
    pandas refuses a condition whose shape is not that of the frame. *)
Definition mask_col (c : list fval) (b : list bool) : list fval :=
  zip_with (fun x (m : bool) => if m then NaN else x) c b.

Definition df_mask (df : DataFrame) (cond : ndarray bool) : exn + DataFrame :=
  if bool_decide (shape cond = df_shape df)
  then inr (mkFrame (index df)
              (zip_with (fun nc b => (nc.1, mask_col nc.2 b)) (cols df) (arr_cols cond)))
  else inl ValueError.

(** Row aggregates [df.sum(axis=1)] and [df.mean(axis=1)]: NaN cells are
    skipped, and a row without any number gives NaN (for the sum, as in the
    versions of pandas that still have [.ix]). *)
Definition row (df : DataFrame) (t : nat) : list fval :=
  omap (fun c => c !! t) (coldata df).

Definition not_nan (l : list fval) : list fval :=
  filter (fun v => isnan v = false) l.

Definition fsum (l : list fval) : fval := foldr fadd (Fin 0) l.

Definition nansum (l : list fval) : fval :=
  match not_nan l with
  | [] => NaN
  | l' => fsum l'
  end.

Definition nanmean (l : list fval) : fval :=
  match not_nan l with
  | [] => NaN
  | l' => fdiv (fsum l') (Fin (inject_Z (Z.of_nat (length l'))))
  end.

Definition row_agg (agg : list fval -> fval) (df : DataFrame) : list fval :=
  (fun t => agg (row df t)) <$> seq 0 (length (index df)).

(** [pandas.DataFrame(data=series, index=df.index, columns=[name])] for a
    series computed row by row from [df]. *)
Definition frame_of_series (df : DataFrame) (name : string) (s : list fval)
    : DataFrame :=
  mkFrame (index df) [(name, s)].

(** [df * scalar], [scalar / df], [df / scalar]. *)
Definition df_scalar_op (f : fval -> fval) (df : DataFrame) : DataFrame :=
  map_cols (map f) df.

(** [df[df > x] = x], in place on [df]. *)
Definition clamp_above (x : fval) (df : DataFrame) : DataFrame :=
  df_scalar_op (fun v => if fgt v x then x else v) df.

(** [df.ix[0:n] = numpy.nan] on a frame indexed by dates: the integer slice
    is positional, and the first [n] rows become NaN in every column. *)
Definition blank_head (n : nat) (c : list fval) : list fval :=
  replicate (Nat.min n (length c)) NaN ++ drop n c.

Definition ix_set_nan (n : nat) (df : DataFrame) : DataFrame :=
  map_cols (blank_head n) df.

(** ** The time-series helpers of findatapy

    [Calculations] and [Filter] belong to the findatapy package, which the
    backtest imports; the definitions below follow the description of these
    helpers in the specification. *)

(** Modelled from the spec: [Calculations.calculate_returns] (findatapy) is
    the simple period-over-period percentage change of each column; the
    first observation's return is NaN. *)
Definition pct_change (c : list fval) : list fval :=
  zip_with (fun x p => fsub (fdiv x p) (Fin 1)) c (shift 1 c).

Definition calculate_returns (df : DataFrame) : DataFrame := map_cols pct_change df.

(** Modelled from the spec: [Calculations.calculate_signal_returns_with_tc_matrix]
    (findatapy).  For each column the realised return at [t] is the position
    of the previous period times the return at [t], minus
    [tc * |position(t) - position(t-1)|]; the first observation has no prior
    position and is NaN.  Columns pair by position, and frames of different
    shapes are reported as an error.  The result carries the index and the
    labels of the returns frame. *)
Definition signal_returns_col (tc : fval) (pos ret : list fval) : list fval :=
  zip_with (fun pr p => fsub (fmul pr.1 pr.2) (fmul tc (fabs (fsub p pr.1))))
    (zip (shift 1 pos) ret) pos.

Definition calculate_signal_returns_with_tc_matrix
    (signal_df returns_df : DataFrame) (tc : fval) : exn + DataFrame :=
  if bool_decide (df_shape signal_df = df_shape returns_df)
  then inr (mkFrame (index returns_df)
              (zip_with (fun s r => (r.1, signal_returns_col tc s.2 r.2))
                 (cols signal_df) (cols returns_df)))
  else inl ValueError.

(** Modelled from the spec: [Calculations.create_mult_index] (findatapy).
    [index(t) = index(t-1) * (1 + pnl(t))] from the base value 1; a NaN
    return does not advance the index. *)
Fixpoint mult_index_from (base : fval) (c : list fval) : list fval :=
  match c with
  | [] => []
  | r :: c' =>
      let v := if isnan r then base else fmul base (fadd (Fin 1) r) in
      v :: mult_index_from v c'
  end.

Definition create_mult_index (df : DataFrame) : DataFrame :=
  map_cols (mult_index_from (Fin 1)) df.

(** The statistics collaborator [RetStats] only receives a series and an
    annualisation factor; what it computes is outside the core. *)
Record RetStats : Type := mkRetStats {
  rs_returns : DataFrame;
  rs_ann_factor : pyval
}.

Definition calculate_ret_stats (df : DataFrame) (ann_factor : pyval) : RetStats :=
  mkRetStats df ann_factor.

(** ** Double precision *)

(** [m / d] rounded to the nearest integer, a half to the even neighbour. *)
Definition round_half_even (m d : Z) : Z :=
  let q := m / d in
  match 2 * (m mod d) ?= d with
  | Lt => q
  | Gt => q + 1
  | Eq => if Z.even q then q else q + 1
  end.

(** The double nearest to the positive rational [m / d]: 53 significant
    bits, a smallest exponent of -1074 (subnormal numbers), and infinity
    from [2 ^ 1024] on. *)
Definition binary64_pos (m d : Z) : fval :=
  let e0 := Z.log2 m - Z.log2 d in
  let e := if (if 0 <=? e0 then d * 2 ^ e0 <=? m else d <=? m * 2 ^ (- e0))
           then e0 else e0 - 1 in
  let qe := Z.max (e - 52) (-1074) in
  if 0 <=? qe
  then let k := round_half_even m (d * 2 ^ qe) * 2 ^ qe in
       if 2 ^ 1024 <=? k then PInf else Fin (inject_Z k)
  else Fin (round_half_even (m * 2 ^ (- qe)) d # Z.to_pos (2 ^ (- qe))).

Definition binary64 (q : Q) : fval :=
  match Qnum q with
  | Z0 => Fin 0
  | Zpos m => binary64_pos (Zpos m) (Zpos (Qden q))
  | Zneg m => fneg (binary64_pos (Zpos m) (Zpos (Qden q)))
  end.

(** The result of an operation as it is stored in a double. *)
Definition fround (v : fval) : fval :=
  match v with Fin q => binary64 q | _ => v end.

(** The mean of the numbers of a bin in double precision: they are added
    up from the first one on, every partial sum being rounded, and the sum
    is divided by their count. *)
Definition fp_mean (l : list fval) : fval :=
  match not_nan l with
  | [] => NaN
  | l' => fround (fdiv (foldl (fun s x => fround (fadd s x)) (Fin 0) l')
                       (Fin (inject_Z (Z.of_nat (length l')))))
  end.

(** How [Filter.resample_time_series_frequency] aggregates a bin. *)
Definition first_valid (l : list fval) : fval := default NaN (head (not_nan l)).
Definition last_valid (l : list fval) : fval := default NaN (last (not_nan l)).

Definition resample_agg (ty : pyval) : option (list fval -> fval) :=
  if eq_str ty "mean" then Some fp_mean
  else if eq_str ty "first" then Some first_valid
  else if eq_str ty "last" then Some last_valid
  else None.

(** Labels of the (non-empty) bins of an index, in order of appearance. *)
Definition bin_labels (bin : date -> date) (idx : list date) : list date :=
  remove_dups (bin <$> idx).

(** Values of a column whose dates fall into the bin labelled [lab]. *)
Definition bin_values (bin : date -> date) (idx : list date) (c : list fval)
    (lab : date) : list fval :=
  (filter (fun dv => bin dv.1 = lab) (zip idx c)).*2.

Definition resample_col (bin : date -> date) (agg : list fval -> fval)
    (idx : list date) (c : list fval) : list fval :=
  (fun lab => agg (bin_values bin idx c lab)) <$> bin_labels bin idx.

(** The attribute dictionary of a request object. *)
Abbreviation config := (gmap string pyval).

Section Engine.

(** The square root of the floating-point library, on non-negative
    rationals. *)
Variable sqrtQ : Q -> Q.

(** pandas' table of offset aliases ('BM', 'W', ...): the calendar an alias
    names sends every date to the label of the bin it falls into. *)
Variable freq_bins : string -> option (date -> date).

(** [numpy.sqrt]: NaN for a negative number. *)
Definition np_sqrt (v : fval) : fval :=
  match v with
  | NaN | NInf => NaN
  | PInf => PInf
  | Fin q => if Qle_bool 0 q then Fin (sqrtQ q) else NaN
  end.

(** [math.sqrt]: a negative number is a domain error. *)
Definition math_sqrt (v : fval) : exn + fval :=
  match v with
  | NaN => inr NaN
  | PInf => inr PInf
  | NInf => inl ValueError
  | Fin q => if Qle_bool 0 q then inr (Fin (sqrtQ q)) else inl ValueError
  end.

(** Sample variance of a full window. *)
Definition fmean (w : list fval) : fval :=
  fdiv (fsum w) (Fin (inject_Z (Z.of_nat (length w)))).

Definition sample_var (w : list fval) : fval :=
  match length w with
  | O | S O => NaN
  | S n =>
      fdiv (fsum ((fun x => fmul (fsub x (fmean w)) (fsub x (fmean w))) <$> w))
           (Fin (inject_Z (Z.of_nat n)))
  end.

(** Trailing window of [periods] observations ending at row [t]; there is
    none before the window is full. *)
Definition window (periods : nat) (c : list fval) (t : nat) : option (list fval) :=
  if bool_decide (periods <= S t)%nat
  then Some (take periods (drop (S t - periods) c))
  else None.

Definition rolling_std_col (periods : nat) (c : list fval) : list fval :=
  (fun t => match window periods c t with
            | Some w => np_sqrt (sample_var w)
            | None => NaN
            end) <$> seq 0 (length c).

(** Modelled from the spec: [Calculations.rolling_volatility] (findatapy) is
    the rolling standard deviation of the returns over a trailing window of
    [periods] observations, annualised by [sqrt(obs_in_year)]. *)
Definition rolling_volatility (df : DataFrame) (periods : nat) (ann : fval)
    : DataFrame :=
  map_cols (fun c => (fun v => fmul v ann) <$> rolling_std_col periods c) df.

(** Modelled from the spec: [Filter.resample_time_series_frequency]
    (findatapy) aggregates the observations of every bin of the rebalance
    calendar into one value, labelled by the bin; an aggregation other than
    the mean, the first or the last value is not implemented and gives
    [None].  Bins without observations are left out: they would hold NaN. *)
Definition resample_time_series_frequency (df : DataFrame) (bin : date -> date)
    (data_resample_type : pyval) : option DataFrame :=
  agg ← resample_agg data_resample_type;
  Some (mkFrame (bin_labels bin (index df))
          (prod_map id (resample_col bin agg (index df)) <$> cols df)).

Definition as_freq (v : pyval) : exn + (date -> date) :=
  match v with
  | VStr s => match freq_bins s with Some b => inr b | None => inl ValueError end
  | _ => inl ValueError
  end.

(** ** Errors and the request object

    A Python call either returns or raises.  The request object [br] is
    owned by the caller and may gain attributes during a call, so the
    functions that receive it thread its attribute dictionary. *)

#[export] Instance exn_ret : MRet (sum exn) := fun A x => inr x.
#[export] Instance exn_bind : MBind (sum exn) := fun A B k m =>
  match m with inl e => inl e | inr a => k a end.

Definition M (A : Type) : Type := config -> (exn + A) * config.

#[export] Instance M_ret : MRet M := fun A x br => (inr x, br).
#[export] Instance M_bind : MBind M := fun A B k m br =>
  match m br with
  | (inl e, br') => (inl e, br')
  | (inr a, br') => k a br'
  end.

Definition lift {A} (r : exn + A) : M A := fun br => (r, br).
Definition throw {A} (e : exn) : M A := lift (inl e).

Definition hasattr (name : string) : M bool :=
  fun br => (inr (bool_decide (is_Some (br !! name))), br).

Definition getattr (name : string) : M pyval :=
  fun br => match br !! name with
            | Some v => (inr v, br)
            | None => (inl (AttributeError name), br)
            end.

Definition setattr (name : string) (v : pyval) : M unit :=
  fun br => (inr tt, <[name := v]> br).

(** A local variable that an earlier branch may have left unbound. *)
Definition read_local {A} (name : string) (v : option A) : exn + A :=
  match v with Some a => inr a | None => inl (UnboundLocalError name) end.

(** ** RiskEngine.calculate_leverage_factor *)

Definition calculate_leverage_factor (returns_df : DataFrame)
    (vol_target vol_max_leverage vol_periods vol_obs_in_year
     vol_rebalance_freq data_resample_freq data_resample_type : pyval)
    (returns : bool) (period_shift : Z) : exn + option DataFrame :=
  if negb (is_None data_resample_freq) then inr None
  else
    let returns_df := if returns then returns_df else calculate_returns returns_df in
    periods ← as_window vol_periods;
    ann ← as_float vol_obs_in_year ≫= math_sqrt;
    let roll_vol_df :=
      df_shift period_shift (rolling_volatility returns_df periods ann) in
    vt ← as_float vol_target;
    let lev_df := df_scalar_op (fun v => fdiv vt v) roll_vol_df in
    ml ← as_float vol_max_leverage;
    let lev_df := clamp_above ml lev_df in
    bin ← as_freq vol_rebalance_freq;
    match resample_time_series_frequency lev_df bin data_resample_type with
    | None => inl TypeError
    | Some lev_df =>
        let '(returns_df, lev_df) := align_left returns_df lev_df in
        let lev_df := fillna_ffill lev_df in
        inr (Some (ix_set_nan periods lev_df))
    end.

(** ** RiskEngine.calculate_vol_adjusted_returns *)

Definition set_default (name : string) (v : pyval) : M unit :=
  has ← hasattr name;
  if (has : bool) then mret tt else setattr name v.

Definition calculate_vol_adjusted_returns (returns_df : DataFrame) (returns : bool)
    : M (DataFrame * DataFrame) :=
  let returns_df := if returns then returns_df else calculate_returns returns_df in
  set_default "portfolio_vol_resample_type" (VStr "mean");;
  set_default "portfolio_vol_resample_freq" VNone;;
  a1 ← getattr "portfolio_vol_target";
  a2 ← getattr "portfolio_vol_max_leverage";
  a3 ← getattr "portfolio_vol_periods";
  a4 ← getattr "portfolio_vol_obs_in_year";
  a5 ← getattr "portfolio_vol_rebalance_freq";
  a6 ← getattr "portfolio_vol_resample_freq";
  a7 ← getattr "portfolio_vol_resample_type";
  leverage_df ← lift (calculate_leverage_factor returns_df a1 a2 a3 a4 a5 a6 a7 true 0);
  tc ← getattr "spot_tc_bp";
  match leverage_df with
  | None => throw (AttributeError "shift")
  | Some leverage_df =>
      vol_returns_df ← lift (as_float tc ≫=
        calculate_signal_returns_with_tc_matrix leverage_df returns_df);
      vol_returns_df ← lift (set_columns vol_returns_df (columns returns_df));
      mret (vol_returns_df, leverage_df)
  end.

(** ** Backtest.calculate_trading_PnL *)

(** What the call leaves in the attributes of the engine. *)
Record BacktestResult : Type := mkResult {
  _pnl : DataFrame;
  _portfolio : DataFrame;
  _signal : DataFrame;
  _portfolio_leverage : DataFrame;
  _portfolio_signal : DataFrame;
  _individual_leverage : option DataFrame;
  _pnl_trades : option DataFrame;
  _ret_stats_pnl : RetStats;
  _ret_stats_portfolio : RetStats;
  _cumpnl : DataFrame;
  _cumportfolio : DataFrame
}.

(** The loop that builds the labels ["<asset> / <signal>"]. *)
Fixpoint make_pnl_cols (returns_cols signal_cols : list string)
    : exn + list string :=
  match returns_cols with
  | [] => inr []
  | r :: returns_cols' =>
      match signal_cols with
      | [] => inl IndexError
      | s :: signal_cols' =>
          rest ← make_pnl_cols returns_cols' signal_cols';
          inr ((r +:+ " / " +:+ s) :: rest)
      end
  end.

Definition portfolio_of (agg : list fval -> fval) (pnl : DataFrame) : DataFrame :=
  frame_of_series pnl "Portfolio" (row_agg agg pnl).

(** Lines 72-91, "do we have a vol target for individual signals?": the
    signal scaled by the leverage of each asset, and that leverage. *)
Definition vol_target_signals (returns_df signal_df : DataFrame)
    : M (DataFrame * option DataFrame) :=
  has ← hasattr "signal_vol_adjust";
  if (has : bool) then
    adj ← getattr "signal_vol_adjust";
    if is_True adj then
      set_default "signal_vol_resample_type" (VStr "mean");;
      set_default "signal_vol_resample_freq" VNone;;
      a1 ← getattr "signal_vol_target";
      a2 ← getattr "signal_vol_max_leverage";
      a3 ← getattr "signal_vol_periods";
      a4 ← getattr "signal_vol_obs_in_year";
      a5 ← getattr "signal_vol_rebalance_freq";
      a6 ← getattr "signal_vol_resample_freq";
      a7 ← getattr "signal_vol_resample_type";
      leverage_df ← lift (calculate_leverage_factor returns_df a1 a2 a3 a4 a5 a6 a7 true 0);
      match leverage_df with
      | None => throw (AttributeError "values")
      | Some leverage_df =>
          signal_df ← lift (
            data ← np_binop fmul (df_values signal_df) (df_values leverage_df);
            new_frame data (index signal_df) (columns signal_df));
          mret (signal_df, Some leverage_df)
      end
    else mret (signal_df, None)
  else mret (signal_df, None).

(** Lines 96-103, "should we sum them or average them?": after an
    unrecognised value of the attribute the local [portfolio] is unbound. *)
Definition combine_portfolio (pnl : DataFrame) : M (option DataFrame) :=
  has ← hasattr "portfolio_combination";
  if (has : bool) then
    pc ← getattr "portfolio_combination";
    if eq_str pc "sum" then mret (Some (portfolio_of nansum pnl))
    else if eq_str pc "mean" then mret (Some (portfolio_of nanmean pnl))
    else mret None
  else mret (Some (portfolio_of nanmean pnl)).

(** Lines 108-113, "should we apply vol target on a portfolio level basis?" *)
Definition vol_target_portfolio (portfolio : option DataFrame)
    (portfolio_leverage_df : DataFrame) : M (option DataFrame * DataFrame) :=
  has ← hasattr "portfolio_vol_adjust";
  if (has : bool) then
    adj ← getattr "portfolio_vol_adjust";
    if is_True adj then
      p ← lift (read_local "portfolio" portfolio);
      '(p, l) ← calculate_vol_adjusted_returns p true;
      mret (Some p, l)
    else mret (portfolio, portfolio_leverage_df)
  else mret (portfolio, portfolio_leverage_df).

(** Lines 128-134: the final signal is divided by the number of assets when
    the portfolio is an average. *)
Definition scale_portfolio_signal (portfolio_signal : DataFrame) (length_cols : nat)
    : M DataFrame :=
  let scaled :=
    df_scalar_op (fun v => fdiv v (Fin (inject_Z (Z.of_nat length_cols))))
      portfolio_signal in
  has ← hasattr "portfolio_combination";
  if (has : bool) then
    pc ← getattr "portfolio_combination";
    if eq_str pc "sum" then mret portfolio_signal
    else if eq_str pc "mean" then mret scaled
    else mret portfolio_signal
  else mret scaled.

Definition calculate_trading_PnL (asset_a_df signal_df : DataFrame)
    : M BacktestResult :=
  let '(asset_df, signal_df) := align_left asset_a_df signal_df in
  signal_df ← lift (df_mask signal_df (np_isnan (df_values asset_df)));
  let signal_df := fillna_ffill signal_df in
  let asset_df := fillna_ffill asset_df in
  let returns_df := calculate_returns asset_df in
  tc ← getattr "spot_tc_bp";
  pnl_cols ← lift (make_pnl_cols (columns returns_df) (columns signal_df));
  '(signal_df, individual_leverage) ← vol_target_signals returns_df signal_df;
  pnl ← lift (as_float tc ≫=
    calculate_signal_returns_with_tc_matrix signal_df returns_df);
  pnl ← lift (set_columns pnl pnl_cols);
  portfolio ← combine_portfolio pnl;
  portfolio_leverage_df ← lift (
    new_frame (np_ones (length (index pnl))) (index pnl) ["Portfolio"]);
  '(portfolio, portfolio_leverage_df) ←
    vol_target_portfolio portfolio portfolio_leverage_df;
  portfolio ← lift (read_local "portfolio" portfolio);
  let length_cols := length (columns signal_df) in
  let leverage_matrix_T := np_repeat_T (df_values portfolio_leverage_df) length_cols in
  portfolio_signal ← lift (
    data ← np_binop fmul leverage_matrix_T (df_values signal_df);
    new_frame data (index signal_df) (columns signal_df));
  portfolio_signal ← scale_portfolio_signal portfolio_signal length_cols;
  ann ← getattr "ann_factor";
  let ret_stats_pnl := calculate_ret_stats pnl ann in
  portfolio ← lift (set_columns portfolio ["Port"]);
  let ret_stats_portfolio := calculate_ret_stats portfolio ann in
  cumpnl ← lift (set_columns (create_mult_index pnl) pnl_cols);
  cumportfolio ← lift (set_columns (create_mult_index portfolio) ["Port"]);
  mret (mkResult pnl portfolio signal_df portfolio_leverage_df portfolio_signal
          individual_leverage None ret_stats_pnl ret_stats_portfolio
          cumpnl cumportfolio).

End Engine.

(** ** A concrete square root and calendar table

    Dates are days since 1970-01-01.  The square root is taken to six
    decimal places. *)

Definition sqrt_approx (q : Q) : Q :=
  Qmake (Z.sqrt (Qnum q * 10 ^ 12 / Zpos (Qden q))) (10 ^ 6).

(** Civil date of a day number, and back (proleptic Gregorian calendar). *)
Definition civil_from_days (z : Z) : Z * Z * Z :=
  let z := z + 719468 in
  let era := z / 146097 in
  let doe := z - era * 146097 in
  let yoe := (doe - doe / 1460 + doe / 36524 - doe / 146096) / 365 in
  let doy := doe - (365 * yoe + yoe / 4 - yoe / 100) in
  let mp := (5 * doy + 2) / 153 in
  let d := doy - (153 * mp + 2) / 5 + 1 in
  let m := if mp <? 10 then mp + 3 else mp - 9 in
  (yoe + era * 400 + (if m <=? 2 then 1 else 0), m, d).

Definition days_from_civil (y m d : Z) : Z :=
  let y := if m <=? 2 then y - 1 else y in
  let era := y / 400 in
  let yoe := y - era * 400 in
  let doy := (153 * (if 2 <? m then m - 3 else m + 9) + 2) / 5 + d - 1 in
  let doe := yoe * 365 + yoe / 4 - yoe / 100 + doy in
  era * 146097 + doe - 719468.

(** Monday is 0; 1970-01-01 was a Thursday. *)
Definition weekday (z : Z) : Z := (z + 3) mod 7.

(** Last business day of the month [m] of year [y]. *)
Definition business_month_end (y m : Z) : Z :=
  let last := (if m =? 12 then days_from_civil (y + 1) 1 1
               else days_from_civil y (m + 1) 1) - 1 in
  if weekday last =? 5 then last - 1
  else if weekday last =? 6 then last - 2
  else last.

(** 'BM': bins close on the last business day of each month. *)
Definition bin_BM (z : Z) : Z :=
  let '(y, m, _) := civil_from_days z in
  let e := business_month_end y m in
  if z <=? e then e
  else if m =? 12 then business_month_end (y + 1) 1
  else business_month_end y (m + 1).

(** 'W': bins close on Sundays. *)
Definition bin_W (z : Z) : Z := z + (6 - weekday z).

(** 'D': one bin per day. *)
Definition bin_D (z : Z) : Z := z.

Definition offset_aliases (s : string) : option (date -> date) :=
  if bool_decide (s = "BM") then Some bin_BM
  else if bool_decide (s = "W") then Some bin_W
  else if bool_decide (s = "D") then Some bin_D
  else None.

(** ** Notions used in the statements *)

(** What [calculate_leverage_factor] computes for one column, once its
    arguments are read. *)
Definition leverage_col (sqrtQ : Q -> Q) (idx : list date) (n : nat) (ann vt ml : fval)
    (bin : date -> date) (agg : list fval -> fval) (ps : Z) (c : list fval)
    : list fval :=
  blank_head n (ffill (reindex_col (bin_labels bin idx) idx
    (resample_col bin agg idx
       ((fun v => if fgt v ml then ml else v) <$>
          ((fun v => fdiv vt v) <$>
             shift ps ((fun v => fmul v ann) <$> rolling_std_col sqrtQ n c)))))).


(** A volatility estimate: NaN, +inf or a non-negative number. *)
Definition vol_like (v : fval) : Prop :=
  match v with NaN | PInf => True | Fin q => (0 <= q)%Q | NInf => False end.

(** A leverage value that is NaN or lies in [[0, m]]. *)
Definition bounded (m : Q) (v : fval) : Prop := v = NaN \/ in_range 0 m v.

(** A number that is not negative: +inf or a non-negative rational. *)
Definition nonneg (v : fval) : Prop :=
  match v with PInf => True | Fin q => (0 <= q)%Q | _ => False end.

(** The double nearest to 0.1. *)
Definition tenth : Q := 3602879701896397 # 36028797018963968.

(** A double so large that twice it is not one. *)
Definition huge : Q := inject_Z (2 ^ 1023).

(** NaN, or the aggregate of one or more copies of [x]. *)
Definition copies_of (agg : list fval -> fval) (x v : fval) : Prop :=
  v = NaN \/ exists k, v = agg (replicate (S k) x).

(** A volatility estimate of a series that does not move: NaN or zero. *)
Definition zero_or_nan (v : fval) : Prop :=
  match v with NaN => True | Fin z => (z == 0)%Q | _ => False end.

(** NaN or the very value [x]. *)
Definition nan_or (x v : fval) : Prop := v = NaN \/ v = x.

(** The leverage before resampling, for one column. *)
Definition raw_leverage_col (sqrtQ : Q -> Q) (n : nat) (ann vt ml : fval) (ps : Z)
    (c : list fval) : list fval :=
  (fun v => if fgt v ml then ml else v) <$>
    ((fun v => fdiv vt v) <$>
       shift ps ((fun v => fmul v ann) <$> rolling_std_col sqrtQ n c)).

(** An integer as a floating value. *)
Definition F (z : Z) : fval := Fin (inject_Z z).

(** Ten daily observations of a return that does not move, from Monday
    1970-01-05 on. *)
Definition flat_returns : DataFrame :=
  mkFrame [4; 5; 6; 7; 8; 9; 10; 11; 12; 13] [("A", replicate 10 (Fin 0))].

(** The attributes of the request other than those in [K] are as before. *)
Definition unchanged_but (K : list string) (br br' : config) : Prop :=
  forall k, k ∉ K -> br' !! k = br !! k.

(** [hasattr(br, name)] and [br.name is True]. *)
Definition flag_on (name : string) (br : config) : bool :=
  match br !! name with Some v => is_True v | None => false end.

(** The row aggregate selected by [portfolio_combination], if any. *)
Definition combination (br : config) : option (list fval -> fval) :=
  match br !! "portfolio_combination" with
  | None => Some nanmean
  | Some pc =>
      if eq_str pc "sum" then Some nansum
      else if eq_str pc "mean" then Some nanmean
      else None
  end.

(** Whether the final signal is divided by the number of assets. *)
Definition averaged (br : config) : bool :=
  match br !! "portfolio_combination" with
  | None => true
  | Some pc => if eq_str pc "sum" then false else eq_str pc "mean"
  end.

(** A frame of [T] rows and [N] columns, every column with one value per
    row. *)
Definition has_shape (T N : nat) (df : DataFrame) : Prop :=
  length (index df) = T /\ length (coldata df) = N /\
  Forall (fun c => length c = T) (coldata df).

#[export] Instance Q_eq_dec : EqDecision Q.
Proof. solve_decision. Defined.

#[export] Instance fval_eq_dec : EqDecision fval.
Proof. solve_decision. Defined.

#[export] Instance pyval_eq_dec : EqDecision pyval.
Proof. solve_decision. Defined.

#[export] Instance exn_eq_dec : EqDecision exn.
Proof. solve_decision. Defined.

#[export] Instance DataFrame_eq_dec : EqDecision DataFrame.
Proof. solve_decision. Defined.

#[export] Instance RetStats_eq_dec : EqDecision RetStats.
Proof. solve_decision. Defined.

#[export] Instance BacktestResult_eq_dec : EqDecision BacktestResult.
Proof. solve_decision. Defined.

(** Two assets over the five trading days from Monday 1970-01-05, with a
    constant long signal. *)
Definition prices_two : DataFrame :=
  mkFrame [4; 5; 6; 7; 8]
    [("A", [F 100; F 101; F 100; F 102; F 103]);
     ("B", [F 50; F 50; F 49; F 49; F 50])].

Definition signal_two : DataFrame :=
  mkFrame [4; 5; 6; 7; 8]
    [("sA", [F 1; F 1; F 1; F 1; F 1]); ("sB", [F 1; F 1; F 1; F 1; F 1])].

(** The same assets when the second one has no price on the first day. *)
Definition prices_late : DataFrame :=
  mkFrame [4; 5; 6; 7; 8]
    [("A", [F 100; F 101; F 100; F 102; F 103]);
     ("B", [NaN; F 50; F 49; F 49; F 50])].

(** A signal for a different pair of assets, and one with a single column. *)
Definition signal_other : DataFrame :=
  mkFrame [4; 5; 6; 7; 8]
    [("GBPUSD", [F 1; F 1; F 1; F 1; F 1]); ("USDJPY", [F 1; F 1; F 1; F 1; F 1])].

Definition prices_fx : DataFrame :=
  mkFrame [4; 5; 6; 7; 8]
    [("EURUSD", [F 100; F 101; F 100; F 102; F 103]);
     ("GBPUSD", [F 50; F 50; F 49; F 49; F 50])].

Definition signal_one : DataFrame :=
  mkFrame [4; 5; 6; 7; 8] [("sA", [F 1; F 1; F 1; F 1; F 1])].

(** Requests: no costs and a mean portfolio; the same with portfolio
    volatility targeting; and one with an unknown combination. *)
Definition br_mean : config :=
  list_to_map [("spot_tc_bp", VFloat (Fin 0)); ("ann_factor", VInt 252);
               ("portfolio_combination", VStr "mean")].

Definition br_vol : config :=
  list_to_map [("spot_tc_bp", VFloat (Fin 0)); ("ann_factor", VInt 252);
               ("portfolio_combination", VStr "mean");
               ("portfolio_vol_adjust", VBool true);
               ("portfolio_vol_target", VFloat (Fin (1 # 10)));
               ("portfolio_vol_max_leverage", VFloat (Fin 5));
               ("portfolio_vol_periods", VInt 2);
               ("portfolio_vol_obs_in_year", VInt 252);
               ("portfolio_vol_rebalance_freq", VStr "D")].

Definition br_median : config :=
  list_to_map [("spot_tc_bp", VFloat (Fin 0)); ("ann_factor", VInt 252);
               ("portfolio_combination", VStr "median")].

(** The result of a run that returned, for stating facts about it. *)
Definition empty_frame : DataFrame := mkFrame [] [].

Definition empty_result : BacktestResult :=
  mkResult empty_frame empty_frame empty_frame empty_frame empty_frame None None
    (mkRetStats empty_frame VNone) (mkRetStats empty_frame VNone)
    empty_frame empty_frame.

Definition result_of (x : (exn + BacktestResult) * config) : BacktestResult :=
  match x.1 with inr r => r | inl _ => empty_result end.

Definition leverage_of (x : exn + option DataFrame) : DataFrame :=
  match x with inr (Some lev) => lev | _ => empty_frame end.

Definition result_two : BacktestResult :=
  Eval vm_compute in
    result_of (calculate_trading_PnL sqrt_approx offset_aliases prices_two signal_two br_mean).

Definition result_late : BacktestResult :=
  Eval vm_compute in
    result_of (calculate_trading_PnL sqrt_approx offset_aliases prices_late signal_two br_mean).

Definition result_fx : BacktestResult :=
  Eval vm_compute in
    result_of (calculate_trading_PnL sqrt_approx offset_aliases prices_fx signal_other br_mean).

Definition result_vol : BacktestResult :=
  Eval vm_compute in
    result_of (calculate_trading_PnL sqrt_approx offset_aliases prices_two signal_two br_vol).

Definition br_vol_after : config :=
  <["portfolio_vol_resample_freq" := VNone]>
    (<["portfolio_vol_resample_type" := VStr "mean"]> br_vol).

Definition leverage_two : DataFrame :=
  Eval vm_compute in
    leverage_of (calculate_leverage_factor sqrt_approx offset_aliases prices_two
      (VFloat (Fin (1 # 10))) (VFloat (Fin 5)) (VInt 2) (VInt 252) (VStr "D")
      VNone (VStr "last") false 0).

(** ** The same functions over a store of objects

    Python passes references: the two frames and the request object belong
    to the caller, and an assignment to an attribute or an in-place update
    is seen through every reference.  In this model a frame operation of
    pandas allocates a new object, while [df[mask] = x], [df.ix[a:b] = x],
    [df.columns = names] and [br.name = v] update the object in place. *)

Module Store.

Abbreviation loc := nat.

Inductive obj : Type :=
  | OFrame (df : DataFrame)
  | ORequest (attrs : config).

Abbreviation heap := (list obj).

Definition P (A : Type) : Type := heap -> (exn + A) * heap.

#[global] Instance P_ret : MRet P := fun A x h => (inr x, h).
#[global] Instance P_bind : MBind P := fun A B k m h =>
  match m h with
  | (inl e, h') => (inl e, h')
  | (inr a, h') => k a h'
  end.

Definition lift {A} (r : exn + A) : P A := fun h => (r, h).
Definition throw {A} (e : exn) : P A := lift (inl e).

(** A new frame object. *)
Definition new_df (df : DataFrame) : P loc :=
  fun h => (inr (length h), h ++ [OFrame df]).

(** The frame behind a reference. *)
Definition get_df (l : loc) : P DataFrame :=
  fun h => match h !! l with
           | Some (OFrame df) => (inr df, h)
           | _ => (inl TypeError, h)
           end.

(** In-place update of the frame behind a reference. *)
Definition put_df (l : loc) (df : DataFrame) : P unit :=
  fun h => (inr tt, <[l := OFrame df]> h).

Definition attrs_of (br : loc) (h : heap) : option config :=
  match h !! br with Some (ORequest c) => Some c | _ => None end.

Definition hasattr (br : loc) (name : string) : P bool :=
  fun h => (inr (bool_decide (is_Some (attrs_of br h ≫= fun c => c !! name))), h).

Definition getattr (br : loc) (name : string) : P pyval :=
  fun h => match attrs_of br h ≫= fun c => c !! name with
           | Some v => (inr v, h)
           | None => (inl (AttributeError name), h)
           end.

Definition setattr (br : loc) (name : string) (v : pyval) : P unit :=
  fun h => match attrs_of br h with
           | Some c => (inr tt, <[br := ORequest (<[name := v]> c)]> h)
           | None => (inl (AttributeError name), h)
           end.

(** A frame operation that returns a new object. *)
Definition op1 (f : DataFrame -> DataFrame) (l : loc) : P loc :=
  df ← get_df l; new_df (f df).

(** A frame operation that works in place. *)
Definition upd (f : DataFrame -> exn + DataFrame) (l : loc) : P unit :=
  df ← get_df l; df' ← lift (f df); put_df l df'.

Definition set_default (br : loc) (name : string) (v : pyval) : P unit :=
  has ← hasattr br name;
  if (has : bool) then mret tt else setattr br name v.

Section Engine.

Variable sqrtQ : Q -> Q.
Variable freq_bins : string -> option (date -> date).

Definition calculate_leverage_factor (returns_df : loc)
    (vol_target vol_max_leverage vol_periods vol_obs_in_year
     vol_rebalance_freq data_resample_freq data_resample_type : pyval)
    (returns : bool) (period_shift : Z) : P (option loc) :=
  if negb (is_None data_resample_freq) then mret None
  else
    returns_df ← (if returns then mret returns_df
                  else op1 calculate_returns returns_df);
    periods ← lift (as_window vol_periods);
    ann ← lift (as_float vol_obs_in_year ≫= math_sqrt sqrtQ);
    roll_vol_df ← op1 (fun r => df_shift period_shift
                                  (rolling_volatility sqrtQ r periods ann)) returns_df;
    vt ← lift (as_float vol_target);
    lev_df ← op1 (df_scalar_op (fun v => fdiv vt v)) roll_vol_df;
    ml ← lift (as_float vol_max_leverage);
    upd (fun l => inr (clamp_above ml l)) lev_df;;
    bin ← lift (as_freq freq_bins vol_rebalance_freq);
    l ← get_df lev_df;
    match resample_time_series_frequency l bin data_resample_type with
    | None => throw TypeError
    | Some resampled =>
        lev_df ← new_df resampled;
        r ← get_df returns_df;
        l ← get_df lev_df;
        returns_df ← new_df (align_left r l).1;
        lev_df ← new_df (align_left r l).2;
        lev_df ← op1 fillna_ffill lev_df;
        upd (fun l => inr (ix_set_nan periods l)) lev_df;;
        mret (Some lev_df)
    end.

Definition calculate_vol_adjusted_returns (returns_df br : loc) (returns : bool)
    : P (loc * loc) :=
  returns_df ← (if returns then mret returns_df
                else op1 calculate_returns returns_df);
  set_default br "portfolio_vol_resample_type" (VStr "mean");;
  set_default br "portfolio_vol_resample_freq" VNone;;
  a1 ← getattr br "portfolio_vol_target";
  a2 ← getattr br "portfolio_vol_max_leverage";
  a3 ← getattr br "portfolio_vol_periods";
  a4 ← getattr br "portfolio_vol_obs_in_year";
  a5 ← getattr br "portfolio_vol_rebalance_freq";
  a6 ← getattr br "portfolio_vol_resample_freq";
  a7 ← getattr br "portfolio_vol_resample_type";
  leverage_df ← calculate_leverage_factor returns_df a1 a2 a3 a4 a5 a6 a7 true 0;
  tc ← getattr br "spot_tc_bp";
  match leverage_df with
  | None => throw (AttributeError "shift")
  | Some leverage_df =>
      l ← get_df leverage_df;
      r ← get_df returns_df;
      p ← lift (as_float tc ≫= calculate_signal_returns_with_tc_matrix l r);
      vol_returns_df ← new_df p;
      upd (fun p => set_columns p (columns r)) vol_returns_df;;
      mret (vol_returns_df, leverage_df)
  end.

(** The attributes of the engine after the call, as references. *)
Record Backtest : Type := mkBacktest {
  _pnl : loc;
  _portfolio : loc;
  _signal : loc;
  _portfolio_leverage : loc;
  _portfolio_signal : loc;
  _individual_leverage : option loc;
  _pnl_trades : option loc;
  _ret_stats_pnl : loc * pyval;
  _ret_stats_portfolio : loc * pyval;
  _cumpnl : loc;
  _cumportfolio : loc
}.

Definition vol_target_signals (br returns_df signal_df : loc)
    : P (loc * option loc) :=
  has ← hasattr br "signal_vol_adjust";
  if (has : bool) then
    adj ← getattr br "signal_vol_adjust";
    if is_True adj then
      set_default br "signal_vol_resample_type" (VStr "mean");;
      set_default br "signal_vol_resample_freq" VNone;;
      a1 ← getattr br "signal_vol_target";
      a2 ← getattr br "signal_vol_max_leverage";
      a3 ← getattr br "signal_vol_periods";
      a4 ← getattr br "signal_vol_obs_in_year";
      a5 ← getattr br "signal_vol_rebalance_freq";
      a6 ← getattr br "signal_vol_resample_freq";
      a7 ← getattr br "signal_vol_resample_type";
      leverage_df ← calculate_leverage_factor returns_df a1 a2 a3 a4 a5 a6 a7 true 0;
      match leverage_df with
      | None => throw (AttributeError "values")
      | Some leverage_df =>
          sg ← get_df signal_df;
          lv ← get_df leverage_df;
          scaled ← lift (
            data ← np_binop fmul (df_values sg) (df_values lv);
            new_frame data (index sg) (columns sg));
          signal_df ← new_df scaled;
          mret (signal_df, Some leverage_df)
      end
    else mret (signal_df, None)
  else mret (signal_df, None).

Definition combine_portfolio (br pnl : loc) : P (option loc) :=
  has ← hasattr br "portfolio_combination";
  if (has : bool) then
    pc ← getattr br "portfolio_combination";
    if eq_str pc "sum" then p ← op1 (portfolio_of nansum) pnl; mret (Some p)
    else if eq_str pc "mean" then p ← op1 (portfolio_of nanmean) pnl; mret (Some p)
    else mret None
  else p ← op1 (portfolio_of nanmean) pnl; mret (Some p).

Definition vol_target_portfolio (br : loc) (portfolio : option loc)
    (portfolio_leverage_df : loc) : P (option loc * loc) :=
  has ← hasattr br "portfolio_vol_adjust";
  if (has : bool) then
    adj ← getattr br "portfolio_vol_adjust";
    if is_True adj then
      p ← lift (read_local "portfolio" portfolio);
      '(p, l) ← calculate_vol_adjusted_returns p br true;
      mret (Some p, l)
    else mret (portfolio, portfolio_leverage_df)
  else mret (portfolio, portfolio_leverage_df).

Definition scale_portfolio_signal (br portfolio_signal : loc) (length_cols : nat)
    : P loc :=
  let scale :=
    df_scalar_op (fun v => fdiv v (Fin (inject_Z (Z.of_nat length_cols)))) in
  has ← hasattr br "portfolio_combination";
  if (has : bool) then
    pc ← getattr br "portfolio_combination";
    if eq_str pc "sum" then mret portfolio_signal
    else if eq_str pc "mean" then op1 scale portfolio_signal
    else mret portfolio_signal
  else op1 scale portfolio_signal.

Definition calculate_trading_PnL (br asset_a_df signal_df : loc) : P Backtest :=
  a ← get_df asset_a_df;
  s ← get_df signal_df;
  asset_df ← new_df (align_left a s).1;
  signal_df ← new_df (align_left a s).2;
  a ← get_df asset_df;
  s ← get_df signal_df;
  masked ← lift (df_mask s (np_isnan (df_values a)));
  signal_df ← new_df masked;
  signal_df ← op1 fillna_ffill signal_df;
  asset_df ← op1 fillna_ffill asset_df;
  returns_df ← op1 calculate_returns asset_df;
  tc ← getattr br "spot_tc_bp";
  r ← get_df returns_df;
  s ← get_df signal_df;
  pnl_cols ← lift (make_pnl_cols (columns r) (columns s));
  '(signal_df, individual_leverage) ← vol_target_signals br returns_df signal_df;
  s ← get_df signal_df;
  r ← get_df returns_df;
  p ← lift (as_float tc ≫= calculate_signal_returns_with_tc_matrix s r);
  pnl ← new_df p;
  upd (fun p => set_columns p pnl_cols) pnl;;
  portfolio ← combine_portfolio br pnl;
  p ← get_df pnl;
  ones ← lift (new_frame (np_ones (length (index p))) (index p) ["Portfolio"]);
  portfolio_leverage_df ← new_df ones;
  '(portfolio, portfolio_leverage_df) ←
    vol_target_portfolio br portfolio portfolio_leverage_df;
  portfolio ← lift (read_local "portfolio" portfolio);
  s ← get_df signal_df;
  l ← get_df portfolio_leverage_df;
  let length_cols := length (columns s) in
  ps ← lift (
    data ← np_binop fmul (np_repeat_T (df_values l) length_cols) (df_values s);
    new_frame data (index s) (columns s));
  portfolio_signal ← new_df ps;
  portfolio_signal ← scale_portfolio_signal br portfolio_signal length_cols;
  ann ← getattr br "ann_factor";
  upd (fun p => set_columns p ["Port"]) portfolio;;
  cumpnl ← op1 create_mult_index pnl;
  upd (fun p => set_columns p pnl_cols) cumpnl;;
  cumportfolio ← op1 create_mult_index portfolio;
  upd (fun p => set_columns p ["Port"]) cumportfolio;;
  mret (mkBacktest pnl portfolio signal_df portfolio_leverage_df portfolio_signal
          individual_leverage None (pnl, ann) (portfolio, ann) cumpnl cumportfolio).

End Engine.

End Store.

(** The attributes that the engine adds to a request that lacks them. *)
Definition default_keys : list string :=
  ["signal_vol_resample_type"; "signal_vol_resample_freq";
   "portfolio_vol_resample_type"; "portfolio_vol_resample_freq"].

(** The value a run assigns to an attribute of the request that is absent
    when it needs it. *)
Definition default_of (k : string) : option pyval :=
  if bool_decide (k = "signal_vol_resample_type") then Some (VStr "mean")
  else if bool_decide (k = "signal_vol_resample_freq") then Some VNone
  else if bool_decide (k = "portfolio_vol_resample_type") then Some (VStr "mean")
  else if bool_decide (k = "portfolio_vol_resample_freq") then Some VNone
  else None.

(** The flag of the block of [calculate_trading_PnL] in which the default
    of [k] is assigned: lines 73-81 for the signals, lines 108-113 with
    lines 828-832 for the portfolio. *)
Definition guard_of (k : string) : string :=
  if bool_decide (k = "signal_vol_resample_type") then "signal_vol_adjust"
  else if bool_decide (k = "signal_vol_resample_freq") then "signal_vol_adjust"
  else "portfolio_vol_adjust".

(** [c'] has the attribute [k] as [c] has it, or [c] lacks it, holds [True]
    under [flag], and [c'] has it with the value [v]. *)
Definition may_gain (c c' : config) (k : string) (v : pyval) (flag : string)
    : Prop :=
  c' !! k = c !! k \/
  (c !! k = None /\ c' !! k = Some v /\ flag_on flag c = true).

(** [c'] is [c] with defaults filled in, each under a flag that is on. *)
Definition defaulted (c c' : config) : Prop :=
  forall k, c' !! k = c !! k \/
            exists v, default_of k = Some v /\ may_gain c c' k v (guard_of k) /\
                      c !! k = None.

(** The request behind [br] keeps every attribute it has and gains at most
    the default ones. *)
Definition request_extended (br : Store.loc) (h h' : Store.heap) : Prop :=
  forall c, Store.attrs_of br h = Some c ->
    exists c', Store.attrs_of br h' = Some c' /\ c ⊆ c' /\
               unchanged_but default_keys c c' /\ defaulted c c'.

(** What a computation may do to the store: allocate, update objects at
    references from [n] on, and extend the request [br]. *)
Definition frame_rel (n : nat) (br : Store.loc) (h h' : Store.heap) : Prop :=
  (length h <= length h')%nat /\
  (forall l, (l < n)%nat -> l <> br -> h' !! l = h !! l) /\
  request_extended br h h'.

(** [m] respects [frame_rel] and, when it returns, returns a value
    satisfying [Q], on every store where the request is [c0], the request
    of the caller, with defaults filled in. *)
Definition hoare {A} (n : nat) (br : Store.loc) (c0 : config) (m : Store.P A)
    (Q : A -> Prop) : Prop :=
  forall h x h' c, (n <= length h)%nat ->
    Store.attrs_of br h = Some c -> defaulted c0 c -> m h = (x, h') ->
    frame_rel n br h h' /\ forall a, x = inr a -> Q a.

#[export] Instance obj_eq_dec : EqDecision Store.obj.
Proof. solve_decision. Defined.

#[export] Instance Backtest_eq_dec : EqDecision Store.Backtest.
Proof. solve_decision. Defined.

(** A request with volatility targeting of the signals that leaves the
    resampling attributes unset, and a store holding it with two frames. *)
Definition br_sig : config :=
  list_to_map [("spot_tc_bp", VFloat (Fin 0)); ("ann_factor", VInt 252);
               ("signal_vol_adjust", VBool true);
               ("signal_vol_target", VFloat (Fin (1 # 10)));
               ("signal_vol_max_leverage", VFloat (Fin 5));
               ("signal_vol_periods", VInt 2);
               ("signal_vol_obs_in_year", VInt 252);
               ("signal_vol_rebalance_freq", VStr "D")].

Definition store_sig : Store.heap :=
  [Store.ORequest br_sig; Store.OFrame prices_two; Store.OFrame signal_two].

Definition store_sig_run : (exn + Store.Backtest) * Store.heap :=
  Eval vm_compute in
    Store.calculate_trading_PnL sqrt_approx offset_aliases 0%nat 1%nat 2%nat store_sig.

(** The outcome of a run on a store, for stating facts about it. *)
Definition result_of_store (x : (exn + Store.Backtest) * Store.heap) : Store.Backtest :=
  match x.1 with
  | inr b => b
  | inl _ => Store.mkBacktest 0 0 0 0 0 None None (0%nat, VNone) (0%nat, VNone) 0 0
  end.

Definition request_of (o : option Store.obj) : config :=
  match o with Some (Store.ORequest c) => c | _ => ∅ end.

(** ** Requests that a run cannot tell apart *)

(** The attributes a run reads whatever the flags are, those it reads when
    the signals are volatility-targeted, and those it reads when the
    portfolio is. *)
Definition base_keys : list string :=
  ["spot_tc_bp"; "ann_factor"; "portfolio_combination"].

Definition signal_keys : list string :=
  ["signal_vol_target"; "signal_vol_max_leverage"; "signal_vol_periods";
   "signal_vol_obs_in_year"; "signal_vol_rebalance_freq";
   "signal_vol_resample_freq"; "signal_vol_resample_type"].

Definition portfolio_keys : list string :=
  ["portfolio_vol_target"; "portfolio_vol_max_leverage"; "portfolio_vol_periods";
   "portfolio_vol_obs_in_year"; "portfolio_vol_rebalance_freq";
   "portfolio_vol_resample_freq"; "portfolio_vol_resample_type"].

(** Two requests hold the same value, or both nothing, under every key of
    [K]. *)
Definition agree (K : list string) (b1 b2 : config) : Prop :=
  Forall (fun k => b1 !! k = b2 !! k) K.

Definition same_request (b1 b2 : config) : Prop :=
  agree base_keys b1 b2 /\
  flag_on "signal_vol_adjust" b1 = flag_on "signal_vol_adjust" b2 /\
  flag_on "portfolio_vol_adjust" b1 = flag_on "portfolio_vol_adjust" b2 /\
  (flag_on "signal_vol_adjust" b1 = true -> agree signal_keys b1 b2) /\
  (flag_on "portfolio_vol_adjust" b1 = true -> agree portfolio_keys b1 b2).

(** A computation does the same on two requests related by [R], and leaves
    them related by [R'] when it returns. *)
Definition sim {A} (R R' : config -> config -> Prop) (m : M A) : Prop :=
  forall b1 b2, R b1 b2 ->
    (m b1).1 = (m b2).1 /\ (forall a, (m b1).1 = inr a -> R' (m b1).2 (m b2).2).

(** [bd] is [br] with some of these defaults filled in. *)
Definition defaults_filled (br bd : config) : Prop :=
  forall k, bd !! k = br !! k \/
            (br !! k = None /\ is_Some (default_of k) /\ bd !! k = default_of k).

(** A computation only ever fills in defaults. *)
Definition fills {A} (m : M A) : Prop :=
  forall br, defaults_filled br (m br).2.

(** A request that already holds the defaults of the blocks that are
    switched on. *)
Definition settled (b : config) : Prop :=
  (flag_on "signal_vol_adjust" b = true ->
     is_Some (b !! "signal_vol_resample_type") /\
     is_Some (b !! "signal_vol_resample_freq")) /\
  (flag_on "portfolio_vol_adjust" b = true ->
     is_Some (b !! "portfolio_vol_resample_type") /\
     is_Some (b !! "portfolio_vol_resample_freq")).

(** A computation leaves every request satisfying [I] as it is. *)
Definition keeps {A} (I : config -> Prop) (m : M A) : Prop :=
  forall b, I b -> (m b).2 = b.

(** Two requests that differ at most in the attribute [name]. *)
Definition same_but (name : string) (b1 b2 : config) : Prop :=
  forall k, k <> name -> b1 !! k = b2 !! k.

(** Requests for the examples: [br_mean] with attributes no run reads, a
    request whose flag holds 1 instead of [True], and a request with a cost
    of one basis point. *)
Definition br_dated : config :=
  <["finish_date" := VStr "2016-01-01"]> (<["signal_vol_target" := VFloat (Fin 1)]> br_mean).

Definition br_flag_one : config := <["signal_vol_adjust" := VInt 1]> br_sig.

Definition br_sig_after : config :=
  <["signal_vol_resample_freq" := VNone]>
    (<["signal_vol_resample_type" := VStr "mean"]> br_sig).

Definition result_sig : BacktestResult :=
  Eval vm_compute in
    result_of (calculate_trading_PnL sqrt_approx offset_aliases prices_two signal_two br_sig).

Definition signal_flip : DataFrame :=
  mkFrame [4; 5; 6; 7; 8]
    [("sA", [F 1; F (-1); F 1; F 1; F (-1)]); ("sB", [F 1; F 1; F 1; F 1; F 1])].

Definition br_cost : config := <["spot_tc_bp" := VFloat (Fin (1 # 10000))]> br_mean.

Definition result_flip : BacktestResult :=
  Eval vm_compute in
    result_of (calculate_trading_PnL sqrt_approx offset_aliases prices_two signal_flip br_mean).

Definition result_flip_cost : BacktestResult :=
  Eval vm_compute in
    result_of (calculate_trading_PnL sqrt_approx offset_aliases prices_two signal_flip br_cost).

(** A well-formed frame over the dates [idx] with the column labels
    [names]. *)
Definition framed (idx : list date) (names : list string) (df : DataFrame) : Prop :=
  index df = idx /\ columns df = names /\ wf_frame df.

(** Asset A is not traded on the second day. *)
Definition prices_gap : DataFrame :=
  mkFrame [4; 5; 6; 7; 8]
    [("A", [F 100; NaN; F 100; F 102; F 103]);
     ("B", [F 50; F 50; F 49; F 49; F 50])].

Definition result_gap : BacktestResult :=
  Eval vm_compute in
    result_of (calculate_trading_PnL sqrt_approx offset_aliases prices_gap signal_flip br_cost).

(** A request without a transaction cost. *)
Definition br_no_cost : config := delete "spot_tc_bp" br_mean.

(** ** RiskEngine.calculate_vol_adjusted_index_from_prices *)

Section Callers.

Variable sqrtQ : Q -> Q.
Variable freq_bins : string -> option (date -> date).

Definition calculate_vol_adjusted_index_from_prices (prices_df : DataFrame)
    : M DataFrame :=
  '(returns_df, leverage_df) ←
    calculate_vol_adjusted_returns sqrtQ freq_bins prices_df false;
  mret (create_mult_index returns_df).

End Callers.

(** A request for the volatility-adjusted index of a benchmark. *)
Definition index_two : DataFrame :=
  Eval vm_compute in
    match (calculate_vol_adjusted_index_from_prices sqrt_approx offset_aliases
             prices_two br_vol).1 with
    | inr df => df
    | inl _ => empty_frame
    end.

Definition vol_returns_two : DataFrame * DataFrame :=
  Eval vm_compute in
    match (calculate_vol_adjusted_returns sqrt_approx offset_aliases
             prices_two false br_vol).1 with
    | inr x => x
    | inl _ => (empty_frame, empty_frame)
    end.

(** ** The engine object

    A [Backtest] object keeps what it computes in attributes of its own.
    An attribute holds [None], the logger, a frame, or a [RetStats] object,
    which is empty until [calculate_ret_stats] has been called on it. *)

Inductive attr : Type :=
  | ANone
  | ALogger
  | AFrame (df : DataFrame)
  | AStats (rs : option RetStats).

#[export] Instance attr_eq_dec : EqDecision attr.
Proof. solve_decision. Defined.

Abbreviation engine := (gmap string attr).

Module Backtest.

(** Methods run on the attributes of the engine and on those of the request
    they are given. *)
Definition B (A : Type) : Type := engine * config -> (exn + A) * (engine * config).

#[global] Instance B_ret : MRet B := fun A x st => (inr x, st).
#[global] Instance B_bind : MBind B := fun A B k m st =>
  match m st with
  | (inl e, st') => (inl e, st')
  | (inr a, st') => k a st'
  end.

Definition liftB {A} (r : exn + A) : B A := fun st => (r, st).

(** A computation on the request alone. *)
Definition on_request {A} (m : M A) : B A :=
  fun st => ((m st.2).1, (st.1, (m st.2).2)).

(** [self.name = v] and [self.name]. *)
Definition self_set (name : string) (v : attr) : B unit :=
  fun st => (inr tt, (<[name := v]> st.1, st.2)).

Definition self_get (name : string) : B attr :=
  fun st => match st.1 !! name with
            | Some v => (inr v, st)
            | None => (inl (AttributeError name), st)
            end.

(** [Backtest.__init__] *)
Definition __init__ : engine :=
  <["_portfolio" := ANone]> (<["_pnl" := ANone]> (<["logger" := ALogger]> ∅)).

Section Methods.

Variable sqrtQ : Q -> Q.
Variable freq_bins : string -> option (date -> date).

(** [Calculations.calculate_individual_trade_gains] and [RetStats.summary]
    belong to findatapy; nothing is assumed about them. *)
Variable calculate_individual_trade_gains : attr -> attr -> exn + DataFrame.
Variable summary : option RetStats -> exn + list string.

(** What lines 52-142 hand over to the rest of the method. *)
Record positions : Type := mkPositions {
  pos_pnl : DataFrame;
  pos_portfolio : DataFrame;
  pos_pnl_cols : list string
}.

(** Lines 52-142: positions, P&L and portfolio, stored as they are
    computed. *)
Definition positions_and_pnl (asset_a_df signal_df : DataFrame) : B positions :=
  let '(asset_df, signal_df) := align_left asset_a_df signal_df in
  signal_df ← liftB (df_mask signal_df (np_isnan (df_values asset_df)));
  let signal_df := fillna_ffill signal_df in
  let asset_df := fillna_ffill asset_df in
  let returns_df := calculate_returns asset_df in
  tc ← on_request (getattr "spot_tc_bp");
  pnl_cols ← liftB (make_pnl_cols (columns returns_df) (columns signal_df));
  '(signal_df, individual_leverage) ←
    on_request (vol_target_signals sqrtQ freq_bins returns_df signal_df);
  match individual_leverage with
  | Some leverage_df => self_set "_individual_leverage" (AFrame leverage_df)
  | None => mret tt
  end;;
  pnl ← liftB (as_float tc ≫=
    calculate_signal_returns_with_tc_matrix signal_df returns_df);
  pnl ← liftB (set_columns pnl pnl_cols);
  portfolio ← on_request (combine_portfolio pnl);
  portfolio_leverage_df ← liftB (
    new_frame (np_ones (length (index pnl))) (index pnl) ["Portfolio"]);
  '(portfolio, portfolio_leverage_df) ←
    on_request (vol_target_portfolio sqrtQ freq_bins portfolio portfolio_leverage_df);
  portfolio ← liftB (read_local "portfolio" portfolio);
  self_set "_portfolio" (AFrame portfolio);;
  self_set "_signal" (AFrame signal_df);;
  self_set "_portfolio_leverage" (AFrame portfolio_leverage_df);;
  let length_cols := length (columns signal_df) in
  let leverage_matrix_T := np_repeat_T (df_values portfolio_leverage_df) length_cols in
  portfolio_signal ← liftB (
    data ← np_binop fmul leverage_matrix_T (df_values signal_df);
    new_frame data (index signal_df) (columns signal_df));
  self_set "_portfolio_signal" (AFrame portfolio_signal);;
  portfolio_signal ← on_request (scale_portfolio_signal portfolio_signal length_cols);
  self_set "_portfolio_signal" (AFrame portfolio_signal);;
  self_set "_pnl" (AFrame pnl);;
  self_set "_pnl_trades" ANone;;
  self_set "_ret_stats_pnl" (AStats None);;
  mret (mkPositions pnl portfolio pnl_cols).

(** Lines 143-153: statistics and cumulative indices.  The portfolio frame
    is relabelled in place, so [_portfolio] sees the new label. *)
Definition statistics_and_indices (x : positions) : B unit :=
  ann ← on_request (getattr "ann_factor");
  self_set "_ret_stats_pnl" (AStats (Some (calculate_ret_stats (pos_pnl x) ann)));;
  portfolio ← liftB (set_columns (pos_portfolio x) ["Port"]);
  self_set "_portfolio" (AFrame portfolio);;
  self_set "_ret_stats_portfolio" (AStats None);;
  ann ← on_request (getattr "ann_factor");
  self_set "_ret_stats_portfolio" (AStats (Some (calculate_ret_stats portfolio ann)));;
  let cumpnl := create_mult_index (pos_pnl x) in
  self_set "_cumpnl" (AFrame cumpnl);;
  cumpnl ← liftB (set_columns cumpnl (pos_pnl_cols x));
  self_set "_cumpnl" (AFrame cumpnl);;
  let cumportfolio := create_mult_index portfolio in
  self_set "_cumportfolio" (AFrame cumportfolio);;
  cumportfolio ← liftB (set_columns cumportfolio ["Port"]);
  self_set "_cumportfolio" (AFrame cumportfolio).

Definition calculate_trading_PnL (asset_a_df signal_df : DataFrame) : B unit :=
  x ← positions_and_pnl asset_a_df signal_df;
  statistics_and_indices x.

Definition get_backtest_output : B attr := mret ANone.

Definition get_pnl : B attr := self_get "_pnl".

(** The trade gains are computed on the first request and kept. *)
Definition get_pnl_trades : B attr :=
  t ← self_get "_pnl_trades";
  match t with
  | ANone =>
      s ← self_get "_signal";
      p ← self_get "_pnl";
      g ← liftB (calculate_individual_trade_gains s p);
      self_set "_pnl_trades" (AFrame g);;
      self_get "_pnl_trades"
  | _ => self_get "_pnl_trades"
  end.

(** [stats.summary()] on whatever the attribute holds. *)
Definition summary_of (a : attr) : B (list string) :=
  match a with
  | AStats rs => liftB (summary rs)
  | _ => liftB (inl (AttributeError "summary"))
  end.

Definition get_pnl_desc : B (list string) :=
  self_get "_ret_stats_signals" ≫= summary_of.

Definition get_pnl_ret_stats : B attr := self_get "_ret_stats_pnl".
Definition get_cumpnl : B attr := self_get "_cumpnl".
Definition get_cumportfolio : B attr := self_get "_cumportfolio".
Definition get_portfolio_pnl : B attr := self_get "_portfolio".

Definition get_portfolio_pnl_desc : B (list string) :=
  self_get "_ret_stats_portfolio" ≫= summary_of.

Definition get_portfolio_pnl_ret_stats : B attr := self_get "_ret_stats_portfolio".
Definition get_individual_leverage : B attr := self_get "_individual_leverage".
Definition get_porfolio_leverage : B attr := self_get "_portfolio_leverage".
Definition get_porfolio_signal : B attr := self_get "_portfolio_signal".
Definition get_signal : B attr := self_get "_signal".

(** The states an engine can be in: a new one, and what a method leaves. *)
Inductive reachable : engine -> Prop :=
  | reach_init : reachable __init__
  | reach_run self br a s x self' br' :
      reachable self ->
      calculate_trading_PnL a s (self, br) = (x, (self', br')) ->
      reachable self'
  | reach_trades self br x self' br' :
      reachable self ->
      get_pnl_trades (self, br) = (x, (self', br')) ->
      reachable self'.

End Methods.

End Backtest.

(** The attributes of the engine once lines 52-142 have run, and once the
    whole method has: every assignment in the order of the source. *)
Definition after_positions (ilev : option DataFrame)
    (portfolio signal leverage ps0 ps pnl : DataFrame) (self : engine) : engine :=
  <["_ret_stats_pnl" := AStats None]>
    (<["_pnl_trades" := ANone]>
      (<["_pnl" := AFrame pnl]>
        (<["_portfolio_signal" := AFrame ps]>
          (<["_portfolio_signal" := AFrame ps0]>
            (<["_portfolio_leverage" := AFrame leverage]>
              (<["_signal" := AFrame signal]>
                (<["_portfolio" := AFrame portfolio]>
                  match ilev with
                  | Some l => <["_individual_leverage" := AFrame l]> self
                  | None => self
                  end))))))).

Definition after_statistics (pnl port cumpnl cumportfolio : DataFrame) (ann : pyval)
    (self : engine) : engine :=
  <["_cumportfolio" := AFrame cumportfolio]>
    (<["_cumportfolio" := AFrame (create_mult_index port)]>
      (<["_cumpnl" := AFrame cumpnl]>
        (<["_cumpnl" := AFrame (create_mult_index pnl)]>
          (<["_ret_stats_portfolio" := AStats (Some (calculate_ret_stats port ann))]>
            (<["_ret_stats_portfolio" := AStats None]>
              (<["_portfolio" := AFrame port]>
                (<["_ret_stats_pnl" := AStats (Some (calculate_ret_stats pnl ann))]>
                  self))))))).

(** A computation of the engine leaves the attribute [k] of the engine as
    it is, whatever its outcome. *)
Definition leaves (k : string) {A} (m : Backtest.B A) : Prop :=
  forall st, (m st).2.1 !! k = st.1 !! k.

(** The attributes of the engine that [calculate_trading_PnL] assigns. *)
Definition written_attributes : list string :=
  ["_individual_leverage"; "_portfolio"; "_signal"; "_portfolio_leverage";
   "_portfolio_signal"; "_pnl"; "_pnl_trades"; "_ret_stats_pnl";
   "_ret_stats_portfolio"; "_cumpnl"; "_cumportfolio"].

(** Trade gains and statistics summaries for the examples. *)
Definition gains_signal (s p : attr) : exn + DataFrame :=
  match s with AFrame df => inr df | _ => inl TypeError end.

Definition gains_pnl (s p : attr) : exn + DataFrame :=
  match p with AFrame df => inr df | _ => inl TypeError end.

Definition summary_columns (rs : option RetStats) : exn + list string :=
  match rs with
  | Some s => inr (columns (rs_returns s))
  | None => inl (AttributeError "_rets_df")
  end.

(** An engine after a run on [br_sig], and a request without an
    annualisation factor. *)
Definition engine_sig : engine :=
  Eval vm_compute in
    (Backtest.calculate_trading_PnL sqrt_approx offset_aliases prices_two signal_two
       (Backtest.__init__, br_sig)).2.1.

Definition br_no_ann : config := delete "ann_factor" br_mean.

Definition engine_no_ann : engine :=
  Eval vm_compute in
    (Backtest.calculate_trading_PnL sqrt_approx offset_aliases prices_two signal_two
       (engine_sig, br_no_ann)).2.1.

(** ** Calls

    Python binds the arguments of a call to the parameters of the function:
    positional arguments in order, then keyword arguments by name, then
    defaults.  Too many positional arguments, a keyword that names no
    parameter or one that is bound already, and a parameter left without a
    value are all [TypeError]s, raised before the body runs. *)

(** Objects passed as arguments. *)
Inductive pyobj : Type :=
  | PSelf
  | PRequest
  | PFrame (df : DataFrame)
  | PList (l : list Z)
  | PVal (v : pyval)
  | PObject (name : string).

#[export] Instance pyobj_eq_dec : EqDecision pyobj.
Proof. solve_decision. Defined.

Section Calls.

Context {V R : Type}.

(** Parameters in order, each with its default when it has one. *)
Record pyfunc : Type := mkFunc {
  f_params : list (string * option V);
  f_body : list (string * V) -> R
}.

Fixpoint bind_positional (params : list (string * option V)) (args : list V)
    {struct args} : exn + (list (string * V) * list (string * option V)) :=
  match args with
  | [] => inr ([], params)
  | v :: args' =>
      match params with
      | [] => inl TypeError
      | (n, _) :: params' =>
          '(bound, rest) ← bind_positional params' args';
          inr ((n, v) :: bound, rest)
      end
  end.

Fixpoint bind_keywords (rest : list (string * option V)) (kw : list (string * V))
    : exn + (list (string * V) * list (string * option V)) :=
  match kw with
  | [] => inr ([], rest)
  | (n, v) :: kw' =>
      if bool_decide (n ∈ rest.*1)
      then '(bound, rest') ← bind_keywords (filter (fun p => p.1 <> n) rest) kw';
           inr ((n, v) :: bound, rest')
      else inl TypeError
  end.

Fixpoint fill_defaults (rest : list (string * option V)) : exn + list (string * V) :=
  match rest with
  | [] => inr []
  | (n, Some v) :: rest' => bound ← fill_defaults rest'; inr ((n, v) :: bound)
  | (n, None) :: _ => inl TypeError
  end.

Definition bind_call (params : list (string * option V)) (args : list V)
    (kw : list (string * V)) : exn + list (string * V) :=
  '(bound, rest) ← bind_positional params args;
  '(bound_kw, rest) ← bind_keywords rest kw;
  defaults ← fill_defaults rest;
  inr (bound ++ bound_kw ++ defaults).

Definition call (f : pyfunc) (args : list V) (kw : list (string * V)) : exn + R :=
  b ← bind_call (f_params f) args kw; inr (f_body f b).

End Calls.

Arguments pyfunc : clear implicits.

(** A call of a function whose body may raise as well. *)
Definition invoke {V R} (f : pyfunc V (exn + R)) (args : list V)
    (kw : list (string * V)) : exn + R :=
  call f args kw ≫= id.

(** The value bound to a parameter. *)
Definition arg (b : list (string * pyobj)) (name : string) : pyobj :=
  match list_find (fun p => p.1 = name) b with
  | Some (_, (_, v)) => v
  | None => PVal VNone
  end.

(** ** Seasonality: the methods that start from prices

    [bus_day_of_month_seasonality] and [monthly_seasonality] do their work
    through the calendar helpers of findatapy; only their signatures
    matter for the two methods that call them. *)

Module Seasonality.

Definition all_months : pyobj := PList [1; 2; 3; 4; 5; 6; 7; 8; 9; 10; 11; 12].

Section Methods.

Variable R : Type.
Variable bus_day_of_month_seasonality_body : list (string * pyobj) -> exn + R.
Variable monthly_seasonality_body : list (string * pyobj) -> exn + R.

Definition bus_day_of_month_seasonality : pyfunc pyobj (exn + R) :=
  mkFunc
    [("self", None); ("data_frame", None); ("month_list", Some all_months);
     ("cum", Some (PVal (VBool true))); ("cal", Some (PVal (VStr "FX")));
     ("partition_by_month", Some (PVal (VBool true)));
     ("add_average", Some (PVal (VBool false)));
     ("price_index", Some (PVal (VBool false)))]
    bus_day_of_month_seasonality_body.

(** [self.bus_day_of_month_seasonality(self, data_frame, month_list = ..., ...)]:
    the bound method receives the object first, and the call passes it
    once more. *)
Definition bus_day_of_month_seasonality_from_prices : pyfunc pyobj (exn + R) :=
  mkFunc
    [("self", None); ("data_frame", None); ("month_list", Some all_months);
     ("cum", Some (PVal (VBool true))); ("cal", Some (PVal (VStr "FX")));
     ("partition_by_month", Some (PVal (VBool true)));
     ("add_average", Some (PVal (VBool false)))]
    (fun b =>
       invoke bus_day_of_month_seasonality
         [arg b "self"; arg b "self"; arg b "data_frame"]
         [("month_list", arg b "month_list"); ("cum", arg b "cum");
          ("cal", arg b "cal"); ("partition_by_month", arg b "partition_by_month");
          ("add_average", arg b "add_average");
          ("price_index", PVal (VBool true))]).

Definition monthly_seasonality : pyfunc pyobj (exn + R) :=
  mkFunc
    [("self", None); ("data_frame", None); ("cum", Some (PVal (VBool true)));
     ("add_average", Some (PVal (VBool false)));
     ("price_index", Some (PVal (VBool false)))]
    monthly_seasonality_body.

(** [self.monthly_seasonality(data_frame, cum, add_average, price_index=True)] *)
Definition monthly_seasonality_from_prices : pyfunc pyobj (exn + R) :=
  mkFunc
    [("self", None); ("data_frame", None); ("cum", Some (PVal (VBool true)));
     ("add_average", Some (PVal (VBool false)))]
    (fun b =>
       invoke monthly_seasonality
         [arg b "self"; arg b "data_frame"; arg b "cum"; arg b "add_average"]
         [("price_index", PVal (VBool true))]).

End Methods.

End Seasonality.

(** ** TradingModel.construct_individual_strategy *)

(** Truth value of a Python value, as [if x:] tests it. *)
Definition truthy (v : pyval) : bool :=
  match v with
  | VNone => false
  | VBool b => b
  | VInt z => negb (z =? 0)
  | VFloat f => negb (feqb f (Fin 0))
  | VStr s => negb (bool_decide (s = ""))
  end.

(** Use of an attribute of the engine as a frame. *)
Definition as_frame (method : string) (a : attr) : exn + DataFrame :=
  match a with
  | AFrame df => inr df
  | _ => inl (AttributeError method)
  end.

Module TradingModel.

(** The signature of [construct_signal] as the class declares it. *)
Definition construct_signal_declared : list (string * option pyobj) :=
  [("self", None); ("spot_df", None); ("spot_df2", None); ("tech_params", None)].

Section Methods.

Variable sqrtQ : Q -> Q.
Variable freq_bins : string -> option (date -> date).
Variable summary : option RetStats -> exn + list string.

(** The signal generator of the strategy, which a subclass provides, and
    the class attribute [DUMP_CSV]. *)
Variable construct_signal : pyfunc pyobj (M DataFrame).
Variable DUMP_CSV : string.

(** What the method returns: the cumulative portfolio and the engine; and
    the files it has written. *)
Record strategy : Type := mkStrategy {
  cumportfolio : DataFrame;
  backtest : engine;
  csv_files : list (string * DataFrame)
}.

(** The body of the method, on the engine it creates. *)
Definition run_strategy (spot_df spot_df2 : pyobj) (asset_df : DataFrame)
    (tech_params : pyobj) (key : string)
    : Backtest.B (DataFrame * list (string * DataFrame)) :=
  signal ← Backtest.liftB
    (call construct_signal [PSelf; spot_df; spot_df2; tech_params; PRequest] []);
  signal_df ← Backtest.on_request signal;
  Backtest.calculate_trading_PnL sqrtQ freq_bins asset_df signal_df;;
  cumpnl ← Backtest.get_cumpnl;
  write_csv ← Backtest.on_request (getattr "write_csv");
  files ← (if truthy write_csv
           then df ← Backtest.liftB (as_frame "to_csv" cumpnl);
                mret [(DUMP_CSV +:+ key +:+ ".csv", df)]
           else mret []);
  cumportfolio ← Backtest.get_cumportfolio;
  calc_stats ← Backtest.on_request (getattr "calc_stats");
  names ← (if truthy calc_stats
           then desc ← Backtest.get_portfolio_pnl_desc summary;
                first ← Backtest.liftB
                  (match desc with d :: _ => inr d | [] => inl IndexError end);
                mret [key +:+ " " +:+ first]
           else mret [key]);
  (* [cumportfolio.columns = names] relabels the frame that the engine
     keeps in [_cumportfolio]: both names refer to one object *)
  df ← Backtest.liftB (as_frame "columns" cumportfolio);
  df ← Backtest.liftB (set_columns df names);
  Backtest.self_set "_cumportfolio" (AFrame df);;
  mret (df, files).

Definition construct_individual_strategy (spot_df spot_df2 : pyobj)
    (asset_df : DataFrame) (tech_params : pyobj) (key : string) : M strategy :=
  fun br =>
    let out := run_strategy spot_df spot_df2 asset_df tech_params key
                 (Backtest.__init__, br) in
    (match out.1 with
     | inl e => inl e
     | inr (df, files) => inr (mkStrategy df out.2.1 files)
     end, out.2.2).

End Methods.

End TradingModel.


Definition signal_long : pyfunc pyobj (M DataFrame) :=
  mkFunc (TradingModel.construct_signal_declared ++ [("br", None)])
    (fun _ => mret signal_two).

Definition br_strategy : config :=
  <["calc_stats" := VBool false]> (<["write_csv" := VBool true]> br_mean).

(** ** TradingModel.plot_strategy_signal_proportion: the tables it plots

    The method counts, for every column of the strategy signal, the
    observations that are long, short and flat, and the changes of
    position, and hands the two tables to the chart. *)

(** [column[cond].count()]: a cell counts when the condition holds; a
    comparison with NaN does not hold. *)
Definition count_where (p : fval -> bool) (c : list fval) : nat :=
  length (filter (fun v => p v = true) c).

Definition count_long (c : list fval) : nat := count_where (fun v => fgt v (Fin 0)) c.
Definition count_short (c : list fval) : nat := count_where (fun v => fgt (Fin 0) v) c.
Definition count_flat (c : list fval) : nat := count_where (fun v => feqb v (Fin 0)) c.

(** [abs(signal - signal.shift(-1))], then the cells above zero. *)
Definition count_trades (c : list fval) : nat :=
  count_where (fun v => fgt v (Fin 0))
    (zip_with (fun x y => fabs (fsub x y)) c (shift (-1) c)).

(** [s.replace(strip, '')]: every occurrence of [strip] is removed, from
    left to right; the empty string removes nothing. *)
Fixpoint remove_from (strip : string) (skip : nat) (s : string) : string :=
  match s with
  | EmptyString => EmptyString
  | String ch s' =>
      match skip with
      | S k => remove_from strip k s'
      | O =>
          if negb (bool_decide (strip = "")) && String.prefix strip s
          then remove_from strip (String.length strip - 1) s'
          else String ch (remove_from strip 0 s')
      end
  end.

Definition str_remove (strip s : string) : string := remove_from strip 0 s.

(** The table of long, short and flat counts and the table of trades, both
    indexed by the column labels of the signal, stripped when asked. *)
Definition signal_proportion (signal : DataFrame) (strip : option string)
    : list (string * (nat * nat * nat)) * list (string * nat) :=
  let keys :=
    (fun k => match strip with Some st => str_remove st k | None => k end)
      <$> columns signal in
  (zip keys ((fun c => (count_long c, count_short c, count_flat c)) <$> coldata signal),
   zip keys (count_trades <$> coldata signal)).

(** Both values are numbers and they differ. *)
Definition position_changes (x y : fval) : bool :=
  negb (isnan x) && negb (isnan y) && negb (feqb x y).

(** ** The first observations of a backtest *)

(** [df.head(n)]: the first [n] observations of a frame. *)
Definition head_rows (n : nat) (df : DataFrame) : DataFrame :=
  mkFrame (take n (index df)) (prod_map id (take n) <$> cols df).

(** [r'] holds the first [n] observations of the P&L, the portfolio, the
    signals and the leverages of [r]. *)
Definition head_of_result (n : nat) (r r' : BacktestResult) : Prop :=
  _pnl r' = head_rows n (_pnl r) /\
  _portfolio r' = head_rows n (_portfolio r) /\
  _signal r' = head_rows n (_signal r) /\
  _portfolio_leverage r' = head_rows n (_portfolio_leverage r) /\
  _portfolio_signal r' = head_rows n (_portfolio_signal r) /\
  _individual_leverage r' = head_rows n <$> _individual_leverage r.

(** Observation dates in increasing order. *)
Definition increasing (idx : list date) : Prop :=
  forall i j di dj,
    idx !! i = Some di -> idx !! j = Some dj -> (i < j)%nat -> di < dj.

(** The rebalance calendars that a request names label a bin by a date that
    is not before the dates of [idx] falling into it, as month ends and week
    ends do. *)
Definition closes_bins (freq_bins : string -> option (date -> date))
    (idx : list date) (br : config) : Prop :=
  forall k s bin,
    k ∈ ["signal_vol_rebalance_freq"; "portfolio_vol_rebalance_freq"] ->
    br !! k = Some (VStr s) -> freq_bins s = Some bin ->
    Forall (fun d => d <= bin d) idx.

(** Whenever [m] returns from a request satisfying [I], so does [m'], with
    the same request afterwards and a result related by [R]. *)
Definition follows {A} (I : config -> Prop) (R : A -> A -> Prop) (m m' : M A) : Prop :=
  forall br x br1, I br -> m br = (inr x, br1) ->
    I br1 /\ exists y, m' br = (inr y, br1) /\ R x y.

(** Ten daily observations from Monday 1970-01-05 on, weekends included, a
    constant long signal, and a request that targets the volatility of the
    signal with a weekly rebalance. *)
Definition prices_weeks : DataFrame :=
  mkFrame [4; 5; 6; 7; 8; 9; 10; 11; 12; 13]
    [("A", [F 100; F 101; F 100; F 102; F 103; F 103; F 103; F 104; F 102; F 103])].

Definition signal_weeks : DataFrame :=
  mkFrame [4; 5; 6; 7; 8; 9; 10; 11; 12; 13] [("sA", replicate 10 (F 1))].

Definition br_weekly : config :=
  list_to_map [("spot_tc_bp", VFloat (Fin 0)); ("ann_factor", VInt 252);
               ("signal_vol_adjust", VBool true);
               ("signal_vol_target", VFloat (Fin (1 # 10)));
               ("signal_vol_max_leverage", VFloat (Fin 5));
               ("signal_vol_periods", VInt 2);
               ("signal_vol_obs_in_year", VInt 252);
               ("signal_vol_rebalance_freq", VStr "W")].

Definition br_weekly_after : config :=
  <["signal_vol_resample_freq" := VNone]>
    (<["signal_vol_resample_type" := VStr "mean"]> br_weekly).

Definition result_weeks : BacktestResult :=
  Eval vm_compute in
    result_of (calculate_trading_PnL sqrt_approx offset_aliases
                 prices_weeks signal_weeks br_weekly).

(** The leverage of [prices_weeks] for a weekly rebalance, earned one
    observation later. *)
Definition leverage_weeks : DataFrame :=
  Eval vm_compute in
    leverage_of (calculate_leverage_factor sqrt_approx offset_aliases prices_weeks
                   (VFloat (Fin (1 # 10))) (VFloat (Fin 5)) (VInt 2) (VInt 252)
                   (VStr "W") VNone (VStr "mean") false 1).

(** * Properties of the embedding *)

(** ** The leverage calculator *)

Lemma map_cols_index f df : index (map_cols f df) = index df.
Proof. reflexivity. Qed.

Lemma map_cols_cols f df : cols (map_cols f df) = prod_map id f <$> cols df.
Proof. reflexivity. Qed.

Lemma map_cols_compose f g df : map_cols f (map_cols g df) = map_cols (f ∘ g) df.
Proof.
  unfold map_cols; simpl. f_equal. rewrite <- list_fmap_compose.
  apply list_fmap_ext. intros _ [s c] _. reflexivity.
Qed.

Lemma ebind_inr {A B} (m : exn + A) (k : A -> exn + B) b :
  m ≫= k = inr b -> exists a, m = inr a /\ k a = inr b.
Proof. destruct m as [e|a]; simpl; [discriminate | eauto]. Qed.

Lemma calculate_leverage_factor_inv sqrtQ fb df vt ml vp obs fr rf rt returns ps lev :
  calculate_leverage_factor sqrtQ fb df vt ml vp obs fr rf rt returns ps = inr (Some lev) ->
  exists n o ann vtf mlf bin agg,
    rf = VNone /\ as_window vp = inr n /\ as_float obs = inr o /\ math_sqrt sqrtQ o = inr ann /\
    as_float vt = inr vtf /\ as_float ml = inr mlf /\ as_freq fb fr = inr bin /\
    resample_agg rt = Some agg /\
    let df' := if returns then df else calculate_returns df in
    lev = map_cols (leverage_col sqrtQ (index df') n ann vtf mlf bin agg ps) df'.
Proof.
  unfold calculate_leverage_factor. intros H.
  destruct rf; try discriminate. simpl in H.
  apply ebind_inr in H as (n & Hn & H).
  apply ebind_inr in H as (ann & Ha & H).
  apply ebind_inr in Ha as (o & Ho & Ha).
  apply ebind_inr in H as (vtf & Hvt & H).
  apply ebind_inr in H as (mlf & Hml & H).
  apply ebind_inr in H as (bin & Hbin & H).
  unfold resample_time_series_frequency in H.
  destruct (resample_agg rt) as [agg|] eqn:Hagg; simpl in H; [|discriminate].
  exists n, o, ann, vtf, mlf, bin, agg. repeat split; auto.
  injection H as <-. 
  unfold ix_set_nan, fillna_ffill, reindex, clamp_above, df_scalar_op, df_shift, rolling_volatility.
  rewrite !map_cols_compose. unfold map_cols; simpl. f_equal.
  rewrite <- !list_fmap_compose. apply list_fmap_ext. intros _ [s c] _. reflexivity.
Qed.

Lemma calculate_leverage_factor_some sqrtQ fb df vt ml vp obs fr rt (returns : bool) ps
    n o ann vtf mlf bin agg :
  as_window vp = inr n -> as_float obs = inr o -> math_sqrt sqrtQ o = inr ann ->
  as_float vt = inr vtf -> as_float ml = inr mlf -> as_freq fb fr = inr bin ->
  resample_agg rt = Some agg ->
  let df' := if returns then df else calculate_returns df in
  calculate_leverage_factor sqrtQ fb df vt ml vp obs fr VNone rt returns ps
  = inr (Some (map_cols (leverage_col sqrtQ (index df') n ann vtf mlf bin agg ps) df')).
Proof.
  intros Hn Ho Ha Hvt Hml Hbin Hagg df'.
  unfold calculate_leverage_factor, resample_time_series_frequency. simpl.
  rewrite Hn, Ho. simpl. rewrite Ha, Hvt, Hml, Hbin, Hagg. simpl.
  do 2 f_equal.
  unfold ix_set_nan, fillna_ffill, reindex, clamp_above, df_scalar_op, df_shift, rolling_volatility.
  rewrite !map_cols_compose. unfold map_cols; simpl. f_equal.
  rewrite <- !list_fmap_compose. apply list_fmap_ext. intros _ [s c] _. reflexivity.
Qed.

Lemma calculate_returns_index df : index (calculate_returns df) = index df.
Proof. reflexivity. Qed.

Lemma coldata_map_cols f df : coldata (map_cols f df) = f <$> coldata df.
Proof.
  unfold coldata, map_cols; simpl. rewrite <- !list_fmap_compose.
  apply list_fmap_ext. intros _ [s c] _. reflexivity.
Qed.

Lemma columns_map_cols f df : columns (map_cols f df) = columns df.
Proof.
  unfold columns, map_cols; simpl. rewrite <- !list_fmap_compose.
  apply list_fmap_ext. intros _ [s c] _. reflexivity.
Qed.

Lemma blank_head_length n c : length (blank_head n c) = length c.
Proof.
  unfold blank_head. rewrite length_app, length_replicate, length_drop. lia.
Qed.

Lemma blank_head_lookup_lt n c t :
  (t < n)%nat -> (t < length c)%nat -> blank_head n c !! t = Some NaN.
Proof.
  intros Hn Hc. unfold blank_head.
  rewrite lookup_app_l by (rewrite length_replicate; lia).
  apply lookup_replicate_2. lia.
Qed.

Lemma blank_head_lookup_ge n c t :
  (n <= t)%nat -> blank_head n c !! t = c !! t.
Proof.
  intros Hn. unfold blank_head.
  destruct (decide (length c <= n)%nat) as [Hle|Hgt].
  - rewrite drop_ge by lia. rewrite app_nil_r.
    rewrite (lookup_ge_None_2 c) by lia.
    apply lookup_ge_None_2. rewrite length_replicate. lia.
  - rewrite lookup_app_r by (rewrite length_replicate; lia).
    rewrite length_replicate, lookup_drop. f_equal. lia.
Qed.

Lemma ffill_from_length last l : length (ffill_from last l) = length l.
Proof. revert last. induction l; intros; simpl; auto. Qed.

Lemma reindex_col_length src idx c : length (reindex_col src idx c) = length idx.
Proof. unfold reindex_col. apply length_fmap. Qed.

Lemma leverage_col_length sqrtQ idx n ann vt ml bin agg ps c :
  length (leverage_col sqrtQ idx n ann vt ml bin agg ps c) = length idx.
Proof.
  unfold leverage_col, ffill.
  rewrite blank_head_length, ffill_from_length. apply reindex_col_length.
Qed.

(** Claim C4.  When its arguments are usable and no pre-resampling is asked
    for, [calculate_leverage_factor] returns a leverage frame on the index
    and columns of the returns, and the first [vol_periods] observations of
    every column are NaN, whatever the rebalance and forward-fill steps put
    there. *)
Theorem C4_warm_up sqrtQ fb df vt ml vp obs fr rt returns ps n o ann vtf mlf bin agg :
  as_window vp = inr n -> as_float obs = inr o -> math_sqrt sqrtQ o = inr ann ->
  as_float vt = inr vtf -> as_float ml = inr mlf -> as_freq fb fr = inr bin ->
  resample_agg rt = Some agg ->
  exists lev,
    calculate_leverage_factor sqrtQ fb df vt ml vp obs fr VNone rt returns ps
      = inr (Some lev) /\
    index lev = index df /\ columns lev = columns df /\
    forall j c, coldata lev !! j = Some c ->
      length c = length (index df) /\
      forall t, (t < n)%nat -> (t < length c)%nat -> c !! t = Some NaN.
Proof.
  intros Hn Ho Ha Hvt Hml Hbin Hagg.
  eexists. split; [eapply calculate_leverage_factor_some; eauto|].
  split; [destruct returns; reflexivity|].
  split; [rewrite columns_map_cols; destruct returns; [reflexivity | apply columns_map_cols]|].
  intros j c. rewrite coldata_map_cols, list_lookup_fmap.
  destruct (coldata _ !! j) as [c0|]; simpl; [|discriminate].
  intros [= <-]. split.
  - rewrite leverage_col_length. destruct returns; reflexivity.
  - intros t Ht Hc. unfold leverage_col in *. rewrite blank_head_length in Hc.
    apply blank_head_lookup_lt; auto.
Qed.

Section Bounds.
Variable sqrtQ : Q -> Q.
Hypothesis sqrt_nonneg : forall q, (0 <= sqrtQ q)%Q.

Lemma np_sqrt_vol_like v : vol_like (np_sqrt sqrtQ v).
Proof. destruct v; simpl; auto. destruct (Qle_bool 0 q); simpl; auto. Qed.

Lemma math_sqrt_vol_like o ann : math_sqrt sqrtQ o = inr ann -> vol_like ann.
Proof.
  destruct o; simpl; try (intros [= <-]; simpl; auto; fail); try discriminate.
  destruct (Qle_bool 0 q); [intros [= <-]; simpl; auto | discriminate].
Qed.
End Bounds.

Lemma Qcompare_nonneg q : (0 <= q)%Q -> (q ?= 0)%Q = Gt \/ (q ?= 0)%Q = Eq.
Proof.
  intros H. destruct (q ?= 0)%Q eqn:E; auto.
  apply Qlt_alt in E. lra.
Qed.

Lemma sgn_vol_like v : vol_like v -> sgn v = Gt \/ sgn v = Eq.
Proof. destruct v; simpl; auto; [tauto|]. apply Qcompare_nonneg. Qed.

Lemma fmul_vol_like a b : vol_like a -> vol_like b -> vol_like (fmul a b).
Proof.
  intros Ha Hb.
  destruct a as [| | |x], b as [| | |y]; simpl in *; auto; try tauto.
  - destruct (Qcompare_nonneg y Hb) as [-> | ->]; simpl; auto.
  - destruct (Qcompare_nonneg x Ha) as [-> | ->]; simpl; auto.
  - nra.
Qed.

Lemma Forall_shift (P : fval -> Prop) n l : P NaN -> Forall P l -> Forall P (shift n l).
Proof.
  intros HN Hl. unfold shift. destruct (0 <=? n).
  - apply Forall_take, Forall_app. split; auto. apply Forall_replicate; auto.
  - apply Forall_app. split; [apply Forall_drop; auto | apply Forall_replicate; auto].
Qed.

Lemma fdiv_vol_like v x : (0 <= v)%Q -> vol_like x -> vol_like (fdiv (Fin v) x).
Proof.
  intros Hv Hx. destruct x as [| | |y]; simpl in *; auto; try lra.
  destruct (Qeq_bool y 0) eqn:E.
  - destruct (Qcompare_nonneg v Hv) as [-> | ->]; simpl; auto.
  - simpl. apply Qeq_bool_neq in E.
    apply Qle_shift_div_l; lra.
Qed.

Lemma clamp_bounded m x :
  (0 <= m)%Q -> vol_like x -> bounded m (if fgt x (Fin m) then Fin m else x).
Proof.
  intros Hm Hx. destruct x as [| | |q]; simpl in *; try tauto.
  - left; auto.
  - right. simpl. lra.
  - destruct (Qle_bool q m) eqn:E; simpl.
    + apply Qle_bool_iff in E. right. simpl. lra.
    + right. simpl. lra.
Qed.

Lemma not_nan_in_range m l :
  Forall (bounded m) l -> Forall (in_range 0 m) (not_nan l).
Proof.
  intros H. unfold not_nan. induction H as [|x l Hx Hl IH]; simpl.
  - constructor.
  - rewrite filter_cons. destruct (decide (isnan x = false)) as [E|E]; auto.
    constructor; auto. destruct Hx as [-> | Hx]; [discriminate | auto].
Qed.

Lemma inject_Z_S n : (inject_Z (Z.of_nat (S n)) == inject_Z (Z.of_nat n) + 1)%Q.
Proof. rewrite Nat2Z.inj_succ. unfold Z.succ. rewrite inject_Z_plus. reflexivity. Qed.

Lemma inject_Z_nat_nonneg n : (0 <= inject_Z (Z.of_nat n))%Q.
Proof. change 0%Q with (inject_Z 0). rewrite <- Zle_Qle. lia. Qed.

Lemma Forall_not_nan (P : fval -> Prop) l : Forall P l -> Forall P (not_nan l).
Proof.
  rewrite !Forall_forall. intros H x Hx.
  apply list_elem_of_filter in Hx as [_ Hx]. auto.
Qed.

Lemma not_nan_idemp l : not_nan (not_nan l) = not_nan l.
Proof.
  unfold not_nan. induction l as [|x l IH]; [reflexivity|].
  rewrite filter_cons. destruct (decide (isnan x = false)) as [E|E]; [|exact IH].
  rewrite filter_cons_True by exact E. rewrite IH. reflexivity.
Qed.

Lemma inject_Z_S_pos n : (0 < inject_Z (Z.of_nat (S n)))%Q.
Proof. rewrite inject_Z_S. pose proof (inject_Z_nat_nonneg n). lra. Qed.

Lemma Qeq_bool_false_pos k : (0 < k)%Q -> Qeq_bool k 0 = false.
Proof.
  intros H. destruct (Qeq_bool k 0) eqn:E; auto.
  apply Qeq_bool_iff in E. lra.
Qed.

(** ** Rounding keeps the sign *)

Lemma round_half_even_nonneg m d : 0 <= m -> 0 < d -> 0 <= round_half_even m d.
Proof.
  intros Hm Hd. unfold round_half_even.
  pose proof (Z.div_pos m d Hm Hd).
  destruct (2 * (m mod d) ?= d); [destruct (Z.even (m / d))| |]; lia.
Qed.

Lemma binary64_pos_nonneg m d : 0 < m -> 0 < d -> nonneg (binary64_pos m d).
Proof.
  intros Hm Hd. unfold binary64_pos. cbv zeta. set (qe := Z.max _ _).
  destruct (0 <=? qe) eqn:E.
  - apply Z.leb_le in E.
    set (k := round_half_even m (d * 2 ^ qe) * 2 ^ qe).
    assert (Hk : 0 <= k).
    { subst k. apply Z.mul_nonneg_nonneg; [|apply Z.pow_nonneg; lia].
      apply round_half_even_nonneg; [lia|].
      apply Z.mul_pos_pos; [lia | apply Z.pow_pos_nonneg; lia]. }
    destruct (2 ^ 1024 <=? k); [exact I|].
    simpl. change 0%Q with (inject_Z 0). rewrite <- Zle_Qle. exact Hk.
  - simpl. unfold Qle. simpl. rewrite Z.mul_1_r.
    apply round_half_even_nonneg; [|lia].
    apply Z.mul_nonneg_nonneg; [lia | apply Z.pow_nonneg; lia].
Qed.

Lemma binary64_nonneg q : (0 <= q)%Q -> nonneg (binary64 q).
Proof.
  intros Hq. unfold binary64. destruct q as [num den]. simpl.
  destruct num as [|p|p].
  - simpl. lra.
  - apply binary64_pos_nonneg; lia.
  - exfalso. unfold Qle in Hq. simpl in Hq. lia.
Qed.

Lemma binary64_valid q : isnan (binary64 q) = false.
Proof.
  assert (H : forall m d, isnan (binary64_pos m d) = false).
  { intros m d. unfold binary64_pos. cbv zeta. set (qe := Z.max _ _).
    destruct (0 <=? qe); [|reflexivity].
    destruct (2 ^ 1024 <=? _); reflexivity. }
  unfold binary64. destruct (Qnum q) as [|p|p]; [reflexivity | apply H|].
  specialize (H (Zpos p) (Zpos (Qden q))).
  destruct (binary64_pos _ _); try discriminate; reflexivity.
Qed.

Lemma fround_nonneg v : nonneg v -> nonneg (fround v).
Proof. destruct v; simpl; auto. apply binary64_nonneg. Qed.

Lemma fround_valid v : isnan v = false -> isnan (fround v) = false.
Proof. destruct v; simpl; auto. intros _. apply binary64_valid. Qed.

Lemma nonneg_vol_like v : nonneg v -> vol_like v.
Proof. destruct v; simpl; auto. Qed.

Lemma bounded_vol_like m v : bounded m v -> vol_like v.
Proof. intros [-> | H]; [exact I|]. destruct v; simpl in *; tauto. Qed.

Lemma fp_sum_nonneg m l acc :
  nonneg acc -> Forall (in_range 0 m) l ->
  nonneg (foldl (fun s x => fround (fadd s x)) acc l).
Proof.
  revert acc. induction l as [|x l IH]; intros acc Ha Hl; simpl; [exact Ha|].
  inversion Hl as [|? ? Hx Hl']; subst. apply IH; [|exact Hl'].
  apply fround_nonneg.
  destruct x as [| | |q]; simpl in Hx; try tauto.
  destruct acc; simpl in *; try tauto. lra.
Qed.

(** The mean of a bin of values in [[0, m]] is not negative, whatever the
    rounding does to it. *)
Lemma fp_mean_nonneg m l : Forall (bounded m) l -> vol_like (fp_mean l).
Proof.
  intros H. apply not_nan_in_range in H. unfold fp_mean.
  destruct (not_nan l) as [|x l'] eqn:E; [exact I|].
  assert (Hs : nonneg (foldl (fun s x => fround (fadd s x)) (Fin 0) (x :: l'))).
  { apply (fp_sum_nonneg m); [simpl; lra | exact H]. }
  set (s := foldl _ _ _) in *.
  pose proof (inject_Z_S_pos (length l')) as Hk.
  change (S (length l')) with (length (x :: l')) in Hk.
  set (k := inject_Z (Z.of_nat (length (x :: l')))) in *. clearbody k s.
  apply nonneg_vol_like, fround_nonneg.
  destruct s as [| | |q]; simpl in Hs; try tauto.
  - unfold fdiv. rewrite Qeq_bool_false_pos by exact Hk.
    unfold sgn. apply Qgt_alt in Hk. rewrite Hk. exact I.
  - unfold fdiv. rewrite Qeq_bool_false_pos by exact Hk. simpl.
    apply Qle_shift_div_l; lra.
Qed.

Lemma first_valid_bounded m l : Forall (bounded m) l -> bounded m (first_valid l).
Proof.
  intros H. apply (Forall_not_nan _ _) in H. unfold first_valid.
  destruct (not_nan l); simpl; [left; auto | eapply Forall_inv; eauto].
Qed.

Lemma last_valid_bounded m l : Forall (bounded m) l -> bounded m (last_valid l).
Proof.
  intros H. apply (Forall_not_nan _ _) in H. unfold last_valid.
  destruct (last (not_nan l)) as [x|] eqn:E; simpl; [|left; auto].
  rewrite Forall_forall in H. apply H. rewrite last_lookup in E.
  eapply list_elem_of_lookup_2; eauto.
Qed.

(** What the three aggregations have in common: they only see the numbers
    of a bin, and a bin without a number gives NaN. *)
Lemma resample_agg_not_nan rt agg l :
  resample_agg rt = Some agg -> agg l = agg (not_nan l) /\ agg [] = NaN.
Proof.
  unfold resample_agg. intros H.
  repeat (destruct (eq_str rt _); [injection H as <-|]); try discriminate.
  - unfold fp_mean. rewrite not_nan_idemp. auto.
  - unfold first_valid. rewrite not_nan_idemp. auto.
  - unfold last_valid. rewrite not_nan_idemp. auto.
Qed.

Lemma resample_agg_nonneg m rt agg l :
  resample_agg rt = Some agg -> Forall (bounded m) l -> vol_like (agg l).
Proof.
  unfold resample_agg. intros H Hl.
  repeat (destruct (eq_str rt _); [injection H as <-|]); try discriminate.
  - eapply fp_mean_nonneg; eauto.
  - eapply bounded_vol_like, first_valid_bounded; eauto.
  - eapply bounded_vol_like, last_valid_bounded; eauto.
Qed.

(** An aggregation that picks a value of the bin keeps the bound. *)
Lemma resample_agg_bounded m rt agg l :
  resample_agg rt = Some agg -> eq_str rt "mean" = false ->
  Forall (bounded m) l -> bounded m (agg l).
Proof.
  unfold resample_agg. intros H Hm Hl. rewrite Hm in H.
  repeat (destruct (eq_str rt _); [injection H as <-;
    auto using first_valid_bounded, last_valid_bounded|]).
  discriminate.
Qed.

Lemma bin_values_Forall (P : fval -> Prop) bin idx c lab :
  Forall P c -> Forall P (bin_values bin idx c lab).
Proof.
  intros H. unfold bin_values. rewrite Forall_forall in *. intros x Hx.
  apply list_elem_of_fmap in Hx as ([d v] & -> & Hx).
  apply list_elem_of_filter in Hx as [_ Hx].
  apply H. simpl. eapply elem_of_zip_r; eauto.
Qed.

Lemma resample_col_Forall (P R : fval -> Prop) bin agg idx c :
  (forall l, Forall P l -> R (agg l)) ->
  Forall P c -> Forall R (resample_col bin agg idx c).
Proof.
  intros Hagg H. unfold resample_col. apply Forall_fmap, Forall_forall.
  intros lab _. simpl. apply Hagg, bin_values_Forall, H.
Qed.

Lemma reindex_col_Forall (P : fval -> Prop) src idx c :
  P NaN -> Forall P c -> Forall P (reindex_col src idx c).
Proof.
  intros HN H. unfold reindex_col. apply Forall_fmap, Forall_forall.
  intros d _. simpl. destruct (index_of d src) as [i|]; simpl; auto.
  destruct (c !! i) as [x|] eqn:E; simpl; auto.
  rewrite Forall_forall in H. apply H. eapply list_elem_of_lookup_2; eauto.
Qed.

Lemma ffill_from_Forall (P : fval -> Prop) last l :
  P last -> Forall P l -> Forall P (ffill_from last l).
Proof.
  intros Hlast H. revert last Hlast.
  induction H as [|x l Hx Hl IH]; intros last Hlast; simpl; constructor.
  - destruct (isnan x); auto.
  - apply IH. destruct (isnan x); auto.
Qed.

Lemma blank_head_Forall (P : fval -> Prop) n c :
  P NaN -> Forall P c -> Forall P (blank_head n c).
Proof.
  intros HN H. unfold blank_head. apply Forall_app. split.
  - apply Forall_replicate; auto.
  - apply Forall_drop; auto.
Qed.

Lemma leverage_col_eq sqrtQ idx n ann vt ml bin agg ps c :
  leverage_col sqrtQ idx n ann vt ml bin agg ps c
  = blank_head n (ffill (reindex_col (bin_labels bin idx) idx
      (resample_col bin agg idx (raw_leverage_col sqrtQ n ann vt ml ps c)))).
Proof. reflexivity. Qed.

(** The leverage before the resampling lies in [[0, m]]: line 900 clamps
    it. *)
Lemma raw_leverage_col_bounded sqrtQ n ann v m ps c :
  (forall q, (0 <= sqrtQ q)%Q) ->
  vol_like ann -> (0 <= v)%Q -> (0 <= m)%Q ->
  Forall (bounded m) (raw_leverage_col sqrtQ n ann (Fin v) (Fin m) ps c).
Proof.
  intros Hs Hann Hv Hm. unfold raw_leverage_col.
  apply Forall_fmap. eapply Forall_impl; [|intros x Hx; apply clamp_bounded; [exact Hm | exact Hx]].
  apply Forall_fmap. eapply Forall_impl; [|intros x Hx; apply fdiv_vol_like; [exact Hv | exact Hx]].
  apply Forall_shift; [simpl; auto|].
  apply Forall_fmap. unfold rolling_std_col. apply Forall_fmap, Forall_forall.
  intros t _. simpl. apply fmul_vol_like; auto.
  destruct (window n c t); [apply np_sqrt_vol_like; auto | simpl; auto].
Qed.

(** What holds of the aggregate of every bin of clamped values holds of
    every value of the leverage. *)
Lemma leverage_col_Forall (R : fval -> Prop) sqrtQ idx n ann v m bin agg ps c :
  (forall q, (0 <= sqrtQ q)%Q) ->
  vol_like ann -> (0 <= v)%Q -> (0 <= m)%Q ->
  R NaN -> (forall l, Forall (bounded m) l -> R (agg l)) ->
  Forall R (leverage_col sqrtQ idx n ann (Fin v) (Fin m) bin agg ps c).
Proof.
  intros Hs Hann Hv Hm HN Hagg. rewrite leverage_col_eq. unfold ffill.
  apply blank_head_Forall; auto. apply ffill_from_Forall; auto.
  apply reindex_col_Forall; auto.
  apply (resample_col_Forall (bounded m)); [exact Hagg|].
  apply raw_leverage_col_bounded; auto.
Qed.

(** Claim C3, as amended.  For a non-negative [vol_target] and
    [vol_max_leverage], no value of the leverage frame returned by
    [calculate_leverage_factor] is negative, and every value that is not
    NaN is the rebalance aggregate of a bin of values that are NaN or lie
    in [[0, vol_max_leverage]]: the clamp of line 900 comes before the
    resampling of line 902.  With the resample type ['first'] or ['last']
    the aggregate is one of these values, so it lies in
    [[0, vol_max_leverage]]; with ['mean'] it is their mean in double
    precision, and no bound by the cap is stated of it. *)
Theorem C3_leverage_bound sqrtQ fb df vt ml vp obs fr rf rt returns ps lev v m :
  (forall q, (0 <= sqrtQ q)%Q) ->
  as_float vt = inr (Fin v) -> (0 <= v)%Q ->
  as_float ml = inr (Fin m) -> (0 <= m)%Q ->
  calculate_leverage_factor sqrtQ fb df vt ml vp obs fr rf rt returns ps
    = inr (Some lev) ->
  exists agg,
    resample_agg rt = Some agg /\
    forall j t x, cell lev j t = Some x ->
      vol_like x /\
      (x = NaN \/ exists l, Forall (bounded m) l /\ x = agg l) /\
      (eq_str rt "mean" = false -> x = NaN \/ in_range 0 m x).
Proof.
  intros Hs Hvt Hv Hml Hm H.
  apply calculate_leverage_factor_inv in H
    as (n & o & ann & vtf & mlf & bin & agg & -> & Hn & Ho & Ha & Hvt' & Hml' & Hbin & Hagg & ->).
  rewrite Hvt in Hvt'. rewrite Hml in Hml'. injection Hvt' as <-. injection Hml' as <-.
  exists agg. split; [exact Hagg|]. intros j t x Hx.
  unfold cell in Hx. rewrite coldata_map_cols, list_lookup_fmap in Hx.
  destruct (coldata _ !! j) as [c|]; simpl in Hx; [|discriminate].
  pose proof (math_sqrt_vol_like _ Hs _ _ Ha) as Hann.
  apply list_elem_of_lookup_2 in Hx.
  split; [|split].
  - revert x Hx. apply Forall_forall.
    apply leverage_col_Forall; auto; [exact I|].
    intros l Hl. eapply resample_agg_nonneg; eauto.
  - revert x Hx. apply Forall_forall.
    apply leverage_col_Forall; auto. intros l Hl. right. eauto.
  - intros Hmean. revert x Hx. apply Forall_forall.
    apply (leverage_col_Forall (bounded m)); auto; [left; reflexivity|].
    intros l Hl. eapply resample_agg_bounded; eauto.
Qed.

(** Claim C3 fails as stated for the resample type ['mean'].  On the flat
    series, with weekly rebalancing, a window of five observations and both
    the target and the cap at 0.1, the three leverages of the first week
    are clamped to the cap and their mean, in double precision, is the next
    double above it. *)
Lemma C3_counterexample :
  exists lev x,
    calculate_leverage_factor sqrt_approx offset_aliases flat_returns
      (VFloat (Fin tenth)) (VFloat (Fin tenth)) (VInt 5) (VInt 252) (VStr "W")
      VNone (VStr "mean") true 0 = inr (Some lev) /\
    cell lev 0 6 = Some (Fin x) /\
    ~ (Fin x = NaN \/ in_range 0 tenth (Fin x)).
Proof.
  eexists _, _. split; [vm_compute; reflexivity|].
  split; [vm_compute; reflexivity|].
  intros [H | [_ H]]; [discriminate|]. vm_compute in H. apply H. reflexivity.
Qed.

(** ** A series that does not move *)

Lemma fsum_replicate k q :
  exists s, fsum (replicate k (Fin q)) = Fin s /\ (s == inject_Z (Z.of_nat k) * q)%Q.
Proof.
  induction k as [|k (s & Hs & E)].
  - exists 0%Q. split; [reflexivity|]. change (inject_Z (Z.of_nat 0)) with 0%Q. lra.
  - exists (q + s)%Q. split; [simpl; rewrite Hs; reflexivity|].
    rewrite inject_Z_S. lra.
Qed.

Lemma fsum_has_nan l : Exists (fun v => isnan v = true) l -> fsum l = NaN.
Proof.
  induction 1 as [x l Hx | x l _ IH]; simpl.
  - destruct x; try discriminate. reflexivity.
  - rewrite IH. destruct x; reflexivity.
Qed.

Lemma fsum_all_nan l : l <> [] -> Forall (fun v => v = NaN) l -> fsum l = NaN.
Proof.
  intros Hne H. apply fsum_has_nan. destruct H as [|x l Hx _]; [congruence|].
  subst. left. reflexivity.
Qed.

Lemma nan_split (l : list fval) :
  {Forall (fun v => isnan v = false) l} + {Exists (fun v => isnan v = true) l}.
Proof. apply Forall_Exists_dec. intros x. destruct (isnan x); auto. Qed.

Lemma nan_or_replicate x l :
  Forall (nan_or x) l -> Forall (fun v => isnan v = false) l ->
  l = replicate (length l) x.
Proof.
  intros H1 H2. symmetry. apply replicate_as_Forall_2; auto.
  rewrite Forall_forall in *. intros v Hv.
  destruct (H1 v Hv) as [-> | ->]; auto.
  specialize (H2 NaN Hv). discriminate.
Qed.

Lemma sample_var_constant r w :
  Forall (nan_or (Fin r)) w -> zero_or_nan (sample_var w).
Proof.
  intros H. unfold sample_var.
  destruct (length w) as [|[|n]] eqn:Hlen; simpl; auto.
  destruct (nan_split w) as [Hfin | Hnan].
  - pose proof (nan_or_replicate _ _ H Hfin) as Hw. rewrite Hlen in Hw.
    destruct (fsum_replicate (S (S n)) r) as (s & Hs & Es).
    assert (Hm : exists mu, fmean w = Fin mu /\ (mu == r)%Q).
    { unfold fmean. rewrite Hlen, Hw, Hs. unfold fdiv.
      rewrite Qeq_bool_false_pos by apply inject_Z_S_pos.
      eexists. split; [reflexivity|]. rewrite Es.
      pose proof (inject_Z_S_pos (S n)). field. lra. }
    destruct Hm as (mu & -> & Emu).
    rewrite Hw at 1. rewrite fmap_replicate. simpl fmul.
    destruct (fsum_replicate (S (S n)) ((r + - mu) * (r + - mu))) as (s2 & -> & Es2).
    unfold fdiv. rewrite Qeq_bool_false_pos by apply inject_Z_S_pos.
    simpl. rewrite Es2, Emu.
    pose proof (inject_Z_S_pos n). field. lra.
  - assert (Hm : fmean w = NaN) by (unfold fmean; rewrite fsum_has_nan by auto; reflexivity).
    rewrite Hm. rewrite fsum_all_nan; [simpl; auto | |].
    + destruct w; discriminate.
    + apply Forall_fmap, Forall_forall. intros x _. simpl.
      destruct x; reflexivity.
Qed.

Lemma Forall_take_drop (P : fval -> Prop) n k c :
  Forall P c -> Forall P (take n (drop k c)).
Proof. intros. apply Forall_take, Forall_drop. auto. Qed.

Section Constant.
Variable sqrtQ : Q -> Q.
Hypothesis sqrt_zero : forall q, (q == 0)%Q -> (sqrtQ q == 0)%Q.

Lemma np_sqrt_zero v : zero_or_nan v -> zero_or_nan (np_sqrt sqrtQ v).
Proof.
  destruct v as [| | |z]; simpl; auto.
  intros Hz. destruct (Qle_bool 0 z); simpl; auto.
Qed.

Lemma rolling_std_col_constant r n c :
  Forall (nan_or (Fin r)) c -> Forall zero_or_nan (rolling_std_col sqrtQ n c).
Proof.
  intros H. unfold rolling_std_col. apply Forall_fmap, Forall_forall.
  intros t _. simpl. unfold window. case_bool_decide; simpl; auto.
  apply np_sqrt_zero, (sample_var_constant r). apply Forall_take_drop. auto.
Qed.
End Constant.

Lemma fmul_zero_or_nan x a : zero_or_nan x -> zero_or_nan (fmul x a).
Proof.
  destruct x as [| | |z], a as [| | |y]; simpl; auto; try tauto.
  - intros Hz. apply Qeq_alt in Hz. rewrite Hz. simpl. auto.
  - intros Hz. apply Qeq_alt in Hz. rewrite Hz. simpl. auto.
  - intros Hz. nra.
Qed.

Lemma fdiv_zero_or_nan v x :
  (0 < v)%Q -> zero_or_nan x -> nan_or PInf (fdiv (Fin v) x).
Proof.
  intros Hv. destruct x as [| | |z]; simpl; try tauto.
  - left; auto.
  - intros Hz. apply Qeq_bool_iff in Hz. rewrite Hz.
    apply Qgt_alt in Hv. rewrite Hv. right; auto.
Qed.

Lemma clamp_inf m x :
  nan_or PInf x -> nan_or (Fin m) (if fgt x (Fin m) then Fin m else x).
Proof. intros [-> | ->]; simpl; [left | right]; auto. Qed.

Lemma not_nan_replicate k m : not_nan (replicate k (Fin m)) = replicate k (Fin m).
Proof.
  unfold not_nan. induction k as [|k IH]; [reflexivity|]. simpl.
  rewrite filter_cons_True by reflexivity. rewrite IH. reflexivity.
Qed.

Lemma not_nan_constant x l :
  Forall (nan_or x) l -> not_nan l = replicate (length (not_nan l)) x.
Proof.
  intros H. apply nan_or_replicate; [apply Forall_not_nan; exact H|].
  apply Forall_forall. intros v Hv. apply list_elem_of_filter in Hv. tauto.
Qed.

Lemma resample_agg_constant m rt agg l :
  resample_agg rt = Some agg -> Forall (nan_or (Fin m)) l ->
  copies_of agg (Fin m) (agg l).
Proof.
  intros Hagg Hl. destruct (resample_agg_not_nan rt agg l Hagg) as [E E0].
  rewrite E, (not_nan_constant _ _ Hl).
  destruct (length (not_nan l)) as [|k]; [left; exact E0 | right; eauto].
Qed.

Lemma fp_sum_valid m k acc :
  isnan acc = false ->
  isnan (foldl (fun s x => fround (fadd s x)) acc (replicate k (Fin m))) = false.
Proof.
  revert acc. induction k as [|k IH]; intros acc Ha; simpl; [exact Ha|].
  apply IH, fround_valid. destruct acc; try discriminate; reflexivity.
Qed.

(** Copies of a number never aggregate to NaN, and an aggregation that picks
    a value of the bin gives the number back. *)
Lemma resample_agg_copies_valid rt agg m k :
  resample_agg rt = Some agg -> isnan (agg (replicate (S k) (Fin m))) = false.
Proof.
  unfold resample_agg. intros H.
  repeat (destruct (eq_str rt _); [injection H as <-|]); try discriminate.
  - unfold fp_mean. rewrite not_nan_replicate.
    change (replicate (S k) (Fin m)) with (Fin m :: replicate k (Fin m)).
    cbv iota beta. apply fround_valid.
    change (Fin m :: replicate k (Fin m)) with (replicate (S k) (Fin m)).
    pose proof (fp_sum_valid m (S k) (Fin 0) eq_refl) as Hs.
    rewrite length_replicate.
    pose proof (Qeq_bool_false_pos _ (inject_Z_S_pos k)) as Hk.
    destruct (foldl _ _ _) as [| | |s]; try discriminate; unfold fdiv; rewrite Hk.
    + reflexivity.
    + unfold sgn. pose proof (inject_Z_S_pos k) as Hp. apply Qgt_alt in Hp.
      rewrite Hp. reflexivity.
    + reflexivity.
  - unfold first_valid. rewrite not_nan_replicate. reflexivity.
  - unfold last_valid. rewrite not_nan_replicate.
    change (replicate (S k) (Fin m)) with (replicate (1 + k) (Fin m)).
    rewrite Nat.add_comm, replicate_add. simpl. rewrite last_snoc. reflexivity.
Qed.

Lemma resample_agg_copies_pick rt agg m k :
  resample_agg rt = Some agg -> eq_str rt "mean" = false ->
  agg (replicate (S k) (Fin m)) = Fin m.
Proof.
  unfold resample_agg. intros H Hm. rewrite Hm in H.
  repeat (destruct (eq_str rt _); [injection H as <-|]); try discriminate.
  - unfold first_valid. rewrite not_nan_replicate. reflexivity.
  - unfold last_valid. rewrite not_nan_replicate.
    change (replicate (S k) (Fin m)) with (replicate (1 + k) (Fin m)).
    rewrite Nat.add_comm, replicate_add. simpl. rewrite last_snoc. reflexivity.
Qed.

Lemma raw_leverage_col_constant sqrtQ r n ann v m ps c :
  (forall q, (q == 0)%Q -> (sqrtQ q == 0)%Q) ->
  (0 < v)%Q ->
  Forall (nan_or (Fin r)) c ->
  Forall (nan_or (Fin m)) (raw_leverage_col sqrtQ n ann (Fin v) (Fin m) ps c).
Proof.
  intros Hs Hv Hc. unfold raw_leverage_col.
  apply Forall_fmap. eapply Forall_impl; [|intros x Hx; apply clamp_inf; exact Hx].
  apply Forall_fmap. eapply Forall_impl; [|intros x Hx; apply fdiv_zero_or_nan; [exact Hv | exact Hx]].
  apply Forall_shift; [simpl; auto|].
  apply Forall_fmap. eapply Forall_impl; [eapply rolling_std_col_constant; eauto|].
  intros x Hx. simpl. apply fmul_zero_or_nan; auto.
Qed.

Lemma leverage_col_constant sqrtQ idx r n ann v m bin rt agg ps c :
  (forall q, (q == 0)%Q -> (sqrtQ q == 0)%Q) ->
  (0 < v)%Q -> resample_agg rt = Some agg ->
  Forall (nan_or (Fin r)) c ->
  Forall (copies_of agg (Fin m))
    (leverage_col sqrtQ idx n ann (Fin v) (Fin m) bin agg ps c).
Proof.
  intros Hs Hv Hagg Hc. rewrite leverage_col_eq. unfold ffill.
  assert (HN : copies_of agg (Fin m) NaN) by (left; reflexivity).
  apply blank_head_Forall; auto. apply ffill_from_Forall; auto.
  apply reindex_col_Forall; auto.
  apply (resample_col_Forall (nan_or (Fin m))).
  - intros l Hl. eapply resample_agg_constant; eauto.
  - apply (raw_leverage_col_constant sqrtQ r); auto.
Qed.

Lemma sample_var_replicate r n :
  (2 <= n)%nat -> exists z, sample_var (replicate n (Fin r)) = Fin z /\ (z == 0)%Q.
Proof.
  intros Hn. destruct n as [|[|n]]; try lia.
  unfold sample_var. rewrite length_replicate.
  destruct (fsum_replicate (S (S n)) r) as (s & Hs & Es).
  assert (Hm : exists mu, fmean (replicate (S (S n)) (Fin r)) = Fin mu /\ (mu == r)%Q).
  { unfold fmean. rewrite length_replicate, Hs. unfold fdiv.
    rewrite Qeq_bool_false_pos by apply inject_Z_S_pos.
    eexists. split; [reflexivity|]. rewrite Es.
    pose proof (inject_Z_S_pos (S n)). field. lra. }
  destruct Hm as (mu & -> & Emu).
  rewrite fmap_replicate. simpl fmul.
  destruct (fsum_replicate (S (S n)) ((r + - mu) * (r + - mu))) as (s2 & -> & Es2).
  unfold fdiv. rewrite Qeq_bool_false_pos by apply inject_Z_S_pos.
  eexists. split; [reflexivity|]. rewrite Es2, Emu.
  pose proof (inject_Z_S_pos n). field. lra.
Qed.

Lemma window_constant r n c k :
  (n <= S k)%nat ->
  (forall t, (S k - n <= t)%nat -> (t <= k)%nat -> c !! t = Some (Fin r)) ->
  window n c k = Some (replicate n (Fin r)).
Proof.
  intros Hn Hc. unfold window. rewrite bool_decide_eq_true_2 by lia. f_equal.
  symmetry. apply replicate_as_Forall. split.
  - rewrite length_take, length_drop.
    destruct (decide (n = 0)%nat) as [->|Hn0]; [reflexivity|].
    assert (k < length c)%nat by (eapply lookup_lt_Some, (Hc k); lia). lia.
  - apply Forall_lookup. intros p x Hp.
    assert (p < n)%nat.
    { apply lookup_lt_Some in Hp. rewrite length_take in Hp. lia. }
    rewrite lookup_take_lt, lookup_drop in Hp by lia.
    rewrite Hc in Hp by lia. congruence.
Qed.

Lemma lookup_fmap_seq {A} (f : nat -> A) n k :
  (k < n)%nat -> (f <$> seq 0 n) !! k = Some (f k).
Proof. intros H. rewrite list_lookup_fmap, lookup_seq_lt by lia. reflexivity. Qed.

Lemma shift_0 l : shift 0 l = l.
Proof. unfold shift. simpl. apply take_ge. lia. Qed.

Lemma rolling_std_col_length sqrtQ n c : length (rolling_std_col sqrtQ n c) = length c.
Proof. unfold rolling_std_col. rewrite length_fmap, length_seq. reflexivity. Qed.

Lemma raw_leverage_col_max sqrtQ r n a v m c k :
  (forall q, (q == 0)%Q -> (sqrtQ q == 0)%Q) ->
  (0 < v)%Q -> (2 <= n)%nat -> (n <= S k)%nat ->
  (forall t, (S k - n <= t)%nat -> (t <= k)%nat -> c !! t = Some (Fin r)) ->
  raw_leverage_col sqrtQ n (Fin a) (Fin v) (Fin m) 0 c !! k = Some (Fin m).
Proof.
  intros Hs Hv Hn Hk Hc. unfold raw_leverage_col.
  rewrite shift_0, !list_lookup_fmap. unfold rolling_std_col.
  assert (k < length c)%nat by (eapply lookup_lt_Some, (Hc k); lia).
  rewrite lookup_fmap_seq by lia.
  rewrite (window_constant r) by auto.
  destruct (sample_var_replicate r n Hn) as (z & -> & Ez).
  simpl. assert (Hle : Qle_bool 0 z = true) by (apply Qle_bool_iff; lra).
  rewrite Hle. simpl.
  assert (Hz : Qeq_bool (sqrtQ z * a) 0 = true).
  { apply Qeq_bool_iff. rewrite (Hs z Ez). lra. }
  rewrite Hz. apply Qgt_alt in Hv. rewrite Hv. reflexivity.
Qed.

Lemma index_of_elem d (l : list date) :
  d ∈ l -> exists p, index_of d l = Some p /\ l !! p = Some d.
Proof.
  induction l as [|x l IH]; intros H; [inversion H|].
  simpl. case_bool_decide as E.
  - subst. exists 0%nat. auto.
  - apply elem_of_cons in H as [-> | H]; [congruence|].
    destruct (IH H) as (p & -> & Hp). exists (S p). auto.
Qed.

Lemma ffill_from_all_valid last l :
  isnan last = false -> Forall (fun v => isnan v = false) (ffill_from last l).
Proof.
  revert last. induction l as [|x l IH]; intros last H; simpl; constructor.
  - destruct (isnan x) eqn:E; auto.
  - apply IH. destruct (isnan x) eqn:E; auto.
Qed.

Lemma ffill_from_valid_after last l i t x :
  l !! i = Some x -> isnan x = false -> (i <= t)%nat -> (t < length l)%nat ->
  exists y, ffill_from last l !! t = Some y /\ isnan y = false.
Proof.
  revert last i t. induction l as [|z l IH]; intros last i t Hi Hx Hit Ht; [discriminate|].
  destruct i as [|i].
  - injection Hi as ->.
    pose proof (ffill_from_all_valid last (x :: l)) as HF.
    simpl in HF. rewrite Hx in HF.
    assert (Hlen : (t < length (ffill_from last (x :: l)))%nat)
      by (rewrite ffill_from_length; auto).
    apply lookup_lt_is_Some in Hlen as [y Hy]. exists y. split; auto.
    simpl in Hy. rewrite Hx in Hy.
    assert (HF' : Forall (fun v => isnan v = false) (x :: ffill_from x l)).
    { constructor; auto. apply ffill_from_all_valid; auto. }
    rewrite Forall_lookup in HF'. eapply HF'; eauto.
  - destruct t as [|t]; [lia|]. simpl in *.
    eapply IH; eauto; lia.
Qed.

Lemma index_of_None d (l : list date) : d ∉ l -> index_of d l = None.
Proof.
  induction l as [|x l IH]; simpl; [reflexivity|]. intros H.
  rewrite bool_decide_eq_false_2.
  - rewrite IH; [reflexivity|]. intros Hin. apply H. right. exact Hin.
  - intros ->. apply H. left.
Qed.

(** The resampled leverage, read back on the dates of the returns: on the
    label of a bin the aggregate of the bin, NaN elsewhere. *)
Lemma rebalanced_lookup bin agg idx c u d :
  idx !! u = Some d ->
  reindex_col (bin_labels bin idx) idx (resample_col bin agg idx c) !! u
  = Some (if decide (d ∈ bin <$> idx) then agg (bin_values bin idx c d) else NaN).
Proof.
  intros Hu. unfold reindex_col. rewrite list_lookup_fmap, Hu. simpl. f_equal.
  destruct (decide (d ∈ bin <$> idx)) as [Hin|Hin].
  - assert (Hl : d ∈ bin_labels bin idx)
      by (unfold bin_labels; apply elem_of_remove_dups; exact Hin).
    destruct (index_of_elem _ _ Hl) as (p & -> & Hp). simpl.
    unfold resample_col. rewrite list_lookup_fmap, Hp. reflexivity.
  - rewrite index_of_None; [reflexivity|].
    unfold bin_labels. rewrite elem_of_remove_dups. exact Hin.
Qed.

Lemma leverage_col_constant_max sqrtQ idx r n a v m bin rt agg c i k t :
  (forall q, (q == 0)%Q -> (sqrtQ q == 0)%Q) ->
  (0 < v)%Q -> resample_agg rt = Some agg ->
  Forall (nan_or (Fin r)) c ->
  (2 <= n)%nat -> (n <= S k)%nat ->
  (forall t', (S k - n <= t')%nat -> (t' <= k)%nat -> c !! t' = Some (Fin r)) ->
  (idx !! k ≫= fun dk => Some (bin dk)) = idx !! i ->
  is_Some (idx !! k) ->
  (i <= t)%nat -> (n <= t)%nat -> (t < length idx)%nat ->
  exists x, leverage_col sqrtQ idx n (Fin a) (Fin v) (Fin m) bin agg 0 c !! t = Some x
            /\ isnan x = false.
Proof.
  intros Hs Hv Hagg Hc Hn Hk Hwin Hlab [dk Hdk] Hit Hnt Ht.
  rewrite Hdk in Hlab. simpl in Hlab. symmetry in Hlab.
  rewrite leverage_col_eq, blank_head_lookup_ge by lia.
  set (raw := raw_leverage_col sqrtQ n (Fin a) (Fin v) (Fin m) 0 c).
  assert (Hraw : Forall (nan_or (Fin m)) raw).
  { apply (raw_leverage_col_constant sqrtQ r); simpl; auto. }
  assert (Hrk : raw !! k = Some (Fin m)) by (eapply raw_leverage_col_max; eauto).
  set (ri := reindex_col (bin_labels bin idx) idx (resample_col bin agg idx raw)).
  assert (Hri : exists x, ri !! i = Some x /\ isnan x = false).
  { unfold ri. rewrite (rebalanced_lookup bin agg idx raw i (bin dk) Hlab).
    eexists. split; [reflexivity|].
    rewrite decide_True.
    2: { apply list_elem_of_fmap. exists dk. split; [reflexivity|].
         eapply list_elem_of_lookup_2; eauto. }
    assert (Hin : Fin m ∈ bin_values bin idx raw (bin dk)).
    { unfold bin_values. apply list_elem_of_fmap. exists (dk, Fin m). split; auto.
      apply list_elem_of_filter. split; auto.
      apply list_elem_of_lookup. exists k.
      rewrite lookup_zip_with, Hdk. simpl. rewrite Hrk. reflexivity. }
    set (l := bin_values bin idx raw (bin dk)) in *.
    assert (HF : Forall (nan_or (Fin m)) l) by (apply bin_values_Forall; auto).
    destruct (resample_agg_not_nan rt agg l Hagg) as [E _].
    rewrite E, (not_nan_constant _ _ HF).
    assert (Hnn : Fin m ∈ not_nan l) by (apply list_elem_of_filter; auto).
    destruct (not_nan l) as [|y l']; [inversion Hnn|].
    simpl length. eapply resample_agg_copies_valid; eauto. }
  destruct Hri as (x & Hx & Vx).
  assert (Hlen : length ri = length idx) by apply reindex_col_length.
  destruct (ffill_from_valid_after NaN ri i t x Hx Vx Hit) as (y & Hy & Vy); [lia|].
  exists y. split; auto.
Qed.

Lemma not_nan_all_nan l : Forall (fun v => v = NaN) l -> not_nan l = [].
Proof.
  unfold not_nan. induction 1 as [|x l -> _ IH]; [reflexivity|].
  rewrite filter_cons_False by discriminate. exact IH.
Qed.

Lemma ffill_from_nan_prefix l t :
  (t < length l)%nat ->
  (forall u, (u <= t)%nat -> l !! u = Some NaN) ->
  ffill_from NaN l !! t = Some NaN.
Proof.
  revert t. induction l as [|x l IH]; intros t Ht H; [simpl in Ht; lia|].
  pose proof (H 0%nat (Nat.le_0_l _)) as H0. injection H0 as ->. simpl.
  destruct t as [|t]; [reflexivity|]. simpl.
  apply IH; [simpl in Ht; lia|]. intros u Hu. apply (H (S u)). lia.
Qed.

(** Before its window is full a row has no leverage. *)
Lemma raw_leverage_col_early sqrtQ n ann vt ml c k x :
  (S k < n)%nat ->
  raw_leverage_col sqrtQ n ann vt ml 0 c !! k = Some x -> x = NaN.
Proof.
  intros Hk. unfold raw_leverage_col.
  rewrite shift_0, !list_lookup_fmap. unfold rolling_std_col.
  destruct (decide (k < length c)%nat) as [Hc|Hc].
  - rewrite lookup_fmap_seq by exact Hc. simpl. unfold window.
    rewrite bool_decide_eq_false_2 by lia. simpl.
    destruct vt; simpl; intros [= <-]; reflexivity.
  - rewrite (proj2 (lookup_ge_None _ _)); [discriminate|].
    rewrite length_fmap, length_seq. lia.
Qed.

(** As long as no date of the index up to row [t] labels a bin holding a
    row with a full window, the leverage at [t] is NaN. *)
Lemma leverage_col_before sqrtQ idx n ann vt ml bin rt agg c t :
  resample_agg rt = Some agg ->
  (t < length idx)%nat ->
  (forall u du k dk, (u <= t)%nat -> idx !! u = Some du -> idx !! k = Some dk ->
     bin dk = du -> (S k < n)%nat) ->
  leverage_col sqrtQ idx n ann vt ml bin agg 0 c !! t = Some NaN.
Proof.
  intros Hagg Ht H. rewrite leverage_col_eq.
  set (raw := raw_leverage_col sqrtQ n ann vt ml 0 c).
  set (ri := reindex_col (bin_labels bin idx) idx (resample_col bin agg idx raw)).
  assert (Hlen : length ri = length idx) by apply reindex_col_length.
  destruct (decide (t < n)%nat) as [Hn|Hn].
  { apply blank_head_lookup_lt; [exact Hn|]. unfold ffill.
    rewrite ffill_from_length. lia. }
  rewrite blank_head_lookup_ge by lia. apply ffill_from_nan_prefix; [lia|].
  intros u Hu.
  destruct (lookup_lt_is_Some_2 idx u) as [du Hdu]; [lia|].
  unfold ri. rewrite (rebalanced_lookup bin agg idx raw u du Hdu). f_equal.
  destruct (decide (du ∈ bin <$> idx)); [|reflexivity].
  destruct (resample_agg_not_nan rt agg (bin_values bin idx raw du) Hagg) as [E E0].
  rewrite E, not_nan_all_nan; [exact E0|].
  unfold bin_values. apply Forall_fmap, Forall_forall. intros [dk x] Hx. simpl.
  apply list_elem_of_filter in Hx as [Hb Hx]. simpl in Hb.
  apply list_elem_of_lookup in Hx as [k Hk].
  apply lookup_zip_with_Some in Hk as (d' & x' & [= <- <-] & Hd' & Hx').
  eapply raw_leverage_col_early; [|exact Hx']. eapply H; eauto.
Qed.

Lemma math_sqrt_fin sqrtQ o :
  (0 <= o)%Q -> math_sqrt sqrtQ (Fin o) = inr (Fin (sqrtQ o)).
Proof. intros H. simpl. apply Qle_bool_iff in H. rewrite H. reflexivity. Qed.

(** Claim C5, as amended.  For a returns series that does not move (every
    observed return is the same number [r]), a positive [vol_target] and
    period shift 0, [calculate_leverage_factor] returns a frame whose values
    are all NaN or the rebalance aggregate of copies of [vol_max_leverage]:
    the infinity produced by the division by the zero volatility is clamped
    before the resampling.  With the resample type ['first'] or ['last']
    that aggregate is [vol_max_leverage] itself; with ['mean'] it is the
    mean of the copies in double precision.  With a window of at least two
    observations the value is such an aggregate, and not NaN, at every row
    [t] past the warm-up once some date [i <= t] of the index labels a
    rebalance bin that holds a row [k] with a full window; as long as no
    date up to [t] labels a bin holding a row with a full window, the value
    is NaN. *)
Theorem C5_constant_returns sqrtQ fb df vt ml vp obs fr rt r v m o n bin agg :
  (forall q, (q == 0)%Q -> (sqrtQ q == 0)%Q) ->
  Forall (Forall (nan_or (Fin r))) (coldata df) ->
  as_float vt = inr (Fin v) -> (0 < v)%Q ->
  as_float ml = inr (Fin m) ->
  as_window vp = inr n ->
  as_float obs = inr (Fin o) -> (0 <= o)%Q ->
  as_freq fb fr = inr bin ->
  resample_agg rt = Some agg ->
  exists lev,
    calculate_leverage_factor sqrtQ fb df vt ml vp obs fr VNone rt true 0
      = inr (Some lev) /\
    (forall j t x, cell lev j t = Some x ->
       copies_of agg (Fin m) x /\
       (eq_str rt "mean" = false -> x = NaN \/ x = Fin m)) /\
    (forall j c i k t,
       coldata df !! j = Some c ->
       (2 <= n)%nat -> (n <= S k)%nat ->
       (forall t', (S k - n <= t')%nat -> (t' <= k)%nat -> c !! t' = Some (Fin r)) ->
       is_Some (index df !! k) ->
       (index df !! k ≫= fun dk => Some (bin dk)) = index df !! i ->
       (i <= t)%nat -> (n <= t)%nat -> (t < length (index df))%nat ->
       exists x k', cell lev j t = Some x /\ isnan x = false /\
                    x = agg (replicate (S k') (Fin m))) /\
    (forall j t,
       (j < length (coldata df))%nat -> (t < length (index df))%nat ->
       (forall u du k dk, (u <= t)%nat ->
          index df !! u = Some du -> index df !! k = Some dk -> bin dk = du ->
          (S k < n)%nat) ->
       cell lev j t = Some NaN).
Proof.
  intros Hs Hdf Hvt Hv Hml Hn Ho Ho0 Hbin Hagg.
  eexists. split.
  { eapply calculate_leverage_factor_some; eauto.
    rewrite <- (math_sqrt_fin sqrtQ o Ho0). reflexivity. }
  simpl.
  assert (Hall : forall j c, coldata df !! j = Some c ->
    Forall (copies_of agg (Fin m))
      (leverage_col sqrtQ (index df) n (Fin (sqrtQ o)) (Fin v) (Fin m) bin agg 0 c)).
  { intros j c Hc. eapply (leverage_col_constant sqrtQ (index df) r); eauto.
    rewrite Forall_lookup in Hdf. eapply Hdf; eauto. }
  split; [|split].
  - intros j t x. unfold cell. rewrite coldata_map_cols, list_lookup_fmap.
    destruct (coldata df !! j) as [c|] eqn:Hc; simpl; [|discriminate].
    intros Hx. pose proof (Hall j c Hc) as HF.
    rewrite Forall_lookup in HF. specialize (HF t x Hx).
    split; [exact HF|]. intros Hmean.
    destruct HF as [-> | [k ->]]; [left; reflexivity | right].
    eapply resample_agg_copies_pick; eauto.
  - intros j c i k t Hc Hn2 Hk Hwin Hdk Hlab Hit Hnt Ht.
    unfold cell. rewrite coldata_map_cols, list_lookup_fmap, Hc. simpl.
    destruct (leverage_col_constant_max sqrtQ (index df) r n (sqrtQ o) v m bin rt agg
                c i k t) as (x & Hx & Vx); auto.
    { rewrite Forall_lookup in Hdf. eapply Hdf; eauto. }
    pose proof (Hall j c Hc) as HF. rewrite Forall_lookup in HF.
    destruct (HF t x Hx) as [-> | [k' E]]; [discriminate|].
    exists x, k'. auto.
  - intros j t Hj Ht Hearly.
    unfold cell. rewrite coldata_map_cols, list_lookup_fmap.
    destruct (lookup_lt_is_Some_2 (coldata df) j Hj) as [c ->]. simpl.
    eapply leverage_col_before; eauto.
Qed.

Lemma sqrt_approx_nonneg q : (0 <= sqrt_approx q)%Q.
Proof.
  unfold sqrt_approx, Qle. simpl. rewrite Z.mul_1_r.
  apply Z.sqrt_nonneg.
Qed.

Lemma sqrt_approx_zero q : (q == 0)%Q -> (sqrt_approx q == 0)%Q.
Proof.
  unfold sqrt_approx, Qeq. simpl. rewrite !Z.mul_1_r. intros ->.
  reflexivity.
Qed.

(** Claim C5 fails as stated.  With weekly rebalancing and a window of three
    observations, the rows 3 to 5 of a flat series lie after the warm-up
    and hold NaN, not [vol_max_leverage]; the first value appears on the
    first Sunday of the index (row 6).  With a window of five observations
    and a cap of 0.1, the mean of the three capped values of the first week
    is rounded to the next double above the cap.  And with a cap of
    [2 ^ 1023] the sum of those three values overflows: their mean is not a
    finite number. *)
Lemma C5_counterexample :
  (exists lev x,
     calculate_leverage_factor sqrt_approx offset_aliases flat_returns
       (VFloat (Fin (1 # 10))) (VFloat (Fin 5)) (VInt 3) (VInt 252) (VStr "W")
       VNone (VStr "mean") true 0 = inr (Some lev) /\
     cell lev 0 3 = Some NaN /\ cell lev 0 5 = Some NaN /\
     cell lev 0 6 = Some (Fin x) /\ (x == 5)%Q) /\
  (exists lev x,
     calculate_leverage_factor sqrt_approx offset_aliases flat_returns
       (VFloat (Fin tenth)) (VFloat (Fin tenth)) (VInt 5) (VInt 252) (VStr "W")
       VNone (VStr "mean") true 0 = inr (Some lev) /\
     cell lev 0 6 = Some (Fin x) /\ ~ (x == tenth)%Q) /\
  (exists lev x,
     calculate_leverage_factor sqrt_approx offset_aliases flat_returns
       (VFloat (Fin 1)) (VFloat (Fin huge)) (VInt 5) (VInt 252) (VStr "W")
       VNone (VStr "mean") true 0 = inr (Some lev) /\
     cell lev 0 6 = Some x /\ forall q, x <> Fin q).
Proof.
  split; [|split].
  - eexists _, _. split; [vm_compute; reflexivity|]. vm_compute. auto.
  - eexists _, _. split; [vm_compute; reflexivity|].
    split; [vm_compute; reflexivity|]. vm_compute. discriminate.
  - eexists _, _. split; [vm_compute; reflexivity|].
    split; [vm_compute; reflexivity|]. discriminate.
Qed.

(** The amended claim C5 on the flat series with weekly rebalancing. *)
Lemma C5_constant_returns_witness :
  exists lev,
    calculate_leverage_factor sqrt_approx offset_aliases flat_returns
      (VFloat (Fin (1 # 10))) (VFloat (Fin 5)) (VInt 3) (VInt 252) (VStr "W")
      VNone (VStr "mean") true 0 = inr (Some lev) /\
    (forall j t x, cell lev j t = Some x ->
       copies_of fp_mean (Fin 5) x /\
       (eq_str (VStr "mean") "mean" = false -> x = NaN \/ x = Fin 5)) /\
    (forall j c i k t,
       coldata flat_returns !! j = Some c ->
       (2 <= 3)%nat -> (3 <= S k)%nat ->
       (forall t', (S k - 3 <= t')%nat -> (t' <= k)%nat -> c !! t' = Some (Fin 0)) ->
       is_Some (index flat_returns !! k) ->
       (index flat_returns !! k ≫= fun dk => Some (bin_W dk)) = index flat_returns !! i ->
       (i <= t)%nat -> (3 <= t)%nat -> (t < length (index flat_returns))%nat ->
       exists x k', cell lev j t = Some x /\ isnan x = false /\
                    x = fp_mean (replicate (S k') (Fin 5))) /\
    (forall j t,
       (j < length (coldata flat_returns))%nat ->
       (t < length (index flat_returns))%nat ->
       (forall u du k dk, (u <= t)%nat ->
          index flat_returns !! u = Some du -> index flat_returns !! k = Some dk ->
          bin_W dk = du -> (S k < 3)%nat) ->
       cell lev j t = Some NaN).
Proof.
  apply (C5_constant_returns sqrt_approx offset_aliases flat_returns
           (VFloat (Fin (1 # 10))) (VFloat (Fin 5)) (VInt 3) (VInt 252) (VStr "W")
           (VStr "mean") 0 (1 # 10) 5 252 3%nat bin_W fp_mean).
  - exact sqrt_approx_zero.
  - repeat constructor; right; reflexivity.
  - reflexivity.
  - reflexivity.
  - reflexivity.
  - reflexivity.
  - reflexivity.
  - discriminate.
  - reflexivity.
  - reflexivity.
Defined.

(** ** Runs of the engine *)

Lemma M_bind_inr {A B} (m : M A) (k : A -> M B) br b br' :
  (m ≫= k) br = (inr b, br') ->
  exists a br1, m br = (inr a, br1) /\ k a br1 = (inr b, br').
Proof.
  unfold mbind, M_bind. destruct (m br) as [[e|a] br1]; [discriminate | eauto].
Qed.

Lemma M_bind_inl {A B} (m : M A) (k : A -> M B) br e br' :
  m br = (inl e, br') -> (m ≫= k) br = (inl e, br').
Proof. unfold mbind, M_bind. intros ->. reflexivity. Qed.

Lemma M_bind_step {A B} (m : M A) (k : A -> M B) br a br1 :
  m br = (inr a, br1) -> (m ≫= k) br = k a br1.
Proof. unfold mbind, M_bind. intros ->. reflexivity. Qed.

Lemma lift_inr {A} (x : exn + A) br a br' :
  lift x br = (inr a, br') -> x = inr a /\ br' = br.
Proof. unfold lift. intros [= -> ->]. auto. Qed.

Lemma mret_inr {A} (x : A) br a br' :
  (mret x : M A) br = (inr a, br') -> a = x /\ br' = br.
Proof. unfold mret, M_ret. intros [= -> ->]. auto. Qed.

Lemma getattr_inr name br v br' :
  getattr name br = (inr v, br') -> br !! name = Some v /\ br' = br.
Proof.
  unfold getattr. destruct (br !! name); [intros [= -> ->]; auto | discriminate].
Qed.

Lemma hasattr_inr name br b br' :
  hasattr name br = (inr b, br') ->
  b = bool_decide (is_Some (br !! name)) /\ br' = br.
Proof. unfold hasattr. intros [= <- <-]. auto. Qed.

Lemma set_default_inr name v br u br' :
  set_default name v br = (inr u, br') ->
  br' = (if bool_decide (is_Some (br !! name)) then br else <[name := v]> br).
Proof.
  unfold set_default, mbind, M_bind, hasattr. simpl.
  case_bool_decide; simpl; unfold mret, M_ret, setattr; intros [= _ <-]; reflexivity.
Qed.

Lemma set_default_total name v br :
  set_default name v br
  = (inr tt, if bool_decide (is_Some (br !! name)) then br else <[name := v]> br).
Proof.
  unfold set_default, mbind, M_bind, hasattr. simpl.
  case_bool_decide; reflexivity.
Qed.

Lemma set_default_lookup_ne (name : string) (v : pyval) (br : config) (k : string) :
  k <> name ->
  (if bool_decide (is_Some (br !! name)) then br else <[name := v]> br) !! k = br !! k.
Proof. intros H. case_bool_decide; auto. rewrite lookup_insert_ne; auto. Qed.

Lemma unchanged_but_refl K br : unchanged_but K br br.
Proof. intros k _. reflexivity. Qed.

Lemma unchanged_but_trans K br1 br2 br3 :
  unchanged_but K br1 br2 -> unchanged_but K br2 br3 -> unchanged_but K br1 br3.
Proof. intros H1 H2 k Hk. rewrite H2, H1; auto. Qed.

Lemma set_default_unchanged K name v br u br' :
  name ∈ K -> set_default name v br = (inr u, br') -> unchanged_but K br br'.
Proof.
  intros HK H. apply set_default_inr in H as ->. intros k Hk.
  apply set_default_lookup_ne. intros ->. contradiction.
Qed.

Lemma set_default_subseteq name v (br : config) u br' :
  set_default name v br = (inr u, br') -> br ⊆ br'.
Proof.
  intros H. apply set_default_inr in H as ->.
  case_bool_decide as E; [reflexivity|].
  apply insert_subseteq. destruct (br !! name) eqn:E'; [|reflexivity].
  exfalso. apply E. eauto.
Qed.

Lemma hasattr_eq name br :
  hasattr name br = (inr (bool_decide (is_Some (br !! name))), br).
Proof. reflexivity. Qed.

Lemma combine_portfolio_eq pnl br :
  combine_portfolio pnl br
  = (inr ((fun agg => portfolio_of agg pnl) <$> combination br), br).
Proof.
  unfold combine_portfolio, combination, mbind, M_bind, hasattr, getattr. simpl.
  destruct (br !! "portfolio_combination") as [pc|] eqn:E.
  - rewrite bool_decide_eq_true_2 by eauto. cbv beta iota. rewrite E.
    destruct (eq_str pc "sum"); [reflexivity|].
    destruct (eq_str pc "mean"); reflexivity.
  - rewrite bool_decide_eq_false_2 by (intros [? ?]; discriminate). reflexivity.
Qed.

Lemma scale_portfolio_signal_eq ps n br :
  scale_portfolio_signal ps n br
  = (inr (if averaged br
          then df_scalar_op (fun v => fdiv v (Fin (inject_Z (Z.of_nat n)))) ps
          else ps), br).
Proof.
  unfold scale_portfolio_signal, averaged, mbind, M_bind, hasattr, getattr. simpl.
  destruct (br !! "portfolio_combination") as [pc|] eqn:E.
  - rewrite bool_decide_eq_true_2 by eauto. cbv beta iota. rewrite E.
    destruct (eq_str pc "sum"); [reflexivity|].
    destruct (eq_str pc "mean"); reflexivity.
  - rewrite bool_decide_eq_false_2 by (intros [? ?]; discriminate). reflexivity.
Qed.

Lemma flag_block {A} name (on off : M A) br :
  (has ← hasattr name;
   if (has : bool) then adj ← getattr name; if is_True adj then on else off
   else off) br
  = if flag_on name br then on br else off br.
Proof.
  unfold flag_on, mbind, M_bind, hasattr, getattr. simpl.
  destruct (br !! name) as [v|] eqn:E.
  - rewrite bool_decide_eq_true_2 by eauto. cbv beta iota. rewrite E.
    destruct (is_True v); reflexivity.
  - rewrite bool_decide_eq_false_2 by (intros [? ?]; discriminate). reflexivity.
Qed.

(** A key is not among the listed ones. *)
Ltac not_in_keys :=
  let H := fresh in
  intros H; repeat (apply elem_of_cons in H as [H|H]; [discriminate|]); inversion H.

Lemma set_columns_coldata df names df' :
  set_columns df names = inr df' -> coldata df' = coldata df /\ index df' = index df.
Proof.
  unfold set_columns. case_bool_decide as E; [|discriminate].
  intros [= <-]. split; [|reflexivity].
  unfold coldata at 1. simpl. apply snd_zip. unfold coldata. rewrite length_fmap. lia.
Qed.

Section Run.
Variable sqrtQ : Q -> Q.
Variable freq_bins : string -> option (date -> date).

Lemma vol_target_signals_off returns_df signal_df br :
  flag_on "signal_vol_adjust" br = false ->
  vol_target_signals sqrtQ freq_bins returns_df signal_df br
  = (inr (signal_df, None), br).
Proof.
  intros H. unfold vol_target_signals. rewrite flag_block, H. reflexivity.
Qed.

Lemma vol_target_signals_inr returns_df signal_df br sig ilev br1 :
  vol_target_signals sqrtQ freq_bins returns_df signal_df br = (inr (sig, ilev), br1) ->
  unchanged_but ["signal_vol_resample_type"; "signal_vol_resample_freq"] br br1 /\
  br ⊆ br1 /\
  (if flag_on "signal_vol_adjust" br then
     exists lev data a1 a2 a3 a4 a5 a6 a7,
       ilev = Some lev /\
       calculate_leverage_factor sqrtQ freq_bins returns_df a1 a2 a3 a4 a5 a6 a7 true 0
         = inr (Some lev) /\
       br1 !! "signal_vol_target" = Some a1 /\
       br1 !! "signal_vol_max_leverage" = Some a2 /\
       br1 !! "signal_vol_periods" = Some a3 /\
       br1 !! "signal_vol_obs_in_year" = Some a4 /\
       br1 !! "signal_vol_rebalance_freq" = Some a5 /\
       br1 !! "signal_vol_resample_freq" = Some a6 /\
       br1 !! "signal_vol_resample_type" = Some a7 /\
       np_binop fmul (df_values signal_df) (df_values lev) = inr data /\
       new_frame data (index signal_df) (columns signal_df) = inr sig
   else sig = signal_df /\ ilev = None /\ br1 = br).
Proof.
  unfold vol_target_signals. rewrite flag_block.
  destruct (flag_on "signal_vol_adjust" br).
  - intros H.
    apply M_bind_inr in H as (u1 & b1 & H1 & H).
    apply M_bind_inr in H as (u2 & b2 & H2 & H).
    apply M_bind_inr in H as (a1 & b & G1 & H). apply getattr_inr in G1 as [G1 ->].
    apply M_bind_inr in H as (a2 & b & G2 & H). apply getattr_inr in G2 as [G2 ->].
    apply M_bind_inr in H as (a3 & b & G3 & H). apply getattr_inr in G3 as [G3 ->].
    apply M_bind_inr in H as (a4 & b & G4 & H). apply getattr_inr in G4 as [G4 ->].
    apply M_bind_inr in H as (a5 & b & G5 & H). apply getattr_inr in G5 as [G5 ->].
    apply M_bind_inr in H as (a6 & b & G6 & H). apply getattr_inr in G6 as [G6 ->].
    apply M_bind_inr in H as (a7 & b & G7 & H). apply getattr_inr in G7 as [G7 ->].
    apply M_bind_inr in H as (olev & b & HL & H). apply lift_inr in HL as [HL ->].
    destruct olev as [lev|]; [|discriminate].
    apply M_bind_inr in H as (sg & b & HS & H). apply lift_inr in HS as [HS ->].
    apply mret_inr in H as [[= -> ->] ->].
    apply ebind_inr in HS as (data & Hd & HS).
    split; [|split].
    + eapply unchanged_but_trans; eapply set_default_unchanged; eauto;
        rewrite !elem_of_cons; tauto.
    + etrans; eapply set_default_subseteq; eauto.
    + exists lev, data, a1, a2, a3, a4, a5, a6, a7. repeat split; auto.
  - intros H. apply mret_inr in H as [[= -> ->] ->].
    split; [apply unchanged_but_refl | auto].
Qed.

Lemma calculate_vol_adjusted_returns_inr returns_df br p l br' :
  calculate_vol_adjusted_returns sqrtQ freq_bins returns_df true br = (inr (p, l), br') ->
  unchanged_but ["portfolio_vol_resample_type"; "portfolio_vol_resample_freq"] br br' /\
  br ⊆ br' /\
  exists a1 a2 a3 a4 a5 a6 a7 tc tcf p0,
    calculate_leverage_factor sqrtQ freq_bins returns_df a1 a2 a3 a4 a5 a6 a7 true 0
      = inr (Some l) /\
    br' !! "portfolio_vol_target" = Some a1 /\
    br' !! "portfolio_vol_max_leverage" = Some a2 /\
    br' !! "portfolio_vol_periods" = Some a3 /\
    br' !! "portfolio_vol_obs_in_year" = Some a4 /\
    br' !! "portfolio_vol_rebalance_freq" = Some a5 /\
    br' !! "portfolio_vol_resample_freq" = Some a6 /\
    br' !! "portfolio_vol_resample_type" = Some a7 /\
    br' !! "spot_tc_bp" = Some tc /\ as_float tc = inr tcf /\
    calculate_signal_returns_with_tc_matrix l returns_df tcf = inr p0 /\
    set_columns p0 (columns returns_df) = inr p.
Proof.
  unfold calculate_vol_adjusted_returns. intros H.
  apply M_bind_inr in H as (u1 & b1 & H1 & H).
  apply M_bind_inr in H as (u2 & b2 & H2 & H).
  apply M_bind_inr in H as (a1 & b & G1 & H). apply getattr_inr in G1 as [G1 ->].
  apply M_bind_inr in H as (a2 & b & G2 & H). apply getattr_inr in G2 as [G2 ->].
  apply M_bind_inr in H as (a3 & b & G3 & H). apply getattr_inr in G3 as [G3 ->].
  apply M_bind_inr in H as (a4 & b & G4 & H). apply getattr_inr in G4 as [G4 ->].
  apply M_bind_inr in H as (a5 & b & G5 & H). apply getattr_inr in G5 as [G5 ->].
  apply M_bind_inr in H as (a6 & b & G6 & H). apply getattr_inr in G6 as [G6 ->].
  apply M_bind_inr in H as (a7 & b & G7 & H). apply getattr_inr in G7 as [G7 ->].
  apply M_bind_inr in H as (olev & b & HL & H). apply lift_inr in HL as [HL ->].
  apply M_bind_inr in H as (tc & b & Gtc & H). apply getattr_inr in Gtc as [Gtc ->].
  destruct olev as [lev|]; [|discriminate].
  apply M_bind_inr in H as (p0 & b & HP & H). apply lift_inr in HP as [HP ->].
  apply M_bind_inr in H as (p1 & b & HC & H). apply lift_inr in HC as [HC ->].
  apply mret_inr in H as [[= -> ->] ->].
  apply ebind_inr in HP as (tcf & Htc & HP).
  split; [|split].
  - eapply unchanged_but_trans; eapply set_default_unchanged; eauto;
      rewrite !elem_of_cons; tauto.
  - etrans; eapply set_default_subseteq; eauto.
  - exists a1, a2, a3, a4, a5, a6, a7, tc, tcf, p0. repeat split; auto.
Qed.

Lemma vol_target_portfolio_inr portfolio pl br p' l' br' :
  vol_target_portfolio sqrtQ freq_bins portfolio pl br = (inr (p', l'), br') ->
  unchanged_but ["portfolio_vol_resample_type"; "portfolio_vol_resample_freq"] br br' /\
  br ⊆ br' /\
  (if flag_on "portfolio_vol_adjust" br then
     exists p pa,
       portfolio = Some p /\ p' = Some pa /\
       calculate_vol_adjusted_returns sqrtQ freq_bins p true br = (inr (pa, l'), br')
   else p' = portfolio /\ l' = pl /\ br' = br).
Proof.
  unfold vol_target_portfolio. rewrite flag_block.
  destruct (flag_on "portfolio_vol_adjust" br).
  - intros H.
    apply M_bind_inr in H as (p & b & HP & H). apply lift_inr in HP as [HP ->].
    destruct portfolio as [p0|]; [|discriminate]. injection HP as ->.
    apply M_bind_inr in H as ([pa la] & b & HV & H).
    apply mret_inr in H as [[= -> ->] ->].
    pose proof (calculate_vol_adjusted_returns_inr _ _ _ _ _ HV) as (? & ? & _).
    split; [|split]; eauto.
  - intros H. apply mret_inr in H as [[= -> ->] ->].
    split; [apply unchanged_but_refl | auto].
Qed.

Lemma flag_on_unchanged K name br br' :
  unchanged_but K br br' -> name ∉ K -> flag_on name br' = flag_on name br.
Proof. intros H Hn. unfold flag_on. rewrite (H name Hn). reflexivity. Qed.

Lemma combination_unchanged K br br' :
  unchanged_but K br br' -> "portfolio_combination" ∉ K ->
  combination br' = combination br.
Proof. intros H Hn. unfold combination. rewrite (H _ Hn). reflexivity. Qed.

Lemma averaged_unchanged K br br' :
  unchanged_but K br br' -> "portfolio_combination" ∉ K ->
  averaged br' = averaged br.
Proof. intros H Hn. unfold averaged. rewrite (H _ Hn). reflexivity. Qed.

Lemma calculate_trading_PnL_inr a s br r br' :
  calculate_trading_PnL sqrtQ freq_bins a s br = (inr r, br') ->
  let returns_df := calculate_returns (fillna_ffill a) in
  exists masked tc tcf pnl0 pnl_cols agg data ps br1 pl p',
    br ⊆ br1 /\
    new_frame (np_ones (length (index (_pnl r)))) (index (_pnl r)) ["Portfolio"] = inr pl /\
    vol_target_portfolio sqrtQ freq_bins (Some (portfolio_of agg (_pnl r))) pl br1
      = (inr (p', _portfolio_leverage r), br') /\
    df_mask (reindex (index a) s) (np_isnan (df_values a)) = inr masked /\
    br !! "spot_tc_bp" = Some tc /\ as_float tc = inr tcf /\
    make_pnl_cols (columns returns_df) (columns (fillna_ffill masked)) = inr pnl_cols /\
    vol_target_signals sqrtQ freq_bins returns_df (fillna_ffill masked) br
      = (inr (_signal r, _individual_leverage r), br1) /\
    calculate_signal_returns_with_tc_matrix (_signal r) returns_df tcf = inr pnl0 /\
    set_columns pnl0 pnl_cols = inr (_pnl r) /\
    combination br = Some agg /\
    (flag_on "portfolio_vol_adjust" br = false ->
       set_columns (portfolio_of agg (_pnl r)) ["Port"] = inr (_portfolio r) /\
       new_frame (np_ones (length (index (_pnl r)))) (index (_pnl r)) ["Portfolio"]
         = inr (_portfolio_leverage r)) /\
    np_binop fmul
      (np_repeat_T (df_values (_portfolio_leverage r)) (length (columns (_signal r))))
      (df_values (_signal r)) = inr data /\
    new_frame data (index (_signal r)) (columns (_signal r)) = inr ps /\
    _portfolio_signal r
      = (if averaged br
         then df_scalar_op
                (fun v => fdiv v (Fin (inject_Z (Z.of_nat (length (columns (_signal r)))))))
                ps
         else ps).
Proof.
  unfold calculate_trading_PnL. simpl. intros H.
  apply M_bind_inr in H as (masked & b & Hmask & H). apply lift_inr in Hmask as [Hmask ->].
  apply M_bind_inr in H as (tc & b & Htc & H). apply getattr_inr in Htc as [Htc ->].
  apply M_bind_inr in H as (pnl_cols & b & Hcols & H). apply lift_inr in Hcols as [Hcols ->].
  apply M_bind_inr in H as ([sig ilev] & br1 & Hsig & H).
  apply M_bind_inr in H as (pnl0 & b & Hpnl & H). apply lift_inr in Hpnl as [Hpnl ->].
  apply M_bind_inr in H as (pnl & b & Hset & H). apply lift_inr in Hset as [Hset ->].
  rewrite (M_bind_step _ _ _ _ _ (combine_portfolio_eq _ _)) in H.
  apply M_bind_inr in H as (pl & b & Hpl & H). apply lift_inr in Hpl as [Hpl ->].
  apply M_bind_inr in H as ([p' l'] & br2 & Hvp & H).
  apply M_bind_inr in H as (p & b & Hp & H). apply lift_inr in Hp as [Hp ->].
  apply M_bind_inr in H as (ps & b & Hps & H). apply lift_inr in Hps as [Hps ->].
  rewrite (M_bind_step _ _ _ _ _ (scale_portfolio_signal_eq _ _ _)) in H.
  apply M_bind_inr in H as (ann & b & Hann & H). apply getattr_inr in Hann as [Hann ->].
  apply M_bind_inr in H as (port & b & Hport & H). apply lift_inr in Hport as [Hport ->].
  apply M_bind_inr in H as (cp & b & Hcp & H). apply lift_inr in Hcp as [Hcp ->].
  apply M_bind_inr in H as (cpo & b & Hcpo & H). apply lift_inr in Hcpo as [Hcpo ->].
  apply mret_inr in H as [-> ->]. simpl.
  apply ebind_inr in Hpnl as (tcf & Htcf & Hpnl).
  apply ebind_inr in Hps as (data & Hdata & Hps).
  pose proof (vol_target_signals_inr _ _ _ _ _ _ Hsig) as (U1 & S1 & _).
  pose proof (vol_target_portfolio_inr _ _ _ _ _ _ Hvp) as (U2 & S2 & Hvp').
  assert (U12 : unchanged_but
    ["signal_vol_resample_type"; "signal_vol_resample_freq";
     "portfolio_vol_resample_type"; "portfolio_vol_resample_freq"] br br2).
  { intros k Hk. rewrite U2, U1; auto; intros Hin; apply Hk;
      rewrite !elem_of_cons in *; tauto. }
  destruct (combination br) as [agg|] eqn:Hagg.
  2:{ exfalso. rewrite (combination_unchanged _ _ _ U1) in Hvp' by not_in_keys.
      rewrite (combination_unchanged _ _ _ U1) in Hvp by not_in_keys.
      rewrite Hagg in *. simpl in *.
      destruct (flag_on "portfolio_vol_adjust" br1).
      - destruct Hvp' as (? & ? & ? & _). discriminate.
      - destruct Hvp' as (-> & _). discriminate. }
  rewrite (combination_unchanged _ _ _ U1), Hagg in Hvp, Hvp' by not_in_keys.
  simpl in Hvp, Hvp'.
  exists masked, tc, tcf, pnl0, pnl_cols, agg, data, ps, br1, pl, p'.
  repeat (split; [assumption || reflexivity|]).
  split.
  { intros Hoff.
    rewrite (flag_on_unchanged _ _ _ _ U1) in Hvp' by not_in_keys.
    rewrite Hoff in Hvp'. destruct Hvp' as (-> & -> & ->).
    injection Hp as <-. auto. }
  repeat (split; [assumption|]).
  rewrite (averaged_unchanged _ _ _ U12) by not_in_keys. reflexivity.
Qed.

(** With portfolio volatility targeting the stored portfolio is the P&L of
    holding the combined portfolio at the portfolio leverage. *)
Lemma calculate_trading_PnL_leveraged a s br r br' :
  calculate_trading_PnL sqrtQ freq_bins a s br = (inr r, br') ->
  flag_on "portfolio_vol_adjust" br = true ->
  exists agg tc tcf p0,
    combination br = Some agg /\
    br !! "spot_tc_bp" = Some tc /\ as_float tc = inr tcf /\
    calculate_signal_returns_with_tc_matrix (_portfolio_leverage r)
      (portfolio_of agg (_pnl r)) tcf = inr p0 /\
    coldata (_portfolio r) = coldata p0.
Proof.
  unfold calculate_trading_PnL. simpl. intros H Hon.
  apply M_bind_inr in H as (masked & b & Hmask & H). apply lift_inr in Hmask as [Hmask ->].
  apply M_bind_inr in H as (tc & b & Htc & H). apply getattr_inr in Htc as [Htc ->].
  apply M_bind_inr in H as (pnl_cols & b & Hcols & H). apply lift_inr in Hcols as [Hcols ->].
  apply M_bind_inr in H as ([sig ilev] & br1 & Hsig & H).
  apply M_bind_inr in H as (pnl0 & b & Hpnl & H). apply lift_inr in Hpnl as [Hpnl ->].
  apply M_bind_inr in H as (pnl & b & Hset & H). apply lift_inr in Hset as [Hset ->].
  rewrite (M_bind_step _ _ _ _ _ (combine_portfolio_eq _ _)) in H.
  apply M_bind_inr in H as (pl & b & Hpl & H). apply lift_inr in Hpl as [Hpl ->].
  apply M_bind_inr in H as ([p' l'] & br2 & Hvp & H).
  apply M_bind_inr in H as (p & b & Hp & H). apply lift_inr in Hp as [Hp ->].
  apply M_bind_inr in H as (ps & b & Hps & H). apply lift_inr in Hps as [Hps ->].
  rewrite (M_bind_step _ _ _ _ _ (scale_portfolio_signal_eq _ _ _)) in H.
  apply M_bind_inr in H as (ann & b & Hann & H). apply getattr_inr in Hann as [Hann ->].
  apply M_bind_inr in H as (port & b & Hport & H). apply lift_inr in Hport as [Hport ->].
  apply M_bind_inr in H as (cp & b & Hcp & H). apply lift_inr in Hcp as [Hcp ->].
  apply M_bind_inr in H as (cpo & b & Hcpo & H). apply lift_inr in Hcpo as [Hcpo ->].
  apply mret_inr in H as [-> ->]. simpl.
  pose proof (vol_target_signals_inr _ _ _ _ _ _ Hsig) as (U1 & S1 & _).
  apply vol_target_portfolio_inr in Hvp as (_ & S2 & Hvp).
  rewrite (flag_on_unchanged _ _ _ _ U1), Hon in Hvp by not_in_keys.
  destruct Hvp as (p1 & pa & Hp1 & -> & Hvp). injection Hp as ->.
  rewrite (combination_unchanged _ _ _ U1) in Hp1 by not_in_keys.
  destruct (combination br) as [agg|]; [|discriminate].
  simpl in Hp1. injection Hp1 as <-.
  apply calculate_vol_adjusted_returns_inr in Hvp as (_ & _ & Hvp).
  destruct Hvp as (a1 & a2 & a3 & a4 & a5 & a6 & a7 & tc' & tcf & p0 & _
    & _ & _ & _ & _ & _ & _ & _ & Htc' & Htcf & Hp0 & Hset').
  assert (tc' = tc) as ->.
  { pose proof (lookup_weaken _ _ _ _ Htc (transitivity S1 S2)) as E. congruence. }
  exists agg, tc, tcf, p0. repeat (split; [assumption || reflexivity|]).
  apply set_columns_coldata in Hport as [-> _].
  apply set_columns_coldata in Hset' as [-> _]. reflexivity.
Qed.

End Run.

(** ** The P&L matrix *)

Lemma shift_length n l : length (shift n l) = length l.
Proof.
  unfold shift. destruct (0 <=? n).
  - rewrite length_take, length_app, length_replicate. lia.
  - rewrite length_app, length_drop, length_replicate. lia.
Qed.

Lemma shift_1_lookup_0 l x : shift 1 l !! 0%nat = Some x -> x = NaN.
Proof.
  unfold shift. simpl. destruct l; simpl; [discriminate|]. congruence.
Qed.

Lemma shift_1_lookup_S l t :
  (S t < length l)%nat -> shift 1 l !! S t = l !! t.
Proof.
  intros H. unfold shift. simpl.
  rewrite lookup_take_lt by lia. reflexivity.
Qed.

Lemma signal_returns_col_length tc pos ret :
  length (signal_returns_col tc pos ret) = Nat.min (length pos) (length ret).
Proof.
  unfold signal_returns_col.
  rewrite length_zip_with, length_zip_with, shift_length. lia.
Qed.

Lemma signal_returns_col_0 tc pos ret x :
  signal_returns_col tc pos ret !! 0%nat = Some x -> x = NaN.
Proof.
  unfold signal_returns_col. rewrite lookup_zip_with.
  rewrite (lookup_zip_with pair).
  destruct (shift 1 pos !! 0%nat) as [p|] eqn:E; simpl; [|discriminate].
  apply shift_1_lookup_0 in E as ->.
  destruct (ret !! 0%nat); simpl; [|discriminate].
  destruct (pos !! 0%nat); simpl; [|discriminate].
  intros [= <-]. reflexivity.
Qed.

Lemma signal_returns_col_S tc pos ret t p0 p1 rt :
  pos !! t = Some p0 -> pos !! S t = Some p1 -> ret !! S t = Some rt ->
  signal_returns_col tc pos ret !! S t
  = Some (fsub (fmul p0 rt) (fmul tc (fabs (fsub p1 p0)))).
Proof.
  intros H0 H1 Hr. unfold signal_returns_col. rewrite lookup_zip_with.
  rewrite (lookup_zip_with pair).
  rewrite shift_1_lookup_S by (eapply lookup_lt_Some; eauto).
  rewrite H0, Hr, H1. reflexivity.
Qed.

Lemma pct_change_S c t q0 q1 :
  c !! t = Some q0 -> c !! S t = Some q1 ->
  pct_change c !! S t = Some (fsub (fdiv q1 q0) (Fin 1)).
Proof.
  intros H0 H1. unfold pct_change. rewrite lookup_zip_with.
  rewrite shift_1_lookup_S by (eapply lookup_lt_Some; eauto).
  rewrite H0, H1. reflexivity.
Qed.

Lemma pct_change_0 c x : pct_change c !! 0%nat = Some x -> x = NaN.
Proof.
  unfold pct_change. rewrite lookup_zip_with.
  destruct (c !! 0%nat); simpl; [|discriminate].
  destruct (shift 1 c !! 0%nat) as [p|] eqn:E; simpl; [|discriminate].
  apply shift_1_lookup_0 in E as ->. intros [= <-]. destruct f; reflexivity.
Qed.

Lemma tc_matrix_coldata sig ret tc pnl :
  calculate_signal_returns_with_tc_matrix sig ret tc = inr pnl ->
  index pnl = index ret /\
  length (index sig) = length (index ret) /\
  length (coldata sig) = length (coldata ret) /\
  coldata pnl = zip_with (signal_returns_col tc) (coldata sig) (coldata ret).
Proof.
  unfold calculate_signal_returns_with_tc_matrix. case_bool_decide as E; [|discriminate].
  intros [= <-]. unfold df_shape, shape, df_values in E. simpl in *.
  injection E as E1 E2. repeat split; auto.
  unfold coldata. simpl. clear.
  generalize (cols ret). induction (cols sig) as [|[n c] l IH]; intros [|[n' c'] l']; simpl; auto.
  f_equal. apply IH.
Qed.

Section Claims.
Variable sqrtQ : Q -> Q.
Variable freq_bins : string -> option (date -> date).

Lemma run_cases a s br :
  (exists e br', calculate_trading_PnL sqrtQ freq_bins a s br = (inl e, br')) \/
  (exists r br', calculate_trading_PnL sqrtQ freq_bins a s br = (inr r, br')).
Proof.
  destruct (calculate_trading_PnL sqrtQ freq_bins a s br) as [[e|r] br']; eauto.
Qed.

(** Claim C10.  When [portfolio_combination] holds a value that is neither
    ['sum'] nor ['mean'], the combination step builds no portfolio series
    (the local stays unbound) and [calculate_trading_PnL] ends in an error
    for every pair of frames. *)
Theorem C10_unknown_combination br v :
  br !! "portfolio_combination" = Some v ->
  eq_str v "sum" = false -> eq_str v "mean" = false ->
  (forall pnl, combine_portfolio pnl br = (inr None, br)) /\
  (forall a s, exists e br', calculate_trading_PnL sqrtQ freq_bins a s br = (inl e, br')).
Proof.
  intros Hv Hsum Hmean.
  assert (Hc : combination br = None).
  { unfold combination. rewrite Hv, Hsum, Hmean. reflexivity. }
  split.
  - intros pnl. rewrite combine_portfolio_eq, Hc. reflexivity.
  - intros a s. destruct (run_cases a s br) as [H | (r & br' & H)]; auto.
    apply calculate_trading_PnL_inr in H.
    destruct H as (? & ? & ? & ? & ? & agg & ? & ? & ? & ? & ?
      & _ & _ & _ & _ & _ & _ & _ & _ & _ & _ & Hagg & _).
    congruence.
Qed.

Lemma combine_portfolio_default pnl br :
  br !! "portfolio_combination" = None ->
  combine_portfolio pnl br = (inr (Some (portfolio_of nanmean pnl)), br).
Proof.
  intros H. rewrite combine_portfolio_eq. unfold combination. rewrite H. reflexivity.
Qed.

Lemma reindex_shape idx df : df_shape (reindex idx df) = (length idx, length (cols df)).
Proof.
  unfold df_shape, shape, df_values, coldata. simpl.
  rewrite !length_fmap. reflexivity.
Qed.

Lemma columns_reindex idx df : columns (reindex idx df) = columns df.
Proof.
  unfold columns, reindex. simpl. rewrite <- list_fmap_compose.
  apply list_fmap_ext. intros _ [n c] _. reflexivity.
Qed.

Lemma df_mask_inr df cond m :
  df_mask df cond = inr m ->
  shape cond = df_shape df /\ index m = index df /\ columns m = columns df /\
  coldata m = zip_with mask_col (coldata df) (arr_cols cond).
Proof.
  unfold df_mask. case_bool_decide as E; [|discriminate]. intros [= <-].
  split; auto. split; auto. unfold columns, coldata. simpl.
  unfold df_shape, shape, df_values, coldata in E. injection E as _ E.
  rewrite length_fmap in E. revert E. generalize (arr_cols cond).
  induction (cols df) as [|[n c] l IH]; intros [|b k]; simpl; try discriminate; auto.
  intros [= E]. destruct (IH k E) as [IH1 IH2].
  split; f_equal; assumption.
Qed.

(** Claim C8, as amended.  Frames with different numbers of columns make
    [calculate_trading_PnL] raise [ValueError] at the mask step, with the
    request untouched.  With equally many columns the mask step succeeds and
    keeps the labels of the signal: labels are never compared with those of
    the prices. *)
Theorem C8_column_count a s br :
  (length (cols s) <> length (cols a) ->
     calculate_trading_PnL sqrtQ freq_bins a s br = (inl ValueError, br)) /\
  (length (cols s) = length (cols a) ->
     exists masked,
       df_mask (align_left a s).2 (np_isnan (df_values (align_left a s).1)) = inr masked /\
       columns masked = columns s).
Proof.
  split; intros H.
  - unfold calculate_trading_PnL. simpl. apply M_bind_inl.
    unfold lift, df_mask. rewrite reindex_shape.
    rewrite bool_decide_eq_false_2; [reflexivity|].
    unfold shape, np_isnan, df_values, coldata. simpl. rewrite !length_fmap.
    intros [= E]. congruence.
  - simpl. destruct (df_mask _ _) as [e|masked] eqn:E.
    + exfalso. revert E. unfold df_mask. rewrite reindex_shape.
      rewrite bool_decide_eq_true_2; [discriminate|].
      unfold shape, np_isnan, df_values, coldata. simpl. rewrite !length_fmap.
      congruence.
    + exists masked. split; auto.
      apply df_mask_inr in E as (_ & _ & -> & _). apply columns_reindex.
Qed.

Lemma leverage_factor_resample_none df vt ml vp obs fr rf rt returns ps :
  is_None rf = false ->
  calculate_leverage_factor sqrtQ freq_bins df vt ml vp obs fr rf rt returns ps = inr None.
Proof. intros H. unfold calculate_leverage_factor. rewrite H. reflexivity. Qed.

Lemma signal_resample_freq_fails a s br v :
  flag_on "signal_vol_adjust" br = true ->
  br !! "signal_vol_resample_freq" = Some v -> is_None v = false ->
  exists e br', calculate_trading_PnL sqrtQ freq_bins a s br = (inl e, br').
Proof.
  intros Hon Hv Hnone.
  destruct (run_cases a s br) as [H | (r & br' & H)]; auto.
  apply calculate_trading_PnL_inr in H.
  destruct H as (? & ? & ? & ? & ? & agg & ? & ? & br1 & ? & ?
    & _ & _ & _ & _ & _ & _ & _ & Hsig & _).
  apply vol_target_signals_inr in Hsig as (_ & Hsub & Hsig).
  rewrite Hon in Hsig.
  destruct Hsig as (lev & data & a1 & a2 & a3 & a4 & a5 & a6 & a7 & _ & HL
    & _ & _ & _ & _ & _ & H6 & _).
  rewrite (lookup_weaken _ _ _ _ Hv Hsub) in H6. injection H6 as <-.
  rewrite leverage_factor_resample_none in HL by auto. discriminate.
Qed.

Lemma portfolio_resample_freq_fails a s br v :
  flag_on "portfolio_vol_adjust" br = true ->
  br !! "portfolio_vol_resample_freq" = Some v -> is_None v = false ->
  exists e br', calculate_trading_PnL sqrtQ freq_bins a s br = (inl e, br').
Proof.
  intros Hon Hv Hnone.
  destruct (run_cases a s br) as [H | (r & br' & H)]; auto.
  apply calculate_trading_PnL_inr in H.
  destruct H as (? & ? & ? & ? & ? & agg & ? & ? & br1 & pl & p'
    & Hsub & _ & Hvp & _ & _ & _ & _ & Hsig & _).
  apply vol_target_signals_inr in Hsig as (U1 & _ & _).
  apply vol_target_portfolio_inr in Hvp as (_ & _ & Hvp).
  rewrite (flag_on_unchanged _ _ _ _ U1), Hon in Hvp by not_in_keys.
  destruct Hvp as (p & pa & _ & _ & Hvp).
  apply calculate_vol_adjusted_returns_inr in Hvp as (_ & Hsub' & Hvp).
  destruct Hvp as (a1 & a2 & a3 & a4 & a5 & a6 & a7 & ? & ? & ? & HL
    & _ & _ & _ & _ & _ & H6 & _).
  assert (Hv' : br' !! "portfolio_vol_resample_freq" = Some v).
  { eapply lookup_weaken; [|exact Hsub']. eapply lookup_weaken; eauto. }
  rewrite Hv' in H6. injection H6 as <-.
  rewrite leverage_factor_resample_none in HL by auto. discriminate.
Qed.

(** Claim C7, as amended.  With [data_resample_freq] other than [None],
    [calculate_leverage_factor] returns [None] and raises nothing.  The
    condition surfaces in [calculate_trading_PnL]: with volatility targeting
    of the signals or of the portfolio switched on and the matching
    resample frequency set, the call always ends in an error. *)
Theorem C7_resample_freq_unsupported rf :
  is_None rf = false ->
  (forall df vt ml vp obs fr rt returns ps,
     calculate_leverage_factor sqrtQ freq_bins df vt ml vp obs fr rf rt returns ps
     = inr None) /\
  (forall a s br,
     (flag_on "signal_vol_adjust" br = true /\
      br !! "signal_vol_resample_freq" = Some rf) \/
     (flag_on "portfolio_vol_adjust" br = true /\
      br !! "portfolio_vol_resample_freq" = Some rf) ->
     exists e br', calculate_trading_PnL sqrtQ freq_bins a s br = (inl e, br')).
Proof.
  intros H. split.
  - intros. apply leverage_factor_resample_none, H.
  - intros a s br [[Hon Hv] | [Hon Hv]].
    + eapply signal_resample_freq_fails; eauto.
    + eapply portfolio_resample_freq_fails; eauto.
Qed.

Lemma reindex_coldata idx df :
  coldata (reindex idx df) = reindex_col (index df) idx <$> coldata df.
Proof.
  unfold coldata, reindex. simpl. rewrite <- !list_fmap_compose.
  apply list_fmap_ext. intros _ [n c] _. reflexivity.
Qed.

Lemma mask_col_lookup c b t x :
  c !! t = Some x -> b !! t = Some true -> mask_col c b !! t = Some NaN.
Proof.
  intros Hc Hb. unfold mask_col. rewrite lookup_zip_with, Hc. simpl.
  rewrite Hb. reflexivity.
Qed.

Lemma masked_cell a s masked j t :
  wf_frame a ->
  df_mask (reindex (index a) s) (np_isnan (df_values a)) = inr masked ->
  cell a j t = Some NaN -> cell masked j t = Some NaN.
Proof.
  intros Hwf Hm Hc. apply df_mask_inr in Hm as (Hshape & _ & _ & Hcd).
  unfold cell in *. rewrite Hcd, lookup_zip_with, reindex_coldata.
  simpl. rewrite !list_lookup_fmap.
  destruct (coldata a !! j) as [ca|] eqn:Ea; simpl in Hc; [|discriminate].
  rewrite reindex_shape in Hshape. unfold shape in Hshape. simpl in Hshape.
  injection Hshape as Hn. rewrite length_fmap in Hn.
  assert (Hj : (j < length (coldata s))%nat).
  { apply lookup_lt_Some in Ea. unfold coldata in *. rewrite length_fmap in *. lia. }
  apply lookup_lt_is_Some in Hj as [cs Ecs]. rewrite Ecs. simpl.
  assert (Ht : (t < length (index a))%nat).
  { unfold wf_frame in Hwf. rewrite Forall_lookup in Hwf.
    rewrite <- (Hwf _ _ Ea). eapply lookup_lt_Some; eauto. }
  assert (Hr : is_Some (reindex_col (index s) (index a) cs !! t)).
  { apply lookup_lt_is_Some. rewrite reindex_col_length. auto. }
  destruct Hr as [x Hx]. eapply mask_col_lookup; eauto.
  rewrite list_lookup_fmap, Hc. reflexivity.
Qed.

(** Claim C2.  On well-formed prices, the signal left by the alignment and
    mask steps of [calculate_trading_PnL] (lines 54-57) is NaN in every cell
    where the aligned price is NaN.  The forward fills come after: every
    call that returns went through this masked signal and goes on with its
    forward fill. *)
Theorem C2_signal_masked a s :
  wf_frame a ->
  (forall masked,
     df_mask (align_left a s).2 (np_isnan (df_values (align_left a s).1)) = inr masked ->
     forall j t, cell (align_left a s).1 j t = Some NaN -> cell masked j t = Some NaN) /\
  (forall br r br',
     calculate_trading_PnL sqrtQ freq_bins a s br = (inr r, br') ->
     exists masked br1,
       df_mask (align_left a s).2 (np_isnan (df_values (align_left a s).1))
         = inr masked /\
       vol_target_signals sqrtQ freq_bins (calculate_returns (fillna_ffill a))
         (fillna_ffill masked) br
       = (inr (_signal r, _individual_leverage r), br1)).
Proof.
  intros Hwf. split.
  - intros masked Hm j t. simpl in *. apply (masked_cell a s); assumption.
  - intros br r br' H. apply calculate_trading_PnL_inr in H.
    destruct H as (masked & ? & ? & ? & ? & agg & ? & ? & br1 & ? & ?
      & _ & _ & _ & Hm & _ & _ & _ & Hsig & _).
    exists masked, br1. split; auto.
Qed.

End Claims.

(** ** Shapes of the frames of a run *)

Lemma has_shape_wf a : wf_frame a -> has_shape (length (index a)) (length (coldata a)) a.
Proof. intros H. repeat split; auto. Qed.

Lemma has_shape_map_cols T N f df :
  (forall c, length c = T -> length (f c) = T) ->
  has_shape T N df -> has_shape T N (map_cols f df).
Proof.
  intros Hf (Hi & Hn & Hc). unfold has_shape.
  rewrite coldata_map_cols, length_fmap. repeat split; auto.
  apply Forall_fmap. eapply Forall_impl; eauto.
Qed.

Lemma pct_change_length c : length (pct_change c) = length c.
Proof. unfold pct_change. rewrite length_zip_with, shift_length. lia. Qed.

Lemma has_shape_ffill T N df : has_shape T N df -> has_shape T N (fillna_ffill df).
Proof.
  apply has_shape_map_cols. intros c H. unfold ffill. rewrite ffill_from_length. auto.
Qed.

Lemma has_shape_returns T N df : has_shape T N df -> has_shape T N (calculate_returns df).
Proof. apply has_shape_map_cols. intros c H. rewrite pct_change_length. auto. Qed.

Lemma mask_col_length c b : length (mask_col c b) = Nat.min (length c) (length b).
Proof. unfold mask_col. apply length_zip_with. Qed.

Lemma has_shape_masked a s masked :
  wf_frame a ->
  df_mask (reindex (index a) s) (np_isnan (df_values a)) = inr masked ->
  has_shape (length (index a)) (length (coldata a)) masked.
Proof.
  intros Hwf Hm. apply df_mask_inr in Hm as (Hshape & Hi & _ & Hcd).
  rewrite reindex_shape in Hshape. unfold shape in Hshape. simpl in Hshape.
  injection Hshape as Hn. rewrite length_fmap in Hn.
  unfold has_shape. rewrite Hi, Hcd. simpl. split; auto. split.
  - rewrite length_zip_with, reindex_coldata, !length_fmap.
    unfold coldata in *. rewrite !length_fmap. rewrite length_fmap in Hn. lia.
  - apply Forall_lookup. intros j c Hj.
    rewrite lookup_zip_with in Hj.
    destruct (coldata (reindex (index a) s) !! j) as [cs|] eqn:E1; simpl in Hj; [|discriminate].
    destruct ((map isnan <$> coldata a) !! j) as [b|] eqn:E2; simpl in Hj; [|discriminate].
    injection Hj as <-. rewrite mask_col_length.
    rewrite reindex_coldata, list_lookup_fmap in E1.
    destruct (coldata s !! j); simpl in E1; [|discriminate]. injection E1 as <-.
    rewrite list_lookup_fmap in E2.
    destruct (coldata a !! j) as [ca|] eqn:E3; simpl in E2; [|discriminate]. injection E2 as <-.
    rewrite reindex_col_length, length_map.
    unfold wf_frame in Hwf. rewrite Forall_lookup in Hwf. rewrite (Hwf _ _ E3). lia.
Qed.

Lemma bdim_same n : bdim n n = Some n.
Proof. unfold bdim. rewrite bool_decide_eq_true_2; auto. Qed.

Lemma stretch_id {A} (d : A) n l : length l = n -> stretch d n l = l.
Proof. intros H. unfold stretch. rewrite bool_decide_eq_true_2; auto. Qed.

Lemma stretch_cols_id T (cs : list (list fval)) :
  Forall (fun c => length c = T) cs -> stretch NaN T <$> cs = cs.
Proof.
  induction 1 as [|c cs Hc _ IH]; simpl; auto.
  f_equal; auto. apply stretch_id; auto.
Qed.

Lemma np_binop_same f T N (A B : ndarray fval) :
  arr_rows A = T -> arr_rows B = T ->
  length (arr_cols A) = N -> length (arr_cols B) = N ->
  Forall (fun c => length c = T) (arr_cols A) ->
  Forall (fun c => length c = T) (arr_cols B) ->
  np_binop f A B = inr (mkArr T (zip_with (zip_with f) (arr_cols A) (arr_cols B))).
Proof.
  intros HA HB HNA HNB HFA HFB. unfold np_binop.
  rewrite HA, HB, HNA, HNB, !bdim_same, !stretch_id by auto.
  rewrite !stretch_cols_id by auto. reflexivity.
Qed.

Lemma zip_with_Forall_length (f : fval -> fval -> fval) (T : nat)
    (A B : list (list fval)) :
  Forall (fun c => length c = T) A -> Forall (fun c => length c = T) B ->
  Forall (fun c : list fval => length c = T) (zip_with (zip_with f) A B).
Proof.
  intros HA. revert B. induction HA as [|a A Ha _ IH]; intros B HB; simpl; [constructor|].
  destruct HB as [|b B Hb HB]; constructor; auto.
  rewrite length_zip_with. lia.
Qed.

Lemma new_frame_inr data idx names df :
  new_frame data idx names = inr df ->
  shape data = (length idx, length names) /\
  index df = idx /\ columns df = names /\ coldata df = arr_cols data.
Proof.
  unfold new_frame. case_bool_decide as E; [|discriminate]. intros [= <-].
  pose proof E as E0. unfold shape in E. injection E as E1 E2.
  split; [exact E0|]. split; [reflexivity|].
  split; unfold columns, coldata; simpl.
  - apply fst_zip. lia.
  - apply snd_zip. lia.
Qed.

Lemma has_shape_binop f T N (A B : DataFrame) data df idx names :
  has_shape T N A -> has_shape T N B ->
  np_binop f (df_values A) (df_values B) = inr data ->
  new_frame data idx names = inr df ->
  length idx = T ->
  has_shape T N df /\ coldata df = zip_with (zip_with f) (coldata A) (coldata B).
Proof.
  intros (HA1 & HA2 & HA3) (HB1 & HB2 & HB3) Hd Hn Hidx.
  rewrite (np_binop_same f T N) in Hd by auto. injection Hd as <-.
  apply new_frame_inr in Hn as (_ & Hi & _ & Hc). simpl in Hc.
  split; auto. unfold has_shape. rewrite Hi, Hc. repeat split; auto.
  - rewrite length_zip_with. lia.
  - apply zip_with_Forall_length; auto.
Qed.

Lemma has_shape_leverage sqrtQ T N df n ann vt ml bin agg ps :
  has_shape T N df ->
  has_shape T N (map_cols (leverage_col sqrtQ (index df) n ann vt ml bin agg ps) df).
Proof.
  intros (H1 & H2 & H3). unfold has_shape. rewrite coldata_map_cols, length_fmap.
  repeat split; auto. apply Forall_fmap, Forall_forall. intros c _. simpl.
  rewrite leverage_col_length. auto.
Qed.

Lemma has_shape_tc_matrix T N sig ret tc pnl :
  has_shape T N sig -> has_shape T N ret ->
  calculate_signal_returns_with_tc_matrix sig ret tc = inr pnl ->
  has_shape T N pnl.
Proof.
  intros (HA1 & HA2 & HA3) (HB1 & HB2 & HB3) H.
  apply tc_matrix_coldata in H as (Hi & _ & _ & Hc).
  unfold has_shape. rewrite Hi, Hc. repeat split; auto.
  - rewrite length_zip_with. lia.
  - clear -HA3 HB3. revert HB3. generalize (coldata ret).
    induction HA3 as [|a A Ha _ IH]; intros B HB; simpl; [constructor|].
    destruct HB as [|b B Hb HB]; constructor; auto.
    rewrite signal_returns_col_length. lia.
Qed.

Lemma has_shape_set_columns T N df names df' :
  set_columns df names = inr df' -> has_shape T N df -> has_shape T N df'.
Proof.
  intros H (H1 & H2 & H3). apply set_columns_coldata in H as [Hc Hi].
  unfold has_shape. rewrite Hc, Hi. auto.
Qed.

Lemma has_shape_portfolio T N agg pnl :
  has_shape T N pnl -> has_shape T 1 (portfolio_of agg pnl).
Proof.
  intros (H1 & _). unfold has_shape, portfolio_of, frame_of_series, coldata. simpl.
  repeat split; auto. constructor; [|constructor].
  unfold row_agg. rewrite length_fmap, length_seq. auto.
Qed.

Lemma has_shape_ones T idx df :
  new_frame (np_ones T) idx ["Portfolio"] = inr df -> has_shape T 1 df.
Proof.
  intros H. apply new_frame_inr in H as (Hs & Hi & _ & Hc).
  unfold shape in Hs. simpl in Hs. injection Hs as Hs.
  unfold has_shape. rewrite Hi, Hc. simpl. repeat split; auto.
  constructor; [|constructor]. apply length_replicate.
Qed.

Lemma transpose_rows_single {A} T (c : list A) :
  length c = T -> concat (transpose_rows T [c]) = c.
Proof.
  revert c. induction T as [|T IH]; intros [|x c] H; simpl in *; try discriminate; auto.
  f_equal. apply IH. lia.
Qed.

Lemma row_length T N df t :
  has_shape T N df -> (t < T)%nat -> length (row df t) = N.
Proof.
  intros (_ & <- & HF) Ht. unfold row.
  induction HF as [|c cs Hc _ IH]; simpl; auto.
  assert (is_Some (c !! t)) as [x ->] by (apply lookup_lt_is_Some; lia).
  simpl. f_equal. apply IH.
Qed.

Lemma not_nan_finite xs : not_nan (Fin <$> xs) = Fin <$> xs.
Proof.
  unfold not_nan. induction xs as [|x xs IH]; simpl; auto.
  rewrite filter_cons_True by reflexivity. f_equal. apply IH.
Qed.

Lemma fsum_finite xs : fsum (Fin <$> xs) = Fin (foldr Qplus 0%Q xs).
Proof.
  induction xs as [|x xs IH]; [reflexivity|].
  change (fsum (Fin <$> x :: xs)) with (fadd (Fin x) (fsum (Fin <$> xs))).
  rewrite IH. reflexivity.
Qed.

Lemma nanmean_all_finite xs :
  xs <> [] ->
  nanmean (Fin <$> xs)
  = Fin (foldr Qplus 0%Q xs / inject_Z (Z.of_nat (length xs))).
Proof.
  intros Hne. unfold nanmean. rewrite not_nan_finite.
  destruct (Fin <$> xs) as [|y l] eqn:E.
  - destruct xs; [congruence | discriminate].
  - cbv beta iota. rewrite <- E, fsum_finite, length_fmap. unfold fdiv.
    destruct xs as [|x xs]; [congruence|].
    rewrite Qeq_bool_false_pos by apply inject_Z_S_pos. reflexivity.
Qed.

Section Shapes.
Variable sqrtQ : Q -> Q.
Variable freq_bins : string -> option (date -> date).

Lemma has_shape_leverage_factor T N df vt ml vp obs fr rf rt ps lev :
  has_shape T N df ->
  calculate_leverage_factor sqrtQ freq_bins df vt ml vp obs fr rf rt true ps
    = inr (Some lev) ->
  has_shape T N lev.
Proof.
  intros Hs H. apply calculate_leverage_factor_inv in H.
  destruct H as (n & o & ann & vtf & mlf & bin & agg & _ & _ & _ & _ & _ & _ & _ & _ & ->).
  apply has_shape_leverage. auto.
Qed.

Lemma run_shapes a s br r br' :
  wf_frame a ->
  calculate_trading_PnL sqrtQ freq_bins a s br = (inr r, br') ->
  has_shape (length (index a)) (length (coldata a)) (_signal r) /\
  has_shape (length (index a)) (length (coldata a)) (_pnl r) /\
  has_shape (length (index a)) 1 (_portfolio_leverage r).
Proof.
  intros Hwf H. apply calculate_trading_PnL_inr in H.
  destruct H as (masked & v & tc & pnl0 & pnl_cols & agg & data & ps & br1 & pl & p'
    & _ & Hpl & Hvp & Hm & _ & _ & _ & Hsig & Hpnl0 & Hset & _).
  set (T := length (index a)) in *. set (N := length (coldata a)) in *.
  assert (Hret : has_shape T N (calculate_returns (fillna_ffill a))).
  { apply has_shape_returns, has_shape_ffill, has_shape_wf, Hwf. }
  assert (Hmk : has_shape T N (fillna_ffill masked)).
  { apply has_shape_ffill. eapply has_shape_masked; eauto. }
  assert (Hs : has_shape T N (_signal r)).
  { apply vol_target_signals_inr in Hsig as (_ & _ & Hsig).
    destruct (flag_on "signal_vol_adjust" br).
    - destruct Hsig as (lev & d & a1 & a2 & a3 & a4 & a5 & a6 & a7 & _ & HL
        & _ & _ & _ & _ & _ & _ & _ & Hd & Hn).
      pose proof (has_shape_leverage_factor _ _ _ _ _ _ _ _ _ _ _ _ Hret HL) as Hlev.
      destruct (has_shape_binop fmul T N _ _ _ _ _ _ Hmk Hlev Hd Hn) as [Hs _];
        [apply Hmk | exact Hs].
    - destruct Hsig as (Hx & _). rewrite Hx. exact Hmk. }
  assert (Hp : has_shape T N (_pnl r)).
  { eapply has_shape_set_columns; [exact Hset|].
    eapply has_shape_tc_matrix; [exact Hs | exact Hret | exact Hpnl0]. }
  repeat split; try apply Hs; try apply Hp.
  all: apply vol_target_portfolio_inr in Hvp as (_ & _ & Hvp);
    assert (Hone : has_shape T 1 pl)
      by (destruct Hp as (<- & _); eapply has_shape_ones; eauto);
    destruct (flag_on "portfolio_vol_adjust" br1);
    [ destruct Hvp as (p & pa & [= <-] & _ & Hvp);
      apply calculate_vol_adjusted_returns_inr in Hvp as (_ & _ & Hvp);
      destruct Hvp as (a1 & a2 & a3 & a4 & a5 & a6 & a7 & ? & ? & ? & HL & _);
      eapply has_shape_leverage_factor in HL;
        [apply HL | eapply has_shape_portfolio; eauto]
    | destruct Hvp as (_ & -> & _); apply Hone ].
Qed.

(** Claim C1.  After a call of [calculate_trading_PnL] that returns, the P&L
    of every asset column is NaN at the first observation and, at every
    later date, equals the position of the previous period times the simple
    return of the forward-filled price at that date, minus
    [spot_tc_bp * |position(t) - position(t-1)|].  The position is the
    signal the engine keeps in [_signal]. *)
Theorem C1_pnl_formula a s br r br' :
  calculate_trading_PnL sqrtQ freq_bins a s br = (inr r, br') ->
  exists tc v,
    br !! "spot_tc_bp" = Some v /\ as_float v = inr tc /\
    length (coldata (_pnl r)) = length (coldata a) /\
    forall j pnl, coldata (_pnl r) !! j = Some pnl ->
      exists pos price,
        coldata (_signal r) !! j = Some pos /\
        coldata (fillna_ffill a) !! j = Some price /\
        (wf_frame a -> length pnl = length (index a)) /\
        (forall x, pnl !! 0%nat = Some x -> x = NaN) /\
        (forall t p0 p1 q0 q1,
           pos !! t = Some p0 -> pos !! S t = Some p1 ->
           price !! t = Some q0 -> price !! S t = Some q1 ->
           pnl !! S t
           = Some (fsub (fmul p0 (fsub (fdiv q1 q0) (Fin 1)))
                        (fmul tc (fabs (fsub p1 p0))))).
Proof.
  intros H. pose proof (run_shapes a s br r br') as Hshape.
  specialize (fun Hwf => Hshape Hwf H).
  apply calculate_trading_PnL_inr in H.
  destruct H as (masked & v & tc & pnl0 & pnl_cols & agg & data & ps & br1 & pl & p'
    & _ & _ & _ & _ & Hv & Htc & _ & _ & Hpnl0 & Hset & _).
  exists tc, v. split; auto. split; auto.
  apply set_columns_coldata in Hset as [Hcd _].
  apply tc_matrix_coldata in Hpnl0 as (_ & _ & Hlen & Hz).
  rewrite Hcd, Hz. unfold calculate_returns in *.
  rewrite coldata_map_cols in *. rewrite length_fmap in Hlen. split.
  { rewrite length_zip_with, length_fmap, Hlen.
    unfold fillna_ffill. rewrite coldata_map_cols, length_fmap. lia. }
  intros j pnl Hj. rewrite lookup_zip_with in Hj.
  destruct (coldata (_signal r) !! j) as [pos|] eqn:Hpos; simpl in Hj; [|discriminate].
  rewrite list_lookup_fmap in Hj.
  destruct (coldata (fillna_ffill a) !! j) as [price|] eqn:Hprice; simpl in Hj; [|discriminate].
  injection Hj as <-. exists pos, price. repeat split; auto.
  - intros Hwf. destruct (Hshape Hwf) as (_ & (_ & _ & HF) & _).
    rewrite Forall_lookup in HF. apply (HF j).
    rewrite Hcd, Hz, lookup_zip_with, Hpos, list_lookup_fmap, Hprice. reflexivity.
  - apply signal_returns_col_0.
  - intros t p0 p1 q0 q1 H0 H1 Q0 Q1.
    apply signal_returns_col_S; auto. apply pct_change_S; auto.
Qed.

Lemma portfolio_cell agg pnl p t :
  set_columns (portfolio_of agg pnl) ["Port"] = inr p ->
  (t < length (index pnl))%nat ->
  cell p 0 t = Some (agg (row pnl t)).
Proof.
  intros H Ht. apply set_columns_coldata in H as [Hc _].
  unfold cell. rewrite Hc. simpl. unfold row_agg.
  apply (lookup_fmap_seq (fun t => agg (row pnl t))). auto.
Qed.

Lemma portfolio_signal_cell T N (L sig ps : DataFrame) data j t l x :
  has_shape T 1 L -> has_shape T N sig ->
  np_binop fmul (np_repeat_T (df_values L) (length (columns sig))) (df_values sig)
    = inr data ->
  new_frame data (index sig) (columns sig) = inr ps ->
  cell L 0 t = Some l -> cell sig j t = Some x ->
  cell ps j t = Some (fmul l x).
Proof.
  intros (HL1 & HL2 & HL3) (HS1 & HS2 & HS3) Hd Hn Hl Hx.
  destruct (coldata L) as [|c [|]] eqn:EL; try discriminate.
  apply Forall_inv in HL3.
  assert (Hflat : np_flatten (df_values L) = c).
  { unfold np_flatten, df_values. simpl. rewrite EL, HL1.
    apply transpose_rows_single. auto. }
  assert (HN : length (columns sig) = N).
  { unfold columns. rewrite length_fmap. unfold coldata in HS2.
    rewrite length_fmap in HS2. auto. }
  unfold np_repeat_T in Hd. rewrite Hflat, HN in Hd.
  rewrite (np_binop_same fmul T N) in Hd; simpl; auto using length_replicate.
  2: apply Forall_replicate; auto.
  injection Hd as <-. apply new_frame_inr in Hn as (_ & _ & _ & Hc).
  simpl in Hc. unfold cell in *. rewrite Hc, lookup_zip_with. rewrite EL in Hl.
  simpl in Hl.
  destruct (coldata sig !! j) as [cs|] eqn:Ej; simpl in Hx; [|discriminate].
  rewrite lookup_replicate_2 by (apply lookup_lt_Some in Ej; lia).
  simpl. rewrite lookup_zip_with, Hl. simpl. rewrite Hx. reflexivity.
Qed.

Lemma cell_scalar_op f df j t :
  cell (df_scalar_op f df) j t = f <$> cell df j t.
Proof.
  unfold cell, df_scalar_op. rewrite coldata_map_cols, list_lookup_fmap.
  destruct (coldata df !! j); simpl; auto. apply list_lookup_fmap.
Qed.

(** Claim C6, as amended.  With [portfolio_combination] equal to ['mean'] (or
    absent) and no portfolio volatility targeting, the portfolio P&L at each
    date is the mean of the per-asset P&L values that are not NaN (NaN when
    there is none), which is the arithmetic mean of all N values when none
    of them is NaN.  With portfolio volatility targeting the portfolio P&L
    is NaN at the first date and, at every later date, the portfolio
    leverage of the date before times that mean, less [spot_tc_bp] times
    the absolute change of the portfolio leverage.  In every such
    configuration the final portfolio signal is the signal times the
    portfolio leverage, divided by N. *)
Theorem C6_mean_combination a s br r br' :
  wf_frame a ->
  br !! "portfolio_combination" = Some (VStr "mean") \/
    br !! "portfolio_combination" = None ->
  calculate_trading_PnL sqrtQ freq_bins a s br = (inr r, br') ->
  (flag_on "portfolio_vol_adjust" br = false ->
     forall t, (t < length (index a))%nat ->
       cell (_portfolio r) 0 t = Some (nanmean (row (_pnl r) t)) /\
       length (row (_pnl r) t) = length (coldata a) /\
       forall xs, row (_pnl r) t = Fin <$> xs -> xs <> [] ->
         nanmean (row (_pnl r) t)
         = Fin (foldr Qplus 0%Q xs / inject_Z (Z.of_nat (length (coldata a))))) /\
  (flag_on "portfolio_vol_adjust" br = true ->
     exists v tc,
       br !! "spot_tc_bp" = Some v /\ as_float v = inr tc /\
       ((0 < length (index a))%nat -> cell (_portfolio r) 0 0 = Some NaN) /\
       forall t, (S t < length (index a))%nat ->
         exists l0 l1,
           cell (_portfolio_leverage r) 0 t = Some l0 /\
           cell (_portfolio_leverage r) 0 (S t) = Some l1 /\
           cell (_portfolio r) 0 (S t)
           = Some (fsub (fmul l0 (nanmean (row (_pnl r) (S t))))
                        (fmul tc (fabs (fsub l1 l0))))) /\
  (forall j t l x,
     cell (_portfolio_leverage r) 0 t = Some l -> cell (_signal r) j t = Some x ->
     cell (_portfolio_signal r) j t
     = Some (fdiv (fmul l x) (Fin (inject_Z (Z.of_nat (length (coldata a))))))).
Proof.
  intros Hwf Hmean H.
  destruct (run_shapes a s br r br' Hwf H) as (Hs & Hp & Hl).
  pose proof (calculate_trading_PnL_leveraged sqrtQ freq_bins a s br r br' H) as Hon.
  apply calculate_trading_PnL_inr in H.
  destruct H as (masked & v & tc & pnl0 & pnl_cols & agg & data & ps & br1 & pl & p'
    & _ & _ & _ & _ & _ & _ & _ & _ & _ & _ & Hagg & Hoff & Hd & Hn & Hps).
  assert (Hav : averaged br = true /\ agg = nanmean).
  { unfold averaged, combination in *.
    destruct Hmean as [E | E]; rewrite E in *; simpl in *; split; congruence. }
  destruct Hav as [Hav ->]. split; [|split].
  - intros Hflag t Ht. destruct (Hoff Hflag) as [Hport _].
    assert (Hlen : length (row (_pnl r) t) = length (coldata a)).
    { eapply row_length; eauto. }
    split; [|split; auto].
    + eapply portfolio_cell; eauto. destruct Hp as (-> & _). auto.
    + intros xs Hxs Hne. rewrite Hxs in *. rewrite length_fmap in Hlen.
      rewrite <- Hlen. apply nanmean_all_finite. auto.
  - intros Hflag.
    destruct (Hon Hflag) as (agg & w & tcf & p0 & Hagg' & Hw & Htcf & Hp0 & Hcd).
    rewrite Hagg in Hagg'. injection Hagg' as <-.
    exists w, tcf. split; [exact Hw|]. split; [exact Htcf|].
    apply tc_matrix_coldata in Hp0 as (_ & _ & _ & Hz).
    destruct Hl as (HL1 & HL2 & HL3).
    destruct (coldata (_portfolio_leverage r)) as [|lev [|]] eqn:EL; try discriminate.
    apply Forall_inv in HL3.
    assert (Hmc : length (row_agg nanmean (_pnl r)) = length (index a)).
    { unfold row_agg. rewrite length_fmap, length_seq. apply Hp. }
    assert (Hm : forall t, (t < length (index a))%nat ->
              row_agg nanmean (_pnl r) !! t = Some (nanmean (row (_pnl r) t))).
    { intros t Ht. unfold row_agg.
      apply (lookup_fmap_seq (fun t => nanmean (row (_pnl r) t))).
      destruct Hp as (-> & _). exact Ht. }
    unfold cell. rewrite Hcd, Hz, EL. simpl. split.
    + intros Ht.
      destruct (lookup_lt_is_Some_2 (signal_returns_col tcf lev (row_agg nanmean (_pnl r)))
                  0%nat) as [x Hx].
      { unfold signal_returns_col.
        rewrite !length_zip_with, shift_length. lia. }
      rewrite Hx. f_equal. eapply signal_returns_col_0; eauto.
    + intros t Ht.
      destruct (lookup_lt_is_Some_2 lev t) as [l0 Hl0]; [lia|].
      destruct (lookup_lt_is_Some_2 lev (S t)) as [l1 Hl1]; [lia|].
      exists l0, l1. split; [exact Hl0|]. split; [exact Hl1|].
      apply signal_returns_col_S; auto.
  - intros j t l x Hlc Hxc. rewrite Hps, Hav, cell_scalar_op.
    rewrite (portfolio_signal_cell _ _ _ _ _ _ j t l x Hl Hs Hd Hn Hlc Hxc).
    simpl. destruct Hs as (_ & Hcols & _).
    unfold columns. rewrite length_fmap. unfold coldata in Hcols.
    rewrite length_fmap in Hcols. rewrite Hcols.
    unfold coldata. rewrite length_fmap. reflexivity.
Qed.

End Shapes.

(** ** The claims on concrete inputs *)

Lemma wf_prices_two : wf_frame prices_two.
Proof. repeat constructor. Qed.

Lemma wf_prices_late : wf_frame prices_late.
Proof. repeat constructor. Qed.

(** Claim C1 on the two assets with the mean request. *)
Lemma C1_pnl_formula_witness :
  let r := result_two in
    calculate_trading_PnL sqrt_approx offset_aliases prices_two signal_two br_mean
      = (inr r, br_mean) /\
    exists tc v,
      br_mean !! "spot_tc_bp" = Some v /\ as_float v = inr tc /\
      length (coldata (_pnl r)) = length (coldata prices_two) /\
      forall j pnl, coldata (_pnl r) !! j = Some pnl ->
        exists pos price,
          coldata (_signal r) !! j = Some pos /\
          coldata (fillna_ffill prices_two) !! j = Some price /\
          (wf_frame prices_two -> length pnl = length (index prices_two)) /\
          (forall x, pnl !! 0%nat = Some x -> x = NaN) /\
          (forall t p0 p1 q0 q1,
             pos !! t = Some p0 -> pos !! S t = Some p1 ->
             price !! t = Some q0 -> price !! S t = Some q1 ->
             pnl !! S t
             = Some (fsub (fmul p0 (fsub (fdiv q1 q0) (Fin 1)))
                          (fmul tc (fabs (fsub p1 p0))))).
Proof.
  assert (H : calculate_trading_PnL sqrt_approx offset_aliases prices_two signal_two
                br_mean = (inr result_two, br_mean)) by compute_done.
  split; [exact H|].
  exact (C1_pnl_formula sqrt_approx offset_aliases prices_two signal_two br_mean
           result_two br_mean H).
Defined.

(** Claim C2 on prices whose second asset starts a day late. *)
Lemma C2_signal_masked_witness :
  wf_frame prices_late /\
  (forall masked,
     df_mask (align_left prices_late signal_two).2
       (np_isnan (df_values (align_left prices_late signal_two).1)) = inr masked ->
     forall j t, cell (align_left prices_late signal_two).1 j t = Some NaN ->
                 cell masked j t = Some NaN) /\
  (forall br r br',
     calculate_trading_PnL sqrt_approx offset_aliases prices_late signal_two br
       = (inr r, br') ->
     exists masked br1,
       df_mask (align_left prices_late signal_two).2
         (np_isnan (df_values (align_left prices_late signal_two).1)) = inr masked /\
       vol_target_signals sqrt_approx offset_aliases
         (calculate_returns (fillna_ffill prices_late)) (fillna_ffill masked) br
       = (inr (_signal r, _individual_leverage r), br1)).
Proof.
  split; [exact wf_prices_late|].
  exact (C2_signal_masked sqrt_approx offset_aliases prices_late signal_two
           wf_prices_late).
Defined.

(** The amended claim C3 on the leverage of the two assets, taken as
    prices, with the last leverage of each day. *)
Lemma C3_leverage_bound_witness :
  let lev := leverage_two in
    calculate_leverage_factor sqrt_approx offset_aliases prices_two
      (VFloat (Fin (1 # 10))) (VFloat (Fin 5)) (VInt 2) (VInt 252) (VStr "D")
      VNone (VStr "last") false 0 = inr (Some lev) /\
    exists agg,
      resample_agg (VStr "last") = Some agg /\
      forall j t x, cell lev j t = Some x ->
        vol_like x /\
        (x = NaN \/ exists l, Forall (bounded 5) l /\ x = agg l) /\
        (eq_str (VStr "last") "mean" = false -> x = NaN \/ in_range 0 5 x).
Proof.
  split; [vm_compute; reflexivity|].
  apply (C3_leverage_bound sqrt_approx offset_aliases prices_two
           (VFloat (Fin (1 # 10))) (VFloat (Fin 5)) (VInt 2) (VInt 252) (VStr "D")
           VNone (VStr "last") false 0 leverage_two (1 # 10) 5).
  - exact sqrt_approx_nonneg.
  - reflexivity.
  - discriminate.
  - reflexivity.
  - discriminate.
  - vm_compute. reflexivity.
Defined.

(** Claim C4 on the same call, with a window of two observations. *)
Lemma C4_warm_up_witness :
  exists lev,
    calculate_leverage_factor sqrt_approx offset_aliases prices_two
      (VFloat (Fin (1 # 10))) (VFloat (Fin 5)) (VInt 2) (VInt 252) (VStr "D")
      VNone (VStr "mean") false 0 = inr (Some lev) /\
    index lev = index prices_two /\ columns lev = columns prices_two /\
    forall j c, coldata lev !! j = Some c ->
      length c = length (index prices_two) /\
      forall t, (t < 2)%nat -> (t < length c)%nat -> c !! t = Some NaN.
Proof.
  apply (C4_warm_up sqrt_approx offset_aliases prices_two
           (VFloat (Fin (1 # 10))) (VFloat (Fin 5)) (VInt 2) (VInt 252) (VStr "D")
           (VStr "mean") false 0 2%nat (Fin 252) (Fin (sqrt_approx 252))
           (Fin (1 # 10)) (Fin 5) bin_D fp_mean); reflexivity.
Defined.

(** Claim C6 fails as stated.  When the second asset has no price on the
    first day, its P&L on the second day is NaN and the portfolio P&L is the
    P&L of the first asset alone, not the mean of the two values.  With
    portfolio volatility targeting the portfolio P&L is the leveraged series
    and is NaN on a day where both assets have a P&L. *)
Lemma C6_counterexample :
  (let r := result_late in
     calculate_trading_PnL sqrt_approx offset_aliases prices_late signal_two br_mean
       = (inr r, br_mean) /\
     row (_pnl r) 1 = [Fin (1 # 100); NaN] /\
     cell (_portfolio r) 0 1 = Some (Fin (1 # 100)) /\
     fdiv (fadd (Fin (1 # 100)) NaN) (Fin 2) = NaN) /\
  (let r := result_vol in
     calculate_trading_PnL sqrt_approx offset_aliases prices_two signal_two br_vol
       = (inr r, br_vol_after) /\
     row (_pnl r) 1 = [Fin (1 # 100); Fin (0 # 50)] /\
     cell (_portfolio r) 0 1 = Some NaN).
Proof.
  split; (split; [compute_done|]); vm_compute; auto.
Qed.

(** The amended claim C6 on prices whose second asset starts a day late,
    and on a run with portfolio volatility targeting. *)
Lemma C6_mean_combination_witness :
  (let r := result_late in
     calculate_trading_PnL sqrt_approx offset_aliases prices_late signal_two br_mean
       = (inr r, br_mean) /\
     (flag_on "portfolio_vol_adjust" br_mean = false ->
        forall t, (t < length (index prices_late))%nat ->
          cell (_portfolio r) 0 t = Some (nanmean (row (_pnl r) t)) /\
          length (row (_pnl r) t) = length (coldata prices_late) /\
          forall xs, row (_pnl r) t = Fin <$> xs -> xs <> [] ->
            nanmean (row (_pnl r) t)
            = Fin (foldr Qplus 0%Q xs
                   / inject_Z (Z.of_nat (length (coldata prices_late))))) /\
     (flag_on "portfolio_vol_adjust" br_mean = true ->
        exists v tc,
          br_mean !! "spot_tc_bp" = Some v /\ as_float v = inr tc /\
          ((0 < length (index prices_late))%nat -> cell (_portfolio r) 0 0 = Some NaN) /\
          forall t, (S t < length (index prices_late))%nat ->
            exists l0 l1,
              cell (_portfolio_leverage r) 0 t = Some l0 /\
              cell (_portfolio_leverage r) 0 (S t) = Some l1 /\
              cell (_portfolio r) 0 (S t)
              = Some (fsub (fmul l0 (nanmean (row (_pnl r) (S t))))
                           (fmul tc (fabs (fsub l1 l0))))) /\
     (forall j t l x,
        cell (_portfolio_leverage r) 0 t = Some l -> cell (_signal r) j t = Some x ->
        cell (_portfolio_signal r) j t
        = Some (fdiv (fmul l x)
                  (Fin (inject_Z (Z.of_nat (length (coldata prices_late)))))))) /\
  (let r := result_vol in
     calculate_trading_PnL sqrt_approx offset_aliases prices_two signal_two br_vol
       = (inr r, br_vol_after) /\
     (flag_on "portfolio_vol_adjust" br_vol = false ->
        forall t, (t < length (index prices_two))%nat ->
          cell (_portfolio r) 0 t = Some (nanmean (row (_pnl r) t)) /\
          length (row (_pnl r) t) = length (coldata prices_two) /\
          forall xs, row (_pnl r) t = Fin <$> xs -> xs <> [] ->
            nanmean (row (_pnl r) t)
            = Fin (foldr Qplus 0%Q xs
                   / inject_Z (Z.of_nat (length (coldata prices_two))))) /\
     (flag_on "portfolio_vol_adjust" br_vol = true ->
        exists v tc,
          br_vol !! "spot_tc_bp" = Some v /\ as_float v = inr tc /\
          ((0 < length (index prices_two))%nat -> cell (_portfolio r) 0 0 = Some NaN) /\
          forall t, (S t < length (index prices_two))%nat ->
            exists l0 l1,
              cell (_portfolio_leverage r) 0 t = Some l0 /\
              cell (_portfolio_leverage r) 0 (S t) = Some l1 /\
              cell (_portfolio r) 0 (S t)
              = Some (fsub (fmul l0 (nanmean (row (_pnl r) (S t))))
                           (fmul tc (fabs (fsub l1 l0))))) /\
     (forall j t l x,
        cell (_portfolio_leverage r) 0 t = Some l -> cell (_signal r) j t = Some x ->
        cell (_portfolio_signal r) j t
        = Some (fdiv (fmul l x)
                  (Fin (inject_Z (Z.of_nat (length (coldata prices_two)))))))).
Proof.
  assert (H : calculate_trading_PnL sqrt_approx offset_aliases prices_late signal_two
                br_mean = (inr result_late, br_mean)) by compute_done.
  assert (H' : calculate_trading_PnL sqrt_approx offset_aliases prices_two signal_two
                 br_vol = (inr result_vol, br_vol_after)) by compute_done.
  split; (split; [assumption|]).
  - exact (C6_mean_combination sqrt_approx offset_aliases prices_late signal_two br_mean
             result_late br_mean wf_prices_late (or_introl eq_refl) H).
  - exact (C6_mean_combination sqrt_approx offset_aliases prices_two signal_two br_vol
             result_vol br_vol_after wf_prices_two (or_introl eq_refl) H').
Defined.

(** Claim C7 fails as stated: asked to pre-resample weekly,
    [calculate_leverage_factor] returns [None]; it raises no error. *)
Lemma C7_counterexample :
  calculate_leverage_factor sqrt_approx offset_aliases prices_two
    (VFloat (Fin (1 # 10))) (VFloat (Fin 5)) (VInt 2) (VInt 252) (VStr "D")
    (VStr "W") (VStr "mean") false 0 = inr None /\
  ~ exists e,
      calculate_leverage_factor sqrt_approx offset_aliases prices_two
        (VFloat (Fin (1 # 10))) (VFloat (Fin 5)) (VInt 2) (VInt 252) (VStr "D")
        (VStr "W") (VStr "mean") false 0 = inl e.
Proof. split; [reflexivity | intros [e H]; discriminate]. Qed.

(** The amended claim C7 for a weekly pre-resampling. *)
Lemma C7_resample_freq_unsupported_witness :
  is_None (VStr "W") = false /\
  (forall df vt ml vp obs fr rt returns ps,
     calculate_leverage_factor sqrt_approx offset_aliases df vt ml vp obs fr
       (VStr "W") rt returns ps = inr None) /\
  (forall a s br,
     (flag_on "signal_vol_adjust" br = true /\
      br !! "signal_vol_resample_freq" = Some (VStr "W")) \/
     (flag_on "portfolio_vol_adjust" br = true /\
      br !! "portfolio_vol_resample_freq" = Some (VStr "W")) ->
     exists e br', calculate_trading_PnL sqrt_approx offset_aliases a s br = (inl e, br')).
Proof.
  split; [reflexivity|].
  apply (C7_resample_freq_unsupported sqrt_approx offset_aliases (VStr "W")).
  reflexivity.
Defined.

(** Claim C8 fails as stated: prices for EURUSD and GBPUSD with signals for
    GBPUSD and USDJPY have different column sets, yet the call returns and
    pairs the columns by position. *)
Lemma C8_counterexample :
  columns prices_fx = ["EURUSD"; "GBPUSD"] /\
  columns signal_other = ["GBPUSD"; "USDJPY"] /\
  let r := result_fx in
    calculate_trading_PnL sqrt_approx offset_aliases prices_fx signal_other br_mean
      = (inr r, br_mean) /\
    columns (_pnl r) = ["EURUSD / GBPUSD"; "GBPUSD / USDJPY"] /\
    cell (_pnl r) 0 1 = Some (Fin (1 # 100)).
Proof.
  split; [reflexivity|]. split; [reflexivity|].
  split; [compute_done|]. vm_compute. auto.
Qed.

(** The amended claim C8: one signal column against two prices, and two
    columns with other labels. *)
Lemma C8_column_count_witness :
  length (cols signal_one) <> length (cols prices_two) /\
  calculate_trading_PnL sqrt_approx offset_aliases prices_two signal_one br_mean
    = (inl ValueError, br_mean) /\
  length (cols signal_other) = length (cols prices_fx) /\
  exists masked,
    df_mask (align_left prices_fx signal_other).2
      (np_isnan (df_values (align_left prices_fx signal_other).1)) = inr masked /\
    columns masked = columns signal_other.
Proof.
  split; [discriminate|]. split.
  - apply (C8_column_count sqrt_approx offset_aliases prices_two signal_one br_mean).
    discriminate.
  - split; [reflexivity|].
    apply (C8_column_count sqrt_approx offset_aliases prices_fx signal_other br_mean).
    reflexivity.
Defined.

(** Claim C10 for the combination ['median']. *)
Lemma C10_unknown_combination_witness :
  br_median !! "portfolio_combination" = Some (VStr "median") /\
  (forall pnl, combine_portfolio pnl br_median = (inr None, br_median)) /\
  (forall a s, exists e br',
     calculate_trading_PnL sqrt_approx offset_aliases a s br_median = (inl e, br')).
Proof.
  split; [reflexivity|].
  apply (C10_unknown_combination sqrt_approx offset_aliases br_median (VStr "median"));
    reflexivity.
Defined.

(** ** Caller-owned objects in the store *)

Lemma default_of_guard k : default_of (guard_of k) = None.
Proof. unfold guard_of. repeat case_bool_decide; reflexivity. Qed.

Lemma defaulted_refl c : defaulted c c.
Proof. intros k. left. reflexivity. Qed.

Lemma defaulted_lookup c c' name :
  defaulted c c' -> default_of name = None -> c' !! name = c !! name.
Proof. intros H Hd. destruct (H name) as [E | (v & Hv & _)]; congruence. Qed.

Lemma defaulted_flag c c' k :
  defaulted c c' -> flag_on (guard_of k) c' = flag_on (guard_of k) c.
Proof.
  intros H. unfold flag_on.
  rewrite (defaulted_lookup c c' _ H (default_of_guard k)). reflexivity.
Qed.

Lemma defaulted_trans c1 c2 c3 :
  defaulted c1 c2 -> defaulted c2 c3 -> defaulted c1 c3.
Proof.
  intros H1 H2 k. unfold may_gain in *.
  destruct (H2 k) as [E | (v & Hv & G & N2)].
  { rewrite E. destruct (H1 k) as [E1 | (v1 & Hv1 & G1 & N1)]; [left; exact E1|].
    right. exists v1. auto. }
  assert (E1 : c2 !! k = c1 !! k).
  { destruct (H1 k) as [E1 | (v1 & Hv1 & [E1 | (_ & E1 & _)] & N1)]; congruence. }
  unfold may_gain in G. right. exists v. split; [exact Hv|]. rewrite <- E1. split; [|exact N2].
  destruct G as [E | (_ & E & F)]; [left; exact E | right].
  rewrite <- (defaulted_flag c1 c2 k H1). auto.
Qed.

Lemma frame_rel_refl n br h : frame_rel n br h h.
Proof.
  split; [lia|]. split; [auto|]. intros c Hc. exists c.
  split; auto. split; [reflexivity|].
  split; [apply unchanged_but_refl | apply defaulted_refl].
Qed.

Lemma frame_rel_trans n br h1 h2 h3 :
  frame_rel n br h1 h2 -> frame_rel n br h2 h3 -> frame_rel n br h1 h3.
Proof.
  intros (L1 & F1 & R1) (L2 & F2 & R2). split; [lia|]. split.
  - intros l Hl Hbr. rewrite F2, F1; auto.
  - intros c Hc. destruct (R1 c Hc) as (c1 & Hc1 & S1 & U1 & D1).
    destruct (R2 c1 Hc1) as (c2 & Hc2 & S2 & U2 & D2).
    exists c2. split; auto. split; [etrans; eauto|]. split.
    + eapply unchanged_but_trans; eauto.
    + eapply defaulted_trans; eauto.
Qed.

Section StoreFrame.
Variables (n : nat) (br : Store.loc) (c0 : config).
Hypothesis br_old : (br < n)%nat.

Lemma hoare_ret {A} (a : A) (Q : A -> Prop) : Q a -> hoare n br c0 (mret a) Q.
Proof.
  intros HQ h x h' c _ _ _ [= <- <-]. split; [apply frame_rel_refl|].
  intros a' [= <-]. auto.
Qed.

Lemma hoare_lift {A} (r : exn + A) : hoare n br c0 (Store.lift r) (fun _ => True).
Proof. intros h x h' c _ _ _ [= <- <-]. split; [apply frame_rel_refl | auto]. Qed.

Lemma hoare_throw {A} e (Q : A -> Prop) : hoare n br c0 (Store.throw e) Q.
Proof.
  intros h x h' c _ _ _ [= <- <-]. split; [apply frame_rel_refl | discriminate].
Qed.

Lemma hoare_bind {A B} (m : Store.P A) (k : A -> Store.P B) Q1 Q2 :
  hoare n br c0 m Q1 -> (forall a, Q1 a -> hoare n br c0 (k a) Q2) ->
  hoare n br c0 (m ≫= k) Q2.
Proof.
  intros Hm Hk h x h' c Hn Hc H0. unfold mbind, Store.P_bind.
  destruct (m h) as [[e|a] h1] eqn:E.
  - intros [= <- <-]. destruct (Hm _ _ _ _ Hn Hc H0 E) as [F _].
    split; [exact F | discriminate].
  - intros Hka. destruct (Hm _ _ _ _ Hn Hc H0 E) as [F HQ].
    assert (Hn1 : (n <= length h1)%nat) by (destruct F; lia).
    destruct (proj2 (proj2 F) c Hc) as (c1 & Hc1 & _ & _ & D1).
    destruct (Hk a (HQ a eq_refl) _ _ _ c1 Hn1 Hc1 (defaulted_trans _ _ _ H0 D1) Hka)
      as [F' HQ'].
    split; [eapply frame_rel_trans; eauto | exact HQ'].
Qed.

Lemma hoare_conseq {A} (m : Store.P A) (Q Q' : A -> Prop) :
  hoare n br c0 m Q -> (forall a, Q a -> Q' a) -> hoare n br c0 m Q'.
Proof.
  intros Hm HQ h x h' c Hn Hc H0 E. destruct (Hm _ _ _ _ Hn Hc H0 E) as [F H].
  split; auto.
Qed.

Lemma attrs_of_lt l h c : Store.attrs_of l h = Some c -> (l < length h)%nat.
Proof.
  unfold Store.attrs_of. destruct (h !! l) eqn:E; [|discriminate].
  intros _. eapply lookup_lt_Some; eauto.
Qed.

Lemma hoare_new_df df : hoare n br c0 (Store.new_df df) (fun l => (n <= l)%nat).
Proof.
  intros h x h' c1 Hn _ _ [= <- <-]. split.
  - split; [rewrite length_app; lia|]. split.
    + intros l Hl _. apply lookup_app_l. lia.
    + intros c Hc. exists c.
      split; [|split; [reflexivity|
               split; [apply unchanged_but_refl | apply defaulted_refl]]].
      unfold Store.attrs_of in *. rewrite lookup_app_l; auto.
      apply (attrs_of_lt _ _ _ Hc).
  - intros a [= <-]. exact Hn.
Qed.

Lemma hoare_get_df l : hoare n br c0 (Store.get_df l) (fun _ => True).
Proof.
  intros h x h' c _ _ _. unfold Store.get_df.
  destruct (h !! l) as [[df|c']|]; intros [= <- <-];
    (split; [apply frame_rel_refl | auto]).
Qed.

Lemma hoare_put_df l df :
  (n <= l)%nat -> hoare n br c0 (Store.put_df l df) (fun _ => True).
Proof.
  intros Hl h x h' c1 _ _ _ [= <- <-]. split; auto.
  split; [rewrite length_insert; lia|].
  split.
  - intros l' Hl' _. apply list_lookup_insert_ne. lia.
  - intros c Hc. exists c.
    split; [|split; [reflexivity|
             split; [apply unchanged_but_refl | apply defaulted_refl]]].
    unfold Store.attrs_of in *. rewrite list_lookup_insert_ne by lia. exact Hc.
Qed.

(** Outside the defaults the request reads as the caller passed it. *)
Lemma hoare_hasattr name :
  hoare n br c0 (Store.hasattr br name)
    (fun b => default_of name = None -> b = bool_decide (is_Some (c0 !! name))).
Proof.
  intros h x h' c _ Hc H0 [= <- <-]. split; [apply frame_rel_refl|].
  intros a [= <-] Hd. rewrite Hc. simpl.
  rewrite (defaulted_lookup _ _ _ H0 Hd). reflexivity.
Qed.

Lemma hoare_getattr name :
  hoare n br c0 (Store.getattr br name)
    (fun a => default_of name = None -> c0 !! name = Some a).
Proof.
  intros h x h' c _ Hc H0. unfold Store.getattr. rewrite Hc. simpl.
  destruct (c !! name) eqn:E; intros [= <- <-];
    (split; [apply frame_rel_refl|]); [|discriminate].
  intros a [= <-] Hd. rewrite <- (defaulted_lookup _ _ _ H0 Hd). exact E.
Qed.

Lemma hoare_set_default name v :
  default_of name = Some v -> flag_on (guard_of name) c0 = true ->
  name ∈ default_keys ->
  hoare n br c0 (Store.set_default br name v) (fun _ => True).
Proof.
  intros Hv Hflag Hk h x h' c1 _ Hc1 H0.
  unfold Store.set_default, mbind, Store.P_bind, Store.hasattr.
  case_bool_decide as E.
  - intros [= <- <-]. split; [apply frame_rel_refl | auto].
  - unfold Store.setattr. rewrite Hc1.
    intros [= <- <-]. split; auto. split; [rewrite length_insert; lia|]. split.
    + intros l _ Hl. apply list_lookup_insert_ne. auto.
    + intros c Hc. assert (c = c1) by congruence. subst c.
      exists (<[name := v]> c1).
      assert (Hnone : c1 !! name = None).
      { rewrite Hc1 in E. simpl in E.
        destruct (c1 !! name) eqn:E'; auto. exfalso. apply E. eauto. }
      split; [|split; [|split]].
      * unfold Store.attrs_of. rewrite list_lookup_insert_eq; auto.
        apply (attrs_of_lt _ _ _ Hc1).
      * apply insert_subseteq. exact Hnone.
      * intros k Hkk. apply lookup_insert_ne. intros ->. contradiction.
      * intros k. destruct (decide (k = name)) as [->|Hne].
        -- right. exists v. split; [exact Hv|]. split; [|exact Hnone].
           right. split; [exact Hnone|]. split; [apply lookup_insert_eq|].
           rewrite (defaulted_flag c0 c1 name H0). exact Hflag.
        -- left. apply lookup_insert_ne. auto.
Qed.

Lemma hoare_op1 f l : hoare n br c0 (Store.op1 f l) (fun l' => (n <= l')%nat).
Proof.
  unfold Store.op1. eapply hoare_bind; [apply hoare_get_df|].
  intros df _. apply hoare_new_df.
Qed.

Lemma hoare_upd f l : (n <= l)%nat -> hoare n br c0 (Store.upd f l) (fun _ => True).
Proof.
  intros Hl. unfold Store.upd. eapply hoare_bind; [apply hoare_get_df|].
  intros df _. eapply hoare_bind; [apply hoare_lift|].
  intros df' _. apply hoare_put_df. exact Hl.
Qed.

(** A flag that has been read as [True] is on in the caller's request. *)
Lemma read_flag_on name adj :
  (default_of name = None -> c0 !! name = Some adj) ->
  default_of name = None -> is_True adj = true -> flag_on name c0 = true.
Proof. intros H Hd Ht. unfold flag_on. rewrite (H Hd). exact Ht. Qed.

Variable sqrtQ : Q -> Q.
Variable freq_bins : string -> option (date -> date).

Ltac in_default_keys := unfold default_keys; rewrite !elem_of_cons; tauto.

Ltac hprim :=
  first [ apply hoare_lift | apply hoare_new_df | apply hoare_get_df
        | apply hoare_hasattr | apply hoare_getattr | apply hoare_op1
        | apply hoare_throw
        | apply hoare_upd; assumption
        | apply hoare_set_default; [reflexivity | assumption | in_default_keys] ].

Ltac hstep :=
  lazymatch goal with
  | |- hoare _ _ _ (mret _) _ => apply hoare_ret
  | |- hoare _ _ _ (Store.throw _) _ => apply hoare_throw
  | |- hoare _ _ _ (_ ≫= _) _ => eapply hoare_bind; [solve [hprim] | intros ? ?]
  end.

Lemma hoare_read_local {A} name (o : option A) :
  hoare n br c0 (Store.lift (read_local name o)) (fun a => o = Some a).
Proof.
  intros h x h' c _ _ _ [= <- <-]. split; [apply frame_rel_refl|].
  destruct o; simpl; intros a'; [intros [= <-]; reflexivity | discriminate].
Qed.

Lemma hoare_returns_arg (returns : bool) returns_df :
  hoare n br c0 (if returns then mret returns_df
                 else Store.op1 calculate_returns returns_df) (fun _ => True).
Proof.
  destruct returns; [apply hoare_ret; exact I|].
  eapply hoare_conseq; [apply hoare_op1 | auto].
Qed.

Lemma hoare_leverage_factor returns_df vt ml vp obs fr rf rt returns ps :
  hoare n br c0
    (Store.calculate_leverage_factor sqrtQ freq_bins returns_df vt ml vp obs fr rf rt
       returns ps)
    (fun r => forall l, r = Some l -> (n <= l)%nat).
Proof.
  unfold Store.calculate_leverage_factor.
  destruct (negb (is_None rf)); [apply hoare_ret; discriminate|].
  eapply hoare_bind; [apply hoare_returns_arg | intros rd _].
  do 9 hstep.
  destruct (resample_time_series_frequency _ _ _); [|apply hoare_throw].
  do 7 hstep. hstep. intros l [= <-]. assumption.
Qed.

(** The portfolio defaults are assigned in [calculate_vol_adjusted_returns],
    which [calculate_trading_PnL] calls under [portfolio_vol_adjust]. *)
Lemma hoare_vol_adjusted_returns returns_df returns :
  flag_on "portfolio_vol_adjust" c0 = true ->
  hoare n br c0
    (Store.calculate_vol_adjusted_returns sqrtQ freq_bins returns_df br returns)
    (fun pl => (n <= pl.1)%nat /\ (n <= pl.2)%nat).
Proof.
  intros Hflag. unfold Store.calculate_vol_adjusted_returns.
  eapply hoare_bind; [apply hoare_returns_arg | intros rd _].
  do 9 hstep.
  eapply hoare_bind; [apply hoare_leverage_factor | intros olev Holev].
  hstep. destruct olev as [lev|]; [|apply hoare_throw].
  do 5 hstep. hstep. simpl. auto.
Qed.

Lemma hoare_vol_target_signals returns_df signal_df :
  (n <= signal_df)%nat ->
  hoare n br c0 (Store.vol_target_signals sqrtQ freq_bins br returns_df signal_df)
    (fun sl => (n <= sl.1)%nat /\ forall l, sl.2 = Some l -> (n <= l)%nat).
Proof.
  intros Hs. unfold Store.vol_target_signals.
  hstep. destruct a; [|apply hoare_ret; simpl; split; [auto | discriminate]].
  eapply hoare_bind; [apply hoare_getattr | intros adj Hadj].
  destruct (is_True adj) eqn:Hon;
    [|apply hoare_ret; simpl; split; [auto | discriminate]].
  assert (Hflag : flag_on "signal_vol_adjust" c0 = true)
    by (eapply read_flag_on; eauto).
  do 9 hstep.
  eapply hoare_bind; [apply hoare_leverage_factor | intros olev Holev].
  destruct olev as [lev|]; [|apply hoare_throw].
  do 4 hstep. hstep. simpl. split; auto.
Qed.

Lemma hoare_combine_portfolio pnl :
  hoare n br c0 (Store.combine_portfolio br pnl)
    (fun r => forall l, r = Some l -> (n <= l)%nat).
Proof.
  unfold Store.combine_portfolio.
  hstep. destruct a.
  - hstep. destruct (eq_str a "sum"); [|destruct (eq_str a "mean")].
    + hstep. hstep. intros l [= <-]. auto.
    + hstep. hstep. intros l [= <-]. auto.
    + hstep. discriminate.
  - hstep. hstep. intros l [= <-]. auto.
Qed.

Lemma hoare_vol_target_portfolio portfolio pl :
  (forall l, portfolio = Some l -> (n <= l)%nat) -> (n <= pl)%nat ->
  hoare n br c0 (Store.vol_target_portfolio sqrtQ freq_bins br portfolio pl)
    (fun x => (forall l, x.1 = Some l -> (n <= l)%nat) /\ (n <= x.2)%nat).
Proof.
  intros Hp Hl. unfold Store.vol_target_portfolio.
  hstep. destruct a; [|apply hoare_ret; simpl; auto].
  eapply hoare_bind; [apply hoare_getattr | intros adj Hadj].
  destruct (is_True adj) eqn:Hon; [|apply hoare_ret; simpl; auto].
  assert (Hflag : flag_on "portfolio_vol_adjust" c0 = true)
    by (eapply read_flag_on; eauto).
  hstep.
  eapply hoare_bind;
    [apply hoare_vol_adjusted_returns; exact Hflag | intros [p l] [Hp' Hl']].
  hstep. simpl in *. split; auto. intros l0 [= <-]. auto.
Qed.

Lemma hoare_scale_portfolio_signal ps k :
  (n <= ps)%nat ->
  hoare n br c0 (Store.scale_portfolio_signal br ps k) (fun l => (n <= l)%nat).
Proof.
  intros Hps. unfold Store.scale_portfolio_signal.
  hstep. destruct a; [|apply hoare_op1].
  hstep. destruct (eq_str a "sum"); [apply hoare_ret; auto|].
  destruct (eq_str a "mean"); [apply hoare_op1 | apply hoare_ret; auto].
Qed.

Lemma hoare_calculate_trading_PnL asset_a_df signal_df :
  hoare n br c0 (Store.calculate_trading_PnL sqrtQ freq_bins br asset_a_df signal_df)
    (fun _ => True).
Proof.
  unfold Store.calculate_trading_PnL.
  do 15 hstep.
  eapply hoare_bind; [apply hoare_vol_target_signals; assumption|].
  intros [sg ilev] [Hsg Hilev]. simpl in Hsg.
  do 5 hstep.
  eapply hoare_bind; [apply hoare_combine_portfolio | intros portfolio Hport].
  do 3 hstep.
  eapply hoare_bind; [apply hoare_vol_target_portfolio; assumption|].
  intros [p l] [Hp Hl]. simpl in Hp, Hl.
  eapply hoare_bind; [apply hoare_read_local | intros portfolio' ->].
  assert (Hpn : (n <= portfolio')%nat) by (apply Hp; reflexivity).
  do 4 hstep.
  eapply hoare_bind; [apply hoare_scale_portfolio_signal; assumption | intros ps' Hps'].
  do 6 hstep. hstep. exact I.
Qed.

End StoreFrame.

(** A default that [defaulted] lets a request gain, with its value and its
    flag written out. *)
Lemma defaulted_may_gain c c' k v :
  defaulted c c' -> default_of k = Some v -> may_gain c c' k v (guard_of k).
Proof.
  intros H Hv. destruct (H k) as [E | (v' & Hv' & G & _)]; [left; exact E|].
  assert (v' = v) as -> by congruence. exact G.
Qed.

(** Claim C9, as amended.  Whatever the outcome of [calculate_trading_PnL],
    every object that was in the store before the call, other than the
    request, is unchanged: the price frame and the signal frame hold the
    values they held.  The request keeps all its attributes with their
    values and may only gain the four resampling attributes: an attribute
    it gains was absent, is set to its default (['mean'] for
    [signal_vol_resample_type] and [portfolio_vol_resample_type], [None]
    for [signal_vol_resample_freq] and [portfolio_vol_resample_freq]), and
    the volatility targeting it belongs to is switched on in the request
    ([signal_vol_adjust], respectively [portfolio_vol_adjust], is
    [True]). *)
Theorem C9_caller_objects sqrtQ freq_bins (h : Store.heap) br asset_a_df signal_df
    c a s x h' :
  h !! br = Some (Store.ORequest c) ->
  h !! asset_a_df = Some (Store.OFrame a) ->
  h !! signal_df = Some (Store.OFrame s) ->
  Store.calculate_trading_PnL sqrtQ freq_bins br asset_a_df signal_df h = (x, h') ->
  h' !! asset_a_df = Some (Store.OFrame a) /\
  h' !! signal_df = Some (Store.OFrame s) /\
  (forall l, (l < length h)%nat -> l <> br -> h' !! l = h !! l) /\
  exists c',
    h' !! br = Some (Store.ORequest c') /\ c ⊆ c' /\
    (forall k, k ∉ default_keys -> c' !! k = c !! k) /\
    may_gain c c' "signal_vol_resample_type" (VStr "mean") "signal_vol_adjust" /\
    may_gain c c' "signal_vol_resample_freq" VNone "signal_vol_adjust" /\
    may_gain c c' "portfolio_vol_resample_type" (VStr "mean") "portfolio_vol_adjust" /\
    may_gain c c' "portfolio_vol_resample_freq" VNone "portfolio_vol_adjust".
Proof.
  intros Hbr Ha Hs Hrun.
  assert (Hlt : (br < length h)%nat) by (eapply lookup_lt_Some; eauto).
  assert (Hattrs : Store.attrs_of br h = Some c).
  { unfold Store.attrs_of. rewrite Hbr. reflexivity. }
  destruct (hoare_calculate_trading_PnL (length h) br c Hlt sqrtQ freq_bins
              asset_a_df signal_df h x h' c (le_n _) Hattrs (defaulted_refl c) Hrun)
    as [(_ & Hold & Hreq) _].
  assert (Hframes : forall l df, h !! l = Some (Store.OFrame df) ->
                                 h' !! l = Some (Store.OFrame df)).
  { intros l df Hl. rewrite Hold; auto.
    - eapply lookup_lt_Some; eauto.
    - intros ->. congruence. }
  split; [eauto|]. split; [eauto|]. split; [exact Hold|].
  destruct (Hreq c Hattrs) as (c' & Hc' & Hsub & Hun & Hd).
  exists c'. split.
  { unfold Store.attrs_of in Hc'. destruct (h' !! br) as [[df|c1]|]; congruence. }
  split; [exact Hsub|]. split; [exact Hun|].
  repeat split.
  - exact (defaulted_may_gain c c' "signal_vol_resample_type" _ Hd eq_refl).
  - exact (defaulted_may_gain c c' "signal_vol_resample_freq" _ Hd eq_refl).
  - exact (defaulted_may_gain c c' "portfolio_vol_resample_type" _ Hd eq_refl).
  - exact (defaulted_may_gain c c' "portfolio_vol_resample_freq" _ Hd eq_refl).
Qed.

(** Claim C9 fails as stated: a request with volatility targeting of the
    signals and no resampling attributes has two more attributes after the
    call. *)
Lemma C9_counterexample :
  store_sig !! 0%nat = Some (Store.ORequest br_sig) /\
  br_sig !! "signal_vol_resample_type" = None /\
  br_sig !! "signal_vol_resample_freq" = None /\
  exists b h' c',
    Store.calculate_trading_PnL sqrt_approx offset_aliases 0%nat 1%nat 2%nat store_sig
      = (inr b, h') /\
    h' !! 0%nat = Some (Store.ORequest c') /\
    c' !! "signal_vol_resample_type" = Some (VStr "mean") /\
    c' !! "signal_vol_resample_freq" = Some VNone.
Proof.
  split; [reflexivity|]. split; [reflexivity|]. split; [reflexivity|].
  exists (result_of_store store_sig_run), store_sig_run.2,
    (request_of (store_sig_run.2 !! 0%nat)).
  split; [compute_done|]. split; [compute_done|]. split; reflexivity.
Qed.

(** The amended claim C9 on the store of the example. *)
Lemma C9_caller_objects_witness :
  store_sig_run.2 !! 1%nat = Some (Store.OFrame prices_two) /\
  store_sig_run.2 !! 2%nat = Some (Store.OFrame signal_two) /\
  (forall l, (l < length store_sig)%nat -> l <> 0%nat ->
             store_sig_run.2 !! l = store_sig !! l) /\
  exists c',
    store_sig_run.2 !! 0%nat = Some (Store.ORequest c') /\ br_sig ⊆ c' /\
    (forall k, k ∉ default_keys -> c' !! k = br_sig !! k) /\
    may_gain br_sig c' "signal_vol_resample_type" (VStr "mean") "signal_vol_adjust" /\
    may_gain br_sig c' "signal_vol_resample_freq" VNone "signal_vol_adjust" /\
    may_gain br_sig c' "portfolio_vol_resample_type" (VStr "mean")
      "portfolio_vol_adjust" /\
    may_gain br_sig c' "portfolio_vol_resample_freq" VNone "portfolio_vol_adjust".
Proof.
  apply (C9_caller_objects sqrt_approx offset_aliases store_sig 0%nat 1%nat 2%nat
           br_sig prices_two signal_two store_sig_run.1 store_sig_run.2).
  - reflexivity.
  - reflexivity.
  - reflexivity.
  - compute_done.
Defined.

(** ** Forward fill on non-trading days, and the two models side by side *)

Lemma ffill_from_holds last l t :
  l !! S t = Some NaN -> ffill_from last l !! S t = ffill_from last l !! t.
Proof.
  revert last t. induction l as [|x l IH]; intros last t H; [discriminate|].
  destruct t as [|t].
  - destruct l as [|y l]; [discriminate|]. simpl in H. injection H as ->.
    reflexivity.
  - simpl in *. apply IH. exact H.
Qed.

Lemma ffill_from_first last l : l !! 0%nat = Some NaN -> ffill_from last l !! 0%nat = Some last.
Proof. destruct l as [|x l]; [discriminate|]. simpl. intros [= ->]. reflexivity. Qed.

(** After the forward fill the signal of a non-trading day is the signal of
    the day before: it changes on trading days only. *)
Lemma signal_held_on_holidays a s masked j t :
  wf_frame a ->
  df_mask (reindex (index a) s) (np_isnan (df_values a)) = inr masked ->
  cell a j (S t) = Some NaN ->
  cell (fillna_ffill masked) j (S t) = cell (fillna_ffill masked) j t.
Proof.
  intros Hwf Hm Hc. pose proof (masked_cell a s masked j (S t) Hwf Hm Hc) as Hmc.
  unfold cell in *. unfold fillna_ffill. rewrite coldata_map_cols, list_lookup_fmap.
  destruct (coldata masked !! j) as [c|]; simpl in *; [|discriminate].
  apply ffill_from_holds. exact Hmc.
Qed.

(** On an example the store model and the value model compute the same
    frames and leave the same request. *)
Lemma store_agrees_with_values :
  let b := result_of_store store_sig_run in
  let run := calculate_trading_PnL sqrt_approx offset_aliases prices_two signal_two br_sig in
  let r := result_of run in
  store_sig_run.2 !! Store._pnl b = Some (Store.OFrame (_pnl r)) /\
  store_sig_run.2 !! Store._portfolio b = Some (Store.OFrame (_portfolio r)) /\
  store_sig_run.2 !! Store._signal b = Some (Store.OFrame (_signal r)) /\
  store_sig_run.2 !! Store._portfolio_leverage b
    = Some (Store.OFrame (_portfolio_leverage r)) /\
  store_sig_run.2 !! Store._portfolio_signal b
    = Some (Store.OFrame (_portfolio_signal r)) /\
  store_sig_run.2 !! Store._cumpnl b = Some (Store.OFrame (_cumpnl r)) /\
  store_sig_run.2 !! Store._cumportfolio b = Some (Store.OFrame (_cumportfolio r)) /\
  store_sig_run.2 !! 0%nat = Some (Store.ORequest run.2).
Proof. repeat split; compute_done. Qed.

(** The scenario of the specification: on the second day the P&L of asset A
    is 101/100 - 1, the portfolio P&L is the mean of the two assets, and the
    cumulative index compounds it from 1. *)
Lemma scenario_two_assets :
  cell (_pnl result_two) 0 1 = Some (Fin (1 # 100)) /\
  cell (_pnl result_two) 1 1 = Some (Fin (0 # 50)) /\
  feq (default NaN (cell (_portfolio result_two) 0 1)) (Fin (1 # 200)) /\
  feq (default NaN (cell (_cumportfolio result_two) 0 1)) (Fin (201 # 200)) /\
  cell (_portfolio_leverage result_two) 0 1 = Some (Fin 1).
Proof. repeat split; vm_compute; reflexivity. Qed.

(** ** What a run reads of the request *)

Lemma sim_bind {A B} (R R' R'' : config -> config -> Prop) (m : M A) (k : A -> M B) :
  sim R R' m -> (forall a, sim R' R'' (k a)) -> sim R R'' (m ≫= k).
Proof.
  intros Hm Hk b1 b2 HR. destruct (Hm b1 b2 HR) as [E1 E2].
  unfold mbind, M_bind.
  destruct (m b1) as [[e1|a1] c1], (m b2) as [[e2|a2] c2]; simpl in *; try discriminate.
  - split; [congruence | discriminate].
  - injection E1 as <-. apply Hk. eapply E2; eauto.
Qed.

Lemma sim_conseq {A} (R1 R1' R2 R2' : config -> config -> Prop) (m : M A) :
  sim R1' R2' m ->
  (forall b1 b2, R1 b1 b2 -> R1' b1 b2) -> (forall b1 b2, R2' b1 b2 -> R2 b1 b2) ->
  sim R1 R2 m.
Proof.
  intros H H1 H2 b1 b2 HR. destruct (H b1 b2 (H1 _ _ HR)) as [E1 E2].
  split; [exact E1 | intros a Ha; eauto].
Qed.

Lemma sim_lift {A} R (x : exn + A) : sim R R (lift x).
Proof. intros b1 b2 HR. split; [reflexivity | intros; exact HR]. Qed.

Lemma sim_ret {A} R (x : A) : sim R R (mret x).
Proof. intros b1 b2 HR. split; [reflexivity | intros; exact HR]. Qed.

Lemma sim_ret_weaken {A} (R R' : config -> config -> Prop) (x : A) :
  (forall b1 b2, R b1 b2 -> R' b1 b2) -> sim R R' (mret x).
Proof. intros H b1 b2 HR. split; [reflexivity | intros; apply H, HR]. Qed.

Lemma sim_throw {A} R R' e : sim R R' (throw e : M A).
Proof. intros b1 b2 HR. split; [reflexivity | discriminate]. Qed.

Lemma sim_getattr (R : config -> config -> Prop) name :
  (forall b1 b2, R b1 b2 -> b1 !! name = b2 !! name) -> sim R R (getattr name).
Proof.
  intros H b1 b2 HR. unfold getattr. rewrite (H _ _ HR).
  destruct (b2 !! name); simpl; (split; [reflexivity | intros; exact HR]).
Qed.

(** The request once [set_default] has run. *)
Lemma set_default_state name v br :
  (set_default name v br).2 = match br !! name with Some _ => br | None => <[name := v]> br end.
Proof.
  rewrite set_default_total. simpl. destruct (br !! name) eqn:E.
  - rewrite bool_decide_eq_true_2; eauto.
  - rewrite bool_decide_eq_false_2; [reflexivity | intros [? ?]; discriminate].
Qed.

Lemma set_default_lookup name v br k :
  (set_default name v br).2 !! k
  = if bool_decide (k = name) then Some (default v (br !! name)) else br !! k.
Proof.
  rewrite set_default_state. case_bool_decide as E.
  - subst k. destruct (br !! name) eqn:En; simpl; [exact En | apply lookup_insert_eq].
  - destruct (br !! name); [reflexivity | apply lookup_insert_ne; congruence].
Qed.

Lemma set_default_agree name v b1 b2 k :
  b1 !! name = b2 !! name -> b1 !! k = b2 !! k ->
  (set_default name v b1).2 !! k = (set_default name v b2).2 !! k.
Proof. intros H1 H2. rewrite !set_default_lookup, H1, H2. reflexivity. Qed.

Lemma set_default_flag_on name v br f :
  f <> name -> flag_on f (set_default name v br).2 = flag_on f br.
Proof.
  intros H. unfold flag_on. rewrite set_default_lookup.
  rewrite bool_decide_eq_false_2; auto.
Qed.

Lemma sim_set_default (R R' : config -> config -> Prop) name v :
  (forall b1 b2, R b1 b2 ->
     R' (set_default name v b1).2 (set_default name v b2).2) ->
  sim R R' (set_default name v).
Proof.
  intros H b1 b2 HR. split; [rewrite !set_default_total; reflexivity | intros; auto].
Qed.

Lemma agree_lookup K b1 b2 k : agree K b1 b2 -> k ∈ K -> b1 !! k = b2 !! k.
Proof. unfold agree. rewrite Forall_forall. auto. Qed.

Lemma agree_set_default K name v b1 b2 :
  b1 !! name = b2 !! name -> agree K b1 b2 ->
  agree K (set_default name v b1).2 (set_default name v b2).2.
Proof.
  intros Hn. unfold agree. rewrite !Forall_forall. intros H k Hk.
  apply set_default_agree; auto.
Qed.

(** A block guarded by [hasattr(br, name)] and [br.name is True]. *)
Lemma sim_flag_block {A} (R R' : config -> config -> Prop) name (on off : M A) :
  (forall b1 b2, R b1 b2 -> flag_on name b1 = flag_on name b2) ->
  sim (fun b1 b2 => R b1 b2 /\ flag_on name b1 = true) R' on ->
  sim R R' off ->
  sim R R'
    (has ← hasattr name;
     if (has : bool) then adj ← getattr name; if is_True adj then on else off
     else off).
Proof.
  intros Hf Hon Hoff b1 b2 HR. rewrite !flag_block, <- (Hf _ _ HR).
  destruct (flag_on name b1) eqn:E; [apply Hon; auto | apply Hoff; auto].
Qed.

Lemma same_request_set_default name v b1 b2 :
  name <> "signal_vol_adjust" -> name <> "portfolio_vol_adjust" ->
  b1 !! name = b2 !! name ->
  same_request b1 b2 ->
  same_request (set_default name v b1).2 (set_default name v b2).2.
Proof.
  intros N1 N2 Hn (Hb & Hs & Hp & Hsk & Hpk).
  unfold same_request. rewrite !set_default_flag_on by auto.
  repeat split; auto using agree_set_default.
Qed.

Section Reads.
Variable sqrtQ : Q -> Q.
Variable freq_bins : string -> option (date -> date).

Ltac agree_key H :=
  let b1 := fresh in let b2 := fresh in let HR := fresh in
  intros b1 b2 HR; apply (agree_lookup _ _ _ _ (H b1 b2 HR));
  unfold base_keys, signal_keys, portfolio_keys; rewrite !elem_of_cons; tauto.

Lemma sim_vol_target_signals returns_df signal_df :
  sim same_request same_request
    (vol_target_signals sqrtQ freq_bins returns_df signal_df).
Proof.
  unfold vol_target_signals.
  apply sim_flag_block; [intros b1 b2 H; apply H | | apply sim_ret].
  set (Ron := fun b1 b2 : config =>
    same_request b1 b2 /\ agree signal_keys b1 b2).
  assert (Hk : forall b1 b2, Ron b1 b2 -> agree signal_keys b1 b2) by (intros ? ? H; apply H).
  eapply (sim_conseq _ Ron _ Ron).
  2:{ intros b1 b2 [HR Hon]. split; [exact HR | apply HR, Hon]. }
  2:{ intros b1 b2 H. apply H. }
  assert (Hsd : forall name v, name ∈ signal_keys -> sim Ron Ron (set_default name v)).
  { intros name v Hin. apply sim_set_default. intros b1 b2 [HR Ha].
    assert (b1 !! name = b2 !! name) by (eapply agree_lookup; eauto).
    split; [|apply agree_set_default; auto].
    apply same_request_set_default; auto; intros ->; revert Hin; not_in_keys. }
  eapply sim_bind; [apply Hsd; unfold signal_keys; rewrite !elem_of_cons; tauto | intros _].
  eapply sim_bind; [apply Hsd; unfold signal_keys; rewrite !elem_of_cons; tauto | intros _].
  do 7 (eapply sim_bind; [apply sim_getattr; agree_key Hk | intros ?]).
  eapply sim_bind; [apply sim_lift | intros [lev|]; [|apply sim_throw]].
  eapply sim_bind; [apply sim_lift | intros ?]. apply sim_ret.
Qed.

Lemma sim_vol_adjusted_returns returns_df (returns : bool) :
  sim (fun b1 b2 => same_request b1 b2 /\ agree portfolio_keys b1 b2)
      same_request
    (calculate_vol_adjusted_returns sqrtQ freq_bins returns_df returns).
Proof.
  unfold calculate_vol_adjusted_returns.
  set (Ron := fun b1 b2 : config =>
    same_request b1 b2 /\ agree portfolio_keys b1 b2).
  assert (Hk : forall b1 b2, Ron b1 b2 -> agree portfolio_keys b1 b2) by (intros ? ? H; apply H).
  assert (Hb : forall b1 b2, Ron b1 b2 -> agree base_keys b1 b2) by (intros ? ? H; apply H).
  eapply (sim_conseq _ Ron _ Ron); [| auto | intros b1 b2 H; apply H].
  assert (Hsd : forall name v, name ∈ portfolio_keys -> sim Ron Ron (set_default name v)).
  { intros name v Hin. apply sim_set_default. intros b1 b2 [HR Ha].
    assert (b1 !! name = b2 !! name) by (eapply agree_lookup; eauto).
    split; [|apply agree_set_default; auto].
    apply same_request_set_default; auto; intros ->; revert Hin; not_in_keys. }
  eapply sim_bind; [apply Hsd; unfold portfolio_keys; rewrite !elem_of_cons; tauto | intros _].
  eapply sim_bind; [apply Hsd; unfold portfolio_keys; rewrite !elem_of_cons; tauto | intros _].
  do 7 (eapply sim_bind; [apply sim_getattr; agree_key Hk | intros ?]).
  eapply sim_bind; [apply sim_lift | intros olev].
  eapply sim_bind; [apply sim_getattr; agree_key Hb | intros ?].
  destruct olev as [lev|]; [|apply sim_throw].
  eapply sim_bind; [apply sim_lift | intros ?].
  eapply sim_bind; [apply sim_lift | intros ?]. apply sim_ret.
Qed.

Lemma sim_vol_target_portfolio portfolio pl :
  sim same_request same_request (vol_target_portfolio sqrtQ freq_bins portfolio pl).
Proof.
  unfold vol_target_portfolio.
  apply sim_flag_block; [intros b1 b2 H; apply H | | apply sim_ret].
  eapply sim_bind.
  { apply sim_lift. }
  intros p. eapply sim_bind; [|intros [? ?]; apply sim_ret].
  eapply sim_conseq; [apply sim_vol_adjusted_returns | | auto].
  intros b1 b2 [HR Hon]. split; [exact HR | apply HR, Hon].
Qed.

Lemma sim_state_free {A} (R : config -> config -> Prop) (m : M A) (f : config -> exn + A) :
  (forall b, m b = (f b, b)) -> (forall b1 b2, R b1 b2 -> f b1 = f b2) -> sim R R m.
Proof.
  intros Hm Hf b1 b2 HR. rewrite !Hm. simpl. split; [auto | intros; exact HR].
Qed.

Lemma same_request_combination b1 b2 :
  same_request b1 b2 -> b1 !! "portfolio_combination" = b2 !! "portfolio_combination".
Proof.
  intros [H _]. apply (agree_lookup _ _ _ _ H). unfold base_keys.
  rewrite !elem_of_cons; tauto.
Qed.

(** The outcome of [calculate_trading_PnL] is the same for two requests that
    agree on what the engine reads. *)
Lemma sim_calculate_trading_PnL a s :
  sim same_request same_request (calculate_trading_PnL sqrtQ freq_bins a s).
Proof.
  assert (Hb : forall b1 b2, same_request b1 b2 -> agree base_keys b1 b2)
    by (intros ? ? H; apply H).
  unfold calculate_trading_PnL. simpl.
  eapply sim_bind; [apply sim_lift | intros masked].
  eapply sim_bind; [apply sim_getattr; agree_key Hb | intros tc].
  eapply sim_bind; [apply sim_lift | intros pnl_cols].
  eapply sim_bind; [apply sim_vol_target_signals | intros [sig ilev]].
  eapply sim_bind; [apply sim_lift | intros pnl0].
  eapply sim_bind; [apply sim_lift | intros pnl].
  eapply sim_bind.
  { eapply sim_state_free; [apply combine_portfolio_eq|].
    intros b1 b2 HR. unfold combination.
    rewrite (same_request_combination _ _ HR). reflexivity. }
  intros portfolio.
  eapply sim_bind; [apply sim_lift | intros pl].
  eapply sim_bind; [apply sim_vol_target_portfolio | intros [p' l']].
  eapply sim_bind; [apply sim_lift | intros p].
  eapply sim_bind; [apply sim_lift | intros ps].
  eapply sim_bind.
  { eapply sim_state_free; [apply scale_portfolio_signal_eq|].
    intros b1 b2 HR. unfold averaged.
    rewrite (same_request_combination _ _ HR). reflexivity. }
  intros ps'.
  eapply sim_bind; [apply sim_getattr; agree_key Hb | intros ann].
  eapply sim_bind; [apply sim_lift | intros port].
  eapply sim_bind; [apply sim_lift | intros cp].
  eapply sim_bind; [apply sim_lift | intros cpo].
  apply sim_ret.
Qed.

End Reads.

(** ** A request that has been through a run *)

Lemma defaults_filled_refl br : defaults_filled br br.
Proof. intros k. left. reflexivity. Qed.

Lemma defaults_filled_trans b1 b2 b3 :
  defaults_filled b1 b2 -> defaults_filled b2 b3 -> defaults_filled b1 b3.
Proof.
  intros H1 H2 k. destruct (H1 k) as [E1|(N1 & D1 & E1)], (H2 k) as [E2|(N2 & D2 & E2)].
  - left. congruence.
  - right. rewrite <- E1. auto.
  - right. rewrite E2, E1. auto.
  - destruct D1 as [x Hx]. rewrite E1, Hx in N2. discriminate.
Qed.

Lemma defaults_filled_lookup br bd k :
  defaults_filled br bd -> default_of k = None -> bd !! k = br !! k.
Proof.
  intros H Hk. destruct (H k) as [E|(_ & [x Hx] & _)]; [exact E | congruence].
Qed.

Lemma defaults_filled_flag_on br bd name :
  defaults_filled br bd -> default_of name = None -> flag_on name bd = flag_on name br.
Proof. intros H Hk. unfold flag_on. rewrite (defaults_filled_lookup _ _ _ H Hk). reflexivity. Qed.

Lemma defaults_filled_set_default name v br :
  default_of name = Some v -> defaults_filled br (set_default name v br).2.
Proof.
  intros Hd k. rewrite set_default_lookup. case_bool_decide as E; [subst k|auto].
  destruct (br !! name) eqn:En; simpl; [auto|]. right. rewrite Hd. eauto.
Qed.

Lemma fills_bind {A B} (m : M A) (k : A -> M B) :
  fills m -> (forall a, fills (k a)) -> fills (m ≫= k).
Proof.
  intros Hm Hk br. specialize (Hm br). unfold mbind, M_bind.
  destruct (m br) as [[e|a] b1]; simpl in *; [exact Hm|].
  eapply defaults_filled_trans; [exact Hm | apply Hk].
Qed.

Lemma fills_state_free {A} (m : M A) : (forall b, (m b).2 = b) -> fills m.
Proof. intros H br. rewrite H. apply defaults_filled_refl. Qed.

Lemma fills_lift {A} (x : exn + A) : fills (lift x).
Proof. apply fills_state_free. reflexivity. Qed.

Lemma fills_ret {A} (x : A) : fills (mret x).
Proof. apply fills_state_free. reflexivity. Qed.

Lemma fills_getattr name : fills (getattr name).
Proof. apply fills_state_free. intros b. unfold getattr. destruct (b !! name); reflexivity. Qed.

Lemma fills_set_default name v : default_of name = Some v -> fills (set_default name v).
Proof. intros H br. apply defaults_filled_set_default, H. Qed.

Lemma fills_flag_block {A} name (on off : M A) :
  fills on -> fills off ->
  fills (has ← hasattr name;
         if (has : bool) then adj ← getattr name; if is_True adj then on else off
         else off).
Proof. intros H1 H2 br. rewrite flag_block. destruct (flag_on name br); auto. Qed.

Lemma keeps_bind {A B} (I : config -> Prop) (m : M A) (k : A -> M B) :
  keeps I m -> (forall a, keeps I (k a)) -> keeps I (m ≫= k).
Proof.
  intros Hm Hk b HI. specialize (Hm b HI). unfold mbind, M_bind.
  destruct (m b) as [[e|a] b1]; simpl in *; [exact Hm|]. subst b1. apply Hk, HI.
Qed.

Lemma keeps_state_free {A} I (m : M A) : (forall b, (m b).2 = b) -> keeps I m.
Proof. intros H b _. apply H. Qed.

Lemma keeps_lift {A} I (x : exn + A) : keeps I (lift x).
Proof. apply keeps_state_free. reflexivity. Qed.

Lemma keeps_ret {A} I (x : A) : keeps I (mret x).
Proof. apply keeps_state_free. reflexivity. Qed.

Lemma keeps_getattr I name : keeps I (getattr name).
Proof. apply keeps_state_free. intros b. unfold getattr. destruct (b !! name); reflexivity. Qed.

Lemma keeps_set_default (I : config -> Prop) name v :
  (forall b, I b -> is_Some (b !! name)) -> keeps I (set_default name v).
Proof.
  intros H b HI. rewrite set_default_state. destruct (H b HI) as [x ->]. reflexivity.
Qed.

Lemma keeps_flag_block {A} (I : config -> Prop) name (on off : M A) :
  keeps (fun b => I b /\ flag_on name b = true) on -> keeps I off ->
  keeps I (has ← hasattr name;
           if (has : bool) then adj ← getattr name; if is_True adj then on else off
           else off).
Proof.
  intros H1 H2 b HI. rewrite flag_block. destruct (flag_on name b) eqn:E; auto.
Qed.

Lemma keeps_conseq {A} (I I' : config -> Prop) (m : M A) :
  keeps I' m -> (forall b, I b -> I' b) -> keeps I m.
Proof. intros H HI b Hb. apply H, HI, Hb. Qed.

Section Reuse.
Variable sqrtQ : Q -> Q.
Variable freq_bins : string -> option (date -> date).

Lemma fills_vol_target_signals returns_df signal_df :
  fills (vol_target_signals sqrtQ freq_bins returns_df signal_df).
Proof.
  unfold vol_target_signals. apply fills_flag_block; [|apply fills_ret].
  do 2 (apply fills_bind; [apply fills_set_default; reflexivity | intros _]).
  do 7 (apply fills_bind; [apply fills_getattr | intros ?]).
  apply fills_bind; [apply fills_lift | intros [lev|]; [|apply fills_lift]].
  apply fills_bind; [apply fills_lift | intros ?]. apply fills_ret.
Qed.

Lemma fills_vol_adjusted_returns returns_df (returns : bool) :
  fills (calculate_vol_adjusted_returns sqrtQ freq_bins returns_df returns).
Proof.
  unfold calculate_vol_adjusted_returns.
  do 2 (apply fills_bind; [apply fills_set_default; reflexivity | intros _]).
  do 7 (apply fills_bind; [apply fills_getattr | intros ?]).
  apply fills_bind; [apply fills_lift | intros olev].
  apply fills_bind; [apply fills_getattr | intros ?].
  destruct olev as [lev|]; [|apply fills_lift].
  do 2 (apply fills_bind; [apply fills_lift | intros ?]). apply fills_ret.
Qed.

Lemma fills_vol_target_portfolio portfolio pl :
  fills (vol_target_portfolio sqrtQ freq_bins portfolio pl).
Proof.
  unfold vol_target_portfolio. apply fills_flag_block; [|apply fills_ret].
  apply fills_bind; [apply fills_lift | intros p].
  apply fills_bind; [apply fills_vol_adjusted_returns | intros [? ?]; apply fills_ret].
Qed.

Lemma fills_calculate_trading_PnL a s :
  fills (calculate_trading_PnL sqrtQ freq_bins a s).
Proof.
  unfold calculate_trading_PnL. simpl.
  apply fills_bind; [apply fills_lift | intros masked].
  apply fills_bind; [apply fills_getattr | intros tc].
  apply fills_bind; [apply fills_lift | intros pnl_cols].
  apply fills_bind; [apply fills_vol_target_signals | intros [sig ilev]].
  do 2 (apply fills_bind; [apply fills_lift | intros ?]).
  apply fills_bind.
  { apply fills_state_free. intros b. rewrite combine_portfolio_eq. reflexivity. }
  intros portfolio.
  apply fills_bind; [apply fills_lift | intros pl].
  apply fills_bind; [apply fills_vol_target_portfolio | intros [p' l']].
  do 2 (apply fills_bind; [apply fills_lift | intros ?]).
  apply fills_bind.
  { apply fills_state_free. intros b. rewrite scale_portfolio_signal_eq. reflexivity. }
  intros ps'.
  apply fills_bind; [apply fills_getattr | intros ann].
  do 3 (apply fills_bind; [apply fills_lift | intros ?]).
  apply fills_ret.
Qed.

Lemma keeps_vol_target_signals returns_df signal_df :
  keeps settled (vol_target_signals sqrtQ freq_bins returns_df signal_df).
Proof.
  unfold vol_target_signals. apply keeps_flag_block; [|apply keeps_ret].
  apply keeps_bind; [apply keeps_set_default; intros b [[H _] E]; apply H, E | intros _].
  apply keeps_bind; [apply keeps_set_default; intros b [[H _] E]; apply H, E | intros _].
  do 7 (apply keeps_bind; [apply keeps_getattr | intros ?]).
  apply keeps_bind; [apply keeps_lift | intros [lev|]; [|apply keeps_lift]].
  apply keeps_bind; [apply keeps_lift | intros ?]. apply keeps_ret.
Qed.

Lemma keeps_vol_adjusted_returns returns_df (returns : bool) :
  keeps (fun b => is_Some (b !! "portfolio_vol_resample_type") /\
                  is_Some (b !! "portfolio_vol_resample_freq"))
    (calculate_vol_adjusted_returns sqrtQ freq_bins returns_df returns).
Proof.
  unfold calculate_vol_adjusted_returns.
  apply keeps_bind; [apply keeps_set_default; intros b H; apply H | intros _].
  apply keeps_bind; [apply keeps_set_default; intros b H; apply H | intros _].
  do 7 (apply keeps_bind; [apply keeps_getattr | intros ?]).
  apply keeps_bind; [apply keeps_lift | intros olev].
  apply keeps_bind; [apply keeps_getattr | intros ?].
  destruct olev as [lev|]; [|apply keeps_lift].
  do 2 (apply keeps_bind; [apply keeps_lift | intros ?]). apply keeps_ret.
Qed.

Lemma keeps_vol_target_portfolio portfolio pl :
  keeps settled (vol_target_portfolio sqrtQ freq_bins portfolio pl).
Proof.
  unfold vol_target_portfolio. apply keeps_flag_block; [|apply keeps_ret].
  apply keeps_bind; [apply keeps_lift | intros p].
  apply keeps_bind; [|intros [? ?]; apply keeps_ret].
  eapply keeps_conseq; [apply keeps_vol_adjusted_returns|].
  intros b [[_ H] E]. apply H, E.
Qed.

Lemma keeps_calculate_trading_PnL a s :
  keeps settled (calculate_trading_PnL sqrtQ freq_bins a s).
Proof.
  unfold calculate_trading_PnL. simpl.
  apply keeps_bind; [apply keeps_lift | intros masked].
  apply keeps_bind; [apply keeps_getattr | intros tc].
  apply keeps_bind; [apply keeps_lift | intros pnl_cols].
  apply keeps_bind; [apply keeps_vol_target_signals | intros [sig ilev]].
  do 2 (apply keeps_bind; [apply keeps_lift | intros ?]).
  apply keeps_bind.
  { apply keeps_state_free. intros b. rewrite combine_portfolio_eq. reflexivity. }
  intros portfolio.
  apply keeps_bind; [apply keeps_lift | intros pl].
  apply keeps_bind; [apply keeps_vol_target_portfolio | intros [p' l']].
  do 2 (apply keeps_bind; [apply keeps_lift | intros ?]).
  apply keeps_bind.
  { apply keeps_state_free. intros b. rewrite scale_portfolio_signal_eq. reflexivity. }
  intros ps'.
  apply keeps_bind; [apply keeps_getattr | intros ann].
  do 3 (apply keeps_bind; [apply keeps_lift | intros ?]).
  apply keeps_ret.
Qed.

Lemma set_default_filled name v br bd k :
  defaults_filled br bd -> default_of name = Some v ->
  (set_default name v br).2 !! name = (set_default name v bd).2 !! name /\
  (br !! k = bd !! k ->
   (set_default name v br).2 !! k = (set_default name v bd).2 !! k) /\
  defaults_filled (set_default name v br).2 (set_default name v bd).2.
Proof.
  intros H Hd.
  assert (E : (set_default name v br).2 !! name = (set_default name v bd).2 !! name).
  { rewrite !set_default_lookup, !bool_decide_eq_true_2 by reflexivity.
    destruct (H name) as [->|(-> & _ & ->)]; [reflexivity|]. rewrite Hd. reflexivity. }
  split; [exact E|]. split.
  - intros Hk. rewrite !set_default_lookup.
    rewrite !set_default_lookup, !bool_decide_eq_true_2 in E by reflexivity.
    case_bool_decide; [exact E | exact Hk].
  - intros k'. destruct (decide (k' = name)) as [->|Hne]; [left; auto|].
    rewrite !set_default_lookup, !bool_decide_eq_false_2 by exact Hne. apply H.
Qed.

Lemma sim_filled_set_default S name v :
  default_of name = Some v ->
  sim (fun br bd => defaults_filled br bd /\ agree S br bd)
      (fun br bd => defaults_filled br bd /\ agree (name :: S) br bd)
      (set_default name v).
Proof.
  intros Hd. apply sim_set_default. intros br bd [H Ha].
  destruct (set_default_filled name v br bd name H Hd) as (E & _ & HF).
  split; [exact HF|]. apply Forall_cons. split; [exact E|].
  unfold agree in *. apply Forall_forall. intros k Hk.
  rewrite Forall_forall in Ha.
  destruct (set_default_filled name v br bd k H Hd) as (_ & Hk' & _). auto.
Qed.

Lemma sim_filled_getattr S name :
  name ∈ S \/ default_of name = None ->
  sim (fun br bd => defaults_filled br bd /\ agree S br bd)
      (fun br bd => defaults_filled br bd /\ agree S br bd)
      (getattr name).
Proof.
  intros Hn. apply sim_getattr. intros br bd [H Ha]. destruct Hn as [Hn|Hn].
  - eapply agree_lookup; eauto.
  - symmetry. apply defaults_filled_lookup; auto.
Qed.

Lemma sim_filled_weaken {A} S S' (m : M A) :
  sim (fun br bd => defaults_filled br bd /\ agree S br bd)
      (fun br bd => defaults_filled br bd /\ agree S' br bd) m ->
  sim (fun br bd => defaults_filled br bd /\ agree S br bd /\ True) defaults_filled m.
Proof.
  intros H. eapply sim_conseq; [exact H | |]; intros b1 b2 Hb; [|apply Hb].
  split; apply Hb.
Qed.

Ltac filled_key := (left; rewrite !elem_of_cons; tauto) || (right; reflexivity).

Lemma sim_filled_vol_target_signals returns_df signal_df :
  sim defaults_filled defaults_filled
    (vol_target_signals sqrtQ freq_bins returns_df signal_df).
Proof.
  unfold vol_target_signals.
  apply sim_flag_block; [| | apply sim_ret].
  { intros b1 b2 H. symmetry. apply defaults_filled_flag_on; auto. }
  eapply (sim_conseq _ (fun br bd => defaults_filled br bd /\ agree [] br bd));
    [| intros b1 b2 [H _]; split; [exact H | constructor] | intros b1 b2 H; exact H].
  eapply sim_bind; [apply sim_filled_set_default; reflexivity | intros _].
  eapply sim_bind; [apply sim_filled_set_default; reflexivity | intros _].
  do 7 (eapply sim_bind; [apply sim_filled_getattr; filled_key | intros ?]).
  eapply sim_bind; [apply sim_lift | intros [lev|]; [|apply sim_throw]].
  eapply sim_bind; [apply sim_lift | intros ?].
  apply sim_ret_weaken. intros b1 b2 H. apply H.
Qed.

Lemma sim_filled_vol_adjusted_returns returns_df (returns : bool) :
  sim defaults_filled defaults_filled
    (calculate_vol_adjusted_returns sqrtQ freq_bins returns_df returns).
Proof.
  unfold calculate_vol_adjusted_returns.
  eapply (sim_conseq _ (fun br bd => defaults_filled br bd /\ agree [] br bd));
    [| intros b1 b2 H; split; [exact H | constructor] | intros b1 b2 H; exact H].
  eapply sim_bind; [apply sim_filled_set_default; reflexivity | intros _].
  eapply sim_bind; [apply sim_filled_set_default; reflexivity | intros _].
  do 7 (eapply sim_bind; [apply sim_filled_getattr; filled_key | intros ?]).
  eapply sim_bind; [apply sim_lift | intros olev].
  eapply sim_bind; [apply sim_filled_getattr; filled_key | intros ?].
  destruct olev as [lev|]; [|apply sim_throw].
  do 2 (eapply sim_bind; [apply sim_lift | intros ?]).
  apply sim_ret_weaken. intros b1 b2 H. apply H.
Qed.

Lemma sim_filled_vol_target_portfolio portfolio pl :
  sim defaults_filled defaults_filled
    (vol_target_portfolio sqrtQ freq_bins portfolio pl).
Proof.
  unfold vol_target_portfolio.
  apply sim_flag_block; [| | apply sim_ret].
  { intros b1 b2 H. symmetry. apply defaults_filled_flag_on; auto. }
  eapply (sim_conseq _ defaults_filled _ defaults_filled);
    [| intros b1 b2 H; apply H | intros b1 b2 H; exact H].
  eapply sim_bind; [apply sim_lift | intros p].
  eapply sim_bind; [apply sim_filled_vol_adjusted_returns | intros [? ?]; apply sim_ret].
Qed.

Lemma sim_filled_calculate_trading_PnL a s :
  sim defaults_filled defaults_filled (calculate_trading_PnL sqrtQ freq_bins a s).
Proof.
  assert (Hg : forall name, default_of name = None ->
            sim defaults_filled defaults_filled (getattr name)).
  { intros name Hn. apply sim_getattr. intros b1 b2 H. symmetry.
    apply defaults_filled_lookup; auto. }
  unfold calculate_trading_PnL. simpl.
  eapply sim_bind; [apply sim_lift | intros masked].
  eapply sim_bind; [apply Hg; reflexivity | intros tc].
  eapply sim_bind; [apply sim_lift | intros pnl_cols].
  eapply sim_bind; [apply sim_filled_vol_target_signals | intros [sig ilev]].
  do 2 (eapply sim_bind; [apply sim_lift | intros ?]).
  eapply sim_bind.
  { eapply sim_state_free; [apply combine_portfolio_eq|].
    intros b1 b2 HR. unfold combination.
    rewrite (defaults_filled_lookup _ _ "portfolio_combination" HR); reflexivity. }
  intros portfolio.
  eapply sim_bind; [apply sim_lift | intros pl].
  eapply sim_bind; [apply sim_filled_vol_target_portfolio | intros [p' l']].
  do 2 (eapply sim_bind; [apply sim_lift | intros ?]).
  eapply sim_bind.
  { eapply sim_state_free; [apply scale_portfolio_signal_eq|].
    intros b1 b2 HR. unfold averaged.
    rewrite (defaults_filled_lookup _ _ "portfolio_combination" HR); reflexivity. }
  intros ps'.
  eapply sim_bind; [apply Hg; reflexivity | intros ann].
  do 3 (eapply sim_bind; [apply sim_lift | intros ?]).
  apply sim_ret.
Qed.

Lemma settled_after_run a s br r br' :
  calculate_trading_PnL sqrtQ freq_bins a s br = (inr r, br') -> settled br'.
Proof.
  intros H. pose proof (fills_calculate_trading_PnL a s br) as HF. rewrite H in HF.
  simpl in HF.
  apply calculate_trading_PnL_inr in H.
  destruct H as (masked & tc & tcf & pnl0 & pnl_cols & agg & data & ps & br1 & pl & p'
    & Hsub & _ & Hvp & _ & _ & _ & _ & Hsig & _).
  apply vol_target_signals_inr in Hsig as (U1 & S1 & Hsig).
  apply vol_target_portfolio_inr in Hvp as (U2 & S2 & Hvp).
  split; intros Hon.
  - rewrite (defaults_filled_flag_on _ _ _ HF) in Hon by reflexivity.
    rewrite Hon in Hsig.
    destruct Hsig as (lev & d & a1 & a2 & a3 & a4 & a5 & a6 & a7 & _ & _
      & _ & _ & _ & _ & _ & G6 & G7 & _).
    split; eexists; eapply lookup_weaken; eauto.
  - rewrite (defaults_filled_flag_on _ _ _ HF) in Hon by reflexivity.
    rewrite <- (flag_on_unchanged _ _ _ _ U1) in Hon by not_in_keys.
    rewrite Hon in Hvp. destruct Hvp as (p & pa & _ & _ & Hvp).
    apply calculate_vol_adjusted_returns_inr in Hvp as (_ & _ & Hvp).
    destruct Hvp as (a1 & a2 & a3 & a4 & a5 & a6 & a7 & ? & ? & ? & _
      & _ & _ & _ & _ & _ & G6 & G7 & _).
    split; eexists; eauto.
Qed.

End Reuse.

(** ** Properties of a run as a function of the request *)

Section Requests.
Variable sqrtQ : Q -> Q.
Variable freq_bins : string -> option (date -> date).

(** Property X1.  The outcome of [calculate_trading_PnL] (the frames it
    stores, or the exception it raises) depends on the request only through
    [spot_tc_bp], [ann_factor], [portfolio_combination], the two flags
    [signal_vol_adjust] and [portfolio_vol_adjust] as tested by [is True],
    and, for a flag that is on, the seven volatility attributes of that
    block.  Two requests that agree on these give the same outcome on the
    same frames; every other attribute, dates included, is ignored. *)
Theorem run_reads_listed_attributes a s b1 b2 :
  same_request b1 b2 ->
  (calculate_trading_PnL sqrtQ freq_bins a s b1).1
  = (calculate_trading_PnL sqrtQ freq_bins a s b2).1.
Proof. intros H. apply (sim_calculate_trading_PnL sqrtQ freq_bins a s b1 b2 H). Qed.

Lemma same_request_delete_flag name v br :
  name = "signal_vol_adjust" \/ name = "portfolio_vol_adjust" ->
  br !! name = Some v -> v <> VBool true ->
  same_request br (delete name br).
Proof.
  intros Hname Hv Hne.
  assert (Hoff : flag_on name br = false).
  { unfold flag_on. rewrite Hv. destruct v as [|[|]| | |]; try reflexivity. congruence. }
  assert (Hoff' : flag_on name (delete name br) = false).
  { unfold flag_on. rewrite lookup_delete_eq. reflexivity. }
  assert (Hk : forall K, name ∉ K -> agree K br (delete name br)).
  { intros K HK. apply Forall_forall. intros k Hk. rewrite lookup_delete_ne; auto.
    intros ->. contradiction. }
  assert (Hf : forall f, f <> name -> flag_on f br = flag_on f (delete name br)).
  { intros f Hf. unfold flag_on. rewrite lookup_delete_ne; auto. }
  destruct Hname as [-> | ->]; repeat split.
  - apply Hk. unfold base_keys. not_in_keys.
  - congruence.
  - apply Hf. discriminate.
  - congruence.
  - intros _. apply Hk. unfold portfolio_keys. not_in_keys.
  - apply Hk. unfold base_keys. not_in_keys.
  - apply Hf. discriminate.
  - congruence.
  - intros _. apply Hk. unfold signal_keys. not_in_keys.
  - congruence.
Qed.

(** Property X2.  The flags [signal_vol_adjust] and [portfolio_vol_adjust]
    are compared with [True] by identity: for any other value, such as 1 or
    the string ['True'], the run is the one of the request without the
    attribute, so volatility targeting stays off. *)
Theorem flag_compared_by_identity a s br name v :
  name = "signal_vol_adjust" \/ name = "portfolio_vol_adjust" ->
  br !! name = Some v -> v <> VBool true ->
  (calculate_trading_PnL sqrtQ freq_bins a s br).1
  = (calculate_trading_PnL sqrtQ freq_bins a s (delete name br)).1.
Proof.
  intros Hname Hv Hne.
  apply (sim_calculate_trading_PnL sqrtQ freq_bins a s).
  eapply same_request_delete_flag; eauto.
Qed.

Lemma defaults_filled_after_run a s br x br' :
  calculate_trading_PnL sqrtQ freq_bins a s br = (x, br') -> defaults_filled br br'.
Proof.
  intros H. pose proof (fills_calculate_trading_PnL sqrtQ freq_bins a s br) as HF.
  rewrite H in HF. exact HF.
Qed.

(** Property X3.  A request that has been through a run that returned can
    be used again, as [TradingModel.construct_strategy] does for every
    basket: on any frames the next run has the outcome it would have had
    with the request as it was before, and it leaves the request as it
    finds it.  What a run adds to the request are the defaults a later run
    would assume. *)
Theorem request_reusable a s br r br1 :
  calculate_trading_PnL sqrtQ freq_bins a s br = (inr r, br1) ->
  forall a2 s2,
    (calculate_trading_PnL sqrtQ freq_bins a2 s2 br1).1
    = (calculate_trading_PnL sqrtQ freq_bins a2 s2 br).1 /\
    (calculate_trading_PnL sqrtQ freq_bins a2 s2 br1).2 = br1.
Proof.
  intros H a2 s2. split.
  - symmetry. apply (sim_filled_calculate_trading_PnL sqrtQ freq_bins a2 s2 br br1).
    eapply defaults_filled_after_run; eauto.
  - apply keeps_calculate_trading_PnL. eapply settled_after_run; eauto.
Qed.

End Requests.

Lemma run_reads_listed_attributes_witness :
  same_request br_mean br_dated /\
  (calculate_trading_PnL sqrt_approx offset_aliases prices_two signal_two br_mean).1
  = (calculate_trading_PnL sqrt_approx offset_aliases prices_two signal_two br_dated).1.
Proof.
  assert (H : same_request br_mean br_dated).
  { split; [compute_done|]. split; [compute_done|]. split; [compute_done|].
    split; intros Hon; exfalso; revert Hon; compute_done. }
  split; [exact H|].
  exact (run_reads_listed_attributes sqrt_approx offset_aliases prices_two signal_two
           br_mean br_dated H).
Defined.

Lemma flag_compared_by_identity_witness :
  br_flag_one !! "signal_vol_adjust" = Some (VInt 1) /\
  (calculate_trading_PnL sqrt_approx offset_aliases prices_two signal_two br_flag_one).1
  = (calculate_trading_PnL sqrt_approx offset_aliases prices_two signal_two
       (delete "signal_vol_adjust" br_flag_one)).1.
Proof.
  split; [reflexivity|].
  apply (flag_compared_by_identity sqrt_approx offset_aliases prices_two signal_two
           br_flag_one "signal_vol_adjust" (VInt 1)).
  - left. reflexivity.
  - reflexivity.
  - discriminate.
Defined.

Lemma run_sig :
  calculate_trading_PnL sqrt_approx offset_aliases prices_two signal_two br_sig
  = (inr result_sig, br_sig_after).
Proof. compute_done. Qed.

Lemma request_reusable_witness :
  calculate_trading_PnL sqrt_approx offset_aliases prices_two signal_two br_sig
  = (inr result_sig, br_sig_after) /\
  forall a2 s2,
    (calculate_trading_PnL sqrt_approx offset_aliases a2 s2 br_sig_after).1
    = (calculate_trading_PnL sqrt_approx offset_aliases a2 s2 br_sig).1 /\
    (calculate_trading_PnL sqrt_approx offset_aliases a2 s2 br_sig_after).2 = br_sig_after.
Proof.
  split; [exact run_sig |].
  exact (request_reusable sqrt_approx offset_aliases prices_two signal_two br_sig
           result_sig br_sig_after run_sig).
Defined.

(** ** Transaction costs *)

Lemma same_but_set_default name key v b1 b2 :
  same_but key b1 b2 -> name <> key ->
  same_but key (set_default name v b1).2 (set_default name v b2).2.
Proof.
  intros H Hne k Hk. apply set_default_agree; auto.
Qed.

Lemma same_but_flag_on key name b1 b2 :
  same_but key b1 b2 -> name <> key -> flag_on name b1 = flag_on name b2.
Proof. intros H Hne. unfold flag_on. rewrite (H name Hne). reflexivity. Qed.

Lemma sim_same_but_vol_target_signals sqrtQ freq_bins key returns_df signal_df :
  key ∉ "signal_vol_adjust" :: signal_keys ->
  sim (same_but key) (same_but key)
    (vol_target_signals sqrtQ freq_bins returns_df signal_df).
Proof.
  intros Hkey.
  assert (Hne : forall name, name ∈ "signal_vol_adjust" :: signal_keys -> name <> key).
  { intros name Hin ->. contradiction. }
  assert (Hg : forall name, name ∈ "signal_vol_adjust" :: signal_keys ->
            sim (same_but key) (same_but key) (getattr name)).
  { intros name Hin. apply sim_getattr. intros b1 b2 H. apply H, Hne, Hin. }
  assert (Hsd : forall name v, name ∈ "signal_vol_adjust" :: signal_keys ->
            sim (same_but key) (same_but key) (set_default name v)).
  { intros name v Hin. apply sim_set_default. intros b1 b2 H.
    apply same_but_set_default; auto. }
  unfold vol_target_signals.
  apply sim_flag_block; [| | apply sim_ret].
  { intros b1 b2 H. eapply same_but_flag_on; eauto. apply Hne. left. }
  eapply (sim_conseq _ (same_but key) _ (same_but key));
    [| intros b1 b2 H; apply H | intros b1 b2 H; exact H].
  do 2 (eapply sim_bind;
    [apply Hsd; unfold signal_keys; rewrite !elem_of_cons; tauto | intros _]).
  do 7 (eapply sim_bind;
    [apply Hg; unfold signal_keys; rewrite !elem_of_cons; tauto | intros ?]).
  eapply sim_bind; [apply sim_lift | intros [lev|]; [|apply sim_throw]].
  eapply sim_bind; [apply sim_lift | intros ?]. apply sim_ret.
Qed.

Lemma signal_returns_col_lookup tc pos ret t x :
  signal_returns_col tc pos ret !! t = Some x ->
  exists lag r p,
    x = fsub (fmul lag r) (fmul tc (fabs (fsub p lag))) /\
    shift 1 pos !! t = Some lag /\ ret !! t = Some r /\ pos !! t = Some p.
Proof.
  unfold signal_returns_col. rewrite lookup_zip_with, (lookup_zip_with pair).
  destruct (shift 1 pos !! t) as [lag|]; simpl; [|discriminate].
  destruct (ret !! t) as [r|]; simpl; [|discriminate].
  destruct (pos !! t) as [p|]; simpl; [|discriminate].
  intros [= <-]. eauto 10.
Qed.

(** A finite P&L shrinks when the cost grows: the product and the change of
    position are the same, and the change is not negative. *)
Lemma cost_monotone lag r d t1 t2 x1 x2 :
  (t1 <= t2)%Q ->
  fsub (fmul lag r) (fmul (Fin t1) (fabs d)) = Fin x1 ->
  fsub (fmul lag r) (fmul (Fin t2) (fabs d)) = Fin x2 ->
  (x2 <= x1)%Q.
Proof.
  intros Ht H1 H2.
  destruct (fmul lag r) as [| | |m]; try discriminate;
    try (destruct d; simpl in *; repeat (destruct (Qcompare _ _)); discriminate).
  destruct d as [| | |q].
  - discriminate.
  - simpl in *. destruct (t1 ?= 0)%Q; discriminate.
  - simpl in *. destruct (t1 ?= 0)%Q; discriminate.
  - simpl in *. injection H1 as <-. injection H2 as <-.
    pose proof (Qabs_nonneg q). nra.
Qed.

Section Costs.
Variable sqrtQ : Q -> Q.
Variable freq_bins : string -> option (date -> date).

(** Property X4.  Raising [spot_tc_bp] leaves the positions as they are and
    never raises a P&L: for two runs on the same frames whose requests
    differ in the cost only, the stored signal is the same, and a cell of
    the per-asset P&L that is a number in both runs is not larger under the
    larger cost. *)
Theorem costs_reduce_pnl a s br v1 v2 t1 t2 r1 r2 br1 br2 :
  br !! "spot_tc_bp" = Some v1 ->
  as_float v1 = inr (Fin t1) -> as_float v2 = inr (Fin t2) -> (t1 <= t2)%Q ->
  calculate_trading_PnL sqrtQ freq_bins a s br = (inr r1, br1) ->
  calculate_trading_PnL sqrtQ freq_bins a s (<["spot_tc_bp" := v2]> br) = (inr r2, br2) ->
  _signal r2 = _signal r1 /\
  forall j t x1 x2,
    cell (_pnl r1) j t = Some (Fin x1) -> cell (_pnl r2) j t = Some (Fin x2) ->
    (x2 <= x1)%Q.
Proof.
  intros Hv1 Hf1 Hf2 Ht H1 H2.
  apply calculate_trading_PnL_inr in H1. apply calculate_trading_PnL_inr in H2.
  destruct H1 as (masked & tc & tcf & pnl0 & pnl_cols & agg & data & ps & b1 & pl & p'
    & _ & _ & _ & Hm & Htc & Htcf & _ & Hsig & Hpnl0 & Hset & _).
  destruct H2 as (masked' & tc' & tcf' & pnl0' & pnl_cols' & agg' & data' & ps' & b1' & pl' & p''
    & _ & _ & _ & Hm' & Htc' & Htcf' & _ & Hsig' & Hpnl0' & Hset' & _).
  rewrite Hm in Hm'. injection Hm' as <-.
  rewrite Hv1 in Htc. injection Htc as <-. rewrite Hf1 in Htcf. injection Htcf as <-.
  rewrite lookup_insert_eq in Htc'. injection Htc' as <-.
  rewrite Hf2 in Htcf'. injection Htcf' as <-.
  assert (Hsim := sim_same_but_vol_target_signals sqrtQ freq_bins "spot_tc_bp"
    (calculate_returns (fillna_ffill a)) (fillna_ffill masked)).
  destruct (Hsim ltac:(unfold signal_keys; not_in_keys) br (<["spot_tc_bp" := v2]> br))
    as [E _].
  { intros k Hk. rewrite lookup_insert_ne; auto. }
  rewrite Hsig, Hsig' in E. simpl in E. injection E as E1 E2.
  split; [auto|].
  intros j t x1 x2 C1 C2.
  apply set_columns_coldata in Hset as [Hc _]. apply set_columns_coldata in Hset' as [Hc' _].
  apply tc_matrix_coldata in Hpnl0 as (_ & _ & _ & Hz).
  apply tc_matrix_coldata in Hpnl0' as (_ & _ & _ & Hz').
  unfold cell in C1, C2. rewrite Hc, Hz in C1. rewrite Hc', Hz', <- E1 in C2.
  rewrite lookup_zip_with in C1, C2.
  destruct (coldata (_signal r1) !! j) as [pos|]; simpl in *; [|discriminate].
  destruct (coldata (calculate_returns (fillna_ffill a)) !! j) as [ret|];
    simpl in *; [|discriminate].
  apply signal_returns_col_lookup in C1 as (lag & rr & pp & X1 & L1 & R1 & P1).
  apply signal_returns_col_lookup in C2 as (lag' & rr' & pp' & X2 & L2 & R2 & P2).
  rewrite L1 in L2. rewrite R1 in R2. rewrite P1 in P2.
  injection L2 as <-. injection R2 as <-. injection P2 as <-.
  eapply cost_monotone; eauto.
Qed.

End Costs.

Lemma run_flip :
  calculate_trading_PnL sqrt_approx offset_aliases prices_two signal_flip br_mean
  = (inr result_flip, br_mean).
Proof. compute_done. Qed.

Lemma run_flip_cost :
  calculate_trading_PnL sqrt_approx offset_aliases prices_two signal_flip br_cost
  = (inr result_flip_cost, br_cost).
Proof. compute_done. Qed.

Lemma costs_reduce_pnl_witness :
  _signal result_flip_cost = _signal result_flip /\
  forall j t x1 x2,
    cell (_pnl result_flip) j t = Some (Fin x1) ->
    cell (_pnl result_flip_cost) j t = Some (Fin x2) ->
    (x2 <= x1)%Q.
Proof.
  apply (costs_reduce_pnl sqrt_approx offset_aliases prices_two signal_flip br_mean
           (VFloat (Fin 0)) (VFloat (Fin (1 # 10000))) 0 (1 # 10000)
           result_flip result_flip_cost br_mean br_cost).
  - reflexivity.
  - reflexivity.
  - reflexivity.
  - discriminate.
  - exact run_flip.
  - exact run_flip_cost.
Defined.

(** ** Dates and labels of the stored frames *)

Lemma framed_has_shape idx names df :
  framed idx names df <->
  index df = idx /\ columns df = names /\ has_shape (length idx) (length names) df.
Proof.
  unfold framed, has_shape, wf_frame. split.
  - intros (Hi & Hc & Hw). rewrite Hi in *. repeat split; auto.
    rewrite <- Hc. unfold columns, coldata. rewrite !length_fmap. reflexivity.
  - intros (Hi & Hc & _ & _ & Hw). rewrite Hi. auto.
Qed.

Lemma framed_map_cols idx names f df :
  (forall c, length c = length idx -> length (f c) = length idx) ->
  framed idx names df -> framed idx names (map_cols f df).
Proof.
  intros Hf (Hi & Hc & Hw). unfold framed, wf_frame.
  rewrite map_cols_index, columns_map_cols, coldata_map_cols, Hi.
  repeat split; auto. apply Forall_fmap. unfold wf_frame in Hw. rewrite Hi in Hw.
  eapply Forall_impl; eauto.
Qed.

Lemma set_columns_columns df names df' :
  set_columns df names = inr df' -> columns df' = names.
Proof.
  unfold set_columns. case_bool_decide as E; [|discriminate]. intros [= <-].
  unfold columns, coldata. simpl. apply fst_zip. rewrite length_fmap. lia.
Qed.

Lemma framed_set_columns idx names names' df df' :
  set_columns df names' = inr df' -> framed idx names df -> framed idx names' df'.
Proof.
  intros H (Hi & Hc & Hw). pose proof (set_columns_columns _ _ _ H) as Hn.
  apply set_columns_coldata in H as [Hcd Hi'].
  unfold framed, wf_frame in *. rewrite Hcd, Hi'. auto.
Qed.

Lemma make_pnl_cols_inr rc sc l :
  make_pnl_cols rc sc = inr l ->
  l = zip_with (fun r s => r +:+ " / " +:+ s) rc sc.
Proof.
  revert sc l. induction rc as [|r rc IH]; intros sc l; simpl.
  - intros [= <-]. reflexivity.
  - destruct sc as [|s sc]; [discriminate|].
    destruct (make_pnl_cols rc sc) as [e|rest] eqn:E; simpl; [discriminate|].
    intros [= <-]. f_equal. apply IH, E.
Qed.

Lemma framed_masked a s masked :
  wf_frame a ->
  df_mask (reindex (index a) s) (np_isnan (df_values a)) = inr masked ->
  framed (index a) (columns s) masked.
Proof.
  intros Hwf Hm. pose proof (has_shape_masked a s masked Hwf Hm) as (_ & _ & HF).
  apply df_mask_inr in Hm as (_ & Hi & Hc & _).
  unfold framed, wf_frame. rewrite Hi, Hc, columns_reindex. simpl. auto.
Qed.

Lemma framed_leverage_factor sqrtQ fb idx names df vt ml vp obs fr rf rt ps lev :
  framed idx names df ->
  calculate_leverage_factor sqrtQ fb df vt ml vp obs fr rf rt true ps = inr (Some lev) ->
  framed idx names lev.
Proof.
  intros Hf H. apply calculate_leverage_factor_inv in H.
  destruct H as (n & o & ann & vtf & mlf & bin & agg & _ & _ & _ & _ & _ & _ & _ & _ & ->).
  simpl. apply framed_map_cols; auto. intros c _.
  rewrite leverage_col_length. destruct Hf as (-> & _). reflexivity.
Qed.

Lemma framed_tc_matrix idx names names' sig ret tc pnl :
  framed idx names' sig -> framed idx names ret ->
  calculate_signal_returns_with_tc_matrix sig ret tc = inr pnl ->
  framed idx names pnl.
Proof.
  intros Hs Hr H. apply framed_has_shape in Hs as (Hsi & Hsc & Hs).
  apply framed_has_shape in Hr as (Hri & Hrc & Hr).
  assert (HN : length names' = length names).
  { apply tc_matrix_coldata in H as (_ & _ & HN & _).
    destruct Hs as (_ & <- & _), Hr as (_ & <- & _). exact HN. }
  rewrite HN in Hs.
  pose proof (has_shape_tc_matrix _ _ _ _ _ _ Hs Hr H) as Hp.
  apply framed_has_shape. split; [|split; [|exact Hp]].
  - apply tc_matrix_coldata in H as (-> & _). exact Hri.
  - revert H. unfold calculate_signal_returns_with_tc_matrix.
    case_bool_decide as E; [|discriminate]. intros [= <-].
    unfold columns. simpl. rewrite <- Hrc. unfold columns.
    unfold df_shape, shape, df_values, coldata in E. simpl in E.
    injection E as _ E. rewrite !length_fmap in E. revert E. clear.
    generalize (cols ret). induction (cols sig) as [|x l IH]; intros [|y l']; simpl;
      try discriminate; auto.
    intros [= E]. f_equal. apply IH, E.
Qed.

Lemma framed_new_frame_binop f idx names (A B : DataFrame) data df :
  framed idx names A -> wf_frame B -> index B = idx -> length (coldata B) = length names ->
  np_binop f (df_values A) (df_values B) = inr data ->
  new_frame data (index A) (columns A) = inr df ->
  framed idx names df /\ coldata df = zip_with (zip_with f) (coldata A) (coldata B).
Proof.
  intros HA HB HBi HBn Hd Hn.
  apply framed_has_shape in HA as (HAi & HAc & HA).
  assert (HB' : has_shape (length idx) (length names) B).
  { unfold has_shape, wf_frame in *. rewrite HBi in *. auto. }
  destruct (has_shape_binop f _ _ A B data df _ _ HA HB' Hd Hn) as [Hs Hc].
  { rewrite HAi. reflexivity. }
  split; [|exact Hc]. apply framed_has_shape.
  apply new_frame_inr in Hn as (_ & Hi & Hcol & _). rewrite Hi, Hcol. auto.
Qed.

Lemma framed_portfolio_signal idx names (L sig ps : DataFrame) data :
  framed idx ["Portfolio"] L -> framed idx names sig ->
  np_binop fmul (np_repeat_T (df_values L) (length (columns sig))) (df_values sig)
    = inr data ->
  new_frame data (index sig) (columns sig) = inr ps ->
  framed idx names ps.
Proof.
  intros HL HS Hd Hn.
  apply framed_has_shape in HL as (HLi & HLc & HL1 & HL2 & HL3).
  apply framed_has_shape in HS as (HSi & HSc & HS1 & HS2 & HS3).
  destruct (coldata L) as [|c [|]] eqn:EL; try discriminate.
  apply Forall_inv in HL3.
  assert (Hflat : np_flatten (df_values L) = c).
  { unfold np_flatten, df_values. simpl. rewrite EL, HL1.
    apply transpose_rows_single. auto. }
  unfold np_repeat_T in Hd. rewrite Hflat, HSc in Hd.
  rewrite (np_binop_same fmul (length idx) (length names)) in Hd;
    simpl; auto using length_replicate.
  2: apply Forall_replicate; auto.
  injection Hd as <-. apply new_frame_inr in Hn as (_ & Hi & Hc & Hcd).
  simpl in Hcd. apply framed_has_shape. rewrite Hi, Hc. repeat split; auto.
  - rewrite Hi. exact HS1.
  - rewrite Hcd, length_zip_with, length_replicate. lia.
  - rewrite Hcd. apply zip_with_Forall_length; auto. apply Forall_replicate; auto.
Qed.

Section Frames.
Variable sqrtQ : Q -> Q.
Variable freq_bins : string -> option (date -> date).

Lemma framed_vol_target_signals idx names names' ret sg br sig ilev br1 :
  framed idx names ret -> framed idx names' sg -> length names' = length names ->
  vol_target_signals sqrtQ freq_bins ret sg br = (inr (sig, ilev), br1) ->
  framed idx names' sig /\ forall lev, ilev = Some lev -> framed idx names lev.
Proof.
  intros Hr Hs HN H. apply vol_target_signals_inr in H as (_ & _ & H).
  destruct (flag_on "signal_vol_adjust" br).
  - destruct H as (lev & d & a1 & a2 & a3 & a4 & a5 & a6 & a7 & -> & HL
      & _ & _ & _ & _ & _ & _ & _ & Hd & Hn).
    pose proof (framed_leverage_factor _ _ _ _ _ _ _ _ _ _ _ _ _ _ Hr HL) as Hlev.
    split; [|intros ? [= <-]; exact Hlev].
    destruct Hlev as (Hli & Hlc & Hlw).
    eapply framed_new_frame_binop; eauto.
    rewrite HN, <- Hlc. unfold columns, coldata. rewrite !length_fmap. reflexivity.
  - destruct H as (-> & -> & _). split; [exact Hs | discriminate].
Qed.

Lemma framed_portfolio_of idx names agg pnl :
  framed idx names pnl -> framed idx ["Portfolio"] (portfolio_of agg pnl).
Proof.
  intros (Hi & _ & _). unfold framed, wf_frame, portfolio_of, frame_of_series, coldata.
  simpl. repeat split; auto. constructor; [|constructor].
  unfold row_agg. rewrite length_fmap, length_seq. reflexivity.
Qed.

Lemma calculate_vol_adjusted_returns_inv returns_df (returns : bool) br p l br' :
  calculate_vol_adjusted_returns sqrtQ freq_bins returns_df returns br = (inr (p, l), br') ->
  let df' := if returns then returns_df else calculate_returns returns_df in
  calculate_vol_adjusted_returns sqrtQ freq_bins df' true br = (inr (p, l), br').
Proof. destruct returns; auto. Qed.

Lemma framed_vol_adjusted_returns idx names ret br p l br' :
  framed idx names ret ->
  calculate_vol_adjusted_returns sqrtQ freq_bins ret true br = (inr (p, l), br') ->
  framed idx names p /\ framed idx names l.
Proof.
  intros Hr H. apply calculate_vol_adjusted_returns_inr in H as (_ & _ & H).
  destruct H as (a1 & a2 & a3 & a4 & a5 & a6 & a7 & tc & tcf & p0 & HL
    & _ & _ & _ & _ & _ & _ & _ & _ & _ & Hp0 & Hset).
  pose proof (framed_leverage_factor _ _ _ _ _ _ _ _ _ _ _ _ _ _ Hr HL) as Hl.
  split; [|exact Hl].
  pose proof (framed_tc_matrix _ _ _ _ _ _ _ Hl Hr Hp0) as Hp.
  destruct Hr as (_ & Hc & _). rewrite Hc in Hset.
  eapply framed_set_columns; eauto.
Qed.

Lemma calculate_trading_PnL_tail a s br r br' :
  calculate_trading_PnL sqrtQ freq_bins a s br = (inr r, br') ->
  exists pnl_cols op pl br1 p ann,
    make_pnl_cols (columns (calculate_returns (fillna_ffill a))) (columns s) = inr pnl_cols /\
    columns (_pnl r) = pnl_cols /\
    new_frame (np_ones (length (index (_pnl r)))) (index (_pnl r)) ["Portfolio"] = inr pl /\
    (forall x, op = Some x -> exists agg, x = portfolio_of agg (_pnl r)) /\
    vol_target_portfolio sqrtQ freq_bins op pl br1 = (inr (Some p, _portfolio_leverage r), br') /\
    br' !! "ann_factor" = Some ann /\
    set_columns p ["Port"] = inr (_portfolio r) /\
    set_columns (create_mult_index (_pnl r)) pnl_cols = inr (_cumpnl r) /\
    set_columns (create_mult_index (_portfolio r)) ["Port"] = inr (_cumportfolio r) /\
    _ret_stats_pnl r = calculate_ret_stats (_pnl r) ann /\
    _ret_stats_portfolio r = calculate_ret_stats (_portfolio r) ann /\
    _pnl_trades r = None.
Proof.
  unfold calculate_trading_PnL. simpl. intros H.
  apply M_bind_inr in H as (masked & b & Hmask & H). apply lift_inr in Hmask as [Hmask ->].
  apply M_bind_inr in H as (tc & b & Htc & H). apply getattr_inr in Htc as [Htc ->].
  apply M_bind_inr in H as (pnl_cols & b & Hcols & H). apply lift_inr in Hcols as [Hcols ->].
  apply M_bind_inr in H as ([sig ilev] & br1 & Hsig & H).
  apply M_bind_inr in H as (pnl0 & b & Hpnl & H). apply lift_inr in Hpnl as [Hpnl ->].
  apply M_bind_inr in H as (pnl & b & Hset & H). apply lift_inr in Hset as [Hset ->].
  rewrite (M_bind_step _ _ _ _ _ (combine_portfolio_eq _ _)) in H.
  apply M_bind_inr in H as (pl & b & Hpl & H). apply lift_inr in Hpl as [Hpl ->].
  apply M_bind_inr in H as ([p' l'] & br2 & Hvp & H).
  apply M_bind_inr in H as (p & b & Hp & H). apply lift_inr in Hp as [Hp ->].
  apply M_bind_inr in H as (ps & b & Hps & H). apply lift_inr in Hps as [Hps ->].
  rewrite (M_bind_step _ _ _ _ _ (scale_portfolio_signal_eq _ _ _)) in H.
  apply M_bind_inr in H as (ann & b & Hann & H). apply getattr_inr in Hann as [Hann ->].
  apply M_bind_inr in H as (port & b & Hport & H). apply lift_inr in Hport as [Hport ->].
  apply M_bind_inr in H as (cp & b & Hcp & H). apply lift_inr in Hcp as [Hcp ->].
  apply M_bind_inr in H as (cpo & b & Hcpo & H). apply lift_inr in Hcpo as [Hcpo ->].
  apply mret_inr in H as [-> ->]. simpl.
  destruct p' as [p0|]; [|discriminate]. injection Hp as ->.
  exists pnl_cols, ((fun agg => portfolio_of agg pnl) <$> combination br1), pl, br1, p, ann.
  repeat split; auto.
  - rewrite <- Hcols. f_equal. unfold fillna_ffill. rewrite columns_map_cols.
    apply df_mask_inr in Hmask as (_ & _ & -> & _). symmetry. apply columns_reindex.
  - eapply set_columns_columns; eauto.
  - intros x Hx. destruct (combination br1) as [agg|]; [|discriminate].
    injection Hx as <-. eauto.
Qed.

(** Property X5.  After a call on a price frame whose columns all have one
    value per date, the P&L, the signals, the leverages and the portfolio
    P&L that [calculate_trading_PnL] stores are over the dates of the price
    frame, in their order, whatever the dates of the signal are.  The P&L
    has one column per asset, labelled ["<asset> / <signal>"] by position;
    the stored signal and the final portfolio signal keep the labels of the
    signal; the per-asset leverage, when there is one, has the labels of
    the prices; the portfolio P&L has the single column ['Port'] and the
    portfolio leverage the single column ['Portfolio'].  Nothing is said of
    the two cumulative indices, which come from [create_mult_index]. *)
Theorem stored_frames a s br r br' :
  wf_frame a ->
  calculate_trading_PnL sqrtQ freq_bins a s br = (inr r, br') ->
  let pnl_cols := zip_with (fun x y => x +:+ " / " +:+ y) (columns a) (columns s) in
  framed (index a) pnl_cols (_pnl r) /\
  framed (index a) (columns s) (_signal r) /\
  framed (index a) (columns s) (_portfolio_signal r) /\
  (forall lev, _individual_leverage r = Some lev -> framed (index a) (columns a) lev) /\
  framed (index a) ["Port"] (_portfolio r) /\
  framed (index a) ["Portfolio"] (_portfolio_leverage r).
Proof.
  intros Hwf H. pose proof H as H0.
  apply calculate_trading_PnL_tail in H0.
  destruct H0 as (pnl_cols & op & pl' & br2 & p & ann & Hcols & Hpc & Hpl' & Hop & Hvp' & _
    & Hport & Hcum & Hcump & _).
  apply calculate_trading_PnL_inr in H.
  destruct H as (masked & v & tc & pnl0 & pnl_cols' & agg & data & ps & br1 & pl & p'
    & _ & Hpl & Hvp & Hm & _ & _ & _ & Hsig & Hpnl0 & Hset & _ & _ & Hd & Hn & Hps).
  simpl.
  assert (Hret : framed (index a) (columns a) (calculate_returns (fillna_ffill a))).
  { unfold calculate_returns, fillna_ffill. rewrite map_cols_compose.
    apply framed_map_cols.
    - intros c Hc. simpl. rewrite pct_change_length. unfold ffill.
      rewrite ffill_from_length. exact Hc.
    - repeat split; auto. }
  assert (Hmk : framed (index a) (columns s) (fillna_ffill masked)).
  { apply framed_map_cols; [|eapply framed_masked; eauto].
    intros c Hc. unfold ffill. rewrite ffill_from_length. exact Hc. }
  assert (HN : length (columns s) = length (columns a)).
  { apply df_mask_inr in Hm as (Hs & _). rewrite reindex_shape in Hs.
    unfold shape, np_isnan, df_values in Hs. simpl in Hs. injection Hs as Hs.
    unfold columns. unfold coldata in Hs. rewrite !length_fmap in *. lia. }
  destruct (framed_vol_target_signals _ _ _ _ _ _ _ _ _ Hret Hmk HN Hsig) as [Hs Hlev].
  assert (Hp0 : framed (index a) (columns a) pnl0).
  { eapply framed_tc_matrix; eauto. }
  assert (Hcols' : pnl_cols
            = zip_with (fun x y => x +:+ " / " +:+ y) (columns a) (columns s)).
  { apply make_pnl_cols_inr in Hcols. rewrite Hcols. f_equal.
    unfold calculate_returns, fillna_ffill. rewrite !columns_map_cols. reflexivity. }
  assert (Hp : framed (index a) pnl_cols (_pnl r)).
  { rewrite <- Hpc. destruct (framed_set_columns _ _ _ _ _ Hset Hp0) as (Hi & _ & Hw).
    repeat split; auto. }
  assert (Hone : framed (index a) ["Portfolio"] pl').
  { apply framed_has_shape. apply new_frame_inr in Hpl' as (Hsh & Hi & Hc & Hcd).
    destruct Hp as (Hpi & _). rewrite Hpi in *.
    repeat split; auto. 
    - rewrite Hi. reflexivity.
    - rewrite Hcd. reflexivity.
    - rewrite Hcd. simpl. constructor; [|constructor]. apply length_replicate. }
  assert (Hpp : framed (index a) ["Portfolio"] p /\
                framed (index a) ["Portfolio"] (_portfolio_leverage r)).
  { apply vol_target_portfolio_inr in Hvp' as (_ & _ & Hvp').
    destruct (flag_on "portfolio_vol_adjust" br2).
    - destruct Hvp' as (p1 & pa & -> & [= <-] & Hva).
      destruct (Hop _ eq_refl) as [agg' ->].
      eapply framed_vol_adjusted_returns; [|exact Hva].
      eapply framed_portfolio_of; eauto.
    - destruct Hvp' as (Hp1 & -> & _). split; [|exact Hone].
      destruct (Hop _ (eq_sym Hp1)) as [agg' ->].
      eapply framed_portfolio_of; eauto. }
  destruct Hpp as [Hp1 Hl1].
  assert (Hport' : framed (index a) ["Port"] (_portfolio r)).
  { eapply framed_set_columns; eauto. }
  assert (Hpsig : framed (index a) (columns s) ps).
  { eapply framed_portfolio_signal; eauto. }
  rewrite <- Hcols'.
  split; [exact Hp|].
  split; [exact Hs|].
  split.
  { rewrite Hps. destruct (averaged br); [|exact Hpsig].
    apply framed_map_cols; [|exact Hpsig]. intros c Hc. rewrite length_map. exact Hc. }
  split; [exact Hlev|].
  split; [exact Hport'|].
  exact Hl1.
Qed.

End Frames.

Lemma wf_prices_two' : wf_frame prices_two.
Proof. repeat constructor. Qed.

Lemma stored_frames_witness :
  let pnl_cols := ["A / sA"; "B / sB"] in
  framed (index prices_two) pnl_cols (_pnl result_sig) /\
  framed (index prices_two) (columns signal_two) (_signal result_sig) /\
  framed (index prices_two) (columns signal_two) (_portfolio_signal result_sig) /\
  (forall lev, _individual_leverage result_sig = Some lev ->
     framed (index prices_two) (columns prices_two) lev) /\
  framed (index prices_two) ["Port"] (_portfolio result_sig) /\
  framed (index prices_two) ["Portfolio"] (_portfolio_leverage result_sig).
Proof.
  exact (stored_frames sqrt_approx offset_aliases prices_two signal_two br_sig
           result_sig br_sig_after wf_prices_two' run_sig).
Defined.

(** ** Non-trading days and missing attributes *)

Lemma Qeq_bool_false_ne p : ~ (p == 0)%Q -> Qeq_bool p 0 = false.
Proof.
  intros H. destruct (Qeq_bool p 0) eqn:E; auto.
  apply Qeq_bool_iff in E. contradiction.
Qed.

Lemma flat_day_pnl q p c :
  ~ (p == 0)%Q ->
  exists x,
    fsub (fmul (Fin q) (fsub (fdiv (Fin p) (Fin p)) (Fin 1)))
         (fmul (Fin c) (fabs (fsub (Fin q) (Fin q)))) = Fin x /\ (x == 0)%Q.
Proof.
  intros Hp. unfold fdiv. rewrite (Qeq_bool_false_ne _ Hp).
  cbn [fsub fadd fneg fmul fabs].
  eexists. split; [reflexivity|].
  assert (E : (q + - q == 0)%Q) by ring.
  rewrite E. change (Qabs 0) with 0%Q. field. exact Hp.
Qed.

Section Holidays.
Variable sqrtQ : Q -> Q.
Variable freq_bins : string -> option (date -> date).

(** Property X6.  Without volatility targeting of the signals, a day on
    which an asset has no price costs and earns nothing: when the price of
    the day before (as filled) is a number other than zero, the position
    held is a number and the cost is finite, the P&L of that asset on the
    non-trading day is zero.  The position is held over the day and the
    filled price does not move. *)
Theorem no_pnl_on_non_trading_day a s br r br' v c j t p q :
  wf_frame a ->
  calculate_trading_PnL sqrtQ freq_bins a s br = (inr r, br') ->
  flag_on "signal_vol_adjust" br = false ->
  br !! "spot_tc_bp" = Some v -> as_float v = inr (Fin c) ->
  cell a j (S t) = Some NaN ->
  cell (fillna_ffill a) j t = Some (Fin p) -> ~ (p == 0)%Q ->
  cell (_signal r) j t = Some (Fin q) ->
  cell (_signal r) j (S t) = Some (Fin q) /\
  exists x, cell (_pnl r) j (S t) = Some (Fin x) /\ (x == 0)%Q.
Proof.
  intros Hwf H Hoff Hv Hc Hnan Hp Hp0 Hq.
  apply calculate_trading_PnL_inr in H.
  destruct H as (masked & v' & tc & pnl0 & pnl_cols & agg & data & ps & br1 & pl & p'
    & _ & _ & _ & Hm & Hv' & Htc & _ & Hsig & Hpnl0 & Hset & _).
  rewrite Hv in Hv'. injection Hv' as <-. rewrite Hc in Htc. injection Htc as <-.
  apply vol_target_signals_inr in Hsig as (_ & _ & Hsig). rewrite Hoff in Hsig.
  destruct Hsig as (Hs & _ & _).
  pose proof (signal_held_on_holidays a s masked j t Hwf Hm Hnan) as Hheld.
  rewrite <- Hs in Hheld. rewrite Hq in Hheld. split; [exact Hheld|].
  assert (Hprice : cell (fillna_ffill a) j (S t) = Some (Fin p)).
  { rewrite <- Hp. unfold cell in *. unfold fillna_ffill.
    rewrite coldata_map_cols, list_lookup_fmap.
    destruct (coldata a !! j) as [ca|]; simpl in *; [|discriminate].
    apply ffill_from_holds. exact Hnan. }
  apply set_columns_coldata in Hset as [Hcd _].
  apply tc_matrix_coldata in Hpnl0 as (_ & _ & _ & Hz).
  unfold cell in *. rewrite Hcd, Hz, lookup_zip_with.
  destruct (coldata (_signal r) !! j) as [pos|]; simpl in Hq, Hheld; [|discriminate].
  unfold calculate_returns. rewrite coldata_map_cols, list_lookup_fmap.
  destruct (coldata (fillna_ffill a) !! j) as [price|]; simpl in Hp, Hprice; [|discriminate].
  destruct (flat_day_pnl q p c Hp0) as (x & Hx & Hx0).
  exists x. split; [|exact Hx0]. rewrite <- Hx.
  cbn -[fsub fmul fdiv fabs signal_returns_col pct_change].
  apply signal_returns_col_S; auto. apply pct_change_S; auto.
Qed.

(** Property X7.  [spot_tc_bp] is mandatory: a request without it makes
    every call fail before anything is computed from the request, with
    [ValueError] when the signal and the prices differ in their number of
    columns and with [AttributeError] otherwise, and the request is left as
    it was. *)
Theorem spot_tc_bp_is_mandatory a s br :
  br !! "spot_tc_bp" = None ->
  calculate_trading_PnL sqrtQ freq_bins a s br
  = (inl (if bool_decide (length (cols s) = length (cols a))
          then AttributeError "spot_tc_bp" else ValueError), br).
Proof.
  intros H. unfold calculate_trading_PnL. simpl.
  unfold df_mask at 1. rewrite reindex_shape.
  assert (E : shape (np_isnan (df_values a)) = (length (index a), length (cols a))).
  { unfold shape, np_isnan, df_values, coldata. simpl. rewrite !length_fmap. reflexivity. }
  rewrite E. case_bool_decide as E1; case_bool_decide as E2.
  - unfold mbind at 1, M_bind, lift. cbv beta iota.
    apply M_bind_inl. unfold getattr. rewrite H. reflexivity.
  - exfalso. apply E2. congruence.
  - exfalso. apply E1. congruence.
  - reflexivity.
Qed.

End Holidays.

Lemma run_gap :
  calculate_trading_PnL sqrt_approx offset_aliases prices_gap signal_flip br_cost
  = (inr result_gap, br_cost).
Proof. compute_done. Qed.

Lemma no_pnl_on_non_trading_day_witness :
  cell (_signal result_gap) 0 1 = Some (Fin 1) /\
  exists x, cell (_pnl result_gap) 0 1 = Some (Fin x) /\ (x == 0)%Q.
Proof.
  apply (no_pnl_on_non_trading_day sqrt_approx offset_aliases prices_gap signal_flip
           br_cost result_gap br_cost (VFloat (Fin (1 # 10000))) (1 # 10000)
           0%nat 0%nat 100 1).
  - repeat constructor.
  - exact run_gap.
  - reflexivity.
  - reflexivity.
  - reflexivity.
  - reflexivity.
  - reflexivity.
  - discriminate.
  - reflexivity.
Defined.

Lemma spot_tc_bp_is_mandatory_witness :
  calculate_trading_PnL sqrt_approx offset_aliases prices_two signal_one br_no_cost
    = (inl ValueError, br_no_cost) /\
  calculate_trading_PnL sqrt_approx offset_aliases prices_two signal_two br_no_cost
    = (inl (AttributeError "spot_tc_bp"), br_no_cost).
Proof.
  split.
  - exact (spot_tc_bp_is_mandatory sqrt_approx offset_aliases prices_two signal_one
             br_no_cost eq_refl).
  - exact (spot_tc_bp_is_mandatory sqrt_approx offset_aliases prices_two signal_two
             br_no_cost eq_refl).
Defined.

(** ** The leverage between rebalance dates *)

Lemma leverage_col_held sqrtQ idx n ann vt ml bin agg ps c t d :
  idx !! S t = Some d -> (forall d', d' ∈ idx -> bin d' <> d) -> (n <= t)%nat ->
  leverage_col sqrtQ idx n ann vt ml bin agg ps c !! S t
  = leverage_col sqrtQ idx n ann vt ml bin agg ps c !! t.
Proof.
  intros Hd Hbin Hn. unfold leverage_col.
  rewrite !blank_head_lookup_ge by lia. unfold ffill.
  apply ffill_from_holds. unfold reindex_col. rewrite list_lookup_fmap, Hd. simpl.
  rewrite index_of_None; [reflexivity|].
  unfold bin_labels. rewrite elem_of_remove_dups, list_elem_of_fmap.
  intros (d' & E & Hin). eapply Hbin; eauto.
Qed.

(** Property X8.  Between rebalance dates the leverage is held: on a date
    that is not the label of any bin of the rebalance calendar holding an
    observation, and whose previous observation is itself past the warm-up
    window (row [S t] with [n <= t], so from the second row past the
    warm-up on), every column of the leverage returned by
    [calculate_leverage_factor] has the value of the observation before.
    The first row past the warm-up is left out: the row before it is
    blanked after the fill. *)
Theorem leverage_held_between_rebalances sqrtQ fb df vt ml vp obs fr rf rt
    (returns : bool) ps lev n bin j t d :
  calculate_leverage_factor sqrtQ fb df vt ml vp obs fr rf rt returns ps = inr (Some lev) ->
  as_window vp = inr n -> as_freq fb fr = inr bin ->
  index df !! S t = Some d -> (forall d', d' ∈ index df -> bin d' <> d) ->
  (n <= t)%nat ->
  cell lev j (S t) = cell lev j t.
Proof.
  intros H Hn Hbin Hd Hlab Ht. apply calculate_leverage_factor_inv in H.
  destruct H as (n' & o & ann & vtf & mlf & bin' & agg & _ & Hn' & _ & _ & _ & _ & Hbin'
    & _ & ->).
  rewrite Hn in Hn'. injection Hn' as <-. rewrite Hbin in Hbin'. injection Hbin' as <-.
  assert (Hidx : index (if returns then df else calculate_returns df) = index df)
    by (destruct returns; reflexivity).
  unfold cell. rewrite coldata_map_cols, list_lookup_fmap, Hidx.
  destruct (coldata _ !! j) as [c|]; simpl; [|reflexivity].
  eapply leverage_col_held; eauto.
Qed.

Lemma leverage_held_between_rebalances_witness :
  exists lev,
    calculate_leverage_factor sqrt_approx offset_aliases flat_returns
      (VFloat (Fin (1 # 10))) (VFloat (Fin 5)) (VInt 3) (VInt 252) (VStr "W")
      VNone (VStr "mean") true 0 = inr (Some lev) /\
    cell lev 0 8 = cell lev 0 7 /\
    exists x, cell lev 0 8 = Some (Fin x) /\ (x == 5)%Q.
Proof.
  eexists. split; [vm_compute; reflexivity|]. split.
  - apply (leverage_held_between_rebalances sqrt_approx offset_aliases flat_returns
             (VFloat (Fin (1 # 10))) (VFloat (Fin 5)) (VInt 3) (VInt 252) (VStr "W")
             VNone (VStr "mean") true 0 _ 3%nat bin_W 0%nat 7%nat 12).
    + vm_compute. reflexivity.
    + reflexivity.
    + reflexivity.
    + reflexivity.
    + intros d' Hin. vm_compute in Hin.
      repeat (apply elem_of_cons in Hin as [->|Hin]; [vm_compute; discriminate|]).
      inversion Hin.
    + lia.
  - eexists. split; vm_compute; reflexivity.
Defined.

(** ** Volatility-adjusted returns and the index built from them *)

Section VolAdjusted.
Variable sqrtQ : Q -> Q.
Variable freq_bins : string -> option (date -> date).

Lemma vol_adjusted_returns_cells ret br p l br' :
  calculate_vol_adjusted_returns sqrtQ freq_bins ret true br = (inr (p, l), br') ->
  exists n v tc,
    br' !! "portfolio_vol_periods" = Some v /\ as_window v = inr n /\
    coldata p = zip_with (signal_returns_col tc) (coldata l) (coldata ret) /\
    forall j c t, coldata l !! j = Some c -> (t < n)%nat -> (t < length c)%nat ->
      c !! t = Some NaN.
Proof.
  intros H. apply calculate_vol_adjusted_returns_inr in H as (_ & _ & H).
  destruct H as (a1 & a2 & a3 & a4 & a5 & a6 & a7 & tc & tcf & p0 & HL
    & _ & _ & G3 & _ & _ & _ & _ & _ & _ & Hp0 & Hset).
  apply calculate_leverage_factor_inv in HL.
  destruct HL as (n & o & ann & vtf & mlf & bin & agg & _ & Hn & _ & _ & _ & _ & _ & _ & ->).
  exists n, a3, tcf. split; [exact G3|]. split; [exact Hn|].
  apply set_columns_coldata in Hset as [-> _].
  apply tc_matrix_coldata in Hp0 as (_ & _ & _ & ->). split; [reflexivity|].
  intros j c t Hj Ht Hlen. simpl in Hj. rewrite coldata_map_cols, list_lookup_fmap in Hj.
  destruct (coldata ret !! j) as [c0|]; simpl in Hj; [|discriminate]. injection Hj as <-.
  unfold leverage_col in *. apply blank_head_lookup_lt; auto.
  rewrite blank_head_length in Hlen. exact Hlen.
Qed.

(** Property X9.  The volatility-adjusted returns start later than the
    leverage: in every column their first [portfolio_vol_periods + 1]
    observations are NaN, since the leverage of the warm-up window is NaN
    and a return is earned on the leverage of the period before. *)
Theorem vol_adjusted_returns_warm_up returns_df (returns : bool) br p l br' v n :
  calculate_vol_adjusted_returns sqrtQ freq_bins returns_df returns br = (inr (p, l), br') ->
  br' !! "portfolio_vol_periods" = Some v -> as_window v = inr n ->
  forall j t x, (t <= n)%nat -> cell p j t = Some x -> x = NaN.
Proof.
  intros H Hv Hn j t x Ht Hx.
  apply calculate_vol_adjusted_returns_inv in H. simpl in H.
  apply vol_adjusted_returns_cells in H as (n' & v' & tc & Hv' & Hn' & Hcd & Hnan).
  rewrite Hv in Hv'. injection Hv' as <-. rewrite Hn in Hn'. injection Hn' as <-.
  unfold cell in Hx. rewrite Hcd, lookup_zip_with in Hx.
  destruct (coldata l !! j) as [lc|] eqn:El; simpl in Hx; [|discriminate].
  destruct (coldata (if returns then _ else _) !! j) as [rc|]; simpl in Hx; [|discriminate].
  destruct t as [|t]; [eapply signal_returns_col_0; eauto|].
  apply signal_returns_col_lookup in Hx as (lag & r & q & -> & Hlag & _ & Hq).
  assert (Hlen : (S t < length lc)%nat) by (eapply lookup_lt_Some; eauto).
  rewrite shift_1_lookup_S in Hlag by exact Hlen.
  rewrite (Hnan j lc t El) in Hlag by lia. injection Hlag as <-. reflexivity.
Qed.

(** Property X10.  What [calculate_vol_adjusted_index_from_prices] returns
    is [create_mult_index] of the volatility-adjusted returns of the prices
    it is given, and these returns, like their leverage, are over the dates
    and under the column labels of the price frame.  It adjusts whether or
    not [portfolio_vol_adjust] is set, and the only change it makes to the
    request is to fill in defaults. *)
Theorem vol_adjusted_index_frame prices_df br idx br' :
  wf_frame prices_df ->
  calculate_vol_adjusted_index_from_prices sqrtQ freq_bins prices_df br = (inr idx, br') ->
  (exists ret lev,
     calculate_vol_adjusted_returns sqrtQ freq_bins prices_df false br
       = (inr (ret, lev), br') /\
     idx = create_mult_index ret /\
     framed (index prices_df) (columns prices_df) ret /\
     framed (index prices_df) (columns prices_df) lev) /\
  defaults_filled br br' /\
  (calculate_vol_adjusted_index_from_prices sqrtQ freq_bins prices_df
     (delete "portfolio_vol_adjust" br)).1 = inr idx.
Proof.
  intros Hwf H. unfold calculate_vol_adjusted_index_from_prices in *.
  pose proof H as H0.
  apply M_bind_inr in H as ([p l] & b & Hva & H). apply mret_inr in H as [-> ->].
  split; [|split].
  - exists p, l. split; [exact Hva|]. split; [reflexivity|].
    apply calculate_vol_adjusted_returns_inv in Hva. simpl in Hva.
    assert (Hret : framed (index prices_df) (columns prices_df) (calculate_returns prices_df)).
    { apply framed_map_cols; [|repeat split; auto].
      intros c Hc. rewrite pct_change_length. exact Hc. }
    exact (framed_vol_adjusted_returns sqrtQ freq_bins _ _ _ _ _ _ _ Hret Hva).
  - pose proof (fills_vol_adjusted_returns sqrtQ freq_bins prices_df false br) as HF.
    rewrite Hva in HF. exact HF.
  - assert (Hsim : sim (same_but "portfolio_vol_adjust") (same_but "portfolio_vol_adjust")
              (calculate_vol_adjusted_returns sqrtQ freq_bins prices_df false)).
    { assert (Hg : forall name, name <> "portfolio_vol_adjust" ->
                sim (same_but "portfolio_vol_adjust") (same_but "portfolio_vol_adjust")
                  (getattr name)).
      { intros name Hne. apply sim_getattr. intros b1 b2 Hb. apply Hb, Hne. }
      assert (Hsd : forall name v, name <> "portfolio_vol_adjust" ->
                sim (same_but "portfolio_vol_adjust") (same_but "portfolio_vol_adjust")
                  (set_default name v)).
      { intros name v Hne. apply sim_set_default. intros b1 b2 Hb.
        apply same_but_set_default; auto. }
      unfold calculate_vol_adjusted_returns.
      do 2 (eapply sim_bind; [apply Hsd; discriminate | intros _]).
      do 7 (eapply sim_bind; [apply Hg; discriminate | intros ?]).
      eapply sim_bind; [apply sim_lift | intros olev].
      eapply sim_bind; [apply Hg; discriminate | intros ?].
      destruct olev as [lev|]; [|apply sim_throw].
      do 2 (eapply sim_bind; [apply sim_lift | intros ?]). apply sim_ret. }
    destruct (Hsim br (delete "portfolio_vol_adjust" br)) as [E _].
    { intros k Hk. rewrite lookup_delete_ne; auto. }
    unfold mbind, M_bind. rewrite Hva in E. simpl in E.
    destruct (calculate_vol_adjusted_returns _ _ _ _ (delete _ _)) as [[e|[p' l']] b'];
      simpl in *; [discriminate|]. injection E as <- <-. reflexivity.
Qed.

End VolAdjusted.

Lemma run_vol_returns_two :
  calculate_vol_adjusted_returns sqrt_approx offset_aliases prices_two false br_vol
  = (inr vol_returns_two, br_vol_after).
Proof. compute_done. Qed.

Lemma vol_adjusted_returns_warm_up_witness :
  br_vol_after !! "portfolio_vol_periods" = Some (VInt 2) /\
  forall j t x, (t <= 2)%nat -> cell vol_returns_two.1 j t = Some x -> x = NaN.
Proof.
  split; [reflexivity |].
  apply (vol_adjusted_returns_warm_up sqrt_approx offset_aliases prices_two false br_vol
           vol_returns_two.1 vol_returns_two.2 br_vol_after (VInt 2) 2%nat).
  - exact run_vol_returns_two.
  - reflexivity.
  - reflexivity.
Defined.

Lemma run_index_two :
  calculate_vol_adjusted_index_from_prices sqrt_approx offset_aliases prices_two br_vol
  = (inr index_two, br_vol_after).
Proof. compute_done. Qed.

Lemma vol_adjusted_index_frame_witness :
  (exists ret lev,
     calculate_vol_adjusted_returns sqrt_approx offset_aliases prices_two false br_vol
       = (inr (ret, lev), br_vol_after) /\
     index_two = create_mult_index ret /\
     framed (index prices_two) (columns prices_two) ret /\
     framed (index prices_two) (columns prices_two) lev) /\
  defaults_filled br_vol br_vol_after /\
  (calculate_vol_adjusted_index_from_prices sqrt_approx offset_aliases prices_two
     (delete "portfolio_vol_adjust" br_vol)).1 = inr index_two.
Proof.
  exact (vol_adjusted_index_frame sqrt_approx offset_aliases prices_two br_vol
           index_two br_vol_after wf_prices_two' run_index_two).
Defined.

(** ** The engine object and its getters *)

Lemma B_assoc {X Y Z} (m : Backtest.B X) (k : X -> Backtest.B Y) (k2 : Y -> Backtest.B Z) st :
  ((m ≫= k) ≫= k2) st = (m ≫= fun a => k a ≫= k2) st.
Proof.
  unfold mbind, Backtest.B_bind. destruct (m st) as [[e|a] st']; reflexivity.
Qed.

Lemma B_step_lift {X Y} (x : exn + X) (k : X -> Backtest.B Y) st :
  (Backtest.liftB x ≫= k) st = match x with inl e => (inl e, st) | inr x => k x st end.
Proof. unfold mbind, Backtest.B_bind, Backtest.liftB. destruct x; reflexivity. Qed.

Lemma B_step_request {X Y} (m : M X) (k : X -> Backtest.B Y) self b :
  (Backtest.on_request m ≫= k) (self, b)
  = match m b with
    | (inl e, b') => (inl e, (self, b'))
    | (inr a, b') => k a (self, b')
    end.
Proof. unfold mbind, Backtest.B_bind, Backtest.on_request. simpl. destruct (m b) as [[e|a] b']; reflexivity. Qed.

Lemma B_step_set {Y} name v (k : unit -> Backtest.B Y) self b :
  (Backtest.self_set name v ≫= k) (self, b) = k tt (<[name := v]> self, b).
Proof. reflexivity. Qed.

Lemma B_step_ret {X Y} (x : X) (k : X -> Backtest.B Y) st :
  (mret x ≫= k) st = k x st.
Proof. reflexivity. Qed.

Lemma M_step_lift {X Y} (x : exn + X) (k : X -> M Y) b :
  (lift x ≫= k) b = match x with inl e => (inl e, b) | inr x => k x b end.
Proof. unfold mbind, M_bind, lift. destruct x; reflexivity. Qed.

Lemma M_step_getattr {Y} name (k : pyval -> M Y) b :
  (getattr name ≫= k) b
  = match b !! name with
    | Some v => k v b
    | None => (inl (AttributeError name), b)
    end.
Proof. unfold mbind, M_bind, getattr. destruct (b !! name); reflexivity. Qed.

Lemma B_step_getattr {Y} name (k : pyval -> Backtest.B Y) self b :
  (Backtest.on_request (getattr name) ≫= k) (self, b)
  = match b !! name with
    | Some v => k v (self, b)
    | None => (inl (AttributeError name), (self, b))
    end.
Proof.
  unfold mbind, Backtest.B_bind, Backtest.on_request, getattr. simpl.
  destruct (b !! name); reflexivity.
Qed.

Lemma M_step {X Y} (m : M X) (k : X -> M Y) b :
  (m ≫= k) b
  = match m b with (inl e, b') => (inl e, b') | (inr a, b') => k a b' end.
Proof. reflexivity. Qed.

Section Object.
Variable sqrtQ : Q -> Q.
Variable freq_bins : string -> option (date -> date).
Variable gains : attr -> attr -> exn + DataFrame.
Variable summary : option RetStats -> exn + list string.

Lemma object_refines_values a s self br :
  (Backtest.calculate_trading_PnL sqrtQ freq_bins a s (self, br)).1
    = match (calculate_trading_PnL sqrtQ freq_bins a s br).1 with
      | inl e => inl e
      | inr _ => inr tt
      end /\
  (Backtest.calculate_trading_PnL sqrtQ freq_bins a s (self, br)).2.2
    = (calculate_trading_PnL sqrtQ freq_bins a s br).2.
Proof.
  unfold Backtest.calculate_trading_PnL, Backtest.positions_and_pnl, calculate_trading_PnL.
  cbn [align_left].
  rewrite !B_assoc, B_step_lift, M_step_lift.
  destruct (df_mask _ _) as [e|masked]; [split; reflexivity|].
  rewrite !B_assoc, B_step_getattr, M_step_getattr.
  destruct (br !! "spot_tc_bp") as [tc|]; [|split; reflexivity].
  rewrite !B_assoc, B_step_lift, M_step_lift.
  destruct (make_pnl_cols _ _) as [e|pnl_cols]; [split; reflexivity|].
  rewrite !B_assoc, B_step_request, M_step.
  destruct (vol_target_signals _ _ _ _ _) as [[e|[sig ilev]] br1]; [split; reflexivity|].
  rewrite !B_assoc.
  assert (Hlev : forall (k : unit -> Backtest.B unit) self0,
    (match ilev with
     | Some leverage_df => Backtest.self_set "_individual_leverage" (AFrame leverage_df)
     | None => mret tt
     end ≫= k) (self0, br1)
    = k tt (match ilev with
            | Some l => <["_individual_leverage" := AFrame l]> self0
            | None => self0
            end, br1)).
  { intros k self0. destruct ilev; reflexivity. }
  rewrite Hlev. clear Hlev.
  rewrite !B_assoc, B_step_lift, M_step_lift.
  destruct (as_float tc ≫= _) as [e|pnl0]; [split; reflexivity|].
  rewrite !B_assoc, B_step_lift, M_step_lift.
  destruct (set_columns pnl0 pnl_cols) as [e|pnl]; [split; reflexivity|].
  rewrite !B_assoc, B_step_request, M_step.
  destruct (combine_portfolio pnl br1) as [[e|op] br2]; [split; reflexivity|].
  rewrite !B_assoc, B_step_lift, M_step_lift.
  destruct (new_frame _ _ _) as [e|pl]; [split; reflexivity|].
  rewrite !B_assoc, B_step_request, M_step.
  destruct (vol_target_portfolio _ _ _ _ _) as [[e|[p' l']] br3]; [split; reflexivity|].
  rewrite !B_assoc, B_step_lift, M_step_lift.
  destruct (read_local "portfolio" p') as [e|p]; [split; reflexivity|].
  rewrite !B_assoc, B_step_set. rewrite !B_assoc, B_step_set. rewrite !B_assoc, B_step_set.
  rewrite !B_assoc, B_step_lift, M_step_lift.
  destruct (np_binop _ _ _ ≫= _) as [e|ps]; [split; reflexivity|].
  rewrite !B_assoc, B_step_set.
  rewrite !B_assoc, B_step_request, M_step.
  destruct (scale_portfolio_signal _ _ _) as [[e|ps'] br4]; [split; reflexivity|].
  rewrite !B_assoc, B_step_set. rewrite !B_assoc, B_step_set.
  rewrite !B_assoc, B_step_set. rewrite !B_assoc, B_step_set.
  rewrite B_step_ret. unfold Backtest.statistics_and_indices. cbn [Backtest.pos_pnl Backtest.pos_portfolio Backtest.pos_pnl_cols].
  rewrite B_step_getattr, M_step_getattr.
  destruct (br4 !! "ann_factor") as [ann|] eqn:Hann; [|split; reflexivity].
  rewrite B_step_set.
  rewrite B_step_lift, M_step_lift.
  destruct (set_columns p ["Port"]) as [e|port]; [split; reflexivity|].
  rewrite B_step_set. rewrite B_step_set.
  rewrite B_step_getattr, Hann.
  rewrite B_step_set. rewrite B_step_set.
  rewrite B_step_lift, M_step_lift.
  destruct (set_columns (create_mult_index pnl) pnl_cols) as [e|cp]; [split; reflexivity|].
  rewrite B_step_set. rewrite B_step_set.
  rewrite B_step_lift, M_step_lift.
  destruct (set_columns (create_mult_index port) ["Port"]) as [e|cpo]; [split; reflexivity|].
  split; reflexivity.
Qed.

Lemma run_facts a s br r br' :
  calculate_trading_PnL sqrtQ freq_bins a s br = (inr r, br') ->
  let ret := calculate_returns (fillna_ffill a) in
  exists masked tc pnl_cols b1 pnl0 op pl p ps ann,
    df_mask (reindex (index a) s) (np_isnan (df_values a)) = inr masked /\
    br !! "spot_tc_bp" = Some tc /\
    make_pnl_cols (columns ret) (columns (fillna_ffill masked)) = inr pnl_cols /\
    vol_target_signals sqrtQ freq_bins ret (fillna_ffill masked) br
      = (inr (_signal r, _individual_leverage r), b1) /\
    as_float tc ≫= calculate_signal_returns_with_tc_matrix (_signal r) ret = inr pnl0 /\
    set_columns pnl0 pnl_cols = inr (_pnl r) /\
    combine_portfolio (_pnl r) b1 = (inr op, b1) /\
    new_frame (np_ones (length (index (_pnl r)))) (index (_pnl r)) ["Portfolio"] = inr pl /\
    vol_target_portfolio sqrtQ freq_bins op pl b1
      = (inr (Some p, _portfolio_leverage r), br') /\
    np_binop fmul
      (np_repeat_T (df_values (_portfolio_leverage r)) (length (columns (_signal r))))
      (df_values (_signal r))
      ≫= (fun data => new_frame data (index (_signal r)) (columns (_signal r))) = inr ps /\
    scale_portfolio_signal ps (length (columns (_signal r))) br'
      = (inr (_portfolio_signal r), br') /\
    br' !! "ann_factor" = Some ann /\
    set_columns p ["Port"] = inr (_portfolio r) /\
    set_columns (create_mult_index (_pnl r)) pnl_cols = inr (_cumpnl r) /\
    set_columns (create_mult_index (_portfolio r)) ["Port"] = inr (_cumportfolio r) /\
    _ret_stats_pnl r = calculate_ret_stats (_pnl r) ann /\
    _ret_stats_portfolio r = calculate_ret_stats (_portfolio r) ann /\
    _pnl_trades r = None.
Proof.
  unfold calculate_trading_PnL. simpl. intros H.
  apply M_bind_inr in H as (masked & b & Hmask & H). apply lift_inr in Hmask as [Hmask ->].
  apply M_bind_inr in H as (tc & b & Htc & H). apply getattr_inr in Htc as [Htc ->].
  apply M_bind_inr in H as (pnl_cols & b & Hcols & H). apply lift_inr in Hcols as [Hcols ->].
  apply M_bind_inr in H as ([sig ilev] & br1 & Hsig & H).
  apply M_bind_inr in H as (pnl0 & b & Hpnl & H). apply lift_inr in Hpnl as [Hpnl ->].
  apply M_bind_inr in H as (pnl & b & Hset & H). apply lift_inr in Hset as [Hset ->].
  apply M_bind_inr in H as (op & b & Hcomb & H).
  assert (b = br1) as -> by (rewrite combine_portfolio_eq in Hcomb; congruence).
  apply M_bind_inr in H as (pl & b & Hpl & H). apply lift_inr in Hpl as [Hpl ->].
  apply M_bind_inr in H as ([p' l'] & br2 & Hvp & H).
  apply M_bind_inr in H as (p & b & Hp & H). apply lift_inr in Hp as [Hp ->].
  apply M_bind_inr in H as (ps & b & Hps & H). apply lift_inr in Hps as [Hps ->].
  apply M_bind_inr in H as (ps' & b & Hscale & H).
  assert (b = br2) as -> by (rewrite scale_portfolio_signal_eq in Hscale; congruence).
  apply M_bind_inr in H as (ann & b & Hann & H). apply getattr_inr in Hann as [Hann ->].
  apply M_bind_inr in H as (port & b & Hport & H). apply lift_inr in Hport as [Hport ->].
  apply M_bind_inr in H as (cp & b & Hcp & H). apply lift_inr in Hcp as [Hcp ->].
  apply M_bind_inr in H as (cpo & b & Hcpo & H). apply lift_inr in Hcpo as [Hcpo ->].
  apply mret_inr in H as [-> ->]. simpl.
  destruct p' as [p0|]; [|discriminate]. injection Hp as ->.
  exists masked, tc, pnl_cols, br1, pnl0, op, pl, p, ps, ann.
  repeat split; assumption.
Qed.

Lemma positions_and_pnl_steps a s self br masked tc pnl_cols sig ilev b1 pnl0 pnl op pl p l b3
    ps ps' :
  df_mask (reindex (index a) s) (np_isnan (df_values a)) = inr masked ->
  br !! "spot_tc_bp" = Some tc ->
  make_pnl_cols (columns (calculate_returns (fillna_ffill a)))
    (columns (fillna_ffill masked)) = inr pnl_cols ->
  vol_target_signals sqrtQ freq_bins (calculate_returns (fillna_ffill a))
    (fillna_ffill masked) br = (inr (sig, ilev), b1) ->
  as_float tc ≫= calculate_signal_returns_with_tc_matrix sig
    (calculate_returns (fillna_ffill a)) = inr pnl0 ->
  set_columns pnl0 pnl_cols = inr pnl ->
  combine_portfolio pnl b1 = (inr op, b1) ->
  new_frame (np_ones (length (index pnl))) (index pnl) ["Portfolio"] = inr pl ->
  vol_target_portfolio sqrtQ freq_bins op pl b1 = (inr (Some p, l), b3) ->
  np_binop fmul (np_repeat_T (df_values l) (length (columns sig))) (df_values sig)
    ≫= (fun data => new_frame data (index sig) (columns sig)) = inr ps ->
  scale_portfolio_signal ps (length (columns sig)) b3 = (inr ps', b3) ->
  Backtest.positions_and_pnl sqrtQ freq_bins a s (self, br)
  = (inr (Backtest.mkPositions pnl p pnl_cols),
     (after_positions ilev p sig l ps ps' pnl self, b3)).
Proof.
  intros Hm Htc Hcols Hsig Hpnl0 Hset Hcomb Hpl Hvp Hps Hscale.
  unfold Backtest.positions_and_pnl. cbn [align_left].
  rewrite B_step_lift, Hm. rewrite B_step_getattr, Htc.
  rewrite B_step_lift, Hcols. rewrite B_step_request, Hsig.
  assert (Hlev : forall (k : unit -> Backtest.B Backtest.positions) self0,
    (match ilev with
     | Some leverage_df => Backtest.self_set "_individual_leverage" (AFrame leverage_df)
     | None => mret tt
     end ≫= k) (self0, b1)
    = k tt (match ilev with
            | Some l => <["_individual_leverage" := AFrame l]> self0
            | None => self0
            end, b1)).
  { intros k self0. destruct ilev; reflexivity. }
  rewrite Hlev. clear Hlev.
  rewrite B_step_lift, Hpnl0. rewrite B_step_lift, Hset.
  rewrite B_step_request, Hcomb. rewrite B_step_lift, Hpl.
  rewrite B_step_request, Hvp. rewrite B_step_lift. cbn [read_local].
  rewrite !B_step_set. rewrite B_step_lift, Hps. rewrite B_step_set.
  rewrite B_step_request, Hscale. rewrite !B_step_set. reflexivity.
Qed.

Lemma statistics_and_indices_steps pnl p pnl_cols self b ann port cp cpo :
  b !! "ann_factor" = Some ann ->
  set_columns p ["Port"] = inr port ->
  set_columns (create_mult_index pnl) pnl_cols = inr cp ->
  set_columns (create_mult_index port) ["Port"] = inr cpo ->
  Backtest.statistics_and_indices (Backtest.mkPositions pnl p pnl_cols) (self, b)
  = (inr tt, (after_statistics pnl port cp cpo ann self, b)).
Proof.
  intros Hann Hport Hcp Hcpo. unfold Backtest.statistics_and_indices.
  cbn [Backtest.pos_pnl Backtest.pos_portfolio Backtest.pos_pnl_cols].
  rewrite B_step_getattr, Hann. rewrite B_step_set. rewrite B_step_lift, Hport.
  rewrite !B_step_set. rewrite B_step_getattr, Hann. rewrite !B_step_set.
  rewrite B_step_lift, Hcp. rewrite !B_step_set. rewrite B_step_lift, Hcpo.
  reflexivity.
Qed.

Lemma statistics_and_indices_fails x self b :
  b !! "ann_factor" = None ->
  Backtest.statistics_and_indices x (self, b)
  = (inl (AttributeError "ann_factor"), (self, b)).
Proof.
  intros Hann. unfold Backtest.statistics_and_indices.
  rewrite B_step_getattr, Hann. reflexivity.
Qed.

(** A run that returns leaves the engine with these attributes. *)
Lemma object_run_steps a s self br r br' :
  calculate_trading_PnL sqrtQ freq_bins a s br = (inr r, br') ->
  exists p ps,
    set_columns p ["Port"] = inr (_portfolio r) /\
    Backtest.calculate_trading_PnL sqrtQ freq_bins a s (self, br)
    = (inr tt,
       (after_statistics (_pnl r) (_portfolio r) (_cumpnl r) (_cumportfolio r)
          (rs_ann_factor (_ret_stats_pnl r))
          (after_positions (_individual_leverage r) p (_signal r)
             (_portfolio_leverage r) ps (_portfolio_signal r) (_pnl r) self),
        br')).
Proof.
  intros H. apply run_facts in H. simpl in H.
  destruct H as (masked & tc & pnl_cols & b1 & pnl0 & op & pl & p & ps & ann
    & Hm & Htc & Hcols & Hsig & Hpnl0 & Hset & Hcomb & Hpl & Hvp & Hps & Hscale
    & Hann & Hport & Hcp & Hcpo & Hrs & _).
  exists p, ps. split; [exact Hport|].
  unfold Backtest.calculate_trading_PnL. unfold mbind at 1, Backtest.B_bind.
  rewrite (positions_and_pnl_steps a s self br masked tc pnl_cols _ _ b1 pnl0 _ op pl p _ br'
             ps _ Hm Htc Hcols Hsig Hpnl0 Hset Hcomb Hpl Hvp Hps Hscale).
  rewrite (statistics_and_indices_steps _ _ _ _ _ ann _ _ _ Hann Hport Hcp Hcpo).
  rewrite Hrs. reflexivity.
Qed.

End Object.

(** ** What the methods leave alone *)

Lemma leaves_bind k {X Y} (m : Backtest.B X) (f : X -> Backtest.B Y) :
  leaves k m -> (forall x, leaves k (f x)) -> leaves k (m ≫= f).
Proof.
  intros Hm Hf st. specialize (Hm st). unfold mbind, Backtest.B_bind.
  destruct (m st) as [[e|x] st']; simpl in *; [exact Hm|].
  rewrite <- Hm. apply Hf.
Qed.

Lemma leaves_liftB k {X} (x : exn + X) : leaves k (Backtest.liftB x).
Proof. intros st. reflexivity. Qed.

Lemma leaves_ret k {X} (x : X) : leaves k (mret x : Backtest.B X).
Proof. intros st. reflexivity. Qed.

Lemma leaves_on_request k {X} (m : M X) : leaves k (Backtest.on_request m).
Proof. intros st. reflexivity. Qed.

Lemma leaves_self_get k name : leaves k (Backtest.self_get name).
Proof. intros st. unfold Backtest.self_get. destruct (st.1 !! name); reflexivity. Qed.

Lemma leaves_self_set k name v : name <> k -> leaves k (Backtest.self_set name v).
Proof. intros H st. simpl. apply lookup_insert_ne. exact H. Qed.

Section Leaves.
Variable sqrtQ : Q -> Q.
Variable freq_bins : string -> option (date -> date).
Variable gains : attr -> attr -> exn + DataFrame.

Ltac leaves_prim k_not_written :=
  first [ apply leaves_liftB | apply leaves_ret | apply leaves_on_request
        | apply leaves_self_get
        | apply leaves_self_set; intros <-; apply k_not_written;
          unfold written_attributes; rewrite !elem_of_cons; tauto ].

Lemma leaves_positions_and_pnl k a s :
  k ∉ written_attributes ->
  leaves k (Backtest.positions_and_pnl sqrtQ freq_bins a s).
Proof.
  intros Hk. unfold Backtest.positions_and_pnl. cbn [align_left].
  do 3 (apply leaves_bind; [leaves_prim Hk | intros ?]).
  apply leaves_bind; [leaves_prim Hk | intros [sig [lev|]]].
  all: repeat (apply leaves_bind; [leaves_prim Hk | intros ?]);
    repeat match goal with x : (_ * _)%type |- _ => destruct x end;
    repeat (apply leaves_bind; [leaves_prim Hk | intros ?]); leaves_prim Hk.
Qed.

Lemma leaves_statistics_and_indices k x :
  k ∉ written_attributes ->
  leaves k (Backtest.statistics_and_indices x).
Proof.
  intros Hk. unfold Backtest.statistics_and_indices.
  repeat (apply leaves_bind; [leaves_prim Hk | intros ?]). leaves_prim Hk.
Qed.

Lemma leaves_calculate_trading_PnL k a s :
  k ∉ written_attributes ->
  leaves k (Backtest.calculate_trading_PnL sqrtQ freq_bins a s).
Proof.
  intros Hk. apply leaves_bind.
  - apply leaves_positions_and_pnl, Hk.
  - intros x. apply leaves_statistics_and_indices, Hk.
Qed.

Lemma leaves_get_pnl_trades k :
  k <> "_pnl_trades" -> leaves k (Backtest.get_pnl_trades gains).
Proof.
  intros Hk. unfold Backtest.get_pnl_trades.
  apply leaves_bind; [apply leaves_self_get | intros t].
  destruct t; try apply leaves_self_get.
  do 3 (apply leaves_bind; [first [apply leaves_self_get | apply leaves_liftB] | intros ?]).
  apply leaves_bind; [apply leaves_self_set; congruence | intros _].
  apply leaves_self_get.
Qed.

Lemma reachable_no_stats_signals self :
  Backtest.reachable sqrtQ freq_bins gains self -> self !! "_ret_stats_signals" = None.
Proof.
  induction 1 as [|self br a s x self' br' _ IH Hrun|self br x self' br' _ IH Hget].
  - reflexivity.
  - pose proof (leaves_calculate_trading_PnL "_ret_stats_signals" a s
                  ltac:(unfold written_attributes; not_in_keys) (self, br)) as L.
    rewrite Hrun in L. simpl in L. congruence.
  - pose proof (leaves_get_pnl_trades "_ret_stats_signals" ltac:(discriminate) (self, br)) as L.
    rewrite Hget in L. simpl in L. congruence.
Qed.

End Leaves.

(** ** The getters *)

Ltac engine_lookup :=
  unfold after_statistics, after_positions;
  repeat (rewrite lookup_insert_eq || rewrite lookup_insert_ne by discriminate).

Lemma self_get_lookup name self br v :
  self !! name = Some v -> Backtest.self_get name (self, br) = (inr v, (self, br)).
Proof. intros H. unfold Backtest.self_get. simpl. rewrite H. reflexivity. Qed.

Lemma self_get_missing name self br :
  self !! name = None ->
  Backtest.self_get name (self, br) = (inl (AttributeError name), (self, br)).
Proof. intros H. unfold Backtest.self_get. simpl. rewrite H. reflexivity. Qed.

Lemma B_step_self_get {Y} name v (k : attr -> Backtest.B Y) self b :
  self !! name = Some v -> (Backtest.self_get name ≫= k) (self, b) = k v (self, b).
Proof. intros H. unfold mbind, Backtest.B_bind, Backtest.self_get. simpl. rewrite H. reflexivity. Qed.

Lemma get_pnl_trades_fresh gains self b sg p :
  self !! "_pnl_trades" = Some ANone ->
  self !! "_signal" = Some sg -> self !! "_pnl" = Some p ->
  Backtest.get_pnl_trades gains (self, b)
  = match gains sg p with
    | inl e => (inl e, (self, b))
    | inr g => (inr (AFrame g), (<["_pnl_trades" := AFrame g]> self, b))
    end.
Proof.
  intros Ht Hs Hp. unfold Backtest.get_pnl_trades.
  rewrite (B_step_self_get _ _ _ _ _ Ht). cbv beta iota.
  rewrite (B_step_self_get _ _ _ _ _ Hs), (B_step_self_get _ _ _ _ _ Hp).
  rewrite B_step_lift. destruct (gains sg p) as [e|g]; [reflexivity|].
  rewrite B_step_set. apply self_get_lookup. apply lookup_insert_eq.
Qed.

Section Getters.
Variable sqrtQ : Q -> Q.
Variable freq_bins : string -> option (date -> date).
Variable gains : attr -> attr -> exn + DataFrame.
Variable summary : option RetStats -> exn + list string.

(** Property X11.  The engine object agrees with the record of results.
    When [calculate_trading_PnL] returns, whatever the engine held before,
    each getter returns the frame computed by this call: [get_pnl],
    [get_cumpnl], [get_cumportfolio], [get_portfolio_pnl],
    [get_porfolio_leverage], [get_porfolio_signal] and [get_signal], the two
    statistics getters return statistics of the P&L and of the portfolio
    with the annualisation factor of the request, and the first
    [get_pnl_trades] computes the trade gains from the signal and the P&L
    of this call, not of an earlier one. *)
Theorem getters_after_run a s self br r br' :
  calculate_trading_PnL sqrtQ freq_bins a s br = (inr r, br') ->
  exists self',
    Backtest.calculate_trading_PnL sqrtQ freq_bins a s (self, br) = (inr tt, (self', br')) /\
    Backtest.get_pnl (self', br') = (inr (AFrame (_pnl r)), (self', br')) /\
    Backtest.get_cumpnl (self', br') = (inr (AFrame (_cumpnl r)), (self', br')) /\
    Backtest.get_cumportfolio (self', br') = (inr (AFrame (_cumportfolio r)), (self', br')) /\
    Backtest.get_portfolio_pnl (self', br') = (inr (AFrame (_portfolio r)), (self', br')) /\
    Backtest.get_porfolio_leverage (self', br')
      = (inr (AFrame (_portfolio_leverage r)), (self', br')) /\
    Backtest.get_porfolio_signal (self', br')
      = (inr (AFrame (_portfolio_signal r)), (self', br')) /\
    Backtest.get_signal (self', br') = (inr (AFrame (_signal r)), (self', br')) /\
    Backtest.get_pnl_ret_stats (self', br')
      = (inr (AStats (Some (_ret_stats_pnl r))), (self', br')) /\
    Backtest.get_portfolio_pnl_ret_stats (self', br')
      = (inr (AStats (Some (_ret_stats_portfolio r))), (self', br')) /\
    Backtest.get_pnl_trades gains (self', br')
      = match gains (AFrame (_signal r)) (AFrame (_pnl r)) with
        | inl e => (inl e, (self', br'))
        | inr g => (inr (AFrame g), (<["_pnl_trades" := AFrame g]> self', br'))
        end.
Proof.
  intros H. pose proof H as H0. apply run_facts in H0. simpl in H0.
  destruct H0 as (_ & _ & _ & _ & _ & _ & _ & _ & _ & ann & _ & _ & _ & _ & _ & _ & _ & _
    & _ & _ & _ & _ & _ & _ & _ & Hrs1 & Hrs2 & _).
  destruct (object_run_steps sqrtQ freq_bins a s self br r br' H) as (p & ps & _ & Hrun).
  eexists. split; [exact Hrun|].
  repeat split.
  1-7: apply self_get_lookup; engine_lookup; reflexivity.
  - apply self_get_lookup. engine_lookup. rewrite Hrs1. reflexivity.
  - apply self_get_lookup. engine_lookup. rewrite Hrs2, Hrs1. reflexivity.
  - apply get_pnl_trades_fresh; engine_lookup; reflexivity.
Qed.

(** Property X12.  [get_pnl_trades] computes the trade gains once: after a
    call that returned, later calls return the same value and leave the
    engine as it is, whatever the trade-gain calculation would give then. *)
Theorem pnl_trades_kept st v st' :
  Backtest.get_pnl_trades gains st = (inr v, st') ->
  forall gains', Backtest.get_pnl_trades gains' st' = (inr v, st').
Proof.
  destruct st as [self b]. unfold Backtest.get_pnl_trades at 1.
  unfold mbind at 1, Backtest.B_bind, Backtest.self_get at 1. simpl.
  destruct (self !! "_pnl_trades") as [t|] eqn:Et; [|discriminate].
  assert (Hkept : forall t0, t0 <> ANone -> self !! "_pnl_trades" = Some t0 ->
            forall gains', Backtest.get_pnl_trades gains' (self, b) = (inr t0, (self, b))).
  { intros t0 Hne Ht0 gains'. unfold Backtest.get_pnl_trades.
    rewrite (B_step_self_get _ _ _ _ _ Ht0).
    destruct t0; try congruence; apply self_get_lookup; exact Ht0. }
  destruct t.
  - unfold mbind at 1, Backtest.B_bind, Backtest.self_get at 1. simpl.
    destruct (self !! "_signal") as [sg|]; [|discriminate].
    unfold mbind at 1, Backtest.B_bind, Backtest.self_get at 1. simpl.
    destruct (self !! "_pnl") as [p|]; [|discriminate].
    rewrite B_step_lift. destruct (gains sg p) as [e|g]; [discriminate|].
    rewrite B_step_set. rewrite (self_get_lookup _ _ _ (AFrame g)) by apply lookup_insert_eq.
    intros [= <- <-] gains'. unfold Backtest.get_pnl_trades.
    rewrite (B_step_self_get _ (AFrame g)) by apply lookup_insert_eq.
    apply self_get_lookup. apply lookup_insert_eq.
  - rewrite (self_get_lookup _ _ _ _ Et). intros [= <- <-]. apply Hkept; [discriminate | exact Et].
  - rewrite (self_get_lookup _ _ _ _ Et). intros [= <- <-]. apply Hkept; [discriminate | exact Et].
  - rewrite (self_get_lookup _ _ _ _ Et). intros [= <- <-]. apply Hkept; [discriminate | exact Et].
Qed.

(** Property X13.  [get_pnl_desc] cannot return: it reads the attribute
    [_ret_stats_signals], which no method of the engine assigns (the
    statistics of the P&L are kept in [_ret_stats_pnl]).  On a new engine
    and after any sequence of calls of [calculate_trading_PnL] and
    [get_pnl_trades], whether they returned or raised, it raises
    [AttributeError] and leaves the engine as it is. *)
Theorem get_pnl_desc_never_returns self br :
  Backtest.reachable sqrtQ freq_bins gains self ->
  Backtest.get_pnl_desc summary (self, br)
  = (inl (AttributeError "_ret_stats_signals"), (self, br)).
Proof.
  intros H. apply reachable_no_stats_signals in H.
  unfold Backtest.get_pnl_desc, mbind, Backtest.B_bind.
  rewrite (self_get_missing _ _ _ H). reflexivity.
Qed.

(** Property X14.  [_individual_leverage] is assigned only when the signals
    are volatility-targeted.  After a run with [signal_vol_adjust] on,
    [get_individual_leverage] returns the leverage of that run; after a run
    with the flag off it does what it did before the run: it raises
    [AttributeError] on an engine that never had the flag on, and it
    returns the leverage of an earlier run otherwise. *)
Theorem individual_leverage_after_run a s self br r br' :
  calculate_trading_PnL sqrtQ freq_bins a s br = (inr r, br') ->
  exists self',
    Backtest.calculate_trading_PnL sqrtQ freq_bins a s (self, br) = (inr tt, (self', br')) /\
    (flag_on "signal_vol_adjust" br = true ->
       exists lev, _individual_leverage r = Some lev /\
         Backtest.get_individual_leverage (self', br') = (inr (AFrame lev), (self', br'))) /\
    (flag_on "signal_vol_adjust" br = false ->
       _individual_leverage r = None /\
       (Backtest.get_individual_leverage (self', br')).1
       = (Backtest.get_individual_leverage (self, br)).1) /\
    (self = Backtest.__init__ -> flag_on "signal_vol_adjust" br = false ->
       Backtest.get_individual_leverage (self', br')
       = (inl (AttributeError "_individual_leverage"), (self', br'))).
Proof.
  intros H. pose proof H as H0. apply run_facts in H0. simpl in H0.
  destruct H0 as (masked & tc & pnl_cols & b1 & _ & _ & _ & _ & _ & _ & _ & _ & _ & Hsig & _).
  apply vol_target_signals_inr in Hsig as (_ & _ & Hsig).
  destruct (object_run_steps sqrtQ freq_bins a s self br r br' H) as (p & ps & _ & Hrun).
  set (self' := after_statistics _ _ _ _ _ _) in *.
  exists self'. split; [exact Hrun|].
  assert (Hoff : _individual_leverage r = None ->
    self' !! "_individual_leverage" = self !! "_individual_leverage").
  { intros E. subst self'. engine_lookup. rewrite E. reflexivity. }
  split; [|split].
  - intros Hon. rewrite Hon in Hsig.
    destruct Hsig as (lev & d & a1 & a2 & a3 & a4 & a5 & a6 & a7 & E & _).
    exists lev. split; [exact E|]. apply self_get_lookup. subst self'. engine_lookup.
    rewrite E. apply lookup_insert_eq.
  - intros Hf. rewrite Hf in Hsig. destruct Hsig as (_ & E & _). split; [exact E|].
    unfold Backtest.get_individual_leverage, Backtest.self_get. cbn [fst snd].
    rewrite (Hoff E). destruct (self !! "_individual_leverage"); reflexivity.
  - intros -> Hf. rewrite Hf in Hsig. destruct Hsig as (_ & E & _).
    apply self_get_missing. rewrite (Hoff E). reflexivity.
Qed.

End Getters.


Lemma run_two_mean :
  calculate_trading_PnL sqrt_approx offset_aliases prices_two signal_two br_mean
  = (inr result_two, br_mean).
Proof. compute_done. Qed.

Lemma run_engine_sig :
  Backtest.calculate_trading_PnL sqrt_approx offset_aliases prices_two signal_two
    (Backtest.__init__, br_sig) = (inr tt, (engine_sig, br_sig_after)).
Proof. compute_done. Qed.

Lemma getters_after_run_witness :
  exists self',
    Backtest.calculate_trading_PnL sqrt_approx offset_aliases prices_two signal_two
      (Backtest.__init__, br_sig) = (inr tt, (self', br_sig_after)) /\
    Backtest.get_pnl (self', br_sig_after)
      = (inr (AFrame (_pnl result_sig)), (self', br_sig_after)) /\
    Backtest.get_cumpnl (self', br_sig_after)
      = (inr (AFrame (_cumpnl result_sig)), (self', br_sig_after)) /\
    Backtest.get_cumportfolio (self', br_sig_after)
      = (inr (AFrame (_cumportfolio result_sig)), (self', br_sig_after)) /\
    Backtest.get_portfolio_pnl (self', br_sig_after)
      = (inr (AFrame (_portfolio result_sig)), (self', br_sig_after)) /\
    Backtest.get_porfolio_leverage (self', br_sig_after)
      = (inr (AFrame (_portfolio_leverage result_sig)), (self', br_sig_after)) /\
    Backtest.get_porfolio_signal (self', br_sig_after)
      = (inr (AFrame (_portfolio_signal result_sig)), (self', br_sig_after)) /\
    Backtest.get_signal (self', br_sig_after)
      = (inr (AFrame (_signal result_sig)), (self', br_sig_after)) /\
    Backtest.get_pnl_ret_stats (self', br_sig_after)
      = (inr (AStats (Some (_ret_stats_pnl result_sig))), (self', br_sig_after)) /\
    Backtest.get_portfolio_pnl_ret_stats (self', br_sig_after)
      = (inr (AStats (Some (_ret_stats_portfolio result_sig))), (self', br_sig_after)) /\
    Backtest.get_pnl_trades gains_pnl (self', br_sig_after)
      = match gains_pnl (AFrame (_signal result_sig)) (AFrame (_pnl result_sig)) with
        | inl e => (inl e, (self', br_sig_after))
        | inr g => (inr (AFrame g), (<["_pnl_trades" := AFrame g]> self', br_sig_after))
        end.
Proof.
  exact (getters_after_run sqrt_approx offset_aliases gains_pnl prices_two signal_two
           Backtest.__init__ br_sig result_sig br_sig_after run_sig).
Defined.

Lemma run_trades_sig :
  Backtest.get_pnl_trades gains_pnl (engine_sig, br_sig_after)
  = (inr (AFrame (_pnl result_sig)),
     (<["_pnl_trades" := AFrame (_pnl result_sig)]> engine_sig, br_sig_after)).
Proof. compute_done. Qed.

Lemma pnl_trades_kept_witness :
  Backtest.get_pnl_trades gains_pnl (engine_sig, br_sig_after)
  = (inr (AFrame (_pnl result_sig)),
     (<["_pnl_trades" := AFrame (_pnl result_sig)]> engine_sig, br_sig_after)) /\
  forall gains',
    Backtest.get_pnl_trades gains'
      (<["_pnl_trades" := AFrame (_pnl result_sig)]> engine_sig, br_sig_after)
    = (inr (AFrame (_pnl result_sig)),
       (<["_pnl_trades" := AFrame (_pnl result_sig)]> engine_sig, br_sig_after)).
Proof.
  split; [exact run_trades_sig |].
  exact (pnl_trades_kept gains_pnl (engine_sig, br_sig_after) _ _ run_trades_sig).
Defined.

Lemma reachable_engine_sig gains :
  Backtest.reachable sqrt_approx offset_aliases gains engine_sig.
Proof.
  eapply Backtest.reach_run; [apply Backtest.reach_init | exact run_engine_sig].
Qed.

Lemma get_pnl_desc_never_returns_witness :
  Backtest.get_pnl_desc summary_columns (engine_sig, br_sig_after)
  = (inl (AttributeError "_ret_stats_signals"), (engine_sig, br_sig_after)).
Proof.
  apply (get_pnl_desc_never_returns sqrt_approx offset_aliases gains_pnl summary_columns
           engine_sig br_sig_after).
  apply reachable_engine_sig.
Defined.

Lemma individual_leverage_after_run_witness :
  exists self',
    Backtest.calculate_trading_PnL sqrt_approx offset_aliases prices_two signal_two
      (engine_sig, br_mean) = (inr tt, (self', br_mean)) /\
    (flag_on "signal_vol_adjust" br_mean = true ->
       exists lev, _individual_leverage result_two = Some lev /\
         Backtest.get_individual_leverage (self', br_mean)
         = (inr (AFrame lev), (self', br_mean))) /\
    (flag_on "signal_vol_adjust" br_mean = false ->
       _individual_leverage result_two = None /\
       (Backtest.get_individual_leverage (self', br_mean)).1
       = (Backtest.get_individual_leverage (engine_sig, br_mean)).1) /\
    (engine_sig = Backtest.__init__ -> flag_on "signal_vol_adjust" br_mean = false ->
       Backtest.get_individual_leverage (self', br_mean)
       = (inl (AttributeError "_individual_leverage"), (self', br_mean))).
Proof.
  exact (individual_leverage_after_run sqrt_approx offset_aliases prices_two signal_two
           engine_sig br_mean result_two br_mean run_two_mean).
Defined.

(** The leverage that an engine returns after a run without volatility
    targeting is the one of the run before. *)
Lemma stale_individual_leverage :
  (Backtest.get_individual_leverage (engine_sig, br_mean)).1
  = inr (AFrame (default empty_frame (_individual_leverage result_sig))).
Proof. compute_done. Qed.

(** ** A run that fails at the annualisation factor *)

Lemma sim_same_but_vol_target_portfolio sqrtQ freq_bins key portfolio pl :
  key ∉ "portfolio_vol_adjust" :: "spot_tc_bp" :: portfolio_keys ->
  sim (same_but key) (same_but key)
    (vol_target_portfolio sqrtQ freq_bins portfolio pl).
Proof.
  intros Hkey.
  assert (Hne : forall name,
            name ∈ "portfolio_vol_adjust" :: "spot_tc_bp" :: portfolio_keys -> name <> key).
  { intros name Hin ->. contradiction. }
  assert (Hg : forall name,
            name ∈ "portfolio_vol_adjust" :: "spot_tc_bp" :: portfolio_keys ->
            sim (same_but key) (same_but key) (getattr name)).
  { intros name Hin. apply sim_getattr. intros b1 b2 H. apply H, Hne, Hin. }
  assert (Hsd : forall name v,
            name ∈ "portfolio_vol_adjust" :: "spot_tc_bp" :: portfolio_keys ->
            sim (same_but key) (same_but key) (set_default name v)).
  { intros name v Hin. apply sim_set_default. intros b1 b2 H.
    apply same_but_set_default; auto. }
  unfold vol_target_portfolio.
  apply sim_flag_block; [| | apply sim_ret].
  { intros b1 b2 H. eapply same_but_flag_on; eauto. apply Hne. left. }
  eapply (sim_conseq _ (same_but key) _ (same_but key));
    [| intros b1 b2 H; apply H | intros b1 b2 H; exact H].
  eapply sim_bind; [apply sim_lift | intros p].
  eapply sim_bind; [|intros [? ?]; apply sim_ret].
  unfold calculate_vol_adjusted_returns.
  do 2 (eapply sim_bind;
    [apply Hsd; unfold portfolio_keys; rewrite !elem_of_cons; tauto | intros _]).
  do 7 (eapply sim_bind;
    [apply Hg; unfold portfolio_keys; rewrite !elem_of_cons; tauto | intros ?]).
  eapply sim_bind; [apply sim_lift | intros olev].
  eapply sim_bind;
    [apply Hg; unfold portfolio_keys; rewrite !elem_of_cons; tauto | intros ?].
  destruct olev as [lev|]; [|apply sim_throw].
  do 2 (eapply sim_bind; [apply sim_lift | intros ?]). apply sim_ret.
Qed.

(** A block that returns on a request returns the same on a request that
    differs in an attribute the block does not read. *)
Lemma sim_transfer {A} key (m : M A) b1 b2 x b1' :
  sim (same_but key) (same_but key) m -> fills m -> default_of key = None ->
  same_but key b1 b2 -> m b1 = (inr x, b1') ->
  exists b2', m b2 = (inr x, b2') /\ same_but key b1' b2' /\ b2' !! key = b2 !! key.
Proof.
  intros Hsim Hfill Hkey HR Hm. destruct (Hsim b1 b2 HR) as [E1 E2].
  specialize (E2 x). rewrite Hm in E1, E2. simpl in E1, E2.
  pose proof (Hfill b2) as HF.
  destruct (m b2) as [y b2'] eqn:E. simpl in *. subst y.
  exists b2'. split; [reflexivity|]. split; [auto|].
  apply defaults_filled_lookup; auto.
Qed.

Section AnnFactor.
Variable sqrtQ : Q -> Q.
Variable freq_bins : string -> option (date -> date).

(** The portfolio that leaves the volatility-targeting block still has
    the label it is created with. *)
Lemma portfolio_label pnl op pl b1 p l br' :
  combine_portfolio pnl b1 = (inr op, b1) ->
  vol_target_portfolio sqrtQ freq_bins op pl b1 = (inr (Some p, l), br') ->
  columns p = ["Portfolio"].
Proof.
  intros Hcomb Hvp. rewrite combine_portfolio_eq in Hcomb. injection Hcomb as <-.
  apply vol_target_portfolio_inr in Hvp as (_ & _ & Hvp).
  destruct (flag_on "portfolio_vol_adjust" b1).
  - destruct Hvp as (p1 & pa & Hp1 & [= <-] & Hva).
    apply calculate_vol_adjusted_returns_inr in Hva as (_ & _ & Hva).
    destruct Hva as (a1 & a2 & a3 & a4 & a5 & a6 & a7 & tc & tcf & p0 & _
      & _ & _ & _ & _ & _ & _ & _ & _ & _ & _ & Hset).
    apply set_columns_columns in Hset. rewrite Hset.
    destruct (combination b1); [|discriminate]. injection Hp1 as <-. reflexivity.
  - destruct Hvp as (Hp1 & _).
    destruct (combination b1); [|discriminate]. injection Hp1 as ->. reflexivity.
Qed.

(** Property X15.  [ann_factor] is read only at line 143, after the
    positions, the P&L and the portfolio have been stored.  On a request
    without it the call raises [AttributeError], and when the same request
    with an annualisation factor would have made the call return, the
    engine is left half updated: [get_pnl], [get_signal],
    [get_porfolio_leverage] and [get_porfolio_signal] return the frames of
    this call, the portfolio is stored under its label ['Portfolio'], the
    trade gains are reset and the P&L statistics are empty, while the
    cumulative indices and the portfolio statistics are those of the call
    before, or missing. *)
Theorem ann_factor_is_read_late a s self br v r br' :
  br !! "ann_factor" = None ->
  calculate_trading_PnL sqrtQ freq_bins a s (<["ann_factor" := v]> br) = (inr r, br') ->
  exists self' brf p,
    Backtest.calculate_trading_PnL sqrtQ freq_bins a s (self, br)
      = (inl (AttributeError "ann_factor"), (self', brf)) /\
    defaults_filled br brf /\
    self' !! "_pnl" = Some (AFrame (_pnl r)) /\
    self' !! "_signal" = Some (AFrame (_signal r)) /\
    self' !! "_portfolio_leverage" = Some (AFrame (_portfolio_leverage r)) /\
    self' !! "_portfolio_signal" = Some (AFrame (_portfolio_signal r)) /\
    self' !! "_portfolio" = Some (AFrame p) /\
    columns p = ["Portfolio"] /\
    set_columns p ["Port"] = inr (_portfolio r) /\
    self' !! "_pnl_trades" = Some ANone /\
    self' !! "_ret_stats_pnl" = Some (AStats None) /\
    self' !! "_ret_stats_portfolio" = self !! "_ret_stats_portfolio" /\
    self' !! "_cumpnl" = self !! "_cumpnl" /\
    self' !! "_cumportfolio" = self !! "_cumportfolio".
Proof.
  intros Hno H. apply run_facts in H. simpl in H.
  destruct H as (masked & tc & pnl_cols & b1 & pnl0 & op & pl & p & ps & ann
    & Hm & Htc & Hcols & Hsig & Hpnl0 & Hset & Hcomb & Hpl & Hvp & Hps & Hscale
    & Hann & Hport & _).
  rewrite lookup_insert_ne in Htc by discriminate.
  assert (HR : same_but "ann_factor" (<["ann_factor" := v]> br) br).
  { intros k Hk. apply lookup_insert_ne. congruence. }
  destruct (sim_transfer "ann_factor" _ _ _ _ _
              (sim_same_but_vol_target_signals sqrtQ freq_bins "ann_factor" _ _
                 ltac:(unfold signal_keys; not_in_keys))
              (fills_vol_target_signals sqrtQ freq_bins _ _) eq_refl HR Hsig)
    as (c1 & Hsig' & HR1 & Hk1).
  assert (Hcomb' : combine_portfolio (_pnl r) c1 = (inr op, c1)).
  { rewrite combine_portfolio_eq in Hcomb |- *. injection Hcomb as <-.
    unfold combination. rewrite <- (HR1 "portfolio_combination") by discriminate.
    reflexivity. }
  destruct (sim_transfer "ann_factor" _ _ _ _ _
              (sim_same_but_vol_target_portfolio sqrtQ freq_bins "ann_factor" op pl
                 ltac:(unfold portfolio_keys; not_in_keys))
              (fills_vol_target_portfolio sqrtQ freq_bins _ _) eq_refl HR1 Hvp)
    as (c3 & Hvp' & HR3 & Hk3).
  assert (Hscale' : scale_portfolio_signal ps (length (columns (_signal r))) c3
                    = (inr (_portfolio_signal r), c3)).
  { rewrite scale_portfolio_signal_eq in Hscale |- *. injection Hscale as Hs.
    rewrite <- Hs. unfold averaged.
    rewrite <- (HR3 "portfolio_combination") by discriminate. reflexivity. }
  assert (Hno3 : c3 !! "ann_factor" = None) by (rewrite Hk3, Hk1; exact Hno).
  pose proof (portfolio_label _ _ _ _ _ _ _ Hcomb Hvp) as Hlabel.
  exists (after_positions (_individual_leverage r) p (_signal r) (_portfolio_leverage r)
            ps (_portfolio_signal r) (_pnl r) self), c3, p.
  split.
  { unfold Backtest.calculate_trading_PnL. unfold mbind at 1, Backtest.B_bind.
    rewrite (positions_and_pnl_steps sqrtQ freq_bins a s self br masked tc pnl_cols _ _ c1
               pnl0 _ op pl p _ c3 ps _ Hm Htc Hcols Hsig' Hpnl0 Hset Hcomb' Hpl Hvp'
               Hps Hscale').
    apply statistics_and_indices_fails. exact Hno3. }
  split.
  { eapply defaults_filled_trans.
    - pose proof (fills_vol_target_signals sqrtQ freq_bins
        (calculate_returns (fillna_ffill a)) (fillna_ffill masked) br) as HF.
      rewrite Hsig' in HF. exact HF.
    - pose proof (fills_vol_target_portfolio sqrtQ freq_bins op pl c1) as HF.
      rewrite Hvp' in HF. exact HF. }
  repeat split; try exact Hport; try exact Hlabel; unfold after_positions;
    repeat (rewrite lookup_insert_eq || rewrite lookup_insert_ne by discriminate);
    try reflexivity; destruct (_individual_leverage r);
    repeat (rewrite lookup_insert_eq || rewrite lookup_insert_ne by discriminate);
    reflexivity.
Qed.

End AnnFactor.

Lemma run_two_with_ann :
  calculate_trading_PnL sqrt_approx offset_aliases prices_two signal_two
    (<["ann_factor" := VInt 252]> br_no_ann) = (inr result_two, br_mean).
Proof. compute_done. Qed.

Lemma ann_factor_is_read_late_witness :
  exists self' brf p,
    Backtest.calculate_trading_PnL sqrt_approx offset_aliases prices_two signal_two
      (engine_sig, br_no_ann) = (inl (AttributeError "ann_factor"), (self', brf)) /\
    defaults_filled br_no_ann brf /\
    self' !! "_pnl" = Some (AFrame (_pnl result_two)) /\
    self' !! "_signal" = Some (AFrame (_signal result_two)) /\
    self' !! "_portfolio_leverage" = Some (AFrame (_portfolio_leverage result_two)) /\
    self' !! "_portfolio_signal" = Some (AFrame (_portfolio_signal result_two)) /\
    self' !! "_portfolio" = Some (AFrame p) /\
    columns p = ["Portfolio"] /\
    set_columns p ["Port"] = inr (_portfolio result_two) /\
    self' !! "_pnl_trades" = Some ANone /\
    self' !! "_ret_stats_pnl" = Some (AStats None) /\
    self' !! "_ret_stats_portfolio" = engine_sig !! "_ret_stats_portfolio" /\
    self' !! "_cumpnl" = engine_sig !! "_cumpnl" /\
    self' !! "_cumportfolio" = engine_sig !! "_cumportfolio".
Proof.
  exact (ann_factor_is_read_late sqrt_approx offset_aliases prices_two signal_two
           engine_sig br_no_ann (VInt 252) result_two br_mean eq_refl run_two_with_ann).
Defined.

(** After the failed run the P&L is the new one and the cumulative index the
    old one: they belong to different requests. *)
Lemma half_updated_engine :
  engine_no_ann !! "_pnl" = Some (AFrame (_pnl result_two)) /\
  engine_no_ann !! "_cumpnl" = Some (AFrame (_cumpnl result_sig)) /\
  _cumpnl result_sig <> _cumpnl result_two.
Proof. repeat split; compute_done. Qed.

(** ** Calls with the wrong arguments *)

Lemma bind_positional_error {V} (params : list (string * option V)) args e :
  bind_positional params args = inl e -> e = TypeError.
Proof.
  revert params. induction args as [|v args IH]; intros params; simpl; [discriminate|].
  destruct params as [|[n d] params]; [congruence|].
  destruct (bind_positional params args) as [e'|[bound rest]] eqn:E; simpl.
  - intros [= <-]. eapply IH, E.
  - discriminate.
Qed.

Lemma bind_keywords_error {V} (rest : list (string * option V)) kw e :
  bind_keywords rest kw = inl e -> e = TypeError.
Proof.
  revert rest. induction kw as [|[n v] kw IH]; intros rest; simpl; [discriminate|].
  case_bool_decide; [|congruence].
  destruct (bind_keywords _ kw) as [e'|[bound rest']] eqn:E; simpl.
  - intros [= <-]. eapply IH, E.
  - discriminate.
Qed.

Lemma fill_defaults_error {V} (rest : list (string * option V)) e :
  fill_defaults rest = inl e -> e = TypeError.
Proof.
  induction rest as [|[n [v|]] rest IH]; simpl; [discriminate| |congruence].
  destruct (fill_defaults rest) as [e'|bound]; simpl; [|discriminate].
  intros [= <-]. apply IH. reflexivity.
Qed.

Lemma bind_call_error {V} (params : list (string * option V)) args kw e :
  bind_call params args kw = inl e -> e = TypeError.
Proof.
  unfold bind_call.
  destruct (bind_positional params args) as [e1|[bound rest]] eqn:E1; simpl.
  { intros [= <-]. eapply bind_positional_error, E1. }
  destruct (bind_keywords rest kw) as [e2|[bound' rest']] eqn:E2; simpl.
  { intros [= <-]. eapply bind_keywords_error, E2. }
  destruct (fill_defaults rest') as [e3|d] eqn:E3; simpl; [|discriminate].
  intros [= <-]. eapply fill_defaults_error, E3.
Qed.


(** Property X16.  [Seasonality.bus_day_of_month_seasonality_from_prices]
    cannot return: it passes the object itself as first argument of a bound
    method, so the data frame lands on [month_list], which the call also
    gives by keyword.  Whatever the arguments and whatever
    [bus_day_of_month_seasonality] would compute, the call raises
    [TypeError] before that method's body runs. *)
Theorem bus_day_from_prices_never_returns R (body : list (string * pyobj) -> exn + R)
    args kw :
  invoke (Seasonality.bus_day_of_month_seasonality_from_prices R body) args kw
  = inl TypeError.
Proof.
  unfold invoke at 1, call at 1. simpl f_params.
  destruct (bind_call _ args kw) as [e|b] eqn:E.
  - apply bind_call_error in E as ->. reflexivity.
  - reflexivity.
Qed.

(** The method for monthly prices passes its arguments in order and does
    reach [monthly_seasonality], with [price_index] set. *)
Lemma monthly_from_prices_calls R (body : list (string * pyobj) -> exn + R) df :
  invoke (Seasonality.monthly_seasonality_from_prices R body) [PSelf; PFrame df] []
  = body [("self", PSelf); ("data_frame", PFrame df); ("cum", PVal (VBool true));
          ("add_average", PVal (VBool false)); ("price_index", PVal (VBool true))].
Proof. vm_compute. destruct (body _); reflexivity. Qed.

(** ** TradingModel.construct_individual_strategy *)

Section Strategy.
Variable sqrtQ : Q -> Q.
Variable freq_bins : string -> option (date -> date).
Variable summary : option RetStats -> exn + list string.
Variable construct_signal : pyfunc pyobj (M DataFrame).
Variable DUMP_CSV : string.


(** Property X18.  When the signal generator takes the four arguments and
    the backtest returns, [construct_individual_strategy] returns the
    cumulative portfolio index of the engine under a single column named
    after the basket [key] (for a request whose [calc_stats] is false), and
    the engine it returns holds that same relabelled frame: the label
    ['Port'] is gone from [get_cumportfolio] as well, because the method
    renames the engine's frame in place.  The cumulative P&L is written to
    [DUMP_CSV + key + '.csv'] exactly when [write_csv] is true. *)
Theorem strategy_labelled_by_key spot_df spot_df2 asset_df tech_params key br
    sig signal_df br1 r br2 w c :
  call construct_signal [PSelf; spot_df; spot_df2; tech_params; PRequest] [] = inr sig ->
  sig br = (inr signal_df, br1) ->
  calculate_trading_PnL sqrtQ freq_bins asset_df signal_df br1 = (inr r, br2) ->
  br2 !! "write_csv" = Some w -> br2 !! "calc_stats" = Some c -> truthy c = false ->
  exists cp bt,
    TradingModel.construct_individual_strategy sqrtQ freq_bins summary construct_signal
      DUMP_CSV spot_df spot_df2 asset_df tech_params key br
    = (inr (TradingModel.mkStrategy cp bt
              (if truthy w then [(DUMP_CSV +:+ key +:+ ".csv", _cumpnl r)] else [])),
       br2) /\
    columns cp = [key] /\ coldata cp = coldata (_cumportfolio r) /\
    index cp = index (_cumportfolio r) /\
    Backtest.get_cumportfolio (bt, br2) = (inr (AFrame cp), (bt, br2)) /\
    Backtest.get_cumpnl (bt, br2) = (inr (AFrame (_cumpnl r)), (bt, br2)) /\
    Backtest.get_portfolio_pnl (bt, br2) = (inr (AFrame (_portfolio r)), (bt, br2)).
Proof.
  intros Hcall Hsig Hrun Hw Hc Hcf.
  destruct (object_run_steps sqrtQ freq_bins asset_df signal_df Backtest.__init__
              br1 r br2 Hrun) as (p & ps & _ & Hobj).
  pose proof Hrun as Hf. apply run_facts in Hf. simpl in Hf.
  destruct Hf as (m0 & tc0 & pc0 & b0 & q0 & op0 & pl0 & p0 & ps0 & ann0 & Hf).
  do 14 (apply proj2 in Hf). apply proj1 in Hf. rename Hf into Hcpo.
  assert (Hlen : length [key] = length (cols (_cumportfolio r))).
  { apply set_columns_columns in Hcpo. unfold columns in Hcpo.
    rewrite <- (length_fmap fst), Hcpo. reflexivity. }
  destruct (set_columns (_cumportfolio r) [key]) as [e|cp] eqn:Hcp.
  { exfalso. revert Hcp. unfold set_columns.
    rewrite bool_decide_eq_true_2 by exact Hlen. discriminate. }
  set (self' := after_statistics _ _ _ _ _ _) in Hobj.
  exists cp, (<["_cumportfolio" := AFrame cp]> self').
  assert (Hout :
    TradingModel.run_strategy sqrtQ freq_bins summary construct_signal DUMP_CSV
      spot_df spot_df2 asset_df tech_params key (Backtest.__init__, br)
    = (inr (cp, if truthy w then [(DUMP_CSV +:+ key +:+ ".csv", _cumpnl r)] else []),
       (<["_cumportfolio" := AFrame cp]> self', br2))).
  { unfold TradingModel.run_strategy.
    rewrite B_step_lift, Hcall. rewrite B_step_request, Hsig.
    unfold mbind at 1, Backtest.B_bind. rewrite Hobj.
    unfold Backtest.get_cumpnl.
    rewrite (B_step_self_get "_cumpnl" (AFrame (_cumpnl r)))
      by (subst self'; engine_lookup; reflexivity).
    rewrite B_step_getattr, Hw.
    assert (Hfiles : forall Y (k : list (string * DataFrame) -> Backtest.B Y) st,
      ((if truthy w
        then df ← Backtest.liftB (as_frame "to_csv" (AFrame (_cumpnl r)));
             mret [(DUMP_CSV +:+ key +:+ ".csv", df)]
        else mret []) ≫= k) st
      = k (if truthy w then [(DUMP_CSV +:+ key +:+ ".csv", _cumpnl r)] else []) st).
    { intros Y k st. destruct (truthy w); reflexivity. }
    rewrite Hfiles. clear Hfiles.
    unfold Backtest.get_cumportfolio.
    rewrite (B_step_self_get "_cumportfolio" (AFrame (_cumportfolio r)))
      by (subst self'; engine_lookup; reflexivity).
    rewrite B_step_getattr, Hc, Hcf. rewrite B_step_ret.
    rewrite B_step_lift. cbn [as_frame]. rewrite B_step_lift, Hcp.
    rewrite B_step_set. reflexivity. }
  split.
  { unfold TradingModel.construct_individual_strategy. rewrite Hout. reflexivity. }
  apply set_columns_columns in Hcp as Hcols.
  apply set_columns_coldata in Hcp as [Hcd Hidx].
  repeat split; auto.
  - apply self_get_lookup. apply lookup_insert_eq.
  - apply self_get_lookup. rewrite lookup_insert_ne by discriminate.
    subst self'. engine_lookup. reflexivity.
  - apply self_get_lookup. rewrite lookup_insert_ne by discriminate.
    subst self'. engine_lookup. reflexivity.
Qed.

(** Property X19.  [write_csv] and [calc_stats] are mandatory attributes of
    the request, and they are read only after the backtest has been
    computed: when the backtest returns on a request without [write_csv],
    or with [write_csv] but without [calc_stats],
    [construct_individual_strategy] raises [AttributeError] and the
    results are lost. *)
Theorem write_csv_and_calc_stats_are_mandatory spot_df spot_df2 asset_df tech_params key br
    sig signal_df br1 r br2 :
  call construct_signal [PSelf; spot_df; spot_df2; tech_params; PRequest] [] = inr sig ->
  sig br = (inr signal_df, br1) ->
  calculate_trading_PnL sqrtQ freq_bins asset_df signal_df br1 = (inr r, br2) ->
  (br2 !! "write_csv" = None ->
     TradingModel.construct_individual_strategy sqrtQ freq_bins summary construct_signal
       DUMP_CSV spot_df spot_df2 asset_df tech_params key br
     = (inl (AttributeError "write_csv"), br2)) /\
  (is_Some (br2 !! "write_csv") -> br2 !! "calc_stats" = None ->
     TradingModel.construct_individual_strategy sqrtQ freq_bins summary construct_signal
       DUMP_CSV spot_df spot_df2 asset_df tech_params key br
     = (inl (AttributeError "calc_stats"), br2)).
Proof.
  intros Hcall Hsig Hrun.
  destruct (object_run_steps sqrtQ freq_bins asset_df signal_df Backtest.__init__
              br1 r br2 Hrun) as (p & ps & _ & Hobj).
  set (self' := after_statistics _ _ _ _ _ _) in Hobj.
  assert (Hhead : forall Y (k : attr -> Backtest.B Y),
    (signal ← Backtest.liftB
       (call construct_signal [PSelf; spot_df; spot_df2; tech_params; PRequest] []);
     signal_df ← Backtest.on_request signal;
     Backtest.calculate_trading_PnL sqrtQ freq_bins asset_df signal_df;;
     cumpnl ← Backtest.get_cumpnl; k cumpnl) (Backtest.__init__, br)
    = k (AFrame (_cumpnl r)) (self', br2)).
  { intros Y k. rewrite B_step_lift, Hcall. rewrite B_step_request, Hsig.
    unfold mbind at 1, Backtest.B_bind. rewrite Hobj.
    unfold Backtest.get_cumpnl.
    rewrite (B_step_self_get "_cumpnl" (AFrame (_cumpnl r)))
      by (subst self'; engine_lookup; reflexivity).
    reflexivity. }
  split.
  - intros Hw. unfold TradingModel.construct_individual_strategy, TradingModel.run_strategy.
    rewrite Hhead. rewrite B_step_getattr, Hw. reflexivity.
  - intros [w Hw] Hc.
    unfold TradingModel.construct_individual_strategy, TradingModel.run_strategy.
    rewrite Hhead. rewrite B_step_getattr, Hw.
    assert (Hfiles : forall Y (k : list (string * DataFrame) -> Backtest.B Y) st,
      ((if truthy w
        then df ← Backtest.liftB (as_frame "to_csv" (AFrame (_cumpnl r)));
             mret [(DUMP_CSV +:+ key +:+ ".csv", df)]
        else mret []) ≫= k) st
      = k (if truthy w then [(DUMP_CSV +:+ key +:+ ".csv", _cumpnl r)] else []) st).
    { intros Y k st. destruct (truthy w); reflexivity. }
    rewrite Hfiles. clear Hfiles.
    unfold Backtest.get_cumportfolio.
    rewrite (B_step_self_get "_cumportfolio" (AFrame (_cumportfolio r)))
      by (subst self'; engine_lookup; reflexivity).
    rewrite B_step_getattr, Hc. reflexivity.
Qed.

End Strategy.


Lemma run_two_strategy :
  calculate_trading_PnL sqrt_approx offset_aliases prices_two signal_two br_strategy
  = (inr result_two, br_strategy).
Proof. compute_done. Qed.

Lemma strategy_labelled_by_key_witness :
  exists cp bt,
    TradingModel.construct_individual_strategy sqrt_approx offset_aliases summary_columns
      signal_long "dump/" (PFrame prices_two) (PFrame prices_two) prices_two
      (PObject "TechParams") "EURUSD" br_strategy
    = (inr (TradingModel.mkStrategy cp bt
              [("dump/" +:+ "EURUSD" +:+ ".csv", _cumpnl result_two)]),
       br_strategy) /\
    columns cp = ["EURUSD"] /\ coldata cp = coldata (_cumportfolio result_two) /\
    index cp = index (_cumportfolio result_two) /\
    Backtest.get_cumportfolio (bt, br_strategy) = (inr (AFrame cp), (bt, br_strategy)) /\
    Backtest.get_cumpnl (bt, br_strategy)
      = (inr (AFrame (_cumpnl result_two)), (bt, br_strategy)) /\
    Backtest.get_portfolio_pnl (bt, br_strategy)
      = (inr (AFrame (_portfolio result_two)), (bt, br_strategy)).
Proof.
  apply (strategy_labelled_by_key sqrt_approx offset_aliases summary_columns signal_long
           "dump/" (PFrame prices_two) (PFrame prices_two) prices_two
           (PObject "TechParams") "EURUSD" br_strategy (mret signal_two) signal_two
           br_strategy result_two br_strategy (VBool true) (VBool false)).
  - reflexivity.
  - reflexivity.
  - exact run_two_strategy.
  - reflexivity.
  - reflexivity.
  - reflexivity.
Defined.

Lemma write_csv_and_calc_stats_are_mandatory_witness :
  TradingModel.construct_individual_strategy sqrt_approx offset_aliases summary_columns
    signal_long "dump/" (PFrame prices_two) (PFrame prices_two) prices_two
    (PObject "TechParams") "EURUSD" br_mean
  = (inl (AttributeError "write_csv"), br_mean).
Proof.
  apply (write_csv_and_calc_stats_are_mandatory sqrt_approx offset_aliases summary_columns
           signal_long "dump/" (PFrame prices_two) (PFrame prices_two) prices_two
           (PObject "TechParams") "EURUSD" br_mean (mret signal_two) signal_two
           br_mean result_two br_mean).
  - reflexivity.
  - reflexivity.
  - exact run_two_mean.
  - reflexivity.
Defined.

(** ** Long, short and flat observations *)

Lemma fval_trichotomy v :
  isnan v = false ->
  (fgt v (Fin 0) = true /\ fgt (Fin 0) v = false /\ feqb v (Fin 0) = false) \/
  (fgt v (Fin 0) = false /\ fgt (Fin 0) v = true /\ feqb v (Fin 0) = false) \/
  (fgt v (Fin 0) = false /\ fgt (Fin 0) v = false /\ feqb v (Fin 0) = true).
Proof.
  destruct v as [| | |q]; try discriminate; intros _; simpl.
  - left. auto.
  - right. left. auto.
  - destruct (Qlt_le_dec 0 q) as [H|H]; [|destruct (Qlt_le_dec q 0) as [H'|H']].
    + left. repeat split.
      * apply negb_true_iff. destruct (Qle_bool q 0) eqn:E; auto.
        apply Qle_bool_iff in E. lra.
      * apply negb_false_iff. apply Qle_bool_iff. lra.
      * destruct (Qeq_bool q 0) eqn:E; auto. apply Qeq_bool_iff in E. lra.
    + right. left. repeat split.
      * apply negb_false_iff. apply Qle_bool_iff. lra.
      * apply negb_true_iff. destruct (Qle_bool 0 q) eqn:E; auto.
        apply Qle_bool_iff in E. lra.
      * destruct (Qeq_bool q 0) eqn:E; auto. apply Qeq_bool_iff in E. lra.
    + right. right. repeat split.
      * apply negb_false_iff. apply Qle_bool_iff. lra.
      * apply negb_false_iff. apply Qle_bool_iff. lra.
      * apply Qeq_bool_iff. lra.
Qed.

Lemma counts_partition c :
  (count_long c + count_short c + count_flat c = length (not_nan c))%nat.
Proof.
  unfold count_long, count_short, count_flat, count_where, not_nan.
  induction c as [|v c IH]; [reflexivity|].
  destruct (isnan v) eqn:En.
  - destruct v; try discriminate.
    rewrite !filter_cons_False by (simpl; congruence). exact IH.
  - rewrite (filter_cons_True (fun v => isnan v = false)) by exact En.
    destruct (fval_trichotomy v En) as [(H1 & H2 & H3)|[(H1 & H2 & H3)|(H1 & H2 & H3)]].
    + rewrite (filter_cons_True (fun v => fgt v (Fin 0) = true)) by exact H1.
      rewrite !filter_cons_False by congruence. cbn [length]. lia.
    + rewrite (filter_cons_True (fun v => fgt (Fin 0) v = true)) by exact H2.
      rewrite !filter_cons_False by congruence. cbn [length]. lia.
    + rewrite (filter_cons_True (fun v => feqb v (Fin 0) = true)) by exact H3.
      rewrite !filter_cons_False by congruence. cbn [length]. lia.
Qed.

(** Property X20.  In the table of [plot_strategy_signal_proportion] every
    observation that carries a signal is counted once: for each column the
    numbers of long, short and flat observations add up to the number of
    cells that are not NaN, and the row is labelled by the column. *)
Theorem proportions_add_up signal strip j key l s f :
  (signal_proportion signal strip).1 !! j = Some (key, (l, s, f)) ->
  exists name c,
    cols signal !! j = Some (name, c) /\
    key = match strip with Some st => str_remove st name | None => name end /\
    (l + s + f = length (not_nan c))%nat /\
    (l + s + f <= length c)%nat.
Proof.
  unfold signal_proportion. simpl. intros H.
  apply lookup_zip_with_Some in H as (k & x & [= <- Hx] & Hk & Hc).
  unfold columns in Hk. rewrite !list_lookup_fmap in Hk.
  unfold coldata in Hc. rewrite !list_lookup_fmap in Hc.
  destruct (cols signal !! j) as [[name c]|]; simpl in *; [|discriminate].
  injection Hk as <-. injection Hc as <-. injection Hx as Hl Hs Hf.
  subst l s f.
  exists name, c. split; [reflexivity|]. split; [reflexivity|].
  pose proof (counts_partition c) as Hsum. split; [exact Hsum|].
  rewrite Hsum. unfold not_nan. apply length_filter.
Qed.

Lemma proportions_add_up_witness :
  exists name c,
    cols signal_flip !! 0%nat = Some (name, c) /\
    "sA" = name /\
    (3 + 2 + 0 = length (not_nan c))%nat /\
    (3 + 2 + 0 <= length c)%nat.
Proof.
  apply (proportions_add_up signal_flip None 0 "sA" 3 2 0). reflexivity.
Defined.

(** ** Trades *)

Lemma trade_cell x y :
  fgt (fabs (fsub x y)) (Fin 0) = position_changes x y.
Proof.
  destruct x as [| | |a], y as [| | |b]; try reflexivity.
  unfold position_changes. cbn [fsub fadd fneg fabs fgt isnan negb andb feqb].
  f_equal. destruct (Qeq_bool a b) eqn:E.
  - apply Qeq_bool_iff in E. apply Qle_bool_iff.
    assert (H : (a + - b == 0)%Q) by lra. rewrite H. discriminate.
  - destruct (Qle_bool (Qabs (a + - b)) 0) eqn:E'; [|reflexivity].
    apply Qle_bool_iff in E'. pose proof (Qabs_nonneg (a + - b)) as Hn.
    assert (H0 : (Qabs (a + - b) == 0)%Q) by lra.
    assert (Hab : (a + - b == 0)%Q).
    { pose proof (Qle_Qabs (a + - b)) as H1.
      pose proof (Qle_Qabs (- (a + - b))) as H2. rewrite Qabs_opp in H2. lra. }
    assert (Heq : (a == b)%Q) by lra.
    apply Qeq_bool_iff in Heq. congruence.
Qed.

Lemma count_zip_with_changes (l1 l2 : list fval) :
  count_where (fun v => fgt v (Fin 0)) (zip_with (fun x y => fabs (fsub x y)) l1 l2)
  = length (filter (fun p => position_changes p.1 p.2 = true) (zip l1 l2)).
Proof.
  unfold count_where. revert l2.
  induction l1 as [|x l1 IH]; intros [|y l2]; try reflexivity.
  cbn [zip_with zip]. destruct (position_changes x y) eqn:E.
  - rewrite !filter_cons_True by (simpl; rewrite ?trade_cell; exact E).
    cbn [length]. f_equal. apply IH.
  - rewrite !filter_cons_False by (simpl; rewrite ?trade_cell; congruence). apply IH.
Qed.

Lemma changes_last_NaN (l1 l2 : list fval) :
  length l1 = S (length l2) ->
  filter (fun p => position_changes p.1 p.2 = true) (zip l1 (l2 ++ [NaN]))
  = filter (fun p => position_changes p.1 p.2 = true) (zip l1 l2).
Proof.
  revert l2. induction l1 as [|x l1 IH]; intros l2 H; [discriminate|].
  destruct l2 as [|y l2].
  - destruct l1; [|discriminate]. cbn [zip zip_with app].
    rewrite filter_cons_False; [reflexivity|].
    unfold position_changes. simpl. rewrite andb_false_r. discriminate.
  - cbn [zip zip_with app]. simpl in H.
    destruct (position_changes x y) eqn:E.
    + rewrite !filter_cons_True by exact E. f_equal. apply IH. lia.
    + rewrite !filter_cons_False by (simpl; congruence). apply IH. lia.
Qed.

Lemma count_trades_changes c :
  count_trades c
  = length (filter (fun p => position_changes p.1 p.2 = true) (zip c (drop 1 c))).
Proof.
  unfold count_trades. rewrite count_zip_with_changes. unfold shift. simpl.
  destruct c as [|x c]; [reflexivity|].
  cbn [drop length Nat.min replicate]. rewrite drop_0.
  rewrite changes_last_NaN by reflexivity. reflexivity.
Qed.

(** Property X21.  The number of trades that
    [plot_strategy_signal_proportion] reports for a column is the number of
    observations whose signal differs from the signal of the next
    observation, both being numbers.  The last observation has no next one
    and never counts, so a column of [T] observations has at most [T - 1]
    trades, and the size of a change plays no role. *)
Theorem trades_are_position_changes signal strip j key n :
  (signal_proportion signal strip).2 !! j = Some (key, n) ->
  exists name c,
    cols signal !! j = Some (name, c) /\
    key = match strip with Some st => str_remove st name | None => name end /\
    n = length (filter (fun p => position_changes p.1 p.2 = true) (zip c (drop 1 c))) /\
    (n <= length c - 1)%nat.
Proof.
  unfold signal_proportion. simpl. intros H.
  apply lookup_zip_with_Some in H as (k & x & [= <- Hx] & Hk & Hc).
  unfold columns in Hk. rewrite !list_lookup_fmap in Hk.
  unfold coldata in Hc. rewrite !list_lookup_fmap in Hc.
  destruct (cols signal !! j) as [[name c]|]; simpl in *; [|discriminate].
  injection Hk as <-. injection Hc as <-. subst n.
  exists name, c. split; [reflexivity|]. split; [reflexivity|].
  pose proof (count_trades_changes c) as Ht. split; [exact Ht|].
  rewrite Ht. etrans; [apply length_filter|].
  rewrite length_zip, length_drop. lia.
Qed.

Lemma trades_are_position_changes_witness :
  exists name c,
    cols signal_flip !! 0%nat = Some (name, c) /\
    "sA" = name /\
    3%nat = length (filter (fun p => position_changes p.1 p.2 = true) (zip c (drop 1 c))) /\
    (3 <= length c - 1)%nat.
Proof.
  apply (trades_are_position_changes signal_flip None 0 "sA" 3). reflexivity.
Defined.

(** ** No look-ahead *)

Lemma take_ffill_from n last c :
  take n (ffill_from last c) = ffill_from last (take n c).
Proof.
  revert n last. induction c as [|x c IH]; intros [|n] last; simpl; try reflexivity.
  f_equal. apply IH.
Qed.

Lemma take_shift k n c : 0 <= k -> take n (shift k c) = shift k (take n c).
Proof.
  intros Hk. unfold shift. destruct (0 <=? k) eqn:E; [|lia].
  rewrite take_take, length_take.
  apply list_eq. intros i.
  destruct (decide (i < n `min` length c)%nat) as [Hi|Hi].
  - rewrite !lookup_take_lt by exact Hi.
    destruct (decide (i < Z.to_nat k)%nat) as [Hik|Hik].
    + rewrite !lookup_app_l by (rewrite length_replicate; exact Hik). reflexivity.
    + rewrite !lookup_app_r by (rewrite length_replicate; lia).
      rewrite length_replicate. rewrite lookup_take_lt by lia. reflexivity.
  - rewrite !lookup_take_ge by lia. reflexivity.
Qed.

Lemma take_pct_change n c : take n (pct_change c) = pct_change (take n c).
Proof. unfold pct_change. rewrite zip_with_take, take_shift by lia. reflexivity. Qed.

Lemma take_signal_returns_col n tc p r :
  take n (signal_returns_col tc p r) = signal_returns_col tc (take n p) (take n r).
Proof.
  unfold signal_returns_col. rewrite !zip_with_take, take_shift by lia. reflexivity.
Qed.

Lemma take_mask_col n c b : take n (mask_col c b) = mask_col (take n c) (take n b).
Proof. unfold mask_col. apply zip_with_take. Qed.

Lemma take_blank_head k n c : take n (blank_head k c) = blank_head k (take n c).
Proof.
  apply list_eq. intros i.
  destruct (decide (i < n)%nat) as [Hi|Hi].
  - rewrite lookup_take_lt by exact Hi.
    destruct (decide (k <= i)%nat) as [Hk|Hk].
    + rewrite !blank_head_lookup_ge by exact Hk. rewrite lookup_take_lt by exact Hi.
      reflexivity.
    + destruct (decide (i < length c)%nat) as [Hc|Hc].
      * rewrite !blank_head_lookup_lt; auto; try lia. rewrite length_take. lia.
      * rewrite !(proj2 (lookup_ge_None _ _)); auto.
        -- rewrite blank_head_length, length_take. lia.
        -- rewrite blank_head_length. lia.
  - rewrite lookup_take_ge by lia. symmetry. apply lookup_ge_None.
    rewrite blank_head_length, length_take. lia.
Qed.

Lemma take_rolling_std_col sqrtQ p n c :
  take n (rolling_std_col sqrtQ p c) = rolling_std_col sqrtQ p (take n c).
Proof.
  unfold rolling_std_col. rewrite <- fmap_take, take_seq, length_take.
  apply list_fmap_ext. intros i t Ht. apply lookup_seq in Ht as [-> Hlt]. simpl.
  unfold window. case_bool_decide as Hp; [|reflexivity].
  rewrite skipn_firstn_comm, take_take.
  replace (p `min` (n - (S i - p)))%nat with p by lia. reflexivity.
Qed.

Lemma take_raw_leverage_col sqrtQ p ann vt ml ps n c :
  0 <= ps ->
  take n (raw_leverage_col sqrtQ p ann vt ml ps c)
  = raw_leverage_col sqrtQ p ann vt ml ps (take n c).
Proof.
  intros Hps. unfold raw_leverage_col.
  rewrite <- !fmap_take, take_shift by exact Hps.
  rewrite <- fmap_take, take_rolling_std_col. reflexivity.
Qed.

Lemma filter_none {X} (P : X -> Prop) `{forall x, Decision (P x)} (l : list X) :
  Forall (fun x => ~ P x) l -> filter P l = [].
Proof. induction 1 as [|x l Hx _ IH]; [reflexivity|]. rewrite filter_cons_False; auto. Qed.

Section Bins.
Variable bin : date -> date.
Variable agg : list fval -> fval.

(** A prefix of the index resamples to a prefix of the result, as long as
    no bin is labelled before its own dates. *)
Lemma take_rebalanced idx c n :
  increasing idx -> Forall (fun d => d <= bin d) idx ->
  take n (reindex_col (bin_labels bin idx) idx (resample_col bin agg idx c))
  = reindex_col (bin_labels bin (take n idx)) (take n idx)
      (resample_col bin agg (take n idx) (take n c)).
Proof.
  intros Hinc Hbin. apply list_eq. intros u.
  destruct (decide (u < n)%nat) as [Hu|Hu].
  2: { rewrite lookup_take_ge by lia. symmetry. apply lookup_ge_None.
       rewrite reindex_col_length, length_take. lia. }
  rewrite lookup_take_lt by exact Hu.
  destruct (idx !! u) as [d|] eqn:Hd.
  2: { apply lookup_ge_None in Hd.
       rewrite !(proj2 (lookup_ge_None _ _)); auto.
       - rewrite reindex_col_length, length_take. lia.
       - rewrite reindex_col_length. exact Hd. }
  rewrite (rebalanced_lookup bin agg idx c u d Hd).
  rewrite (rebalanced_lookup bin agg (take n idx) (take n c) u d)
    by (rewrite lookup_take_lt; auto).
  f_equal.
  assert (Hearly : forall r d', idx !! r = Some d' -> bin d' = d -> (r <= u)%nat).
  { intros r d' Hr Hb. destruct (decide (r <= u)%nat) as [|Hn]; [assumption|]. exfalso.
    assert (d < d') by (apply (Hinc u r); auto; lia).
    rewrite Forall_forall in Hbin.
    specialize (Hbin d' (list_elem_of_lookup_2 _ _ _ Hr)). lia. }
  destruct (decide (d ∈ bin <$> idx)) as [Hin|Hin];
    destruct (decide (d ∈ bin <$> take n idx)) as [Hin'|Hin'].
  - f_equal. unfold bin_values. f_equal.
    rewrite <- (take_drop n (zip idx c)) at 1. rewrite filter_app.
    rewrite zip_with_take, (filter_none _ (drop n (zip idx c))), app_nil_r; [reflexivity|].
    apply Forall_lookup. intros i [d' v] Hi Hb. simpl in Hb.
    rewrite lookup_drop in Hi. apply lookup_zip_with_Some in Hi as (x & y & [= <- <-] & Hx & _).
    specialize (Hearly _ _ Hx Hb). lia.
  - exfalso. apply Hin'. apply list_elem_of_fmap in Hin as (d' & -> & Hd').
    apply list_elem_of_lookup in Hd' as [r Hr]. apply list_elem_of_fmap.
    exists d'. split; [reflexivity|]. apply elem_of_take. exists r. split; [exact Hr|].
    specialize (Hearly r d' Hr eq_refl). lia.
  - exfalso. apply Hin. apply list_elem_of_fmap in Hin' as (d' & -> & Hd').
    apply elem_of_take in Hd' as (i & Hi & _). apply list_elem_of_fmap.
    exists d'. split; [reflexivity|]. exact (list_elem_of_lookup_2 _ _ _ Hi).
  - reflexivity.
Qed.

Lemma take_leverage_col sqrtQ idx p ann vt ml ps n c :
  increasing idx -> Forall (fun d => d <= bin d) idx -> 0 <= ps ->
  take n (leverage_col sqrtQ idx p ann vt ml bin agg ps c)
  = leverage_col sqrtQ (take n idx) p ann vt ml bin agg ps (take n c).
Proof.
  intros Hinc Hbin Hps. rewrite !leverage_col_eq.
  rewrite take_blank_head. unfold ffill. rewrite take_ffill_from.
  rewrite take_rebalanced by assumption.
  rewrite take_raw_leverage_col by exact Hps. reflexivity.
Qed.

End Bins.

Lemma head_rows_columns n df : columns (head_rows n df) = columns df.
Proof.
  unfold columns, head_rows. simpl. rewrite <- list_fmap_compose.
  apply list_fmap_ext. intros i [name c] _. reflexivity.
Qed.

Lemma head_rows_coldata n df : coldata (head_rows n df) = take n <$> coldata df.
Proof.
  unfold coldata, head_rows. simpl. rewrite <- !list_fmap_compose.
  apply list_fmap_ext. intros i [name c] _. reflexivity.
Qed.

Lemma head_rows_cols_length n df : length (cols (head_rows n df)) = length (cols df).
Proof. unfold head_rows. simpl. apply length_fmap. Qed.

Lemma head_rows_shape n df :
  df_shape (head_rows n df) = ((n `min` length (index df))%nat, length (cols df)).
Proof.
  unfold df_shape, shape, df_values. simpl.
  rewrite length_take, head_rows_coldata. unfold coldata. rewrite !length_fmap. reflexivity.
Qed.

Lemma df_shape_eq df : df_shape df = (length (index df), length (cols df)).
Proof. unfold df_shape, shape, df_values, coldata. simpl. rewrite length_fmap. reflexivity. Qed.

Lemma head_rows_map_cols n f g df :
  (forall c, c ∈ coldata df -> take n (f c) = g (take n c)) ->
  head_rows n (map_cols f df) = map_cols g (head_rows n df).
Proof.
  intros H. unfold head_rows, map_cols. simpl. f_equal.
  rewrite <- !list_fmap_compose. apply list_fmap_ext. intros i [name c] Hi. simpl.
  f_equal. apply H. unfold coldata. apply list_elem_of_fmap. exists (name, c).
  split; [reflexivity | exact (list_elem_of_lookup_2 _ _ _ Hi)].
Qed.

Lemma head_fillna_ffill n df : fillna_ffill (head_rows n df) = head_rows n (fillna_ffill df).
Proof.
  symmetry. apply head_rows_map_cols. intros c _. apply take_ffill_from.
Qed.

Lemma head_calculate_returns n df :
  calculate_returns (head_rows n df) = head_rows n (calculate_returns df).
Proof.
  symmetry. apply head_rows_map_cols. intros c _. apply take_pct_change.
Qed.

(** Relabelling the index built from a frame works out for the first
    observations of the frame when it does for the frame: the index has a
    column for every column of the frame. *)
Lemma set_columns_mult_index n df names x :
  set_columns (create_mult_index df) names = inr x ->
  exists y, set_columns (create_mult_index (head_rows n df)) names = inr y.
Proof.
  unfold set_columns, create_mult_index, map_cols, head_rows. simpl.
  rewrite !length_fmap. case_bool_decide; [|discriminate]. eauto.
Qed.

Lemma head_df_scalar_op n f df :
  df_scalar_op f (head_rows n df) = head_rows n (df_scalar_op f df).
Proof.
  symmetry. apply head_rows_map_cols. intros c _.
  change (map f) with (fmap (M := list) f). symmetry. apply fmap_take.
Qed.

Lemma zip_with_fmap_both {X Y Z X' Y'} (g : X -> Y -> Z) (g' : X' -> Y' -> Z)
    (f1 : X' -> X) (f2 : Y' -> Y) (h : Z -> Z) (l : list X') (k : list Y') :
  (forall x y, g (f1 x) (f2 y) = h (g' x y)) ->
  zip_with g (f1 <$> l) (f2 <$> k) = h <$> zip_with g' l k.
Proof.
  intros H. revert k. induction l as [|x l IH]; intros [|y k]; simpl; try reflexivity.
  rewrite H, IH. reflexivity.
Qed.

Lemma zip_with_fmap_four {X Y Z X' Y' X2 Y2} (g : X -> Y -> Z) (g' : X2 -> Y2 -> Z)
    (f1 : X' -> X) (f2 : Y' -> Y) (f1' : X' -> X2) (f2' : Y' -> Y2) (h : Z -> Z)
    (l : list X') (k : list Y') :
  (forall x y, g (f1 x) (f2 y) = h (g' (f1' x) (f2' y))) ->
  zip_with g (f1 <$> l) (f2 <$> k) = h <$> zip_with g' (f1' <$> l) (f2' <$> k).
Proof.
  intros H. revert k. induction l as [|x l IH]; intros [|y k]; simpl; try reflexivity.
  rewrite H, IH. reflexivity.
Qed.

Lemma head_zip n (names : list string) (cs : list (list fval)) :
  zip names (take n <$> cs) = prod_map id (take n) <$> zip names cs.
Proof.
  rewrite <- (list_fmap_id names) at 1.
  apply (zip_with_fmap_both pair pair id (take n) (prod_map id (take n))).
  reflexivity.
Qed.

Lemma head_set_columns n x names y :
  set_columns x names = inr y ->
  set_columns (head_rows n x) names = inr (head_rows n y).
Proof.
  unfold set_columns. rewrite head_rows_cols_length.
  case_bool_decide; [|discriminate]. intros [= <-].
  rewrite head_rows_coldata, head_zip. reflexivity.
Qed.

Lemma head_tc_matrix n sig ret tc p :
  calculate_signal_returns_with_tc_matrix sig ret tc = inr p ->
  calculate_signal_returns_with_tc_matrix (head_rows n sig) (head_rows n ret) tc
  = inr (head_rows n p).
Proof.
  unfold calculate_signal_returns_with_tc_matrix.
  rewrite !head_rows_shape, !df_shape_eq.
  case_bool_decide as Hs; [|discriminate]. injection Hs as Hi Hc. intros [= <-].
  rewrite bool_decide_eq_true_2 by (rewrite Hi, Hc; reflexivity).
  unfold head_rows. simpl. do 2 f_equal.
  apply zip_with_fmap_both. intros [a x] [b y]. simpl.
  rewrite take_signal_returns_col. reflexivity.
Qed.

Lemma head_as_float_tc_matrix n sig ret tc p :
  as_float tc ≫= calculate_signal_returns_with_tc_matrix sig ret = inr p ->
  as_float tc ≫= calculate_signal_returns_with_tc_matrix (head_rows n sig) (head_rows n ret)
  = inr (head_rows n p).
Proof.
  destruct (as_float tc) as [e|tcf]; [discriminate|]. simpl. apply head_tc_matrix.
Qed.

Lemma head_df_mask n a s m :
  df_mask (reindex (index a) s) (np_isnan (df_values a)) = inr m ->
  df_mask (reindex (index (head_rows n a)) s) (np_isnan (df_values (head_rows n a)))
  = inr (head_rows n m).
Proof.
  unfold df_mask. rewrite !df_shape_eq. unfold shape, np_isnan, df_values, reindex. simpl.
  rewrite !length_fmap, length_take.
  case_bool_decide as Hs; [|discriminate]. injection Hs as Hc. intros [= <-].
  rewrite bool_decide_eq_true_2.
  2: { rewrite head_rows_coldata, length_fmap. unfold coldata in *.
       rewrite length_fmap in *. rewrite Hc. reflexivity. }
  rewrite head_rows_coldata. unfold head_rows. simpl. do 2 f_equal.
  rewrite <- list_fmap_compose.
  apply zip_with_fmap_four. intros [name c] b. simpl.
  unfold reindex_col. rewrite take_mask_col, fmap_take.
  change (map isnan) with (fmap (M := list) isnan). rewrite fmap_take. reflexivity.
Qed.

Lemma row_head n df t : (t < n)%nat -> row (head_rows n df) t = row df t.
Proof.
  intros Ht. unfold row. rewrite head_rows_coldata.
  induction (coldata df) as [|c cs IH]; [reflexivity|].
  rewrite fmap_cons. cbn [omap list_omap]. rewrite lookup_take_lt by exact Ht.
  fold (omap (M := list) (fun c : list fval => c !! t)). rewrite IH. reflexivity.
Qed.

Lemma head_portfolio_of n agg pnl :
  portfolio_of agg (head_rows n pnl) = head_rows n (portfolio_of agg pnl).
Proof.
  unfold portfolio_of, frame_of_series.
  change (head_rows n {| index := index pnl; cols := [("Portfolio", row_agg agg pnl)] |})
    with (mkFrame (take n (index pnl)) [("Portfolio", take n (row_agg agg pnl))]).
  change (index (head_rows n pnl)) with (take n (index pnl)).
  do 3 f_equal. unfold row_agg.
  change (index (head_rows n pnl)) with (take n (index pnl)).
  rewrite <- fmap_take, take_seq, length_take.
  apply list_fmap_ext. intros i t Ht. apply lookup_seq in Ht as [-> Hlt]. simpl.
  rewrite row_head by lia. reflexivity.
Qed.

Lemma head_ones n pnl pl :
  new_frame (np_ones (length (index pnl))) (index pnl) ["Portfolio"] = inr pl ->
  new_frame (np_ones (length (index (head_rows n pnl)))) (index (head_rows n pnl))
    ["Portfolio"] = inr (head_rows n pl).
Proof.
  unfold new_frame, np_ones, shape. simpl.
  rewrite !bool_decide_eq_true_2 by reflexivity. intros [= <-].
  unfold head_rows. simpl. rewrite take_replicate, length_take. reflexivity.
Qed.

Lemma framed_head n idx names df :
  framed idx names df -> framed (take n idx) names (head_rows n df).
Proof.
  intros (Hi & Hc & Hw). repeat split.
  - simpl. rewrite Hi. reflexivity.
  - rewrite head_rows_columns. exact Hc.
  - unfold wf_frame in *. rewrite head_rows_coldata. simpl. apply Forall_fmap.
    eapply Forall_impl; [exact Hw|]. intros c Hc'. simpl. rewrite !length_take, Hc'.
    reflexivity.
Qed.

Lemma binop_frame f idx names (A B : DataFrame) :
  framed idx names A -> wf_frame B -> index B = idx ->
  length (coldata B) = length names ->
  np_binop f (df_values A) (df_values B)
    ≫= (fun data => new_frame data (index A) (columns A))
  = inr (mkFrame idx (zip names (zip_with (zip_with f) (coldata A) (coldata B)))).
Proof.
  intros HA HB HBi HBn.
  apply framed_has_shape in HA as (HAi & HAc & HA1 & HA2 & HA3).
  rewrite (np_binop_same f (length idx) (length names)); simpl; auto.
  2: rewrite HBi; reflexivity.
  2: unfold wf_frame in HB; rewrite HBi in HB; exact HB.
  unfold new_frame, shape. simpl.
  rewrite bool_decide_eq_true_2.
  - rewrite HAi, HAc. reflexivity.
  - rewrite length_zip_with, HA2, HBn, HAi, HAc. f_equal. lia.
Qed.

Lemma head_binop_frame n f idx names (A B : DataFrame) x :
  framed idx names A -> wf_frame B -> index B = idx ->
  length (coldata B) = length names ->
  np_binop f (df_values A) (df_values B)
    ≫= (fun data => new_frame data (index A) (columns A)) = inr x ->
  np_binop f (df_values (head_rows n A)) (df_values (head_rows n B))
    ≫= (fun data => new_frame data (index (head_rows n A)) (columns (head_rows n A)))
  = inr (head_rows n x).
Proof.
  intros HA HB Hi Hl. rewrite (binop_frame f idx names A B) by assumption.
  intros [= <-].
  rewrite (binop_frame f (take n idx) names (head_rows n A) (head_rows n B)).
  - unfold head_rows at 3. simpl. do 2 f_equal.
    rewrite !head_rows_coldata, <- head_zip. f_equal.
    apply zip_with_fmap_both. intros c1 c2. symmetry. apply zip_with_take.
  - apply framed_head. exact HA.
  - apply (framed_head n idx (columns B) B). repeat split; auto.
  - simpl. rewrite Hi. reflexivity.
  - rewrite head_rows_coldata, length_fmap. exact Hl.
Qed.

Lemma portfolio_signal_frame idx names (L sig : DataFrame) :
  framed idx ["Portfolio"] L -> framed idx names sig ->
  np_binop fmul (np_repeat_T (df_values L) (length (columns sig))) (df_values sig)
    ≫= (fun data => new_frame data (index sig) (columns sig))
  = inr (mkFrame idx
           (zip names (zip_with (zip_with fmul)
                         (replicate (length names) (default [] (head (coldata L))))
                         (coldata sig)))).
Proof.
  intros HL HS.
  apply framed_has_shape in HL as (HLi & HLc & HL1 & HL2 & HL3).
  apply framed_has_shape in HS as (HSi & HSc & HS1 & HS2 & HS3).
  destruct (coldata L) as [|c [|]] eqn:EL; try discriminate.
  apply Forall_inv in HL3.
  assert (Hflat : np_flatten (df_values L) = c).
  { unfold np_flatten, df_values. simpl. rewrite EL, HL1.
    apply transpose_rows_single. auto. }
  unfold np_repeat_T. rewrite Hflat, HSc.
  rewrite (np_binop_same fmul (length idx) (length names));
    simpl; auto using length_replicate.
  2: apply Forall_replicate; auto.
  unfold new_frame, shape. simpl.
  rewrite bool_decide_eq_true_2.
  - rewrite HSi. reflexivity.
  - rewrite length_zip_with, length_replicate, HS2, HSi. f_equal. lia.
Qed.

Lemma head_portfolio_signal n idx names (L sig : DataFrame) x :
  framed idx ["Portfolio"] L -> framed idx names sig ->
  np_binop fmul (np_repeat_T (df_values L) (length (columns sig))) (df_values sig)
    ≫= (fun data => new_frame data (index sig) (columns sig)) = inr x ->
  np_binop fmul
    (np_repeat_T (df_values (head_rows n L)) (length (columns (head_rows n sig))))
    (df_values (head_rows n sig))
    ≫= (fun data => new_frame data (index (head_rows n sig)) (columns (head_rows n sig)))
  = inr (head_rows n x).
Proof.
  intros HL HS. rewrite (portfolio_signal_frame idx names L sig) by assumption.
  intros [= <-].
  rewrite (portfolio_signal_frame (take n idx) names (head_rows n L) (head_rows n sig))
    by (apply framed_head; assumption).
  unfold head_rows at 3. simpl. do 2 f_equal.
  rewrite !head_rows_coldata, <- head_zip. f_equal.
  assert (Hh : default [] (head (take n <$> coldata L))
               = take n (default [] (head (coldata L)))).
  { destruct (coldata L); simpl; [rewrite take_nil|]; reflexivity. }
  rewrite Hh, <- fmap_replicate.
  apply zip_with_fmap_both. intros c1 c2. symmetry. apply zip_with_take.
Qed.

Lemma as_freq_inr fb fr bin :
  as_freq fb fr = inr bin -> exists s, fr = VStr s /\ fb s = Some bin.
Proof.
  unfold as_freq. destruct fr; try discriminate.
  destruct (fb s) as [b|] eqn:E; [|discriminate]. intros [= <-]. eauto.
Qed.

Lemma head_leverage_factor sqrtQ fb n df vt ml vp obs fr rf rt (returns : bool) ps lev :
  increasing (index df) ->
  (forall s bin, fr = VStr s -> fb s = Some bin ->
     Forall (fun d => d <= bin d) (index df)) ->
  0 <= ps ->
  calculate_leverage_factor sqrtQ fb df vt ml vp obs fr rf rt returns ps
    = inr (Some lev) ->
  calculate_leverage_factor sqrtQ fb (head_rows n df) vt ml vp obs fr rf rt returns ps
  = inr (Some (head_rows n lev)).
Proof.
  intros Hinc Hbin Hps H.
  apply calculate_leverage_factor_inv in H
    as (p & o & ann & vtf & mlf & bin & agg & -> & Hp & Ho & Hann & Hvt & Hml & Hfr
        & Hagg & ->).
  rewrite (calculate_leverage_factor_some sqrtQ fb (head_rows n df) vt ml vp obs fr rt
             returns ps p o ann vtf mlf bin agg Hp Ho Hann Hvt Hml Hfr Hagg).
  apply as_freq_inr in Hfr as (s & -> & Hs).
  assert (Hd : (if returns then head_rows n df else calculate_returns (head_rows n df))
               = head_rows n (if returns then df else calculate_returns df)).
  { destruct returns; [reflexivity | apply head_calculate_returns]. }
  assert (Hi : index (if returns then df else calculate_returns df) = index df).
  { destruct returns; reflexivity. }
  cbv zeta. rewrite Hd. do 2 f_equal. symmetry.
  apply head_rows_map_cols. intros c _. cbn [index head_rows]. rewrite Hi.
  apply take_leverage_col; eauto.
Qed.

Lemma leverage_factor_none_inv sqrtQ fb df vt ml vp obs fr rf rt returns ps :
  calculate_leverage_factor sqrtQ fb df vt ml vp obs fr rf rt returns ps = inr None ->
  is_None rf = false.
Proof.
  unfold calculate_leverage_factor. destruct (is_None rf); [|reflexivity].
  simpl. intros H. exfalso.
  apply ebind_inr in H as (n & _ & H).
  apply ebind_inr in H as (ann & _ & H).
  apply ebind_inr in H as (vtf & _ & H).
  apply ebind_inr in H as (mlf & _ & H).
  apply ebind_inr in H as (bin & _ & H).
  destruct (resample_time_series_frequency _ _ _); discriminate.
Qed.

Lemma head_leverage_factor_opt sqrtQ fb n df vt ml vp obs fr rf rt olev :
  increasing (index df) ->
  (forall s bin, fr = VStr s -> fb s = Some bin ->
     Forall (fun d => d <= bin d) (index df)) ->
  calculate_leverage_factor sqrtQ fb df vt ml vp obs fr rf rt true 0 = inr olev ->
  calculate_leverage_factor sqrtQ fb (head_rows n df) vt ml vp obs fr rf rt true 0
  = inr (head_rows n <$> olev).
Proof.
  intros Hinc Hbin H. destruct olev as [lev|].
  - apply head_leverage_factor; auto. lia.
  - apply leverage_factor_none_inv in H.
    unfold calculate_leverage_factor. rewrite H. reflexivity.
Qed.

(** Property X23.  The leverage does not look ahead.  For a non-negative
    [period_shift], dates in increasing order and a rebalance calendar that
    labels a bin by a date not before the dates falling into it, the
    leverage that [calculate_leverage_factor] returns for the first [n]
    observations is the first [n] observations of the leverage it returns
    for all of them, whether it is given returns or prices. *)
Theorem leverage_no_look_ahead sqrtQ fb n df vt ml vp obs s bin rf rt (returns : bool)
    ps lev :
  increasing (index df) ->
  fb s = Some bin -> Forall (fun d => d <= bin d) (index df) -> 0 <= ps ->
  calculate_leverage_factor sqrtQ fb df vt ml vp obs (VStr s) rf rt returns ps
    = inr (Some lev) ->
  calculate_leverage_factor sqrtQ fb (head_rows n df) vt ml vp obs (VStr s) rf rt
    returns ps
  = inr (Some (head_rows n lev)).
Proof.
  intros Hinc Hs Hbin Hps H. apply head_leverage_factor; auto.
  intros s' bin' [= <-] Hs'. rewrite Hs in Hs'. injection Hs' as <-. exact Hbin.
Qed.

Section Follows.
Variable I : config -> Prop.

Lemma follows_bind {X Y} (R : X -> X -> Prop) (R' : Y -> Y -> Prop)
    (m m' : M X) (k k' : X -> M Y) :
  follows I R m m' -> (forall x y, R x y -> follows I R' (k x) (k' y)) ->
  follows I R' (m ≫= k) (m' ≫= k').
Proof.
  intros Hm Hk br b br2 HI H. apply M_bind_inr in H as (a & br1 & Ha & Hb).
  destruct (Hm _ _ _ HI Ha) as (HI1 & y & Hy & HR).
  destruct (Hk _ _ HR _ _ _ HI1 Hb) as (HI2 & z & Hz & HR').
  split; [exact HI2|]. exists z. split; [|exact HR'].
  unfold mbind, M_bind. rewrite Hy. exact Hz.
Qed.

Lemma follows_with {X} (R : X -> X -> Prop) (P : X -> Prop) (m m' : M X) :
  follows I R m m' -> (forall br x br1, m br = (inr x, br1) -> P x) ->
  follows I (fun x y => R x y /\ P x) m m'.
Proof.
  intros Hm HP br x br1 HI H. destruct (Hm _ _ _ HI H) as (HI1 & y & Hy & HR).
  split; [exact HI1|]. exists y. eauto.
Qed.

Lemma follows_lift {X} (R : X -> X -> Prop) (r r' : exn + X) :
  (forall x, r = inr x -> exists y, r' = inr y /\ R x y) ->
  follows I R (lift r) (lift r').
Proof.
  intros H br x br1 HI Hr. apply lift_inr in Hr as [Hr ->].
  destruct (H _ Hr) as (y & -> & HR). split; [exact HI|]. exists y. split; auto.
Qed.

Lemma follows_lift_same {X} (r : exn + X) : follows I eq (lift r) (lift r).
Proof. apply follows_lift. eauto. Qed.

Lemma follows_ret {X} (R : X -> X -> Prop) x y :
  R x y -> follows I R (mret x) (mret y).
Proof.
  intros HR br x' br1 HI H. apply mret_inr in H as [-> ->].
  split; [exact HI|]. exists y. split; [reflexivity | exact HR].
Qed.

Lemma follows_throw {X} (R : X -> X -> Prop) e (m' : M X) : follows I R (throw e) m'.
Proof. intros br x br1 _ H. discriminate. Qed.

Lemma follows_getattr name (P : pyval -> Prop) :
  (forall br v, I br -> br !! name = Some v -> P v) ->
  follows I (fun x y => y = x /\ P x) (getattr name) (getattr name).
Proof.
  intros HP br x br1 HI H. pose proof H as H'. apply getattr_inr in H' as [Hv ->].
  split; [exact HI|]. exists x. eauto.
Qed.

Lemma follows_set_default name v :
  (forall br, I br -> I (<[name := v]> br)) ->
  follows I eq (set_default name v) (set_default name v).
Proof.
  intros HI' br x br1 HI H. pose proof H as H'.
  rewrite set_default_total in H'. injection H' as <- <-.
  split; [case_bool_decide; auto|]. exists tt. split; [exact H | reflexivity].
Qed.

Lemma follows_flag_block {X} (R : X -> X -> Prop) name (on on' off off' : M X) :
  follows I R on on' -> follows I R off off' ->
  follows I R
    (has ← hasattr name;
     if (has : bool) then adj ← getattr name; if is_True adj then on else off
     else off)
    (has ← hasattr name;
     if (has : bool) then adj ← getattr name; if is_True adj then on' else off'
     else off').
Proof.
  intros Hon Hoff br x br1 HI H. rewrite flag_block in H. rewrite flag_block.
  destruct (flag_on name br); eauto.
Qed.

End Follows.

Lemma closes_bins_insert fb idx name v br :
  name ∉ ["signal_vol_rebalance_freq"; "portfolio_vol_rebalance_freq"] ->
  closes_bins fb idx br -> closes_bins fb idx (<[name := v]> br).
Proof.
  intros Hn H k s bin Hk Hl. apply (H k s bin Hk).
  rewrite lookup_insert_ne in Hl; [exact Hl|]. intros ->. contradiction.
Qed.

Lemma framed_ffill idx names df :
  framed idx names df -> framed idx names (fillna_ffill df).
Proof.
  apply framed_map_cols. intros c Hc. unfold ffill. rewrite ffill_from_length. exact Hc.
Qed.

Lemma framed_returns a :
  wf_frame a -> framed (index a) (columns a) (calculate_returns (fillna_ffill a)).
Proof.
  intros Hwf. apply framed_map_cols.
  - intros c Hc. rewrite pct_change_length. exact Hc.
  - apply framed_ffill. repeat split; auto.
Qed.

Lemma mask_columns_length a s m :
  df_mask (reindex (index a) s) (np_isnan (df_values a)) = inr m ->
  length (columns s) = length (columns a).
Proof.
  intros Hm. apply df_mask_inr in Hm as (Hs & _). rewrite reindex_shape in Hs.
  unfold shape, np_isnan, df_values in Hs. simpl in Hs. injection Hs as Hs.
  unfold columns. unfold coldata in Hs. rewrite !length_fmap in *. lia.
Qed.

Lemma framed_ones idx names pnl pl :
  framed idx names pnl ->
  new_frame (np_ones (length (index pnl))) (index pnl) ["Portfolio"] = inr pl ->
  framed idx ["Portfolio"] pl.
Proof.
  intros (Hpi & _) Hpl. apply framed_has_shape.
  apply new_frame_inr in Hpl as (Hsh & Hi & Hc & Hcd). rewrite Hpi in *.
  repeat split; auto.
  - rewrite Hi. reflexivity.
  - rewrite Hcd. reflexivity.
  - rewrite Hcd. simpl. constructor; [|constructor]. apply length_replicate.
Qed.

Ltac other_key :=
  rewrite !elem_of_cons, elem_of_nil; intros [?|[?|[]]]; discriminate.

Section NoLookAhead.
Variable sqrtQ : Q -> Q.
Variable freq_bins : string -> option (date -> date).
Variable n : nat.
Variable idx : list date.
Hypothesis Hinc : increasing idx.

Lemma follows_rebalance_freq name :
  name ∈ ["signal_vol_rebalance_freq"; "portfolio_vol_rebalance_freq"] ->
  follows (closes_bins freq_bins idx)
    (fun x y => y = x /\
       forall s bin, x = VStr s -> freq_bins s = Some bin ->
         Forall (fun d => d <= bin d) idx)
    (getattr name) (getattr name).
Proof.
  intros Hk. apply follows_getattr. intros br v HI Hv s bin -> Hb.
  exact (HI name s bin Hk Hv Hb).
Qed.

Lemma follows_attr name :
  follows (closes_bins freq_bins idx) (fun x y => y = x /\ True)
    (getattr name) (getattr name).
Proof. apply follows_getattr. auto. Qed.

Lemma follows_default name v :
  name ∉ ["signal_vol_rebalance_freq"; "portfolio_vol_rebalance_freq"] ->
  follows (closes_bins freq_bins idx) eq (set_default name v) (set_default name v).
Proof.
  intros Hn. apply follows_set_default. intros br. apply closes_bins_insert. exact Hn.
Qed.

Lemma follows_leverage_factor names ret a1 a2 a3 a4 a5 a6 a7 :
  framed idx names ret ->
  (forall s bin, a5 = VStr s -> freq_bins s = Some bin ->
     Forall (fun d => d <= bin d) idx) ->
  follows (closes_bins freq_bins idx)
    (fun o o' => o' = head_rows n <$> o /\ forall l, o = Some l -> framed idx names l)
    (lift (calculate_leverage_factor sqrtQ freq_bins ret a1 a2 a3 a4 a5 a6 a7 true 0))
    (lift (calculate_leverage_factor sqrtQ freq_bins (head_rows n ret)
             a1 a2 a3 a4 a5 a6 a7 true 0)).
Proof.
  intros Hr H5. apply follows_lift. intros o Ho. exists (head_rows n <$> o).
  pose proof Hr as (Hi & _).
  split; [apply head_leverage_factor_opt; rewrite ?Hi; auto|].
  split; [reflexivity|]. intros l ->. eapply framed_leverage_factor; eauto.
Qed.

Lemma follows_vol_target_signals names names' ret sg :
  framed idx names ret -> framed idx names' sg -> length names' = length names ->
  follows (closes_bins freq_bins idx)
    (fun x y => y = (head_rows n x.1, head_rows n <$> x.2))
    (vol_target_signals sqrtQ freq_bins ret sg)
    (vol_target_signals sqrtQ freq_bins (head_rows n ret) (head_rows n sg)).
Proof.
  intros Hr Hs HN. unfold vol_target_signals. apply follows_flag_block.
  2: apply follows_ret; reflexivity.
  eapply follows_bind; [apply follows_default; other_key|]. intros _ _ _.
  eapply follows_bind; [apply follows_default; other_key|]. intros _ _ _.
  eapply follows_bind; [apply follows_attr|]. intros a1 ? [-> _].
  eapply follows_bind; [apply follows_attr|]. intros a2 ? [-> _].
  eapply follows_bind; [apply follows_attr|]. intros a3 ? [-> _].
  eapply follows_bind; [apply follows_attr|]. intros a4 ? [-> _].
  eapply follows_bind; [apply follows_rebalance_freq; rewrite !elem_of_cons; auto|].
  intros a5 ? [-> H5].
  eapply follows_bind; [apply follows_attr|]. intros a6 ? [-> _].
  eapply follows_bind; [apply follows_attr|]. intros a7 ? [-> _].
  eapply follows_bind; [apply (follows_leverage_factor names); assumption|].
  intros o ? [-> Hl]. destruct o as [lev|]; simpl; [|apply follows_throw].
  specialize (Hl lev eq_refl). destruct Hl as (Hli & Hlc & Hlw).
  eapply follows_bind.
  { apply (follows_lift _ (fun x y => y = head_rows n x)). intros x Hx.
    exists (head_rows n x). split; [|reflexivity].
    apply (head_binop_frame n fmul idx names' sg lev); auto.
    rewrite HN, <- Hlc. unfold columns, coldata. rewrite !length_fmap. reflexivity. }
  intros sig ? ->. apply follows_ret. reflexivity.
Qed.

Lemma follows_vol_adjusted_returns names ret :
  framed idx names ret ->
  follows (closes_bins freq_bins idx)
    (fun x y => y = (head_rows n x.1, head_rows n x.2))
    (calculate_vol_adjusted_returns sqrtQ freq_bins ret true)
    (calculate_vol_adjusted_returns sqrtQ freq_bins (head_rows n ret) true).
Proof.
  intros Hr. unfold calculate_vol_adjusted_returns. cbv beta iota zeta.
  eapply follows_bind; [apply follows_default; other_key|]. intros _ _ _.
  eapply follows_bind; [apply follows_default; other_key|]. intros _ _ _.
  eapply follows_bind; [apply follows_attr|]. intros a1 ? [-> _].
  eapply follows_bind; [apply follows_attr|]. intros a2 ? [-> _].
  eapply follows_bind; [apply follows_attr|]. intros a3 ? [-> _].
  eapply follows_bind; [apply follows_attr|]. intros a4 ? [-> _].
  eapply follows_bind; [apply follows_rebalance_freq; rewrite !elem_of_cons; auto|].
  intros a5 ? [-> H5].
  eapply follows_bind; [apply follows_attr|]. intros a6 ? [-> _].
  eapply follows_bind; [apply follows_attr|]. intros a7 ? [-> _].
  eapply follows_bind; [apply (follows_leverage_factor names); assumption|].
  intros o ? [-> Hl].
  eapply follows_bind; [apply follows_attr|]. intros tc ? [-> _].
  destruct o as [lev|]; simpl; [|apply follows_throw].
  eapply follows_bind.
  { apply (follows_lift _ (fun x y => y = head_rows n x)). intros x Hx.
    exists (head_rows n x). split; [|reflexivity].
    apply head_as_float_tc_matrix. exact Hx. }
  intros p0 ? ->.
  eapply follows_bind.
  { apply (follows_lift _ (fun x y => y = head_rows n x)). intros x Hx.
    exists (head_rows n x). split; [|reflexivity].
    rewrite head_rows_columns. apply head_set_columns. exact Hx. }
  intros p ? ->. apply follows_ret. reflexivity.
Qed.

Lemma follows_vol_target_portfolio op pl :
  (forall p, op = Some p -> framed idx ["Portfolio"] p) ->
  follows (closes_bins freq_bins idx)
    (fun x y => y = (head_rows n <$> x.1, head_rows n x.2))
    (vol_target_portfolio sqrtQ freq_bins op pl)
    (vol_target_portfolio sqrtQ freq_bins (head_rows n <$> op) (head_rows n pl)).
Proof.
  intros Hop. unfold vol_target_portfolio. apply follows_flag_block.
  2: apply follows_ret; reflexivity.
  eapply follows_bind.
  { apply (follows_lift _
      (fun x y => y = head_rows n x /\ framed idx ["Portfolio"] x)).
    intros p Hp. destruct op as [p0|]; [|discriminate]. injection Hp as <-.
    exists (head_rows n p0). auto. }
  intros p ? [-> Hp].
  eapply follows_bind; [apply (follows_vol_adjusted_returns ["Portfolio"]); exact Hp|].
  intros [pa la] ? ->. apply follows_ret. reflexivity.
Qed.

Lemma follows_combine_portfolio names pnl :
  framed idx names pnl ->
  follows (closes_bins freq_bins idx)
    (fun x y => y = head_rows n <$> x /\
       forall p, x = Some p -> framed idx ["Portfolio"] p)
    (combine_portfolio pnl) (combine_portfolio (head_rows n pnl)).
Proof.
  intros Hp br x br1 HI H. rewrite combine_portfolio_eq in H. injection H as <- <-.
  split; [exact HI|]. rewrite combine_portfolio_eq.
  exists (head_rows n <$> ((fun agg => portfolio_of agg pnl) <$> combination br)).
  split; [|split; [reflexivity|]].
  - destruct (combination br); simpl; [rewrite head_portfolio_of|]; reflexivity.
  - intros p Hx. destruct (combination br) as [agg|]; [|discriminate].
    injection Hx as <-. eapply framed_portfolio_of; eauto.
Qed.

Lemma follows_scale_portfolio_signal ps N :
  follows (closes_bins freq_bins idx) (fun x y => y = head_rows n x)
    (scale_portfolio_signal ps N) (scale_portfolio_signal (head_rows n ps) N).
Proof.
  intros br x br1 HI H. rewrite scale_portfolio_signal_eq in H. injection H as <- <-.
  split; [exact HI|]. rewrite scale_portfolio_signal_eq. eexists. split; [reflexivity|].
  destruct (averaged br); [apply head_df_scalar_op | reflexivity].
Qed.

End NoLookAhead.

Section Prefix.
Variable sqrtQ : Q -> Q.
Variable freq_bins : string -> option (date -> date).
Variable n : nat.

Lemma follows_calculate_trading_PnL a s :
  wf_frame a -> increasing (index a) ->
  follows (closes_bins freq_bins (index a)) (head_of_result n)
    (calculate_trading_PnL sqrtQ freq_bins a s)
    (calculate_trading_PnL sqrtQ freq_bins (head_rows n a) s).
Proof.
  intros Hwf Hinc. unfold calculate_trading_PnL, align_left. cbv beta iota zeta.
  eapply (follows_bind _ (fun m m' =>
    m' = head_rows n m /\ framed (index a) (columns s) m /\
    length (columns s) = length (columns a))).
  { apply follows_lift. intros m Hm. exists (head_rows n m).
    split; [apply head_df_mask; exact Hm|]. split; [reflexivity|].
    split; [eapply framed_masked; eauto | eapply mask_columns_length; eauto]. }
  intros m ? (-> & Hm & HN).
  rewrite !head_fillna_ffill, !head_calculate_returns, !head_rows_columns.
  eapply follows_bind; [apply follows_attr|]. intros tc ? [-> _].
  eapply follows_bind; [apply follows_lift_same|]. intros pnl_cols ? <-.
  pose proof (framed_returns a Hwf) as Hret.
  pose proof (framed_ffill _ _ _ Hm) as Hmf.
  eapply (follows_bind _ (fun x y =>
    y = (head_rows n x.1, head_rows n <$> x.2) /\ framed (index a) (columns s) x.1)).
  { apply follows_with.
    - apply (follows_vol_target_signals sqrtQ freq_bins n (index a) Hinc
               (columns a) (columns s)); assumption.
    - intros br0 [sig il] br1 H.
      eapply framed_vol_target_signals in H as [H _]; eauto. }
  intros [sig il] ? [-> Hsig]. cbn [fst snd]. cbv beta iota.
  eapply (follows_bind _ (fun x y =>
    y = head_rows n x /\ framed (index a) (columns a) x)).
  { apply follows_lift. intros p0 Hp0. exists (head_rows n p0).
    split; [apply head_as_float_tc_matrix; exact Hp0|]. split; [reflexivity|].
    apply ebind_inr in Hp0 as (tcf & _ & Hp0). eapply framed_tc_matrix; eauto. }
  intros pnl0 ? [-> Hp0].
  eapply (follows_bind _ (fun x y =>
    y = head_rows n x /\ framed (index a) pnl_cols x)).
  { apply follows_lift. intros p Hp. exists (head_rows n p).
    split; [apply head_set_columns; exact Hp|]. split; [reflexivity|].
    eapply framed_set_columns; eauto. }
  intros pnl ? [-> Hpnl].
  eapply follows_bind; [apply (follows_combine_portfolio freq_bins n (index a) pnl_cols);
                        exact Hpnl|].
  intros op ? [-> Hop].
  eapply (follows_bind _ (fun x y =>
    y = head_rows n x /\ framed (index a) ["Portfolio"] x)).
  { apply follows_lift. intros pl Hpl. exists (head_rows n pl).
    split; [apply head_ones; exact Hpl|]. split; [reflexivity|].
    eapply framed_ones; eauto. }
  intros pl ? [-> Hpl].
  eapply (follows_bind _ (fun x y =>
    y = (head_rows n <$> x.1, head_rows n x.2) /\
    framed (index a) ["Portfolio"] x.2)).
  { apply follows_with.
    - apply (follows_vol_target_portfolio sqrtQ freq_bins n (index a) Hinc). exact Hop.
    - intros br0 [p' l'] br1 H. simpl.
      apply vol_target_portfolio_inr in H as (_ & _ & H).
      destruct (flag_on "portfolio_vol_adjust" br0).
      + destruct H as (p1 & pa & -> & _ & Hva).
        eapply framed_vol_adjusted_returns in Hva as [_ Hl]; eauto.
      + destruct H as (_ & -> & _). exact Hpl. }
  intros [p' l'] ? [-> Hl']. cbn [fst snd] in *. cbv beta iota.
  eapply follows_bind.
  { apply (follows_lift _ (fun x y => y = head_rows n x)). intros p Hp.
    destruct p' as [p0|]; [|discriminate]. injection Hp as <-.
    exists (head_rows n p0). auto. }
  intros p ? ->.
  eapply follows_bind.
  { apply (follows_lift _ (fun x y => y = head_rows n x)). intros ps Hps.
    exists (head_rows n ps). split; [|reflexivity].
    apply (head_portfolio_signal n (index a) (columns s)); assumption. }
  intros ps ? ->. rewrite head_rows_columns.
  eapply follows_bind; [apply follows_scale_portfolio_signal|]. intros ps' ? ->.
  eapply follows_bind; [apply follows_attr|]. intros ann ? [-> _].
  eapply follows_bind.
  { apply (follows_lift _ (fun x y => y = head_rows n x)). intros x Hx.
    exists (head_rows n x). split; [apply head_set_columns; exact Hx | reflexivity]. }
  intros port ? ->.
  eapply follows_bind.
  { apply (follows_lift _ (fun _ _ => True)). intros x Hx.
    destruct (set_columns_mult_index n _ _ _ Hx) as [y Hy]. eauto. }
  intros cumpnl cumpnl' _.
  eapply follows_bind.
  { apply (follows_lift _ (fun _ _ => True)). intros x Hx.
    destruct (set_columns_mult_index n _ _ _ Hx) as [y Hy]. eauto. }
  intros cumport cumport' _.
  apply follows_ret. repeat split.
Qed.

(** Property X22.  A backtest does not look ahead.  When the dates of the
    prices increase and the rebalance calendars named by the request label a
    bin by a date that is not before the dates falling into it, the run on
    the first [n] observations of the prices returns whenever the run on all
    of them does, and the P&L, the portfolio P&L, the signal, the portfolio
    signal and the two leverages it stores are the first [n] observations
    of what the full run stores: up to a date they are not changed by later
    prices or signals.  Nothing is said of the cumulative indices, which
    come from [create_mult_index]. *)
Theorem no_look_ahead a s br r br' :
  wf_frame a -> increasing (index a) -> closes_bins freq_bins (index a) br ->
  calculate_trading_PnL sqrtQ freq_bins a s br = (inr r, br') ->
  exists r',
    calculate_trading_PnL sqrtQ freq_bins (head_rows n a) s br = (inr r', br') /\
    _pnl r' = head_rows n (_pnl r) /\
    _portfolio r' = head_rows n (_portfolio r) /\
    _signal r' = head_rows n (_signal r) /\
    _portfolio_leverage r' = head_rows n (_portfolio_leverage r) /\
    _portfolio_signal r' = head_rows n (_portfolio_signal r) /\
    _individual_leverage r' = head_rows n <$> _individual_leverage r.
Proof.
  intros Hwf Hinc HI H.
  destruct (follows_calculate_trading_PnL a s Hwf Hinc br r br' HI H)
    as (_ & y & Hy & HR).
  exists y. split; [exact Hy | exact HR].
Qed.

End Prefix.

Lemma wf_prices_weeks : wf_frame prices_weeks.
Proof. repeat constructor. Qed.

Lemma increasing_prices_weeks : increasing (index prices_weeks).
Proof.
  assert (H : forall i d, index prices_weeks !! i = Some d -> d = 4 + Z.of_nat i).
  { intros i d Hi.
    do 10 (destruct i as [|i]; [injection Hi as <-; reflexivity|]). discriminate. }
  intros i j di dj Hi Hj Hlt. apply H in Hi, Hj. lia.
Qed.

Lemma closes_bins_weekly : closes_bins offset_aliases (index prices_weeks) br_weekly.
Proof.
  intros k s bin Hk Hl Hs.
  rewrite !elem_of_cons, elem_of_nil in Hk. destruct Hk as [->|[->|[]]].
  - assert (E : br_weekly !! "signal_vol_rebalance_freq" = Some (VStr "W"))
      by reflexivity.
    rewrite E in Hl. injection Hl as <-.
    assert (E' : offset_aliases "W" = Some bin_W) by reflexivity.
    rewrite E' in Hs. injection Hs as <-.
    repeat constructor; discriminate.
  - assert (E : br_weekly !! "portfolio_vol_rebalance_freq" = None) by reflexivity.
    rewrite E in Hl. discriminate.
Qed.

Lemma run_weeks :
  calculate_trading_PnL sqrt_approx offset_aliases prices_weeks signal_weeks br_weekly
  = (inr result_weeks, br_weekly_after).
Proof. compute_done. Qed.

Lemma no_look_ahead_witness :
  calculate_trading_PnL sqrt_approx offset_aliases prices_weeks signal_weeks br_weekly
  = (inr result_weeks, br_weekly_after) /\
  exists r',
    calculate_trading_PnL sqrt_approx offset_aliases (head_rows 8 prices_weeks)
      signal_weeks br_weekly = (inr r', br_weekly_after) /\
    _pnl r' = head_rows 8 (_pnl result_weeks) /\
    _portfolio r' = head_rows 8 (_portfolio result_weeks) /\
    _signal r' = head_rows 8 (_signal result_weeks) /\
    _portfolio_leverage r' = head_rows 8 (_portfolio_leverage result_weeks) /\
    _portfolio_signal r' = head_rows 8 (_portfolio_signal result_weeks) /\
    _individual_leverage r' = head_rows 8 <$> _individual_leverage result_weeks.
Proof.
  split; [exact run_weeks|].
  exact (no_look_ahead sqrt_approx offset_aliases 8 prices_weeks signal_weeks br_weekly
           result_weeks br_weekly_after wf_prices_weeks increasing_prices_weeks
           closes_bins_weekly run_weeks).
Defined.

Lemma run_leverage_weeks :
  calculate_leverage_factor sqrt_approx offset_aliases prices_weeks
    (VFloat (Fin (1 # 10))) (VFloat (Fin 5)) (VInt 2) (VInt 252)
    (VStr "W") VNone (VStr "mean") false 1
  = inr (Some leverage_weeks).
Proof. compute_done. Qed.

Lemma bin_W_closes_weeks : Forall (fun d => d <= bin_W d) (index prices_weeks).
Proof. repeat constructor; discriminate. Qed.

Lemma leverage_no_look_ahead_witness :
  calculate_leverage_factor sqrt_approx offset_aliases prices_weeks
    (VFloat (Fin (1 # 10))) (VFloat (Fin 5)) (VInt 2) (VInt 252)
    (VStr "W") VNone (VStr "mean") false 1
  = inr (Some leverage_weeks) /\
  calculate_leverage_factor sqrt_approx offset_aliases (head_rows 8 prices_weeks)
    (VFloat (Fin (1 # 10))) (VFloat (Fin 5)) (VInt 2) (VInt 252)
    (VStr "W") VNone (VStr "mean") false 1
  = inr (Some (head_rows 8 leverage_weeks)).
Proof.
  split; [exact run_leverage_weeks|].
  apply (leverage_no_look_ahead sqrt_approx offset_aliases 8 prices_weeks _ _ _ _ "W"
           bin_W).
  - exact increasing_prices_weeks.
  - reflexivity.
  - exact bin_W_closes_weeks.
  - lia.
  - exact run_leverage_weeks.
Defined.
